(** * dot-confidence: the random dot kinematogram engine

    A shallow embedding of [src/RandomDotKinematogram.tsx]: role
    assignment, aperture geometry, dot creation and update, and the
    refresh-rate calibration and trial clock of the frame loop.

    Numbers.  The definitions of the first part read a JavaScript
    [number] as a real ([R]): they are the code in exact arithmetic,
    and the general theorems about coordinates are theorems about the
    code in exact arithmetic.  The two places where the source itself
    produces or tests a non-finite value (the [-Infinity] slabs of the
    rectangular ray cast, and [Number.isFinite] on a quotient) use the
    extended numbers [xnum].  Counts are integers ([Z]).  The running
    code rounds the result of every operation to binary64: the module
    [Double] is the geometry and the dot update on binary64 numbers,
    and computes what the code returns on a concrete input.

    Randomness.  [Math.random()] reads the next draw of an oracle, a
    sequence of reals; a computation that draws is a state transformer
    over the oracle ([Rand]).  A statement "for every outcome of the
    draws" quantifies over oracles whose draws lie in [0, 1). *)

From Stdlib Require Import Floats.
From Stdlib Require Import Reals Lra Lia ZArith List String Bool.
From Stdlib Require Import Permutation Sorted.
Import ListNotations.

Local Open Scope R_scope.

(* ================================================================== *)
(** * Definitions *)
(* ================================================================== *)

(** ** Comparisons and remainder on numbers *)

Module Num.

Definition ltb (x y : R) : bool := if Rlt_dec x y then true else false.
Definition leb (x y : R) : bool := if Rle_dec x y then true else false.
Definition gtb (x y : R) : bool := ltb y x.
Definition geb (x y : R) : bool := leb y x.
Definition eqb (x y : R) : bool := if Req_dec_T x y then true else false.

(** Rounding towards zero, as the quotient of JavaScript's [%]. *)
Definition trunc (q : R) : Z :=
  if Rle_dec 0 q then Zfloor q else (- Zfloor (- q))%Z.

(** [a % b] for a non-zero divisor: the result has the sign of [a]. *)
Definition rem (a b : R) : R := a - b * IZR (trunc (a / b)).

End Num.

Infix "<?" := Num.ltb (at level 70, no associativity) : R_scope.
Infix "<=?" := Num.leb (at level 70, no associativity) : R_scope.
Infix ">?" := Num.gtb (at level 70, no associativity) : R_scope.
Infix ">=?" := Num.geb (at level 70, no associativity) : R_scope.
Infix "=?" := Num.eqb (at level 70, no associativity) : R_scope.

(** ** Extended numbers: the non-finite values the source handles *)

Inductive xnum : Type :=
| NaN
| NegInfinity
| PosInfinity
| Num (r : R).

Module X.

(** [n / d] with IEEE results for a zero divisor. *)
Definition div (n d : R) : xnum :=
  if d =? 0 then
    (if 0 <? n then PosInfinity else if n <? 0 then NegInfinity else NaN)
  else Num (n / d).

Definition isFinite (t : xnum) : bool :=
  match t with Num _ => true | _ => false end.

(** [a > b], false as soon as one side is NaN. *)
Definition gt (a b : xnum) : bool :=
  match a, b with
  | NaN, _ | _, NaN => false
  | NegInfinity, _ => false
  | _, PosInfinity => false
  | PosInfinity, _ => true
  | Num _, NegInfinity => true
  | Num x, Num y => x >? y
  end.

(** [a <= b], false as soon as one side is NaN. *)
Definition le (a b : xnum) : bool :=
  match a, b with
  | NaN, _ | _, NaN => false
  | NegInfinity, _ => true
  | _, PosInfinity => true
  | PosInfinity, _ => false
  | Num _, NegInfinity => false
  | Num x, Num y => x <=? y
  end.

(** [Math.max] and [Math.min] of two arguments; NaN is contagious. *)
Definition max (a b : xnum) : xnum :=
  match a, b with
  | NaN, _ | _, NaN => NaN
  | PosInfinity, _ | _, PosInfinity => PosInfinity
  | NegInfinity, c | c, NegInfinity => c
  | Num x, Num y => Num (Rmax x y)
  end.

Definition min (a b : xnum) : xnum :=
  match a, b with
  | NaN, _ | _, NaN => NaN
  | NegInfinity, _ | _, NegInfinity => NegInfinity
  | PosInfinity, c | c, PosInfinity => c
  | Num x, Num y => Num (Rmin x y)
  end.

(** The real a finite value stands for (0 otherwise; only read
    behind an [isFinite] guard). *)
Definition val (t : xnum) : R :=
  match t with Num r => r | _ => 0 end.

End X.

(** ** Random draws *)

Definition Oracle : Type := nat -> R.

(** Every draw of [Math.random()] lies in [0, 1). *)
Definition fair (o : Oracle) : Prop := forall n, 0 <= o n < 1.

Definition Rand (A : Type) : Type := Oracle -> A * Oracle.

Definition ret {A} (a : A) : Rand A := fun o => (a, o).

Definition bind {A B} (c : Rand A) (k : A -> Rand B) : Rand B :=
  fun o => let (a, o') := c o in k a o'.

Notation "x <- c ;; k" := (bind c (fun x => k))
  (at level 61, c at next level, right associativity).
Notation "' p <- c ;; k" := (bind c (fun x => let p := x in k))
  (at level 61, p pattern, c at next level, right associativity).

Definition drop (n : nat) (o : Oracle) : Oracle := fun i => o (n + i)%nat.

Definition Math_random : Rand R := fun o => (o 0%nat, drop 1 o).

(** [randomBetween], line 91. *)
Definition randomBetween (min max : R) : Rand R :=
  u <- Math_random ;; ret (min + u * (max - min)).

(** ** Exceptions *)

Inductive Exn : Type :=
| RangeError
| Error (message : string).

(** ** Movement roles (lines 5-6) *)

Inductive NoiseMovement : Type :=
| randomTeleport
| randomWalk
| randomDirection.

Inductive FrameMovement : Type :=
| coherent
| opposite
| noise (n : NoiseMovement).

Definition NoiseMovement_eq_dec (a b : NoiseMovement) : {a = b} + {a <> b}.
Proof. decide equality. Defined.

Definition FrameMovement_eq_dec (a b : FrameMovement) : {a = b} + {a <> b}.
Proof. decide equality. apply NoiseMovement_eq_dec. Defined.

(** ** RoleAssigner: [generateShuffledAssignments], lines 16-30 *)

(** [Array(n).fill(v)]: the constructor throws a RangeError unless the
    length is a non-negative integer.  (It also throws from 2^32 on,
    a size no dot population reaches; that bound is left out.) *)
Definition Array_fill {A} (n : Z) (v : A) : Exn + list A :=
  if (n <? 0)%Z then inl RangeError else inr (repeat v (Z.to_nat n)).

Definition Math_floor (x : R) : Z := Zfloor x.

Section RoleAssigner.

(** [shuffle] is imported from the package [@adriansteffan/reactive];
    all that is used of it is that it returns a rearrangement of its
    argument, possibly consuming random draws. *)
Variable shuffle : forall A : Type, list A -> Rand (list A).

Definition generateShuffledAssignments
    (dotCount : Z) (coherence opposite_ : R) (noiseMovement : FrameMovement)
  : Rand (Exn + list FrameMovement) :=
  let nCoherent := Math_floor (IZR dotCount * coherence) in
  let nOpposite := Math_floor (IZR dotCount * opposite_) in
  match Array_fill nCoherent coherent,
        Array_fill nOpposite opposite,
        Array_fill (dotCount - nCoherent - nOpposite)%Z noiseMovement with
  | inr cs, inr os, inr ns =>
      assignments <- shuffle _ (cs ++ os ++ ns) ;; ret (inr assignments)
  | inl e, _, _ | _, inl e, _ | _, _, inl e => ret (inl e)
  end.

End RoleAssigner.

(** Modelled from the spec: [shuffle] of [@adriansteffan/reactive] is
    not part of the sources; the specification asks for a
    Fisher-Yates-class shuffle.  Each round draws an index among the
    remaining elements, emits that element and removes it. *)
Fixpoint removeAt {A} (j : nat) (l : list A) : list A :=
  match l, j with
  | [], _ => []
  | _ :: t, O => t
  | h :: t, S j' => h :: removeAt j' t
  end.

Fixpoint fisherYates_rounds {A} (rounds : nat) (l : list A) : Rand (list A) :=
  match rounds, l with
  | O, _ | _, [] => ret l
  | S rounds', d :: _ =>
      u <- Math_random ;;
      let j := Z.to_nat (Math_floor (u * INR (List.length l))) in
      rest <- fisherYates_rounds rounds' (removeAt j l) ;;
      ret (nth j l d :: rest)
  end.

Definition fisherYates (A : Type) (l : list A) : Rand (list A) :=
  fisherYates_rounds (List.length l) l.

(** An oracle whose every draw is one half. *)
Definition halves : Oracle := fun _ => 1 / 2.

(** ** Dots (lines 32-39) *)

Module Dot.

Record t : Type := mk {
  x : R;
  y : R;
  randomDirX : R;
  randomDirY : R;
  lifeCount : R;
  assignedMovement : FrameMovement
}.

Definition with_position (d : t) (p : R * R) : t :=
  mk (fst p) (snd p) (randomDirX d) (randomDirY d) (lifeCount d)
     (assignedMovement d).

Definition with_lifeCount (d : t) (life : R) : t :=
  mk (x d) (y d) (randomDirX d) (randomDirY d) life (assignedMovement d).

Definition with_assignedMovement (d : t) (m : FrameMovement) : t :=
  mk (x d) (y d) (randomDirX d) (randomDirY d) (lifeCount d) m.

Definition with_randomDir (d : t) (dir : R * R) : t :=
  mk (x d) (y d) (fst dir) (snd dir) (lifeCount d) (assignedMovement d).

End Dot.

(** ** ApertureGeometry (lines 41-51 and 93-297) *)

Inductive ApertureShape : Type := circle | ellipse | square | rectangle.

(** The geometric methods of the [Aperture] interface; [clip] and
    [drawBorder] only paint and are left out. *)
Record Aperture : Type := {
  centerX : R;
  centerY : R;
  getRandomPosition : Rand (R * R);
  isOutside : R -> R -> R -> bool;
  getOppositePosition : Dot.t -> option R -> option R -> R * R;
  getOppositePositionSimple : Dot.t -> R * R;
  wrap : R -> R -> R * R
}.

Section Geometry.

Variables horizontalAxis verticalAxis centerX centerY : R.

(** Toroidal wrap on the bounding box, lines 104-110. *)
Definition wrapOnBounds (x y : R) : R * R :=
  let w := horizontalAxis * 2 in
  let h := verticalAxis * 2 in
  let left := centerX - horizontalAxis in
  let top := centerY - verticalAxis in
  (Num.rem (Num.rem (x - left) w + w) w + left,
   Num.rem (Num.rem (y - top) h + h) h + top).

(** *** Circle and ellipse, lines 112-202 *)

Definition ell_getRandomPosition : Rand (R * R) :=
  phi <- randomBetween (- PI) PI ;;
  u <- Math_random ;;
  let rho := sqrt u in
  ret (cos phi * rho * horizontalAxis + centerX,
       sin phi * rho * verticalAxis + centerY).

Definition ell_isOutside (x y margin : R) : bool :=
  let effH := horizontalAxis + margin in
  let effV := verticalAxis + margin in
  let dx := (x - centerX) / effH in
  let dy := (y - centerY) / effV in
  dx * dx + dy * dy >? 1.

Definition ell_getOppositePositionSimple (dot : Dot.t) : R * R :=
  let mirroredX := 2 * centerX - Dot.x dot in
  let mirroredY := 2 * centerY - Dot.y dot in
  let mx := (mirroredX - centerX) / horizontalAxis in
  let my := (mirroredY - centerY) / verticalAxis in
  let dist := sqrt (mx * mx + my * my) in
  if dist >? 1 then
    (centerX + (mx / dist) * horizontalAxis,
     centerY + (my / dist) * verticalAxis)
  else (mirroredX, mirroredY).

(** The guarded part of [getOppositePosition], lines 133-164: the
    far intersection of the backward ray with the ellipse, or [None]
    when one of the guards sends control to the fallback. *)
Definition ell_rayCast (dot : Dot.t) (dirX dirY : option R)
  : option (R * R) :=
  match dirX, dirY with
  | Some dirX, Some dirY =>
      let dirMagSq := dirX * dirX + dirY * dirY in
      if dirMagSq >? 1e-10 then
        let mag := sqrt dirMagSq in
        let dx := dirX / mag in
        let dy := dirY / mag in
        let xRel := Dot.x dot - centerX in
        let yRel := Dot.y dot - centerY in
        let a2 := horizontalAxis * horizontalAxis in
        let b2 := verticalAxis * verticalAxis in
        let A := (dx * dx) / a2 + (dy * dy) / b2 in
        let B := (xRel * dx) / a2 + (yRel * dy) / b2 in
        let C := (xRel * xRel) / a2 + (yRel * yRel) / b2 - 1 in
        let discriminant := B * B - A * C in
        if discriminant >=? 0 then
          let t := X.div (B + sqrt discriminant) A in
          if X.gt t (Num 0) && X.isFinite t then
            Some (Dot.x dot - dx * X.val t, Dot.y dot - dy * X.val t)
          else None
        else None
      else None
  | _, _ => None
  end.

Definition ell_getOppositePosition (dot : Dot.t) (dirX dirY : option R)
  : R * R :=
  match ell_rayCast dot dirX dirY with
  | Some p => p
  | None => ell_getOppositePositionSimple dot
  end.

(** *** Rectangle and square, lines 204-296 *)

Definition rect_getRandomPosition : Rand (R * R) :=
  px <- randomBetween (centerX - horizontalAxis) (centerX + horizontalAxis) ;;
  py <- randomBetween (centerY - verticalAxis) (centerY + verticalAxis) ;;
  ret (px, py).

Definition rect_isOutside (x y margin : R) : bool :=
  let effH := horizontalAxis + margin in
  let effV := verticalAxis + margin in
  (x <? centerX - effH) || (x >? centerX + effH)
  || (y <? centerY - effV) || (y >? centerY + effV).

Definition rect_getOppositePositionSimple (dot : Dot.t) : R * R :=
  let left := centerX - horizontalAxis in
  let right := centerX + horizontalAxis in
  let top := centerY - verticalAxis in
  let bottom := centerY + verticalAxis in
  let x := if Dot.x dot <? left then right
           else if Dot.x dot >? right then left
           else Dot.x dot in
  let y := if Dot.y dot <? top then bottom
           else if Dot.y dot >? bottom then top
           else Dot.y dot in
  (x, y).

(** The slab method of [getOppositePosition], lines 221-253, or
    [None] when control reaches one of the fallbacks. *)
Definition rect_rayCast (dot : Dot.t) (dirX dirY : option R)
  : option (R * R) :=
  match dirX, dirY with
  | Some dirX, Some dirY =>
      let mag := sqrt (dirX * dirX + dirY * dirY) in
      if mag <? 1e-10 then None
      else
        let dx := - dirX / mag in
        let dy := - dirY / mag in
        let left := centerX - horizontalAxis in
        let right := centerX + horizontalAxis in
        let top := centerY - verticalAxis in
        let bottom := centerY + verticalAxis in
        let tx1 := if dx =? 0 then NegInfinity
                   else Num ((left - Dot.x dot) / dx) in
        let tx2 := if dx =? 0 then NegInfinity
                   else Num ((right - Dot.x dot) / dx) in
        let ty1 := if dy =? 0 then NegInfinity
                   else Num ((top - Dot.y dot) / dy) in
        let ty2 := if dy =? 0 then NegInfinity
                   else Num ((bottom - Dot.y dot) / dy) in
        let tEnter := X.max (X.min tx1 tx2) (X.min ty1 ty2) in
        let tExit := X.min (X.max tx1 tx2) (X.max ty1 ty2) in
        if X.gt tExit (Num 0) && X.le tEnter tExit && X.isFinite tExit
        then Some (Dot.x dot + dx * X.val tExit,
                   Dot.y dot + dy * X.val tExit)
        else None
  | _, _ => None
  end.

Definition rect_getOppositePosition (dot : Dot.t) (dirX dirY : option R)
  : R * R :=
  match rect_rayCast dot dirX dirY with
  | Some p => p
  | None => rect_getOppositePositionSimple dot
  end.

End Geometry.

(** Whether a shape belongs to the elliptical family (line 112). *)
Definition elliptical (shape : ApertureShape) : bool :=
  match shape with circle | ellipse => true | _ => false end.

(** The half extents of an aperture, lines 100-101. *)
Definition horizontalAxisOf (width : R) : R := width / 2.

Definition verticalAxisOf (shape : ApertureShape) (width height : R) : R :=
  match shape with
  | circle | square => horizontalAxisOf width
  | _ => height / 2
  end.

(** [createAperture], lines 93-297. *)
Definition createAperture
    (shape : ApertureShape) (width height centerX centerY : R) : Aperture :=
  let horizontalAxis := horizontalAxisOf width in
  let verticalAxis := verticalAxisOf shape width height in
  if elliptical shape then
    {| centerX := centerX;
       centerY := centerY;
       getRandomPosition :=
         ell_getRandomPosition horizontalAxis verticalAxis centerX centerY;
       isOutside := ell_isOutside horizontalAxis verticalAxis centerX centerY;
       getOppositePosition :=
         ell_getOppositePosition horizontalAxis verticalAxis centerX centerY;
       getOppositePositionSimple :=
         ell_getOppositePositionSimple
           horizontalAxis verticalAxis centerX centerY;
       wrap := wrapOnBounds horizontalAxis verticalAxis centerX centerY |}
  else
    {| centerX := centerX;
       centerY := centerY;
       getRandomPosition :=
         rect_getRandomPosition horizontalAxis verticalAxis centerX centerY;
       isOutside := rect_isOutside horizontalAxis verticalAxis centerX centerY;
       getOppositePosition :=
         rect_getOppositePosition horizontalAxis verticalAxis centerX centerY;
       getOppositePositionSimple :=
         rect_getOppositePositionSimple
           horizontalAxis verticalAxis centerX centerY;
       wrap := wrapOnBounds horizontalAxis verticalAxis centerX centerY |}.

(** ** DotState: [createDot], lines 299-317 *)

(** Truthiness of a number: every number but zero (and NaN). *)
Definition truthy (v : R) : bool := negb (v =? 0).

Definition createDot
    (assignedMovement : FrameMovement) (maxDotLife : R) (aperture : Aperture)
  : Rand Dot.t :=
  p <- getRandomPosition aperture ;;
  theta <- match assignedMovement with
           | noise randomDirection => randomBetween (- PI) PI
           | _ => ret 0
           end ;;
  life <- randomBetween 0 (if maxDotLife >? 0 then maxDotLife else 0) ;;
  ret {| Dot.x := fst p;
         Dot.y := snd p;
         Dot.randomDirX := if truthy theta then cos theta else 0;
         Dot.randomDirY := if truthy theta then - sin theta else 0;
         Dot.lifeCount := life;
         Dot.assignedMovement := assignedMovement |}.

(** ** MotionIntegrator: [updateDot], lines 319-404 *)

(** Lines 387-403: the boundary test and the reinsertion dispatch on
    the displaced dot.  [reinsertType] is the string received at run
    time. *)
Definition reinsert
    (aperture : Aperture) (reinsertType : string) (dotRadius : R)
    (moveDirX moveDirY : R) (updated : Dot.t) : Rand (Exn + Dot.t) :=
  let outOfBounds :=
    isOutside aperture (Dot.x updated) (Dot.y updated) dotRadius in
  if outOfBounds then
    if String.eqb reinsertType "random" then
      p <- getRandomPosition aperture ;;
      ret (inr (Dot.with_position updated p))
    else if String.eqb reinsertType "oppositeSimple" then
      ret (inr (Dot.with_position updated
                  (getOppositePositionSimple aperture updated)))
    else if String.eqb reinsertType "opposite" then
      ret (inr (Dot.with_position updated
                  (getOppositePosition aperture updated
                     (Some moveDirX) (Some moveDirY))))
    else if String.eqb reinsertType "wrap" then
      ret (inr (Dot.with_position updated
                  (wrap aperture (Dot.x updated) (Dot.y updated))))
    else
      ret (inl (Error ("Unknown reinsertType: " ++ reinsertType)))
  else ret (inr updated).

(** Lines 383-403: displacement along the movement direction, then the
    boundary test. *)
Definition applyMovement
    (aperture : Aperture) (reinsertType : string) (dotRadius distance : R)
    (moveDirX moveDirY : R) (updated : Dot.t) : Rand (Exn + Dot.t) :=
  reinsert aperture reinsertType dotRadius moveDirX moveDirY
    (Dot.with_position updated
       (Dot.x updated + moveDirX * distance,
        Dot.y updated + moveDirY * distance)).

(** Lines 340-352: the movement method of this tick and the dot after
    a role reassignment. *)
Definition reassign
    (dot updated : Dot.t) (reassignMovementTo : option FrameMovement)
  : Rand (FrameMovement * Dot.t) :=
  match reassignMovementTo with
  | Some method =>
      let updated := Dot.with_assignedMovement updated method in
      match method with
      | noise randomDirection =>
          theta <- randomBetween (- PI) PI ;;
          ret (method, Dot.with_randomDir updated (cos theta, - sin theta))
      | _ => ret (method, updated)
      end
  | None => ret (Dot.assignedMovement dot, updated)
  end.

(** Whether the life counter, once incremented, has reached the limit
    (line 334). *)
Definition lifeExpired (dot : Dot.t) (deltaTimeMs maxDotLife : R) : bool :=
  (maxDotLife >? 0) && (Dot.lifeCount dot + deltaTimeMs >=? maxDotLife).

Definition updateDot
    (dot : Dot.t) (distance deltaTimeMs maxDotLife : R) (aperture : Aperture)
    (reinsertType : string) (dotRadius : R) (coherentDir : R * R)
    (reassignMovementTo : option FrameMovement) : Rand (Exn + Dot.t) :=
  let updated := Dot.with_lifeCount dot (Dot.lifeCount dot + deltaTimeMs) in
  if lifeExpired dot deltaTimeMs maxDotLife then
    p <- getRandomPosition aperture ;;
    ret (inr (Dot.with_lifeCount (Dot.with_position updated p) 0))
  else
    r <- reassign dot updated reassignMovementTo ;;
    let method := fst r in
    let updated := snd r in
    let move := applyMovement aperture reinsertType dotRadius distance in
    match method with
    | coherent => move (fst coherentDir) (snd coherentDir) updated
    | opposite => move (- fst coherentDir) (- snd coherentDir) updated
    | noise randomTeleport =>
        p <- getRandomPosition aperture ;;
        ret (inr (Dot.with_position updated p))
    | noise randomWalk =>
        theta <- randomBetween (- PI) PI ;;
        move (cos theta) (- sin theta) updated
    | noise randomDirection =>
        move (Dot.randomDirX updated) (Dot.randomDirY updated) updated
    end.

(** ** RefreshCalibrator and TrialClock: [animate], lines 578-643 *)

Definition CALIBRATION_FRAME_COUNT : nat := 10.
Definition EMA_ALPHA : R := 0.1.

(** [Array.prototype.sort] with a comparator: a stable insertion sort,
    [a] staying before [b] when the comparator is not positive. *)
Fixpoint insert_by (cmp : R -> R -> R) (a : R) (l : list R) : list R :=
  match l with
  | [] => [a]
  | b :: t => if cmp a b <=? 0 then a :: b :: t else b :: insert_by cmp a t
  end.

Definition sort_by (cmp : R -> R -> R) (l : list R) : list R :=
  fold_right (insert_by cmp) [] l.

(** Lines 604-607: the median of the collected intervals. *)
Definition median (frameIntervals : list R) : R :=
  let sorted := sort_by (fun a b => a - b) frameIntervals in
  let mid := (List.length sorted / 2)%nat in
  if Nat.odd (List.length sorted) then nth mid sorted 0
  else (nth (mid - 1) sorted 0 + nth mid sorted 0) / 2.

(** The options of [RDKProps] the clock reads. *)
Record Props : Type := {
  duration : R;
  stimulusDuration : option R;
  fixationTime : R
}.

(** The mutable references of the component that the calibration and
    the clock read or write (lines 453-465).  [lastUpdateTimeRef],
    which only paces the dot updates, is not among them. *)
Record Refs : Type := {
  startTimeRef : option R;
  lastFrameTimeRef : option R;
  frameCountRef : Z;
  stimulusHiddenRef : bool;
  trialEndedRef : bool;
  frameIntervalsRef : list R;
  estimatedFrameIntervalRef : option R;
  isCalibrated : bool
}.

(** State updates requested from React. *)
Inductive Effect : Type :=
| setStimulusVisible (visible : bool)
| setTrialEnded (ended : bool).

Definition plausible (frameDelta : R) : bool :=
  (frameDelta >? 0) && (frameDelta <? 500).

(** Lines 596-615: update of the refresh-rate estimate. *)
Definition calibrate (frameDelta : R) (r : Refs) : Refs :=
  if plausible frameDelta then
    if negb (isCalibrated r) then
      let frameIntervals := frameIntervalsRef r ++ [frameDelta] in
      if (CALIBRATION_FRAME_COUNT <=? List.length frameIntervals)%nat then
        {| startTimeRef := startTimeRef r;
           lastFrameTimeRef := lastFrameTimeRef r;
           frameCountRef := frameCountRef r;
           stimulusHiddenRef := stimulusHiddenRef r;
           trialEndedRef := trialEndedRef r;
           frameIntervalsRef := frameIntervals;
           estimatedFrameIntervalRef := Some (median frameIntervals);
           isCalibrated := true |}
      else
        {| startTimeRef := startTimeRef r;
           lastFrameTimeRef := lastFrameTimeRef r;
           frameCountRef := frameCountRef r;
           stimulusHiddenRef := stimulusHiddenRef r;
           trialEndedRef := trialEndedRef r;
           frameIntervalsRef := frameIntervals;
           estimatedFrameIntervalRef := estimatedFrameIntervalRef r;
           isCalibrated := isCalibrated r |}
    else
      {| startTimeRef := startTimeRef r;
         lastFrameTimeRef := lastFrameTimeRef r;
         frameCountRef := frameCountRef r;
         stimulusHiddenRef := stimulusHiddenRef r;
         trialEndedRef := trialEndedRef r;
         frameIntervalsRef := frameIntervalsRef r;
         estimatedFrameIntervalRef :=
           Some (EMA_ALPHA * frameDelta
                 + (1 - EMA_ALPHA)
                   * match estimatedFrameIntervalRef r with
                     | Some e => e
                     | None => 0
                     end);
         isCalibrated := isCalibrated r |}
  else r.

(** Lines 584-594: the frame delta is taken against the previous frame
    (the first frame against itself), the frame is counted. *)
Definition frameDeltaOf (timestamp : R) (r : Refs) : R :=
  timestamp - match lastFrameTimeRef r with
              | Some t => t
              | None => timestamp
              end.

Definition countFrame (timestamp : R) (r : Refs) : Refs :=
  {| startTimeRef := startTimeRef r;
     lastFrameTimeRef := Some timestamp;
     frameCountRef := (frameCountRef r + 1)%Z;
     stimulusHiddenRef := stimulusHiddenRef r;
     trialEndedRef := trialEndedRef r;
     frameIntervalsRef := frameIntervalsRef r;
     estimatedFrameIntervalRef := estimatedFrameIntervalRef r;
     isCalibrated := isCalibrated r |}.

(** Lines 620-624. *)
Definition halfFrameCorrection (r : Refs) : R :=
  match estimatedFrameIntervalRef r with
  | Some e => if isCalibrated r && truthy e then e * 0.5 else 0
  | None => 0
  end.

Definition correctedElapsed (timestamp start : R) (r : Refs) : R :=
  (timestamp - start) + halfFrameCorrection r.

(** Lines 626-635: the stimulus-hide edge. *)
Definition hideStimulus (p : Props) (corrected : R) (r : Refs)
  : Refs * list Effect :=
  let effectiveStimulusDuration :=
    fixationTime p + match stimulusDuration p with
                     | Some s => s
                     | None => duration p
                     end in
  if (effectiveStimulusDuration >? 0) && negb (stimulusHiddenRef r)
     && (corrected >=? effectiveStimulusDuration)
  then
    ({| startTimeRef := startTimeRef r;
        lastFrameTimeRef := lastFrameTimeRef r;
        frameCountRef := frameCountRef r;
        stimulusHiddenRef := true;
        trialEndedRef := trialEndedRef r;
        frameIntervalsRef := frameIntervalsRef r;
        estimatedFrameIntervalRef := estimatedFrameIntervalRef r;
        isCalibrated := isCalibrated r |},
     [setStimulusVisible false])
  else (r, []).

(** Lines 637-642: the trial-end edge. *)
Definition endTrial (p : Props) (corrected : R) (r : Refs)
  : Refs * list Effect :=
  let totalDuration := fixationTime p + duration p in
  if (duration p >? 0) && negb (trialEndedRef r)
     && (corrected >=? totalDuration)
  then
    ({| startTimeRef := startTimeRef r;
        lastFrameTimeRef := lastFrameTimeRef r;
        frameCountRef := frameCountRef r;
        stimulusHiddenRef := stimulusHiddenRef r;
        trialEndedRef := true;
        frameIntervalsRef := frameIntervalsRef r;
        estimatedFrameIntervalRef := estimatedFrameIntervalRef r;
        isCalibrated := isCalibrated r |},
     [setTrialEnded true])
  else (r, []).

(** Lines 617-643. *)
Definition checkTrialTiming (p : Props) (timestamp : R) (r : Refs)
  : Refs * list Effect :=
  match startTimeRef r with
  | Some start =>
      let corrected := correctedElapsed timestamp start r in
      let (r1, hide) := hideStimulus p corrected r in
      let (r2, stop) := endTrial p corrected r1 in
      (r2, hide ++ stop)
  | None => (r, [])
  end.

(** One call of [animate] by the frame scheduler, up to line 643.
    [trialEnded] is the React state captured by the closure that runs;
    the canvas is taken to be mounted.  The rest of the callback
    updates and paints the dots and leaves these references alone. *)
Definition animate (p : Props) (trialEnded : bool) (timestamp : R) (r : Refs)
  : Refs * list Effect :=
  if trialEnded then (r, [])
  else
    let frameDelta := frameDeltaOf timestamp r in
    checkTrialTiming p timestamp
      (calibrate frameDelta (countFrame timestamp r)).

(** What happens to the references during a trial: the scheduler calls
    [animate], the effect of lines 770-779 runs (again) and stamps the
    start time, or the effect of lines 511-517 seeds the estimate from
    a stored refresh rate. *)
Inductive Step : Type :=
| Frame (trialEnded : bool) (timestamp : R)
| Start (now : R)
| Seed (refreshRate : R).

Definition setStart (now : R) (r : Refs) : Refs :=
  {| startTimeRef := Some now;
     lastFrameTimeRef := lastFrameTimeRef r;
     frameCountRef := frameCountRef r;
     stimulusHiddenRef := stimulusHiddenRef r;
     trialEndedRef := trialEndedRef r;
     frameIntervalsRef := frameIntervalsRef r;
     estimatedFrameIntervalRef := estimatedFrameIntervalRef r;
     isCalibrated := isCalibrated r |}.

Definition seedEstimate (refreshRate : R) (r : Refs) : Refs :=
  if (refreshRate >=? 20) && (refreshRate <=? 300) then
    {| startTimeRef := startTimeRef r;
       lastFrameTimeRef := lastFrameTimeRef r;
       frameCountRef := frameCountRef r;
       stimulusHiddenRef := stimulusHiddenRef r;
       trialEndedRef := trialEndedRef r;
       frameIntervalsRef := frameIntervalsRef r;
       estimatedFrameIntervalRef := Some (1000 / refreshRate);
       isCalibrated := true |}
  else r.

Definition step (p : Props) (s : Step) (r : Refs) : Refs * list Effect :=
  match s with
  | Frame trialEnded timestamp => animate p trialEnded timestamp r
  | Start now => (setStart now r, [])
  | Seed refreshRate => (seedEstimate refreshRate r, [])
  end.

(** The effects of each step of an execution, in order, and the final
    references. *)
Fixpoint run (p : Props) (steps : list Step) (r : Refs)
  : Refs * list (list Effect) :=
  match steps with
  | [] => (r, [])
  | s :: rest =>
      let (r1, effects) := step p s r in
      let (r2, later) := run p rest r1 in
      (r2, effects :: later)
  end.

(** The references when the component mounts (lines 453-465). *)
Definition mounted : Refs :=
  {| startTimeRef := None;
     lastFrameTimeRef := None;
     frameCountRef := 0;
     stimulusHiddenRef := false;
     trialEndedRef := false;
     frameIntervalsRef := [];
     estimatedFrameIntervalRef := None;
     isCalibrated := false |}.

(** Feeding a sequence of frame deltas to the calibrator. *)
Definition feed (deltas : list R) (r : Refs) : Refs :=
  fold_left (fun r d => calibrate d r) deltas r.

(** ** Statements shared by the theorems below *)

(** The contract of [generateShuffledAssignments] at one input and one
    state of the oracle: an array of [dotCount] roles comes back, with
    [floor (dotCount * coherence)] coherent entries,
    [floor (dotCount * opposite)] opposite entries and the noise role
    everywhere else. *)
Definition exactCounts
    (shuffle : forall A : Type, list A -> Rand (list A))
    (dotCount : Z) (coherence opposite_ : R) (nm : NoiseMovement)
    (o : Oracle) : Prop :=
  exists assignments : list FrameMovement,
    fst (generateShuffledAssignments shuffle dotCount coherence opposite_
           (noise nm) o) = inr assignments
    /\ Z.of_nat (List.length assignments) = dotCount
    /\ Z.of_nat (count_occ FrameMovement_eq_dec assignments coherent)
       = Math_floor (IZR dotCount * coherence)
    /\ Z.of_nat (count_occ FrameMovement_eq_dec assignments opposite)
       = Math_floor (IZR dotCount * opposite_)
    /\ Forall (fun m => m = coherent \/ m = opposite \/ m = noise nm)
         assignments.

(** A shuffle returns a rearrangement of its argument whatever the
    draws. *)
Definition rearranges (shuffle : forall A : Type, list A -> Rand (list A))
  : Prop :=
  forall (A : Type) (l : list A) (o : Oracle),
    fair o -> Permutation l (fst (shuffle A l o)).

(** Both half extents of the aperture are positive. *)
Definition positiveExtents (shape : ApertureShape) (width height : R) : Prop :=
  0 < horizontalAxisOf width /\ 0 < verticalAxisOf shape width height.

(** A point lies in the half-open bounding box
    [center - extent, center + extent) on each axis. *)
Definition inBox (shape : ApertureShape) (width height centerX centerY : R)
    (p : R * R) : Prop :=
  centerX - horizontalAxisOf width <= fst p < centerX + horizontalAxisOf width
  /\ centerY - verticalAxisOf shape width height <= snd p
     < centerY + verticalAxisOf shape width height.

(** The angle [createDot] samples for a dot of role [randomDirection]:
    the draw that follows the draws of the position. *)
Definition sampledAngle (aperture : Aperture) (o : Oracle) : R :=
  fst (randomBetween (- PI) PI (snd (getRandomPosition aperture o))).

(** An oracle with a given third draw and one half everywhere else. *)
Definition thirdDraw (u : R) : Oracle :=
  fun n => match n with 2%nat => u | _ => 1 / 2 end.

(** The reinsertion modes the dispatch of lines 390-400 knows. *)
Definition recognized (reinsertType : string) : Prop :=
  reinsertType = "random"%string \/ reinsertType = "opposite"%string
  \/ reinsertType = "oppositeSimple"%string \/ reinsertType = "wrap"%string.

(** What a tick does to a dot before any boundary test: either its
    position is about to be resampled (life expiry, line 335, or
    teleport, line 369), or it has been displaced (lines 384-385)
    along a movement direction.  In both cases the oracle is the one
    left at that point. *)
Inductive Tick : Type :=
| Resampled (updated : Dot.t) (o : Oracle)
| Displaced (moved : Dot.t) (dir : R * R) (o : Oracle).

Definition tick
    (dot : Dot.t) (distance deltaTimeMs maxDotLife : R)
    (coherentDir : R * R) (reassignMovementTo : option FrameMovement)
    (o : Oracle) : Tick :=
  let updated := Dot.with_lifeCount dot (Dot.lifeCount dot + deltaTimeMs) in
  if lifeExpired dot deltaTimeMs maxDotLife then
    Resampled (Dot.with_lifeCount updated 0) o
  else
    let (r, o1) := reassign dot updated reassignMovementTo o in
    let updated := snd r in
    let displace := fun (dir : R * R) (o2 : Oracle) =>
      Displaced (Dot.with_position updated
                   (Dot.x updated + fst dir * distance,
                    Dot.y updated + snd dir * distance))
                dir o2 in
    match fst r with
    | coherent => displace coherentDir o1
    | opposite => displace (- fst coherentDir, - snd coherentDir) o1
    | noise randomTeleport => Resampled updated o1
    | noise randomWalk =>
        let (theta, o2) := randomBetween (- PI) PI o1 in
        displace (cos theta, - sin theta) o2
    | noise randomDirection =>
        displace (Dot.randomDirX updated, Dot.randomDirY updated) o1
    end.

(** The reinsertion dispatch runs: the tick displaces the dot and the
    displaced dot fails the boundary test. *)
Definition dispatchRuns
    (dot : Dot.t) (distance deltaTimeMs maxDotLife : R) (aperture : Aperture)
    (dotRadius : R) (coherentDir : R * R)
    (reassignMovementTo : option FrameMovement) (o : Oracle) : Prop :=
  exists moved dir o',
    tick dot distance deltaTimeMs maxDotLife coherentDir
      reassignMovementTo o = Displaced moved dir o'
    /\ isOutside aperture (Dot.x moved) (Dot.y moved) dotRadius = true.

Section RayCastGuards.

Variables horizontalAxis verticalAxis centerX centerY : R.

(** The discriminant and the larger root of lines 151-158, for a
    direction [(dirX, dirY)]. *)
Definition ell_discriminant (dot : Dot.t) (dirX dirY : R) : R :=
  let mag := sqrt (dirX * dirX + dirY * dirY) in
  let dx := dirX / mag in
  let dy := dirY / mag in
  let xRel := Dot.x dot - centerX in
  let yRel := Dot.y dot - centerY in
  let a2 := horizontalAxis * horizontalAxis in
  let b2 := verticalAxis * verticalAxis in
  let A := (dx * dx) / a2 + (dy * dy) / b2 in
  let B := (xRel * dx) / a2 + (yRel * dy) / b2 in
  let C := (xRel * xRel) / a2 + (yRel * yRel) / b2 - 1 in
  B * B - A * C.

Definition ell_root (dot : Dot.t) (dirX dirY : R) : xnum :=
  let mag := sqrt (dirX * dirX + dirY * dirY) in
  let dx := dirX / mag in
  let dy := dirY / mag in
  let xRel := Dot.x dot - centerX in
  let yRel := Dot.y dot - centerY in
  let a2 := horizontalAxis * horizontalAxis in
  let b2 := verticalAxis * verticalAxis in
  let A := (dx * dx) / a2 + (dy * dy) / b2 in
  let B := (xRel * dx) / a2 + (yRel * dy) / b2 in
  X.div (B + sqrt (ell_discriminant dot dirX dirY)) A.

(** The inputs on which the elliptical ray cast gives up: a missing
    direction, a near-zero magnitude, a negative discriminant, a
    root that is not positive or not finite. *)
Definition ell_degenerate (dot : Dot.t) (dirX dirY : option R) : Prop :=
  match dirX, dirY with
  | Some ux, Some uy =>
      ux * ux + uy * uy <= 1e-10
      \/ ell_discriminant dot ux uy < 0
      \/ X.gt (ell_root dot ux uy) (Num 0) = false
      \/ X.isFinite (ell_root dot ux uy) = false
  | _, _ => True
  end.

(** The entry and exit parameters of lines 240-248. *)
Definition rect_slabs (dot : Dot.t) (dirX dirY : R) : xnum * xnum :=
  let mag := sqrt (dirX * dirX + dirY * dirY) in
  let dx := - dirX / mag in
  let dy := - dirY / mag in
  let left := centerX - horizontalAxis in
  let right := centerX + horizontalAxis in
  let top := centerY - verticalAxis in
  let bottom := centerY + verticalAxis in
  let tx1 := if dx =? 0 then NegInfinity
             else Num ((left - Dot.x dot) / dx) in
  let tx2 := if dx =? 0 then NegInfinity
             else Num ((right - Dot.x dot) / dx) in
  let ty1 := if dy =? 0 then NegInfinity
             else Num ((top - Dot.y dot) / dy) in
  let ty2 := if dy =? 0 then NegInfinity
             else Num ((bottom - Dot.y dot) / dy) in
  (X.max (X.min tx1 tx2) (X.min ty1 ty2),
   X.min (X.max tx1 tx2) (X.max ty1 ty2)).

(** The inputs on which the rectangular ray cast gives up: a missing
    direction, a near-zero magnitude, an exit parameter that is not
    positive, not finite or before the entry. *)
Definition rect_degenerate (dot : Dot.t) (dirX dirY : option R) : Prop :=
  match dirX, dirY with
  | Some ux, Some uy =>
      sqrt (ux * ux + uy * uy) < 1e-10
      \/ X.gt (snd (rect_slabs dot ux uy)) (Num 0) = false
      \/ X.le (fst (rect_slabs dot ux uy)) (snd (rect_slabs dot ux uy))
         = false
      \/ X.isFinite (snd (rect_slabs dot ux uy)) = false
  | _, _ => True
  end.

End RayCastGuards.

Definition degenerate
    (shape : ApertureShape) (width height centerX centerY : R)
    (dot : Dot.t) (dirX dirY : option R) : Prop :=
  let h := horizontalAxisOf width in
  let v := verticalAxisOf shape width height in
  if elliptical shape then ell_degenerate h v centerX centerY dot dirX dirY
  else rect_degenerate h v centerX centerY dot dirX dirY.

(** The tick ended by resampling the position: a life-expiry respawn
    or a teleport. *)
Definition respawned
    (dot : Dot.t) (distance deltaTimeMs maxDotLife : R)
    (coherentDir : R * R) (reassignMovementTo : option FrameMovement)
    (o : Oracle) : Prop :=
  exists updated o1,
    tick dot distance deltaTimeMs maxDotLife coherentDir
      reassignMovementTo o = Resampled updated o1.

(** The dot lies within the aperture expanded by [margin]. *)
Definition withinMargin (aperture : Aperture) (margin : R) (d : Dot.t)
  : Prop :=
  isOutside aperture (Dot.x d) (Dot.y d) margin = false.

(** A dot near the upper right of a circle of diameter 200 centred at
    the origin, moving right. *)
Definition cornerDot : Dot.t := Dot.mk 70 75 1 0 0 coherent.

(** The references once [samples] have been collected and the
    calibration has fired on them. *)
Definition calibratedOn (samples : list R) (r : Refs) : Refs :=
  {| startTimeRef := startTimeRef r;
     lastFrameTimeRef := lastFrameTimeRef r;
     frameCountRef := frameCountRef r;
     stimulusHiddenRef := stimulusHiddenRef r;
     trialEndedRef := trialEndedRef r;
     frameIntervalsRef := samples;
     estimatedFrameIntervalRef := Some (median samples);
     isCalibrated := true |}.

(** The references while [samples] are being collected. *)
Definition collecting (samples : list R) (r : Refs) : Refs :=
  {| startTimeRef := startTimeRef r;
     lastFrameTimeRef := lastFrameTimeRef r;
     frameCountRef := frameCountRef r;
     stimulusHiddenRef := stimulusHiddenRef r;
     trialEndedRef := trialEndedRef r;
     frameIntervalsRef := samples;
     estimatedFrameIntervalRef := estimatedFrameIntervalRef r;
     isCalibrated := isCalibrated r |}.

(** The frame deltas of the calibration scenario. *)
Definition scenarioDeltas : list R :=
  [16; 17; 16; 17; 16; 17; 16; 17; 16; 17].

(** The effects of step [k] of an execution. *)
Definition effectsAt (p : Props) (steps : list Step) (r : Refs) (k : nat)
  : list Effect :=
  nth k (snd (run p steps r)) [].

(** The trial-end edge fires at step [k]. *)
Definition firesAt (p : Props) (steps : list Step) (r : Refs) (k : nat)
  : Prop :=
  In (setTrialEnded true) (effectsAt p steps r k).

(** The references just before step [k]. *)
Fixpoint refsBefore (p : Props) (steps : list Step) (r : Refs) (k : nat)
  : Refs :=
  match k, steps with
  | S k', s :: rest => refsBefore p rest (fst (step p s r)) k'
  | _, _ => r
  end.

(** A frame at [timestamp], entered with references [r], has the
    corrected elapsed time that [animate] computes at or past
    [fixationTime + duration]: the start time is stamped, and the time
    since that stamp plus the half-frame correction (taken after this
    frame's calibration update) reaches the total. *)
Definition reached (p : Props) (timestamp : R) (r : Refs) : Prop :=
  exists start,
    startTimeRef r = Some start
    /\ fixationTime p + duration p
       <= correctedElapsed timestamp start
            (calibrate (frameDeltaOf timestamp r) (countFrame timestamp r)).

(** Step [k] is a frame that runs the clock (its closure has not seen
    the trial end) and at which the corrected elapsed time that
    [animate] computes has reached the total. *)
Definition dueAt (p : Props) (steps : list Step) (r : Refs) (k : nat)
  : Prop :=
  exists timestamp,
    nth_error steps k = Some (Frame false timestamp)
    /\ reached p timestamp (refsBefore p steps r k).

(** The trial of the latch scenario: duration 1000 ms, no fixation. *)
Definition latchProps : Props :=
  {| duration := 1000; stimulusDuration := None; fixationTime := 0 |}.

(** Frames every 600 ms from the start stamp on; each delta is a stall
    for the calibrator, which stays uncalibrated. *)
Definition latchSteps : list Step :=
  [Start 0; Frame false 0; Frame false 600; Frame false 1200;
   Frame false 1800; Frame false 2400].

(** The references of the latch scenario after the start stamp, after
    the frame at 0 ms and after the frame at 600 ms. *)
Definition latchStarted : Refs := setStart 0 mounted.
Definition latchAfter0 : Refs := countFrame 0 latchStarted.
Definition latchAfter600 : Refs := countFrame 600 latchAfter0.

(* ================================================================== *)
(** * Further definitions: the rest of the component *)
(* ================================================================== *)

(** ** Geometry: statements about reinsertion points *)

(** The quadratic form of the elliptical outside test at margin 0; the
    ellipse is where it equals 1. *)
Definition ellipseForm
    (shape : ApertureShape) (width height centerX centerY : R) (p : R * R)
  : R :=
  let h := horizontalAxisOf width in
  let v := verticalAxisOf shape width height in
  ((fst p - centerX) / h) * ((fst p - centerX) / h)
  + ((snd p - centerY) / v) * ((snd p - centerY) / v).

(** [p] lies on one of the four edge lines of the bounding box. *)
Definition onBoxEdge
    (shape : ApertureShape) (width height centerX centerY : R) (p : R * R)
  : Prop :=
  let h := horizontalAxisOf width in
  let v := verticalAxisOf shape width height in
  fst p = centerX - h \/ fst p = centerX + h
  \/ snd p = centerY - v \/ snd p = centerY + v.

(** [p] lies behind the dot on the line of its travel: the dot moved
    back by a positive multiple of the normalised direction. *)
Definition behind (dot : Dot.t) (dirX dirY : R) (p : R * R) : Prop :=
  exists t,
    0 < t
    /\ fst p = Dot.x dot - dirX / sqrt (dirX * dirX + dirY * dirY) * t
    /\ snd p = Dot.y dot - dirY / sqrt (dirX * dirX + dirY * dirY) * t.

(** A dot at a given position (the other fields do not matter to the
    geometry). *)
Definition dotAt (x y : R) : Dot.t := Dot.mk x y 0 0 0 coherent.

(** ** Dots: statements about a tick *)

(** The role a dot has after a tick that did not end its life. *)
Definition roleAfter (dot : Dot.t) (reassignMovementTo : option FrameMovement)
  : FrameMovement :=
  match reassignMovementTo with
  | Some m => m
  | None => Dot.assignedMovement dot
  end.

(** The stored direction is a unit vector. *)
Definition unitDirection (d : Dot.t) : Prop :=
  Dot.randomDirX d * Dot.randomDirX d + Dot.randomDirY d * Dot.randomDirY d
  = 1.

(** A dot of the 600 by 400 ellipse centred at (300, 200), 95 ms old,
    moving coherently. *)
Definition agedDot : Dot.t := Dot.mk 300 200 1 0 95 coherent.

(** ** The coherent direction, lines 485-489 *)

(** Unit vector of the coherent motion for a direction in degrees
    (0 = up, 90 = right, 180 = down, 270 = left; the canvas has its
    y axis pointing down). *)
Definition coherentDir (direction : R) : R * R :=
  let dirRad := ((90 - direction) * PI) / 180 in
  (cos dirRad, - sin dirRad).

(** ** The initial dot sets, lines 491-508 *)

(** Running a computation on each element in order. *)
Fixpoint mapRand {A B} (f : A -> Rand B) (l : list A) : Rand (list B) :=
  match l with
  | [] => ret []
  | a :: t => b <- f a ;; bs <- mapRand f t ;; ret (b :: bs)
  end.

(** The indices 0, ..., n-1; none for a negative [n]. *)
Definition indices (n : Z) : list Z := map Z.of_nat (seq 0 (Z.to_nat n)).

(** [Array.from({ length: n }, (_, i) => f i)]. *)
Definition Array_from {A} (n : Z) (f : Z -> Rand A) : Rand (list A) :=
  mapRand f (indices n).

(** Lines 500-503: the role of the dot at index [i]. *)
Definition initialMovement
    (nCoherent nOpposite : Z) (noiseMovement : NoiseMovement) (i : Z)
  : FrameMovement :=
  if (i <? nCoherent)%Z then coherent
  else if (i <? nCoherent + nOpposite)%Z then opposite
  else noise noiseMovement.

Definition initDotSets
    (dotSetCount dotCount : Z) (coherence opposite_ : R)
    (noiseMovement : NoiseMovement) (dotLifetime : R) (aperture : Aperture)
  : Rand (list (list Dot.t)) :=
  let nCoherent := Math_floor (IZR dotCount * coherence) in
  let nOpposite := Math_floor (IZR dotCount * opposite_) in
  Array_from dotSetCount (fun _ =>
    Array_from dotCount (fun i =>
      createDot (initialMovement nCoherent nOpposite noiseMovement i)
        dotLifetime aperture)).

(** The roles of a dot set, in order. *)
Definition rolesOf (dots : list Dot.t) : list FrameMovement :=
  map Dot.assignedMovement dots.

(** ** The dot phase of [animate], lines 584-586 and 645-716 *)

Module RDK.

(** The options of [RDKProps] that the dot phase reads, and those on
    which a canvas call can fail. *)
Record Props : Type := {
  dotCount : Z;
  dotSetCount : Z;
  direction : R;
  coherence : R;
  opposite_ : R;
  speed : R;
  dotLifetime : R;
  updateRate : option R;
  dotRadius : R;
  apertureShape : ApertureShape;
  apertureWidth : R;
  apertureHeight : R;
  apertureCenterX : R;
  apertureCenterY : R;
  reinsertMode : string;
  noiseMovement : NoiseMovement;
  reassignEveryMs : option R;
  dotCharacter : option string;
  showBorder : bool;
  borderWidth : R
}.

(** Lines 473-483: the memoised aperture. *)
Definition aperture (q : Props) : Aperture :=
  createAperture (apertureShape q) (apertureWidth q) (apertureHeight q)
    (apertureCenterX q) (apertureCenterY q).

End RDK.

(** The references of the dot phase (lines 455-457 and 491-492).  The
    index of the current set is a JavaScript number: [None] stands for
    [NaN], which [% 0] produces. *)
Record Motion : Type := {
  lastUpdateTimeRef : option R;
  timeSinceReassignRef : R;
  currentSetRef : option Z;
  dotSetsRef : list (list Dot.t)
}.

(** What can leave the callback instead of a normal return: an
    exception of [generateShuffledAssignments] or [updateDot], the
    [TypeError] of a method call on [undefined], or the
    [IndexSizeError] with which [ctx.arc] and [ctx.ellipse] reject a
    negative radius. *)
Inductive Thrown : Type :=
| Raised (e : Exn)
| TypeError
| IndexSizeError.

(** Lines 584-586 and 645: the time of the last update, which is the
    timestamp of the first call of [animate] until an update is made. *)
Definition lastUpdateTime (m : Motion) (timestamp : R) : R :=
  match lastUpdateTimeRef m with
  | Some t => t
  | None => timestamp
  end.

(** Line 646. *)
Definition updateInterval (updateRate : option R) : R :=
  match updateRate with
  | Some u => if truthy u && (u >? 0) then 1000 / u else 0
  | None => 0
  end.

(** Line 647. *)
Definition shouldUpdate (updateRate : option R) (timeSinceLastUpdate : R)
  : bool :=
  match updateRate with
  | None => true
  | Some u =>
      negb (truthy u) || (u <=? 0)
      || (timeSinceLastUpdate >=? updateInterval updateRate)
  end.

(** Lines 659-676: whether the roles are reassigned on this update, and
    the accumulator afterwards. *)
Definition reassignDue
    (reassignEveryMs : option R) (timeSinceLastUpdate : R) (r : Refs)
    (timeSinceReassign : R) : bool * R :=
  match reassignEveryMs with
  | None => (false, timeSinceReassign)
  | Some every =>
      if every =? 0 then (true, timeSinceReassign)
      else
        let accumulated := timeSinceReassign + timeSinceLastUpdate in
        let correctedTime := accumulated + halfFrameCorrection r in
        if correctedTime >=? every then (true, Num.rem accumulated every)
        else (false, accumulated)
  end.

(** [array[index]] for a JavaScript number: [undefined] out of range
    and at [NaN]. *)
Definition at_index {A} (l : list A) (index : option Z) : option A :=
  match index with
  | Some i => if (i <? 0)%Z then None else nth_error l (Z.to_nat i)
  | None => None
  end.

(** [array[i] = v] at an index within the array. *)
Fixpoint replaceAt {A} (i : nat) (v : A) (l : list A) : list A :=
  match l, i with
  | [], _ => []
  | _ :: t, O => v :: t
  | h :: t, S i' => h :: replaceAt i' v t
  end.

(** Line 700: [(current + 1) % dotSetCount]. *)
Definition nextSet (current : option Z) (dotSetCount : Z) : option Z :=
  match current with
  | Some c =>
      if (dotSetCount =? 0)%Z then None else Some (Z.rem (c + 1) dotSetCount)
  | None => None
  end.

Section DotPhase.

Variable shuffle : forall A : Type, list A -> Rand (list A).
Variable q : RDK.Props.

(** Lines 684-696: [currentSet.map((dot, i) => updateDot(...))], the
    dots in order from index [i]; the first exception ends the map. *)
Fixpoint updateDots
    (distance timeSinceLastUpdate : R)
    (reassignments : option (list FrameMovement)) (i : nat)
    (dots : list Dot.t) : Rand (Exn + list Dot.t) :=
  match dots with
  | [] => ret (inr [])
  | dot :: rest =>
      u <- updateDot dot distance timeSinceLastUpdate (RDK.dotLifetime q)
             (RDK.aperture q) (RDK.reinsertMode q) (RDK.dotRadius q)
             (coherentDir (RDK.direction q))
             (match reassignments with
              | Some assignments => nth_error assignments i
              | None => None
              end) ;;
      match u with
      | inl e => ret (inl e)
      | inr d =>
          us <- updateDots distance timeSinceLastUpdate reassignments (S i)
                  rest ;;
          match us with
          | inl e => ret (inl e)
          | inr ds => ret (inr (d :: ds))
          end
      end
  end.

(** [aperture.clip], lines 181-185 and 276-285: the elliptical family
    draws its path with [ctx.ellipse], which throws an
    [IndexSizeError] when one of the two radii is negative; the
    rectangular one with [ctx.rect], which accepts any numbers. *)
Definition clip : option Thrown :=
  let horizontalAxis := horizontalAxisOf (RDK.apertureWidth q) in
  let verticalAxis :=
    verticalAxisOf (RDK.apertureShape q) (RDK.apertureWidth q)
      (RDK.apertureHeight q) in
  if elliptical (RDK.apertureShape q)
     && ((horizontalAxis <? 0) || (verticalAxis <? 0))
  then Some IndexSizeError
  else None.

(** Line 528: a dot is drawn as a character when [dotCharacter] is a
    string that is not empty. *)
Definition drawsCharacters : bool :=
  match RDK.dotCharacter q with
  | Some character => negb (String.eqb character "")
  | None => false
  end.

(** [drawDots], lines 520-544: [forEach] is called on the current
    dots; each dot is drawn with [ctx.fillText], or with [ctx.arc] of
    radius [dotRadius], which throws an [IndexSizeError] when the
    radius is negative. *)
Definition drawDots (dots : option (list Dot.t)) : option Thrown :=
  match dots with
  | None => Some TypeError
  | Some [] => None
  | Some (_ :: _) =>
      if negb drawsCharacters && (RDK.dotRadius q <? 0)
      then Some IndexSizeError
      else None
  end.

(** [drawBorder], lines 569-575 with 186-200 and 286-295: the
    elliptical family strokes a [ctx.ellipse] whose radii are the half
    extents plus half the line width, the rectangular one a
    [ctx.strokeRect]. *)
Definition drawBorder : option Thrown :=
  let horizontalAxis := horizontalAxisOf (RDK.apertureWidth q) in
  let verticalAxis :=
    verticalAxisOf (RDK.apertureShape q) (RDK.apertureWidth q)
      (RDK.apertureHeight q) in
  if RDK.showBorder q && elliptical (RDK.apertureShape q)
     && ((horizontalAxis + RDK.borderWidth q / 2 <? 0)
         || (verticalAxis + RDK.borderWidth q / 2 <? 0))
  then Some IndexSizeError
  else None.

(** Lines 704-715: the current dots are painted inside the clipped
    aperture, then the fixation cross (rectangles, which cannot fail)
    and the border. *)
Definition paint (m : Motion) : option Thrown :=
  let currentDots := at_index (dotSetsRef m) (currentSetRef m) in
  match clip with
  | Some thrown => Some thrown
  | None =>
      match drawDots currentDots with
      | Some thrown => Some thrown
      | None => drawBorder
      end
  end.

(** Lines 678-681: the shuffled roles, if the roles are reassigned. *)
Definition drawAssignments (shouldReassign : bool)
  : Rand (Exn + option (list FrameMovement)) :=
  if shouldReassign then
    a <- generateShuffledAssignments shuffle (RDK.dotCount q)
           (RDK.coherence q) (RDK.opposite_ q)
           (noise (RDK.noiseMovement q)) ;;
    ret (match a with
         | inl e => inl e
         | inr assignments => inr (Some assignments)
         end)
  else ret (inr None).

(** Lines 683-701: the current set is updated and stored back, and
    the next set becomes current.  [currentSet.map] is a method call,
    on [undefined] when the index points at no set. *)
Definition updateCurrentSet
    (timestamp distance timeSinceLastUpdate : R)
    (reassignments : option (list FrameMovement)) (m : Motion)
  : Rand (Motion * option Thrown) :=
  match currentSetRef m with
  | None => ret (m, Some TypeError)
  | Some current =>
      match at_index (dotSetsRef m) (Some current) with
      | None => ret (m, Some TypeError)
      | Some currentSet =>
          updated <- updateDots distance timeSinceLastUpdate reassignments
                       0 currentSet ;;
          match updated with
          | inl e => ret (m, Some (Raised e))
          | inr updatedDots =>
              ret ({| lastUpdateTimeRef := Some timestamp;
                      timeSinceReassignRef := timeSinceReassignRef m;
                      currentSetRef :=
                        nextSet (Some current) (RDK.dotSetCount q);
                      dotSetsRef :=
                        replaceAt (Z.to_nat current) updatedDots
                          (dotSetsRef m) |},
                   None)
          end
      end
  end.

(** Lines 584-586, 645-647 and 652-702 of one call of [animate] that
    is not cut short by [trialEnded]: the dot-phase references
    afterwards and what was thrown, if anything.  [stimulusVisible]
    and [fixationComplete] are the React states captured by the
    closure; [r] holds the clock references after lines 591-643 of the
    same call. *)
Definition moveDots
    (stimulusVisible fixationComplete : bool) (timestamp : R) (r : Refs)
    (m : Motion) : Rand (Motion * option Thrown) :=
  let lastUpdate := lastUpdateTime m timestamp in
  let m0 := {| lastUpdateTimeRef := Some lastUpdate;
               timeSinceReassignRef := timeSinceReassignRef m;
               currentSetRef := currentSetRef m;
               dotSetsRef := dotSetsRef m |} in
  let timeSinceLastUpdate := timestamp - lastUpdate in
  if negb stimulusVisible || negb fixationComplete then ret (m0, None)
  else if shouldUpdate (RDK.updateRate q) timeSinceLastUpdate then
    let distance := (RDK.speed q * timeSinceLastUpdate) / 1000 in
    let due := reassignDue (RDK.reassignEveryMs q) timeSinceLastUpdate r
                 (timeSinceReassignRef m) in
    let m1 := {| lastUpdateTimeRef := Some lastUpdate;
                 timeSinceReassignRef := snd due;
                 currentSetRef := currentSetRef m;
                 dotSetsRef := dotSetsRef m |} in
    reassignments <- drawAssignments (fst due) ;;
    match reassignments with
    | inl e => ret (m1, Some (Raised e))
    | inr reassignments =>
        updateCurrentSet timestamp distance timeSinceLastUpdate reassignments
          m1
    end
  else ret (m0, None).

(** One step of the component: the clock part ([step]) and, for a call
    of [animate] that runs, the dot phase; the dots are painted (lines
    704-715) when the stimulus is visible, the fixation is over and
    nothing was thrown before. *)
Definition frame
    (p : Props) (stimulusVisible fixationComplete : bool) (s : Step)
    (rm : Refs * Motion) : Rand ((Refs * Motion) * option Thrown) :=
  let r1 := fst (step p s (fst rm)) in
  match s with
  | Frame false timestamp =>
      mm <- moveDots stimulusVisible fixationComplete timestamp r1 (snd rm) ;;
      ret ((r1, fst mm),
           match snd mm with
           | Some thrown => Some thrown
           | None =>
               if stimulusVisible && fixationComplete then paint (fst mm)
               else None
           end)
  | _ => ret ((r1, snd rm), None)
  end.

(** A sequence of steps, each with the React states of its closure,
    up to the first exception: a call that throws does not request the
    next frame (line 718). *)
Fixpoint play
    (p : Props) (calls : list (bool * bool * Step)) (rm : Refs * Motion)
  : Rand ((Refs * Motion) * option Thrown) :=
  match calls with
  | [] => ret (rm, None)
  | (stimulusVisible, fixationComplete, s) :: rest =>
      out <- frame p stimulusVisible fixationComplete s rm ;;
      match snd out with
      | Some thrown => ret out
      | None => play p rest (fst out)
      end
  end.

End DotPhase.

(** The dot-phase references when the component has mounted and the
    effect of lines 494-508 has built the dot sets. *)
Definition motionOf (sets : list (list Dot.t)) : Motion :=
  {| lastUpdateTimeRef := None;
     timeSinceReassignRef := 0;
     currentSetRef := Some 0%Z;
     dotSetsRef := sets |}.

(** The number of sets and the sizes of the sets are as configured and
    the current index points at a set. *)
Definition wellFormed (q : RDK.Props) (m : Motion) : Prop :=
  Z.of_nat (List.length (dotSetsRef m)) = RDK.dotSetCount q
  /\ Forall (fun dots => Z.of_nat (List.length dots) = RDK.dotCount q)
       (dotSetsRef m)
  /\ exists c, currentSetRef m = Some c
               /\ (0 <= c < RDK.dotSetCount q)%Z.

(** The timestamps of the calls of [animate] that run, in order. *)
Fixpoint timestampsOf (calls : list (bool * bool * Step)) : list R :=
  match calls with
  | [] => []
  | (_, _, Frame false timestamp) :: rest => timestamp :: timestampsOf rest
  | _ :: rest => timestampsOf rest
  end.

(** The timestamps do not decrease and none is before [t]. *)
Fixpoint ascending (t : R) (timestamps : list R) : Prop :=
  match timestamps with
  | [] => True
  | t1 :: rest => t <= t1 /\ ascending t1 rest
  end.

(** The component's defaults (lines 410-449) for the given numbers of
    dots and sets, direction, update rate and reassignment period, on
    a 600 by 400 ellipse centred at (300, 200). *)
Definition defaultsWith
    (dotCount dotSetCount : Z) (direction : R)
    (updateRate reassignEveryMs : option R) : RDK.Props :=
  {| RDK.dotCount := dotCount;
     RDK.dotSetCount := dotSetCount;
     RDK.direction := direction;
     RDK.coherence := 0.5;
     RDK.opposite_ := 0;
     RDK.speed := 60;
     RDK.dotLifetime := -1;
     RDK.updateRate := updateRate;
     RDK.dotRadius := 2;
     RDK.apertureShape := ellipse;
     RDK.apertureWidth := 600;
     RDK.apertureHeight := 400;
     RDK.apertureCenterX := 300;
     RDK.apertureCenterY := 200;
     RDK.reinsertMode := "opposite";
     RDK.noiseMovement := randomDirection;
     RDK.reassignEveryMs := reassignEveryMs;
     RDK.dotCharacter := None;
     RDK.showBorder := false;
     RDK.borderWidth := 1 |}.

(** The point a dot reaches after [elapsed] milliseconds of straight
    motion along the coherent direction at the configured speed. *)
Definition pathPoint (q : RDK.Props) (dot : Dot.t) (elapsed : R) : R * R :=
  (Dot.x dot
   + fst (coherentDir (RDK.direction q)) * (RDK.speed q * elapsed / 1000),
   Dot.y dot
   + snd (coherentDir (RDK.direction q)) * (RDK.speed q * elapsed / 1000)).

(** The dot stays within the margin on its path from [t0] to [t1]. *)
Definition pathInside (q : RDK.Props) (dot : Dot.t) (t0 t1 : R) : Prop :=
  forall t, t0 <= t <= t1 ->
    isOutside (RDK.aperture q) (fst (pathPoint q dot (t - t0)))
      (snd (pathPoint q dot (t - t0))) (RDK.dotRadius q) = false.

(** What holds of the dot at index [i] of a single set after steps
    that start with the last update at [t0]: it is still coherent, it
    has aged by the time between the updates, and it is where its
    straight path leads if that path stays within the margin. *)
Definition reckoned (q : RDK.Props) (i : nat) (dot : Dot.t) (t0 : R)
    (m' : Motion) : Prop :=
  exists t1 dots' dot',
    lastUpdateTimeRef m' = Some t1
    /\ t0 <= t1
    /\ dotSetsRef m' = [dots']
    /\ nth_error dots' i = Some dot'
    /\ Dot.assignedMovement dot' = coherent
    /\ Dot.lifeCount dot' = Dot.lifeCount dot + (t1 - t0)
    /\ (pathInside q dot t0 t1 ->
        (Dot.x dot', Dot.y dot') = pathPoint q dot (t1 - t0)).

(** The dot-phase references once a first call of [animate] at
    [timestamp] has stamped the time of the last update. *)
Definition stamped (timestamp : R) (m : Motion) : Motion :=
  {| lastUpdateTimeRef := Some (lastUpdateTime m timestamp);
     timeSinceReassignRef := timeSinceReassignRef m;
     currentSetRef := currentSetRef m;
     dotSetsRef := dotSetsRef m |}.

(** No radius handed to [ctx.ellipse] or [ctx.arc] is negative: the
    half extents of an elliptical aperture, with half the border width
    added when the border is shown, and the dot radius unless the dots
    are drawn as characters. *)
Definition radiiNotNegative (q : RDK.Props) : Prop :=
  let horizontalAxis := horizontalAxisOf (RDK.apertureWidth q) in
  let verticalAxis :=
    verticalAxisOf (RDK.apertureShape q) (RDK.apertureWidth q)
      (RDK.apertureHeight q) in
  (elliptical (RDK.apertureShape q) = true ->
   0 <= horizontalAxis /\ 0 <= verticalAxis
   /\ (RDK.showBorder q = true ->
       0 <= horizontalAxis + RDK.borderWidth q / 2
       /\ 0 <= verticalAxis + RDK.borderWidth q / 2))
  /\ (drawsCharacters q = false -> 0 <= RDK.dotRadius q).

(** The numbers of coherent and opposite dots are not negative and fit
    into the dot count, so that [generateShuffledAssignments] can fill
    its three arrays. *)
Definition proportionsFit (q : RDK.Props) : Prop :=
  (0 <= Math_floor (IZR (RDK.dotCount q) * RDK.coherence q))%Z
  /\ (0 <= Math_floor (IZR (RDK.dotCount q) * RDK.opposite_ q))%Z
  /\ (Math_floor (IZR (RDK.dotCount q) * RDK.coherence q)
      + Math_floor (IZR (RDK.dotCount q) * RDK.opposite_ q)
      <= RDK.dotCount q)%Z.

(** ** The result data, lines 796-813 *)

(** [Math.round]: the nearest integer, halves rounded up. *)
Definition Math_round (x : R) : Z := Zfloor (x + 1 / 2).

(** Lines 803-805; [None] is [null]. *)
Definition measuredRefreshRate (r : Refs) : option Z :=
  match estimatedFrameIntervalRef r with
  | Some estimate =>
      if truthy estimate then Some (Math_round (1000 / estimate)) else None
  | None => None
  end.

(** Line 802. *)
Definition framesDisplayed (r : Refs) : Z := frameCountRef r.

(** What the calibrator maintains: the estimate exists exactly when
    the calibrated flag is set and is a plausible frame interval; the
    collected intervals are plausible and fewer than ten while the
    flag is not set. *)
Definition soundEstimate (r : Refs) : Prop :=
  (isCalibrated r = true ->
   exists e, estimatedFrameIntervalRef r = Some e /\ 0 < e < 500)
  /\ (isCalibrated r = false ->
      estimatedFrameIntervalRef r = None
      /\ (List.length (frameIntervalsRef r) < CALIBRATION_FRAME_COUNT)%nat)
  /\ Forall (fun d => 0 < d < 500) (frameIntervalsRef r).

(** The number of calls of [animate] that run among the steps. *)
Fixpoint framesRun (steps : list Step) : Z :=
  match steps with
  | [] => 0
  | Frame false _ :: rest => 1 + framesRun rest
  | _ :: rest => framesRun rest
  end.

(** Line 627. *)
Definition effectiveStimulusDuration (p : Props) : R :=
  fixationTime p + match stimulusDuration p with
                   | Some s => s
                   | None => duration p
                   end.

(** The stimulus-hide edge fires at step [k]. *)
Definition hidesAt (p : Props) (steps : list Step) (r : Refs) (k : nat)
  : Prop :=
  In (setStimulusVisible false) (effectsAt p steps r k).

(** ** The trial list of the experiment, Experiment.tsx lines 638 and 669-683 *)

Module Trial.

(** The condition of one trial. *)
Record t : Type := {
  coherence : R;
  direction : R;
  correctResponse : string
}.

End Trial.

Section TrialList.

Variable shuffle : forall A : Type, list A -> Rand (list A).
Variable NTRIALS : Z.
Variable COHERENCES : list R.
Variables KEY_LEFT KEY_RIGHT : string.

(** Line 638; the number of trials asked for is a whole number. *)
Definition trialsPerCoherence : Z :=
  Math_floor (IZR NTRIALS / IZR (Z.of_nat (List.length COHERENCES))).

(** Lines 670-682: the trials of one coherence level, the leftward
    ones first. *)
Definition conditionsOf (coherence : R) : list Trial.t :=
  let trialsPerDirection := Math_floor (IZR trialsPerCoherence / 2) in
  flat_map
    (fun dc : R * string =>
       repeat {| Trial.coherence := coherence;
                 Trial.direction := fst dc;
                 Trial.correctResponse := snd dc |}
         (Z.to_nat trialsPerDirection))
    [(270, KEY_LEFT); (90, KEY_RIGHT)].

(** Lines 669-683: the shuffled conditions of the trials. *)
Definition trialConditions : Rand (list Trial.t) :=
  shuffle _ (flat_map conditionsOf COHERENCES).

End TrialList.

(** The trials of a list that go in the given direction. *)
Definition towards (direction : R) (trials : list Trial.t) : list Trial.t :=
  filter (fun t => Trial.direction t =? direction) trials.

(* ================================================================== *)
(** * The engine on binary64 numbers *)
(* ================================================================== *)

(** The definitions above read a [number] as a real: they are the code
    in exact arithmetic.  The running code rounds the result of every
    operation to binary64.  [Double] is the same code, line by line,
    on binary64 numbers (the primitive floats of the kernel); it
    evaluates, so that what the code returns on a concrete input can
    be computed.  The roles, the shapes and the exceptions are shared
    with the definitions above. *)

Module Double.

Local Open Scope float_scope.

Definition gtb (x y : float) : bool := y <? x.
Definition geb (x y : float) : bool := y <=? x.

Local Infix ">?" := gtb (at level 70, no associativity) : float_scope.
Local Infix ">=?" := geb (at level 70, no associativity) : float_scope.

(** ** Operators and builtins *)

(** [a % b]: the remainder of the division truncated towards zero.  It
    has the sign of [a] and is exact: both operands are integer
    multiples of the smaller of their two units. *)
Definition rem (a b : float) : float :=
  match Prim2SF a, Prim2SF b with
  | S754_nan, _ | _, S754_nan => nan
  | S754_infinity _, _ => nan
  | _, S754_zero _ => nan
  | S754_zero _, _ => a
  | S754_finite _ _ _, S754_infinity _ => a
  | S754_finite sa ma ea, S754_finite _ mb eb =>
      let e := Z.min ea eb in
      match (Z.rem (Zpos ma * 2 ^ (ea - e)) (Zpos mb * 2 ^ (eb - e)))%Z with
      | Zpos m => SF2Prim (S754_finite sa m e)
      | _ => if sa then neg_zero else zero
      end
  end.

(** Truthiness of a number: every number but zero and NaN. *)
Definition truthy (v : float) : bool := negb (v =? 0) && negb (is_nan v).

Definition Number_isFinite (v : float) : bool := is_finite v.

(** [Math.max] and [Math.min] of two arguments: NaN is contagious and
    [-0] is below [+0]. *)
Definition Math_max (a b : float) : float :=
  if is_nan a || is_nan b then nan
  else if a <? b then b
  else if b <? a then a
  else if get_sign a then b else a.

Definition Math_min (a b : float) : float :=
  if is_nan a || is_nan b then nan
  else if a <? b then a
  else if b <? a then b
  else if get_sign a then a else b.

Definition Math_PI : float := 0x1.921fb54442d18p+1.

Definition Math_sqrt (x : float) : float := PrimFloat.sqrt x.

(** The binary64 nearest to the fraction [n / d], ties to even. *)
Definition nearest (n : Z) (d : positive) : float :=
  match n with
  | Z0 => zero
  | Zpos p =>
      SF2Prim (SFdiv prec emax (S754_finite false p 0) (S754_finite false d 0))
  | Zneg p =>
      SF2Prim (SFdiv prec emax (S754_finite true p 0) (S754_finite false d 0))
  end.

(** The square of [m * 2^e] as a fraction. *)
Definition squared (m : positive) (e : Z) : Z * positive :=
  if (0 <=? e)%Z then ((Zpos m * Zpos m * 2 ^ (2 * e))%Z, 1%positive)
  else ((Zpos m * Zpos m)%Z, Z.to_pos (2 ^ (- (2 * e)))).

(** The partial sum
    [1 - x2/(c (c+1)) * (1 - x2/((c+2) (c+3)) * (1 - ...))]
    with [terms] factors, as a fraction, for [x2 = a / b]: the cosine
    series of [x] for [c = 1] and the sine series divided by [x] for
    [c = 2], where [x2] is the square of [x]. *)
Fixpoint series (terms : nat) (c : Z) (a : Z) (b : positive) : Z * positive :=
  match terms with
  | O => (1%Z, 1%positive)
  | S terms' =>
      let (n, d) := series terms' (c + 2)%Z a b in
      let k := Z.to_pos (c * (c + 1)) in
      ((Zpos (b * k * d) - a * n)%Z, (b * k * d)%positive)
  end.

(** With [24 + x2] factors (rounded up) the partial sum is within
    2^-136 of the limit, whatever [x]. *)
Definition terms (a : Z) (b : positive) : nat := Z.to_nat (25 + a / Zpos b).

(** [Math.cos] and [Math.sin] are implementation-approximated
    builtins.  They are taken here to return the binary64 nearest to
    the cosine and the sine: the partial sum above is evaluated in
    exact fractions and rounded once. *)
Definition Math_cos (x : float) : float :=
  match Prim2SF x with
  | S754_nan | S754_infinity _ => nan
  | S754_zero _ => 1
  | S754_finite _ m e =>
      let (a, b) := squared m e in
      let (n, d) := series (terms a b) 1 a b in
      nearest n d
  end.

Definition Math_sin (x : float) : float :=
  match Prim2SF x with
  | S754_nan | S754_infinity _ => nan
  | S754_zero _ => x
  | S754_finite s m e =>
      let (a, b) := squared m e in
      let (n, d) := series (terms a b) 2 a b in
      let xn := if s then Zneg m else Zpos m in
      if (0 <=? e)%Z then nearest (xn * 2 ^ e * n) d
      else nearest (xn * n) (d * Z.to_pos (2 ^ (- e)))
  end.

(** ** Random draws *)

Definition Oracle : Type := nat -> float.

(** Every draw of [Math.random()] lies in [0, 1). *)
Definition fair (o : Oracle) : Prop :=
  forall n, (0 <=? o n) && (o n <? 1) = true.

Definition Rand (A : Type) : Type := Oracle -> A * Oracle.

Definition ret {A} (a : A) : Rand A := fun o => (a, o).

Definition bind {A B} (c : Rand A) (k : A -> Rand B) : Rand B :=
  fun o => let (a, o') := c o in k a o'.

Declare Scope double_scope.

Notation "x <- c ;; k" := (bind c (fun x => k))
  (at level 61, c at next level, right associativity) : double_scope.

Local Open Scope double_scope.

Definition drop (n : nat) (o : Oracle) : Oracle := fun i => o (n + i)%nat.

Definition Math_random : Rand float := fun o => (o 0%nat, drop 1 o).

(** The oracle that returns the draws of a list in turn, and one half
    once the list is used up. *)
Definition draws (l : list float) : Oracle := fun n => nth n l 0.5.

(** [randomBetween], line 91. *)
Definition randomBetween (min max : float) : Rand float :=
  u <- Math_random ;; ret (min + u * (max - min)).

(** ** Dots (lines 32-39) *)

Module Dot.

Record t : Type := mk {
  x : float;
  y : float;
  randomDirX : float;
  randomDirY : float;
  lifeCount : float;
  assignedMovement : FrameMovement
}.

Definition with_position (d : t) (p : float * float) : t :=
  mk (fst p) (snd p) (randomDirX d) (randomDirY d) (lifeCount d)
     (assignedMovement d).

Definition with_lifeCount (d : t) (life : float) : t :=
  mk (x d) (y d) (randomDirX d) (randomDirY d) life (assignedMovement d).

Definition with_assignedMovement (d : t) (m : FrameMovement) : t :=
  mk (x d) (y d) (randomDirX d) (randomDirY d) (lifeCount d) m.

Definition with_randomDir (d : t) (dir : float * float) : t :=
  mk (x d) (y d) (fst dir) (snd dir) (lifeCount d) (assignedMovement d).

End Dot.

(** ** ApertureGeometry (lines 41-51 and 93-297) *)

Record Aperture : Type := {
  centerX : float;
  centerY : float;
  getRandomPosition : Rand (float * float);
  isOutside : float -> float -> float -> bool;
  getOppositePosition :
    Dot.t -> option float -> option float -> float * float;
  getOppositePositionSimple : Dot.t -> float * float;
  wrap : float -> float -> float * float
}.

Section Geometry.

Variables horizontalAxis verticalAxis centerX centerY : float.

(** Toroidal wrap on the bounding box, lines 104-110. *)
Definition wrapOnBounds (x y : float) : float * float :=
  let w := horizontalAxis * 2 in
  let h := verticalAxis * 2 in
  let left := centerX - horizontalAxis in
  let top := centerY - verticalAxis in
  (rem (rem (x - left) w + w) w + left,
   rem (rem (y - top) h + h) h + top).

(** *** Circle and ellipse, lines 112-202 *)

Definition ell_getRandomPosition : Rand (float * float) :=
  phi <- randomBetween (- Math_PI) Math_PI ;;
  u <- Math_random ;;
  let rho := Math_sqrt u in
  ret (Math_cos phi * rho * horizontalAxis + centerX,
       Math_sin phi * rho * verticalAxis + centerY).

Definition ell_isOutside (x y margin : float) : bool :=
  let effH := horizontalAxis + margin in
  let effV := verticalAxis + margin in
  let dx := (x - centerX) / effH in
  let dy := (y - centerY) / effV in
  dx * dx + dy * dy >? 1.

Definition ell_getOppositePositionSimple (dot : Dot.t) : float * float :=
  let mirroredX := 2 * centerX - Dot.x dot in
  let mirroredY := 2 * centerY - Dot.y dot in
  let mx := (mirroredX - centerX) / horizontalAxis in
  let my := (mirroredY - centerY) / verticalAxis in
  let dist := Math_sqrt (mx * mx + my * my) in
  if dist >? 1 then
    (centerX + (mx / dist) * horizontalAxis,
     centerY + (my / dist) * verticalAxis)
  else (mirroredX, mirroredY).

(** The guarded part of [getOppositePosition], lines 133-164, or
    [None] when one of the guards sends control to the fallback. *)
Definition ell_rayCast (dot : Dot.t) (dirX dirY : option float)
  : option (float * float) :=
  match dirX, dirY with
  | Some dirX, Some dirY =>
      let dirMagSq := dirX * dirX + dirY * dirY in
      if dirMagSq >? 0x1.b7cdfd9d7bdbbp-34 (* 1e-10 *) then
        let mag := Math_sqrt dirMagSq in
        let dx := dirX / mag in
        let dy := dirY / mag in
        let xRel := Dot.x dot - centerX in
        let yRel := Dot.y dot - centerY in
        let a2 := horizontalAxis * horizontalAxis in
        let b2 := verticalAxis * verticalAxis in
        let A := (dx * dx) / a2 + (dy * dy) / b2 in
        let B := (xRel * dx) / a2 + (yRel * dy) / b2 in
        let C := (xRel * xRel) / a2 + (yRel * yRel) / b2 - 1 in
        let discriminant := B * B - A * C in
        if discriminant >=? 0 then
          let t := (B + Math_sqrt discriminant) / A in
          if (t >? 0) && Number_isFinite t then
            Some (Dot.x dot - dx * t, Dot.y dot - dy * t)
          else None
        else None
      else None
  | _, _ => None
  end.

Definition ell_getOppositePosition (dot : Dot.t) (dirX dirY : option float)
  : float * float :=
  match ell_rayCast dot dirX dirY with
  | Some p => p
  | None => ell_getOppositePositionSimple dot
  end.

(** *** Rectangle and square, lines 204-296 *)

Definition rect_getRandomPosition : Rand (float * float) :=
  px <- randomBetween (centerX - horizontalAxis) (centerX + horizontalAxis) ;;
  py <- randomBetween (centerY - verticalAxis) (centerY + verticalAxis) ;;
  ret (px, py).

Definition rect_isOutside (x y margin : float) : bool :=
  let effH := horizontalAxis + margin in
  let effV := verticalAxis + margin in
  (x <? centerX - effH) || (x >? centerX + effH)
  || (y <? centerY - effV) || (y >? centerY + effV).

Definition rect_getOppositePositionSimple (dot : Dot.t) : float * float :=
  let left := centerX - horizontalAxis in
  let right := centerX + horizontalAxis in
  let top := centerY - verticalAxis in
  let bottom := centerY + verticalAxis in
  let x := if Dot.x dot <? left then right
           else if Dot.x dot >? right then left
           else Dot.x dot in
  let y := if Dot.y dot <? top then bottom
           else if Dot.y dot >? bottom then top
           else Dot.y dot in
  (x, y).

(** The slab method of [getOppositePosition], lines 221-253, or
    [None] when control reaches one of the fallbacks. *)
Definition rect_rayCast (dot : Dot.t) (dirX dirY : option float)
  : option (float * float) :=
  match dirX, dirY with
  | Some dirX, Some dirY =>
      let mag := Math_sqrt (dirX * dirX + dirY * dirY) in
      if mag <? 0x1.b7cdfd9d7bdbbp-34 (* 1e-10 *) then None
      else
        let dx := - dirX / mag in
        let dy := - dirY / mag in
        let left := centerX - horizontalAxis in
        let right := centerX + horizontalAxis in
        let top := centerY - verticalAxis in
        let bottom := centerY + verticalAxis in
        let tx1 := if negb (dx =? 0) then (left - Dot.x dot) / dx
                   else neg_infinity in
        let tx2 := if negb (dx =? 0) then (right - Dot.x dot) / dx
                   else neg_infinity in
        let ty1 := if negb (dy =? 0) then (top - Dot.y dot) / dy
                   else neg_infinity in
        let ty2 := if negb (dy =? 0) then (bottom - Dot.y dot) / dy
                   else neg_infinity in
        let tEnter := Math_max (Math_min tx1 tx2) (Math_min ty1 ty2) in
        let tExit := Math_min (Math_max tx1 tx2) (Math_max ty1 ty2) in
        if (tExit >? 0) && (tEnter <=? tExit) && Number_isFinite tExit
        then Some (Dot.x dot + dx * tExit, Dot.y dot + dy * tExit)
        else None
  | _, _ => None
  end.

Definition rect_getOppositePosition (dot : Dot.t) (dirX dirY : option float)
  : float * float :=
  match rect_rayCast dot dirX dirY with
  | Some p => p
  | None => rect_getOppositePositionSimple dot
  end.

End Geometry.

(** The half extents of an aperture, lines 100-101. *)
Definition horizontalAxisOf (width : float) : float := width / 2.

Definition verticalAxisOf (shape : ApertureShape) (width height : float)
  : float :=
  match shape with
  | circle | square => horizontalAxisOf width
  | _ => height / 2
  end.

(** [createAperture], lines 93-297. *)
Definition createAperture
    (shape : ApertureShape) (width height centerX centerY : float)
  : Aperture :=
  let horizontalAxis := horizontalAxisOf width in
  let verticalAxis := verticalAxisOf shape width height in
  if elliptical shape then
    {| centerX := centerX;
       centerY := centerY;
       getRandomPosition :=
         ell_getRandomPosition horizontalAxis verticalAxis centerX centerY;
       isOutside := ell_isOutside horizontalAxis verticalAxis centerX centerY;
       getOppositePosition :=
         ell_getOppositePosition horizontalAxis verticalAxis centerX centerY;
       getOppositePositionSimple :=
         ell_getOppositePositionSimple
           horizontalAxis verticalAxis centerX centerY;
       wrap := wrapOnBounds horizontalAxis verticalAxis centerX centerY |}
  else
    {| centerX := centerX;
       centerY := centerY;
       getRandomPosition :=
         rect_getRandomPosition horizontalAxis verticalAxis centerX centerY;
       isOutside := rect_isOutside horizontalAxis verticalAxis centerX centerY;
       getOppositePosition :=
         rect_getOppositePosition horizontalAxis verticalAxis centerX centerY;
       getOppositePositionSimple :=
         rect_getOppositePositionSimple
           horizontalAxis verticalAxis centerX centerY;
       wrap := wrapOnBounds horizontalAxis verticalAxis centerX centerY |}.

(** ** DotState: [createDot], lines 299-317 *)

Definition createDot
    (assignedMovement : FrameMovement) (maxDotLife : float)
    (aperture : Aperture) : Rand Dot.t :=
  p <- getRandomPosition aperture ;;
  theta <- match assignedMovement with
           | noise randomDirection => randomBetween (- Math_PI) Math_PI
           | _ => ret 0
           end ;;
  life <- randomBetween 0 (if maxDotLife >? 0 then maxDotLife else 0) ;;
  ret {| Dot.x := fst p;
         Dot.y := snd p;
         Dot.randomDirX := if truthy theta then Math_cos theta else 0;
         Dot.randomDirY := if truthy theta then - Math_sin theta else 0;
         Dot.lifeCount := life;
         Dot.assignedMovement := assignedMovement |}.

(** ** MotionIntegrator: [updateDot], lines 319-404 *)

(** Lines 387-403: the boundary test and the reinsertion dispatch on
    the displaced dot. *)
Definition reinsert
    (aperture : Aperture) (reinsertType : string) (dotRadius : float)
    (moveDirX moveDirY : float) (updated : Dot.t) : Rand (Exn + Dot.t) :=
  let outOfBounds :=
    isOutside aperture (Dot.x updated) (Dot.y updated) dotRadius in
  if outOfBounds then
    if String.eqb reinsertType "random" then
      p <- getRandomPosition aperture ;;
      ret (inr (Dot.with_position updated p))
    else if String.eqb reinsertType "oppositeSimple" then
      ret (inr (Dot.with_position updated
                  (getOppositePositionSimple aperture updated)))
    else if String.eqb reinsertType "opposite" then
      ret (inr (Dot.with_position updated
                  (getOppositePosition aperture updated
                     (Some moveDirX) (Some moveDirY))))
    else if String.eqb reinsertType "wrap" then
      ret (inr (Dot.with_position updated
                  (wrap aperture (Dot.x updated) (Dot.y updated))))
    else
      ret (inl (Error ("Unknown reinsertType: " ++ reinsertType)))
  else ret (inr updated).

(** Lines 383-403: displacement along the movement direction, then the
    boundary test. *)
Definition applyMovement
    (aperture : Aperture) (reinsertType : string)
    (dotRadius distance : float)
    (moveDirX moveDirY : float) (updated : Dot.t) : Rand (Exn + Dot.t) :=
  reinsert aperture reinsertType dotRadius moveDirX moveDirY
    (Dot.with_position updated
       (Dot.x updated + moveDirX * distance,
        Dot.y updated + moveDirY * distance)).

(** Lines 340-352: the movement method of this tick and the dot after
    a role reassignment. *)
Definition reassign
    (dot updated : Dot.t) (reassignMovementTo : option FrameMovement)
  : Rand (FrameMovement * Dot.t) :=
  match reassignMovementTo with
  | Some method =>
      let updated := Dot.with_assignedMovement updated method in
      match method with
      | noise randomDirection =>
          theta <- randomBetween (- Math_PI) Math_PI ;;
          ret (method,
               Dot.with_randomDir updated (Math_cos theta, - Math_sin theta))
      | _ => ret (method, updated)
      end
  | None => ret (Dot.assignedMovement dot, updated)
  end.

Definition lifeExpired (dot : Dot.t) (deltaTimeMs maxDotLife : float) : bool :=
  (maxDotLife >? 0) && (Dot.lifeCount dot + deltaTimeMs >=? maxDotLife).

Definition updateDot
    (dot : Dot.t) (distance deltaTimeMs maxDotLife : float)
    (aperture : Aperture) (reinsertType : string) (dotRadius : float)
    (coherentDir : float * float)
    (reassignMovementTo : option FrameMovement) : Rand (Exn + Dot.t) :=
  let updated := Dot.with_lifeCount dot (Dot.lifeCount dot + deltaTimeMs) in
  if lifeExpired dot deltaTimeMs maxDotLife then
    p <- getRandomPosition aperture ;;
    ret (inr (Dot.with_lifeCount (Dot.with_position updated p) 0))
  else
    r <- reassign dot updated reassignMovementTo ;;
    let method := fst r in
    let updated := snd r in
    let move := applyMovement aperture reinsertType dotRadius distance in
    match method with
    | coherent => move (fst coherentDir) (snd coherentDir) updated
    | opposite => move (- fst coherentDir) (- snd coherentDir) updated
    | noise randomTeleport =>
        p <- getRandomPosition aperture ;;
        ret (inr (Dot.with_position updated p))
    | noise randomWalk =>
        theta <- randomBetween (- Math_PI) Math_PI ;;
        move (Math_cos theta) (- Math_sin theta) updated
    | noise randomDirection =>
        move (Dot.randomDirX updated) (Dot.randomDirY updated) updated
    end.

(** ** Statements about binary64 executions *)

(** Both half extents of the aperture are positive. *)
Definition positiveExtents (shape : ApertureShape) (width height : float)
  : bool :=
  (0 <? horizontalAxisOf width) && (0 <? verticalAxisOf shape width height).

(** A point lies in the half-open bounding box
    [center - extent, center + extent) on each axis. *)
Definition inBox (shape : ApertureShape) (width height centerX centerY : float)
    (p : float * float) : bool :=
  (centerX - horizontalAxisOf width <=? fst p)
  && (fst p <? centerX + horizontalAxisOf width)
  && (centerY - verticalAxisOf shape width height <=? snd p)
  && (snd p <? centerY + verticalAxisOf shape width height).

End Double.

(* ================================================================== *)
(** * The component around the clock: React state and effects *)
(* ================================================================== *)

(** [step] leaves it to the environment when the start time is
    stamped.  In the component the stamp is an effect whose only
    dependency is [animate] (lines 770-779), and [animate] is rebuilt
    whenever one of its own dependencies changes (lines 720-743);
    [trialEnded], [stimulusVisible] and [fixationComplete] are among
    them.  [Component] adds the React state and this effect to the
    clock. *)

Module Component.

(** The React state that the closure of [animate] captures (lines
    469-471). *)
Record State : Type := {
  trialEnded : bool;
  fixationComplete : bool;
  stimulusVisible : bool
}.

Record t : Type := {
  refs : Refs;
  state : State
}.

(** What the browser delivers to the mounted component: the call of
    the pending animation-frame callback, or the expiry of the
    fixation timer of line 784.  [now] is what [performance.now()]
    returns when the effects of the render caused by the event run. *)
Inductive Event : Type :=
| AnimationFrame (timestamp now : R)
| FixationTimeout (now : R).

Definition State_eqb (a b : State) : bool :=
  Bool.eqb (trialEnded a) (trialEnded b)
  && Bool.eqb (fixationComplete a) (fixationComplete b)
  && Bool.eqb (stimulusVisible a) (stimulusVisible b).

(** The state updates the clock requests (lines 634 and 641). *)
Definition update (s : State) (e : Effect) : State :=
  match e with
  | setStimulusVisible visible =>
      {| trialEnded := trialEnded s;
         fixationComplete := fixationComplete s;
         stimulusVisible := visible |}
  | setTrialEnded ended =>
      {| trialEnded := ended;
         fixationComplete := fixationComplete s;
         stimulusVisible := stimulusVisible s |}
  end.

(** The render after the state went from [old] to [new].  React does
    not render when no state changed.  When one did, [animate] is a
    new closure and the effect of lines 770-779 runs again: it stamps
    [startTimeRef] with [performance.now()] (line 771). *)
Definition render (now : R) (old new : State) (r : Refs) : t :=
  if State_eqb old new then {| refs := r; state := old |}
  else {| refs := setStart now r; state := new |}.

(** The first render and its effects: the state is initialised (lines
    469-471), the estimate is seeded when the store holds a refresh
    rate (lines 511-517), the start time is stamped (line 771). *)
Definition mount (p : Props) (refreshRate : option R) (now : R) : t :=
  {| refs := setStart now
               match refreshRate with
               | Some rate => seedEstimate rate mounted
               | None => mounted
               end;
     state := {| trialEnded := false;
                 fixationComplete := fixationTime p <=? 0;
                 stimulusVisible := true |} |}.

(** One event.  The timer exists only for a positive [fixationTime]
    (line 783) and sets [fixationComplete] (line 784). *)
Definition handle (p : Props) (e : Event) (c : t) : t * list Effect :=
  match e with
  | AnimationFrame timestamp now =>
      let (r, effects) :=
        animate p (trialEnded (state c)) timestamp (refs c) in
      (render now (state c) (fold_left update effects (state c)) r, effects)
  | FixationTimeout now =>
      if fixationTime p <=? 0 then (c, [])
      else
        (render now (state c)
           {| trialEnded := trialEnded (state c);
              fixationComplete := true;
              stimulusVisible := stimulusVisible (state c) |}
           (refs c),
         [])
  end.

(** The component after a sequence of events. *)
Definition after (p : Props) (events : list Event) (c : t) : t :=
  fold_left (fun c e => fst (handle p e c)) events c.

(** The state updates requested at each event of a sequence. *)
Fixpoint effects (p : Props) (events : list Event) (c : t)
  : list (list Effect) :=
  match events with
  | [] => []
  | e :: rest => snd (handle p e c) :: effects p rest (fst (handle p e c))
  end.

(** The clock of a trial runs on a display of 50 Hz: the start time is
    stamped with [start], the last frame was at [last], no edge has
    fired, the estimate is 20 ms and the dots are shown or not
    according to [shown]. *)
Definition running (start : R) (last : option R) (shown : bool) (c : t)
  : Prop :=
  startTimeRef (refs c) = Some start
  /\ lastFrameTimeRef (refs c) = last
  /\ stimulusHiddenRef (refs c) = false
  /\ trialEndedRef (refs c) = false
  /\ (exists interval,
        estimatedFrameIntervalRef (refs c) = Some interval /\ interval = 20)
  /\ isCalibrated (refs c) = true
  /\ state c = {| trialEnded := false;
                  fixationComplete := shown;
                  stimulusVisible := true |}.

(** [n] animation frames 20 ms apart, the first at [from]: a display
    of 50 Hz. *)
Fixpoint frames (from : R) (n : nat) : list Event :=
  match n with
  | O => []
  | S n' => AnimationFrame from from :: frames (from + 20) n'
  end.

End Component.

(** The corrected elapsed time of a frame in the words of the
    specification: the time since the trial started, plus the
    half-frame correction, which is half the estimated frame interval
    once calibrated and 0 before. *)
Definition spec_correctedElapsed
    (trialStart timestamp : R) (calibratedInterval : option R) : R :=
  (timestamp - trialStart)
  + match calibratedInterval with
    | Some interval => interval / 2
    | None => 0
    end.

(** The frame at which the specification lets the trial end: its
    corrected elapsed time has reached [fixationTime + duration]. *)
Definition spec_due
    (p : Props) (trialStart timestamp : R) (calibratedInterval : option R)
  : Prop :=
  fixationTime p + duration p
  <= spec_correctedElapsed trialStart timestamp calibratedInterval.

(** The frame interval the calibrator holds, once calibrated. *)
Definition calibratedInterval (r : Refs) : option R :=
  if isCalibrated r then estimatedFrameIntervalRef r else None.

(** The timing defaults of the component (lines 412-413 and 441): a
    trial of 1000 ms after a fixation of 500 ms. *)
Definition defaultTiming : Props :=
  {| duration := 1000; stimulusDuration := None; fixationTime := 500 |}.

(** The default trial on a display of 50 Hz whose refresh rate is in
    the store: mounted at 0 ms, frames from 10 ms on, the fixation
    timer expiring at 500 ms, up to the frame at 1470 ms. *)
Definition defaultTrial : Component.t :=
  Component.after defaultTiming
    (Component.frames 10 25 ++ [Component.FixationTimeout 500]
     ++ Component.frames 510 49)
    (Component.mount defaultTiming (Some 50) 0).

(* ================================================================== *)
(** * Properties *)
(* ================================================================== *)

(** ** Numbers *)

Lemma ltb_reflect (x y : R) : reflect (x < y) (x <? y).
Proof. unfold Num.ltb. destruct (Rlt_dec x y); constructor; assumption. Qed.

Lemma leb_reflect (x y : R) : reflect (x <= y) (x <=? y).
Proof. unfold Num.leb. destruct (Rle_dec x y); constructor; assumption. Qed.

Lemma gtb_reflect (x y : R) : reflect (x > y) (x >? y).
Proof. unfold Num.gtb. apply ltb_reflect. Qed.

Lemma geb_reflect (x y : R) : reflect (y <= x) (x >=? y).
Proof. unfold Num.geb. apply leb_reflect. Qed.

Lemma eqb_reflect (x y : R) : reflect (x = y) (x =? y).
Proof. unfold Num.eqb. destruct (Req_dec_T x y); constructor; assumption. Qed.

(** Case analysis on every comparison of numbers in the goal. *)
Ltac cases_num :=
  repeat match goal with
    | |- context [?a <? ?b] => destruct (ltb_reflect a b)
    | |- context [?a <=? ?b] => destruct (leb_reflect a b)
    | |- context [?a >? ?b] => destruct (gtb_reflect a b)
    | |- context [?a >=? ?b] => destruct (geb_reflect a b)
    | |- context [?a =? ?b] => destruct (eqb_reflect a b)
    end.

Lemma fair_drop (n : nat) (o : Oracle) : fair o -> fair (drop n o).
Proof. intros H i. apply H. Qed.

(** The floor of a fraction of a count stays between 0 and the count. *)
Lemma floor_fraction_bounds (n : Z) (q : R) :
  (0 <= n)%Z -> 0 <= q <= 1 ->
  (0 <= Math_floor (IZR n * q) <= n)%Z.
Proof.
  intros Hn [Hq0 Hq1]. unfold Math_floor.
  assert (Hr : 0 <= IZR n) by (apply IZR_le in Hn; exact Hn).
  split.
  - apply Zfloor_lub. simpl. nra.
  - apply le_IZR. pose proof (Zfloor_bound (IZR n * q)) as [Hb _]. nra.
Qed.

(** ** RoleAssigner *)

Lemma removeAt_permutation {A} (d : A) (l : list A) (j : nat) :
  (j < List.length l)%nat -> Permutation l (nth j l d :: removeAt j l).
Proof.
  revert j. induction l as [|h t IH]; intros j Hj; simpl in Hj.
  - lia.
  - destruct j as [|j]; simpl.
    + reflexivity.
    + rewrite perm_swap. constructor. apply IH. lia.
Qed.

Lemma removeAt_length {A} (l : list A) (j : nat) :
  (j < List.length l)%nat -> List.length (removeAt j l) = pred (List.length l).
Proof.
  revert j. induction l as [|h t IH]; intros j Hj; simpl in Hj.
  - lia.
  - destruct j as [|j]; simpl; [reflexivity|].
    rewrite IH by lia. destruct t; simpl in *; lia.
Qed.

(** A fair draw scaled by a positive length floors to a valid index. *)
Lemma draw_index (u : R) (n : nat) :
  0 <= u < 1 -> (0 < n)%nat ->
  (Z.to_nat (Math_floor (u * INR n)) < n)%nat.
Proof.
  intros [H0 H1] Hn. unfold Math_floor.
  assert (Hpos : 0 < INR n) by (apply lt_0_INR; exact Hn).
  pose proof (Zfloor_bound (u * INR n)) as [Hlo Hhi].
  assert (Hge : (0 <= Zfloor (u * INR n))%Z).
  { apply Zfloor_lub. simpl. nra. }
  assert (Hlt : (Zfloor (u * INR n) < Z.of_nat n)%Z).
  { apply lt_IZR. rewrite <- INR_IZR_INZ. nra. }
  lia.
Qed.

Lemma fisherYates_rounds_permutation {A} (rounds : nat) :
  forall (l : list A) (o : Oracle),
    fair o -> List.length l = rounds ->
    Permutation l (fst (fisherYates_rounds rounds l o)).
Proof.
  induction rounds as [|k IH]; intros l o Ho Hlen.
  - simpl. reflexivity.
  - destruct l as [|d t]; [discriminate|].
    cbn [fisherYates_rounds]. unfold bind, Math_random, ret.
    set (j := Z.to_nat (Math_floor (o 0%nat * INR (List.length (d :: t))))).
    assert (Hj : (j < List.length (d :: t))%nat).
    { apply draw_index; [apply Ho | simpl; lia]. }
    specialize (IH (removeAt j (d :: t)) (drop 1 o) (fair_drop 1 o Ho)).
    destruct (fisherYates_rounds k (removeAt j (d :: t)) (drop 1 o))
      as [rest o'] eqn:E.
    simpl fst in *.
    rewrite (removeAt_permutation d (d :: t) j Hj) at 1.
    constructor. apply IH.
    rewrite removeAt_length by exact Hj. simpl in *. lia.
Qed.

Lemma fisherYates_rearranges : rearranges fisherYates.
Proof.
  intros A l o Ho. unfold fisherYates.
  apply fisherYates_rounds_permutation; [exact Ho | reflexivity].
Qed.

(** C1 (as amended).  For a count [dotCount >= 0], fractions
    [coherence] and [opposite] in [0, 1] whose two floors together do
    not exceed the count, and any shuffle that rearranges its
    argument, [generateShuffledAssignments] returns an array of length
    [dotCount] with exactly [floor (dotCount * coherence)] coherent
    entries, exactly [floor (dotCount * opposite)] opposite entries and
    the noise role in every other place, for every outcome of the
    draws. *)
Theorem generateShuffledAssignments_exact_counts :
  forall shuffle, rearranges shuffle ->
  forall (dotCount : Z) (coherence opposite_ : R) (nm : NoiseMovement)
         (o : Oracle),
    fair o ->
    (0 <= dotCount)%Z ->
    0 <= coherence <= 1 ->
    0 <= opposite_ <= 1 ->
    (Math_floor (IZR dotCount * coherence)
     + Math_floor (IZR dotCount * opposite_) <= dotCount)%Z ->
    exactCounts shuffle dotCount coherence opposite_ nm o.
Proof.
  intros shuffle Hsh dotCount coherence opposite_ nm o Ho Hn Hc Hp Hsum.
  unfold exactCounts, generateShuffledAssignments.
  pose proof (floor_fraction_bounds dotCount coherence Hn Hc) as HC.
  pose proof (floor_fraction_bounds dotCount opposite_ Hn Hp) as HO.
  set (nC := Math_floor (IZR dotCount * coherence)) in *.
  set (nO := Math_floor (IZR dotCount * opposite_)) in *.
  unfold Array_fill.
  destruct (Z.ltb_spec nC 0) as [?|_]; [lia|].
  destruct (Z.ltb_spec nO 0) as [?|_]; [lia|].
  destruct (Z.ltb_spec (dotCount - nC - nO) 0) as [?|_]; [lia|].
  unfold bind, ret.
  set (l := repeat coherent (Z.to_nat nC) ++ repeat opposite (Z.to_nat nO)
            ++ repeat (noise nm) (Z.to_nat (dotCount - nC - nO))).
  pose proof (Hsh _ l o Ho) as Hperm.
  destruct (shuffle FrameMovement l o) as [assignments o'].
  simpl in Hperm |- *.
  exists assignments. split; [reflexivity|].
  assert (Hcount : forall m,
             count_occ FrameMovement_eq_dec assignments m
             = count_occ FrameMovement_eq_dec l m).
  { intro m. symmetry.
    apply (proj1 (Permutation_count_occ FrameMovement_eq_dec _ _) Hperm). }
  repeat split.
  - rewrite <- (Permutation_length Hperm). unfold l.
    rewrite !length_app, !repeat_length. lia.
  - rewrite Hcount. unfold l. rewrite !count_occ_app.
    rewrite (count_occ_repeat_eq _ (x := coherent) (y := coherent))
      by reflexivity.
    rewrite !count_occ_repeat_neq by discriminate. lia.
  - rewrite Hcount. unfold l. rewrite !count_occ_app.
    rewrite (count_occ_repeat_eq _ (x := opposite) (y := opposite))
      by reflexivity.
    rewrite !count_occ_repeat_neq by discriminate. lia.
  - eapply Permutation_Forall; [exact Hperm|]. unfold l.
    rewrite !Forall_app. repeat split; apply Forall_forall; intros m Hm;
      apply repeat_spec in Hm; subst; auto.
Qed.

(** The amended C1 at the scenario of the specification: 300 dots,
    coherence one half, opposite one tenth, a Fisher-Yates shuffle. *)
Lemma generateShuffledAssignments_exact_counts_witness :
  exactCounts fisherYates 300 (1 / 2) (1 / 10) randomDirection halves.
Proof.
  assert (H1 : Math_floor (IZR 300 * (1 / 2)) = 150%Z).
  { apply Zfloor_eq. simpl. lra. }
  assert (H2 : Math_floor (IZR 300 * (1 / 10)) = 30%Z).
  { apply Zfloor_eq. simpl. lra. }
  apply (generateShuffledAssignments_exact_counts
           fisherYates fisherYates_rearranges).
  - intro n. unfold halves. lra.
  - lia.
  - lra.
  - lra.
  - rewrite H1, H2. lia.
Defined.

(** C1 as stated fails: with one dot and both fractions equal to 1 the
    noise count is -1 and the call throws a RangeError instead of
    returning an array. *)
Lemma generateShuffledAssignments_overfull :
  0 <= 1 <= 1 /\
  fst (generateShuffledAssignments fisherYates 1 1 1
         (noise randomDirection) halves) = inl RangeError /\
  ~ exactCounts fisherYates 1 1 1 randomDirection halves.
Proof.
  assert (H1 : Math_floor (IZR 1 * 1) = 1%Z).
  { apply Zfloor_eq. simpl. lra. }
  assert (E : fst (generateShuffledAssignments fisherYates 1 1 1
                     (noise randomDirection) halves) = inl RangeError).
  { unfold generateShuffledAssignments. rewrite H1. reflexivity. }
  split; [lra|]. split; [exact E|].
  intros [assignments [Hret _]]. rewrite E in Hret. discriminate.
Qed.

(** ** ApertureGeometry: the toroidal wrap *)

Section Remainder.

Variable w : R.
Hypothesis w_pos : 0 < w.

Lemma trunc_nonneg (q : R) : 0 <= q -> Num.trunc q = Zfloor q.
Proof. intro H. unfold Num.trunc. destruct (Rle_dec 0 q); [reflexivity | lra]. Qed.

(** The remainder of a non-negative dividend lies in [0, w). *)
Lemma rem_nonneg (a : R) : 0 <= a -> 0 <= Num.rem a w < w.
Proof.
  intro Ha. unfold Num.rem.
  assert (Hq : 0 <= a / w).
  { apply Rmult_le_pos; [exact Ha|]. apply Rlt_le, Rinv_0_lt_compat, w_pos. }
  rewrite trunc_nonneg by exact Hq.
  pose proof (Zfloor_bound (a / w)) as [Hlo Hhi].
  assert (Ha' : a = (a / w) * w) by (field; lra).
  split; nra.
Qed.

(** The remainder of any dividend lies strictly between [-w] and [w]. *)
Lemma rem_bounds (a : R) : - w < Num.rem a w < w.
Proof.
  destruct (Rle_dec 0 a) as [Ha|Ha].
  - pose proof (rem_nonneg a Ha). lra.
  - unfold Num.rem, Num.trunc.
    assert (Hq : a / w < 0).
    { assert (0 < / w) by (apply Rinv_0_lt_compat, w_pos).
      unfold Rdiv. nra. }
    destruct (Rle_dec 0 (a / w)); [lra|].
    pose proof (Zfloor_bound (- (a / w))) as [Hlo Hhi].
    rewrite opp_IZR.
    assert (Ha' : a = (a / w) * w) by (field; lra).
    split; nra.
Qed.

(** A dividend in [k w, (k + 1) w) for k >= 0 loses exactly [k w]. *)
Lemma rem_shift (a : R) (k : Z) :
  (0 <= k)%Z -> IZR k * w <= a < (IZR k + 1) * w ->
  Num.rem a w = a - IZR k * w.
Proof.
  intros Hk [Hlo Hhi]. unfold Num.rem.
  assert (Hk' : 0 <= IZR k) by (apply IZR_le in Hk; exact Hk).
  assert (Hinv : 0 < / w) by (apply Rinv_0_lt_compat, w_pos).
  assert (Ha' : a = (a / w) * w) by (field; lra).
  assert (Hq : IZR k <= a / w < IZR k + 1) by (split; nra).
  rewrite trunc_nonneg by lra.
  rewrite (Zfloor_eq k (a / w) Hq). ring.
Qed.

(** One axis of [wrapOnBounds]: the result lies in [left, left + w). *)
Lemma wrap_axis_range (a left : R) :
  left <= Num.rem (Num.rem (a - left) w + w) w + left < left + w.
Proof.
  pose proof (rem_bounds (a - left)) as Hb.
  pose proof (rem_nonneg (Num.rem (a - left) w + w)) as Hn.
  lra.
Qed.

(** One axis of [wrapOnBounds]: a coordinate already in
    [left, left + w) is returned as it is. *)
Lemma wrap_axis_fixed (a left : R) :
  left <= a < left + w ->
  Num.rem (Num.rem (a - left) w + w) w + left = a.
Proof.
  intros Ha.
  rewrite (rem_shift (a - left) 0) by (simpl; lra || lia).
  rewrite (rem_shift (a - left - IZR 0 * w + w) 1) by (simpl; lra || lia).
  simpl. ring.
Qed.

End Remainder.

Lemma wrap_createAperture shape width height cx cy :
  wrap (createAperture shape width height cx cy)
  = wrapOnBounds (horizontalAxisOf width) (verticalAxisOf shape width height)
      cx cy.
Proof. unfold createAperture. destruct (elliptical shape); reflexivity. Qed.

(** [wrap] lands in the half-open bounding box. *)
Lemma wrap_in_box shape width height cx cy x y :
  positiveExtents shape width height ->
  inBox shape width height cx cy
    (wrap (createAperture shape width height cx cy) x y).
Proof.
  intros [Hh Hv]. rewrite wrap_createAperture.
  set (h := horizontalAxisOf width) in *.
  set (v := verticalAxisOf shape width height) in *.
  assert (Hw : 0 < h * 2) by lra.
  assert (Hw' : 0 < v * 2) by lra.
  unfold inBox, wrapOnBounds. fold h v. cbn [fst snd].
  pose proof (wrap_axis_range (h * 2) Hw x (cx - h)).
  pose proof (wrap_axis_range (v * 2) Hw' y (cy - v)).
  split; lra.
Qed.

(** [wrap] leaves a point of the half-open bounding box where it is. *)
Lemma wrap_fixed shape width height cx cy x y :
  positiveExtents shape width height ->
  inBox shape width height cx cy (x, y) ->
  wrap (createAperture shape width height cx cy) x y = (x, y).
Proof.
  intros [Hh Hv]. rewrite wrap_createAperture.
  set (h := horizontalAxisOf width) in *.
  set (v := verticalAxisOf shape width height) in *.
  assert (Hw : 0 < h * 2) by lra.
  assert (Hw' : 0 < v * 2) by lra.
  unfold inBox, wrapOnBounds. fold h v. cbn [fst snd].
  intros [Hx Hy].
  rewrite (wrap_axis_fixed (h * 2) Hw x (cx - h)) by lra.
  rewrite (wrap_axis_fixed (v * 2) Hw' y (cy - v)) by lra.
  reflexivity.
Qed.

(** C7 (as amended).  In exact arithmetic, for every point and every
    aperture of either family with positive extents, [wrap] returns a
    point of the half-open box [center - extent, center + extent) on
    each axis, and returns the point itself when it already lies in
    that box. *)
Theorem wrap_in_box_and_fixed :
  forall shape width height cx cy x y,
    positiveExtents shape width height ->
    let aperture := createAperture shape width height cx cy in
    inBox shape width height cx cy (wrap aperture x y)
    /\ (inBox shape width height cx cy (x, y) -> wrap aperture x y = (x, y)).
Proof.
  intros shape width height cx cy x y Hpos aperture. split.
  - apply wrap_in_box. exact Hpos.
  - apply wrap_fixed. exact Hpos.
Qed.

(** The amended C7 on a 600 by 400 ellipse centred at (300, 200): the
    point (650, -10) wraps into the box. *)
Lemma wrap_in_box_and_fixed_witness :
  inBox ellipse 600 400 300 200
    (wrap (createAperture ellipse 600 400 300 200) 650 (-10)).
Proof.
  apply (wrap_in_box_and_fixed ellipse 600 400 300 200 650 (-10)).
  unfold positiveExtents, horizontalAxisOf, verticalAxisOf. split; lra.
Defined.

(** C7 as stated fails on binary64 numbers, on which the code runs.
    On a circle of diameter 500 centred at (640, 360) the point
    (389.99999999999994, 360), one unit in the last place left of the
    box, is wrapped to (890, 360): the sum 499.99999999999994 + 390
    rounds to 890, which is [center + extent] and not in the half-open
    box.  On the 600 by 400 ellipse centred at (300, 200) the point
    (0.1, 0.1) lies in the box and the wrap returns
    (0.10000000000002274, 0.10000000000002274): the differences
    [x - left] and [y - top] lose the low bits of 0.1. *)
Lemma wrap_rounds_out_of_box :
  (Double.positiveExtents circle 500 500 = true
   /\ Double.wrap (Double.createAperture circle 500 500 640 360)
        0x1.85fffffffffffp+8 360
      = (890, 360)
   /\ Double.inBox circle 500 500 640 360 (890, 360) = false)%float
  /\ (Double.positiveExtents ellipse 600 400 = true
      /\ Double.inBox ellipse 600 400 300 200
           (0x1.999999999999ap-4, 0x1.999999999999ap-4) = true
      /\ Double.wrap (Double.createAperture ellipse 600 400 300 200)
           0x1.999999999999ap-4 0x1.999999999999ap-4
         = (0x1.999999999ap-4, 0x1.999999999ap-4)
      /\ (0x1.999999999ap-4 =? 0x1.999999999999ap-4) = false)%float.
Proof. vm_compute. repeat split; reflexivity. Qed.

(** ** ApertureGeometry: the outside test *)

Lemma createAperture_elliptical shape width height cx cy :
  elliptical shape = true ->
  createAperture shape width height cx cy
  = let h := horizontalAxisOf width in
    let v := verticalAxisOf shape width height in
    {| centerX := cx;
       centerY := cy;
       getRandomPosition := ell_getRandomPosition h v cx cy;
       isOutside := ell_isOutside h v cx cy;
       getOppositePosition := ell_getOppositePosition h v cx cy;
       getOppositePositionSimple := ell_getOppositePositionSimple h v cx cy;
       wrap := wrapOnBounds h v cx cy |}.
Proof. intro E. unfold createAperture. rewrite E. reflexivity. Qed.

Lemma createAperture_rectangular shape width height cx cy :
  elliptical shape = false ->
  createAperture shape width height cx cy
  = let h := horizontalAxisOf width in
    let v := verticalAxisOf shape width height in
    {| centerX := cx;
       centerY := cy;
       getRandomPosition := rect_getRandomPosition h v cx cy;
       isOutside := rect_isOutside h v cx cy;
       getOppositePosition := rect_getOppositePosition h v cx cy;
       getOppositePositionSimple := rect_getOppositePositionSimple h v cx cy;
       wrap := wrapOnBounds h v cx cy |}.
Proof. intro E. unfold createAperture. rewrite E. reflexivity. Qed.

Section Outside.

Variables h v cx cy : R.
Hypothesis h_pos : 0 < h.
Hypothesis v_pos : 0 < v.

(** Shrinking a coordinate by a larger extent does not enlarge its
    square. *)
Lemma scaled_square_le (d e m : R) :
  0 < e -> 0 <= m -> (d / (e + m)) * (d / (e + m)) <= (d / e) * (d / e).
Proof.
  intros He Hm.
  assert (Hk : 0 < e / (e + m) <= 1).
  { split.
    - apply Rdiv_lt_0_compat; lra.
    - apply (Rmult_le_reg_r (e + m)); [lra|].
      unfold Rdiv. rewrite Rmult_assoc, Rinv_l by lra. lra. }
  replace (d / (e + m)) with ((d / e) * (e / (e + m))) by (field; lra).
  set (a := d / e). set (k := e / (e + m)) in *.
  assert (Ha : 0 <= a * a) by nra.
  assert (Hkk : k * k <= 1) by nra.
  replace (a * k * (a * k)) with ((a * a) * (k * k)) by ring.
  rewrite <- (Rmult_1_r (a * a)) at 2.
  apply Rmult_le_compat_l; assumption.
Qed.

(** A point within the closed ellipse is not outside, whatever the
    non-negative margin. *)
Lemma ell_inside (x y m : R) :
  0 <= m ->
  ((x - cx) / h) * ((x - cx) / h) + ((y - cy) / v) * ((y - cy) / v) <= 1 ->
  ell_isOutside h v cx cy x y m = false.
Proof.
  intros Hm Hin. unfold ell_isOutside.
  pose proof (scaled_square_le (x - cx) h m h_pos Hm).
  pose proof (scaled_square_le (y - cy) v m v_pos Hm).
  destruct (gtb_reflect
              ((x - cx) / (h + m) * ((x - cx) / (h + m))
               + (y - cy) / (v + m) * ((y - cy) / (v + m))) 1);
    [lra | reflexivity].
Qed.

(** A point within the closed rectangle is not outside, whatever the
    non-negative margin. *)
Lemma rect_inside (x y m : R) :
  0 <= m ->
  cx - h <= x <= cx + h -> cy - v <= y <= cy + v ->
  rect_isOutside h v cx cy x y m = false.
Proof.
  intros Hm Hx Hy. unfold rect_isOutside.
  cases_num; try lra; reflexivity.
Qed.

(** [getRandomPosition] of the elliptical family samples within the
    closed ellipse. *)
Lemma ell_getRandomPosition_inside (o : Oracle) :
  fair o ->
  let p := fst (ell_getRandomPosition h v cx cy o) in
  ((fst p - cx) / h) * ((fst p - cx) / h)
  + ((snd p - cy) / v) * ((snd p - cy) / v) <= 1.
Proof.
  intros Ho. unfold ell_getRandomPosition, randomBetween, bind, ret,
    Math_random. simpl.
  set (phi := - PI + o 0%nat * (PI - - PI)).
  set (u := drop 1 o 0%nat).
  assert (Hu : 0 <= u < 1) by (apply (fair_drop 1 o Ho)).
  replace ((cos phi * sqrt u * h + cx - cx) / h) with (cos phi * sqrt u)
    by (field; lra).
  replace ((sin phi * sqrt u * v + cy - cy) / v) with (sin phi * sqrt u)
    by (field; lra).
  pose proof (sin2_cos2 phi) as Hsc. unfold Rsqr in Hsc.
  pose proof (sqrt_sqrt u (proj1 Hu)) as Hs.
  replace (cos phi * sqrt u * (cos phi * sqrt u)
           + sin phi * sqrt u * (sin phi * sqrt u))
    with ((sin phi * sin phi + cos phi * cos phi) * (sqrt u * sqrt u))
    by ring.
  rewrite Hsc, Hs. lra.
Qed.

(** [getRandomPosition] of the rectangular family samples within
    the rectangle. *)
Lemma rect_getRandomPosition_inside (o : Oracle) :
  fair o ->
  let p := fst (rect_getRandomPosition h v cx cy o) in
  cx - h <= fst p <= cx + h /\ cy - v <= snd p <= cy + v.
Proof.
  intros Ho. unfold rect_getRandomPosition, randomBetween, bind, ret,
    Math_random. simpl.
  pose proof (Ho 0%nat) as H0.
  pose proof (fair_drop 1 o Ho 0%nat) as H1.
  split; split; nra.
Qed.

End Outside.

(** A freshly sampled position is not outside the aperture expanded by
    any non-negative margin. *)
Lemma getRandomPosition_within_margin :
  forall shape width height cx cy o m,
    positiveExtents shape width height ->
    fair o -> 0 <= m ->
    let aperture := createAperture shape width height cx cy in
    let p := fst (getRandomPosition aperture o) in
    isOutside aperture (fst p) (snd p) m = false.
Proof.
  intros shape width height cx cy o m [Hh Hv] Ho Hm.
  destruct (elliptical shape) eqn:E.
  - rewrite createAperture_elliptical by exact E. cbv zeta. simpl.
    apply ell_inside; try assumption.
    apply ell_getRandomPosition_inside; assumption.
  - rewrite createAperture_rectangular by exact E. cbv zeta. simpl.
    pose proof (rect_getRandomPosition_inside _ _ cx cy Hh Hv o Ho) as [Hx Hy].
    apply rect_inside; assumption.
Qed.

(** C3 (as amended).  In exact arithmetic, for both aperture families
    with positive extents, every point returned by [getRandomPosition]
    satisfies [isOutside (x, y, 0) = false], for every outcome of the
    draws. *)
Theorem getRandomPosition_not_outside :
  forall shape width height cx cy o,
    positiveExtents shape width height ->
    fair o ->
    let aperture := createAperture shape width height cx cy in
    let p := fst (getRandomPosition aperture o) in
    isOutside aperture (fst p) (snd p) 0 = false.
Proof.
  intros shape width height cx cy o He Ho.
  apply getRandomPosition_within_margin; [assumption | assumption | lra].
Qed.

Lemma fair_halves : fair halves.
Proof. intro n. unfold halves. lra. Qed.

(** The amended C3 on a 600 by 400 rectangle centred at (300, 200)
    with every draw equal to one half. *)
Lemma getRandomPosition_not_outside_witness :
  let aperture := createAperture rectangle 600 400 300 200 in
  let p := fst (getRandomPosition aperture halves) in
  isOutside aperture (fst p) (snd p) 0 = false.
Proof.
  apply (getRandomPosition_not_outside rectangle 600 400 300 200 halves).
  - unfold positiveExtents, horizontalAxisOf, verticalAxisOf. split; lra.
  - intro n. unfold halves. lra.
Defined.

(** The draws of a list are fair when its elements are. *)
Lemma fair_draws (l : list float) :
  forallb (fun u => (0 <=? u) && (u <? 1))%float l = true ->
  Double.fair (Double.draws l).
Proof.
  intros Hl n. unfold Double.draws. revert n.
  induction l as [|u l IH]; intro n.
  - destruct n; vm_compute; reflexivity.
  - cbn [forallb] in Hl. apply andb_prop in Hl as [Hu Hl].
    destruct n as [|n]; [exact Hu | exact (IH Hl n)].
Qed.

(** C3 as stated fails on binary64 numbers, on which the code runs.
    On the 600 by 400 ellipse centred at (300, 200), with the draws
    0.171875 for the angle and 1 - 2^-52 for the radius,
    [getRandomPosition] returns
    (158.5809789522007, 23.615747130328998); for this point
    [dx * dx + dy * dy] is 1.0000000000000002 and [isOutside] with
    margin 0 answers true. *)
Lemma getRandomPosition_rounds_outside :
  (let aperture := Double.createAperture ellipse 600 400 300 200 in
   let o := Double.draws [0x1.6p-3; 0x1.ffffffffffffep-1] in
   Double.positiveExtents ellipse 600 400 = true
   /\ Double.fair o
   /\ fst (Double.getRandomPosition aperture o)
      = (0x1.3d297612bebb9p+7, 0x1.79da19a9b5e7p+4)
   /\ Double.isOutside aperture 0x1.3d297612bebb9p+7 0x1.79da19a9b5e7p+4 0
      = true)%float.
Proof.
  cbv zeta. split; [vm_compute; reflexivity|]. split.
  - apply fair_draws. vm_compute. reflexivity.
  - vm_compute. split; reflexivity.
Qed.

(** ** ApertureGeometry: the opposite ray cast on an ellipse *)

Lemma div_finite (n d : R) : d <> 0 -> X.div n d = Num (n / d).
Proof.
  intro Hd. unfold X.div. destruct (eqb_reflect d 0); [contradiction | reflexivity].
Qed.

(** C6.  On an elliptical aperture with positive extents, a dot at the
    rightmost boundary point [(centerX + horizontalAxis, centerY)]
    travelling in direction [(1, 0)] is reinserted by
    [getOppositePosition] exactly at the leftmost boundary point
    [(centerX - horizontalAxis, centerY)]. *)
Theorem ell_opposite_rightmost_to_leftmost :
  forall shape width height cx cy dot,
    elliptical shape = true ->
    positiveExtents shape width height ->
    Dot.x dot = cx + horizontalAxisOf width ->
    Dot.y dot = cy ->
    getOppositePosition (createAperture shape width height cx cy) dot
      (Some 1) (Some 0)
    = (cx - horizontalAxisOf width, cy).
Proof.
  intros shape width height cx cy dot E [Hh Hv] Hx Hy.
  rewrite createAperture_elliptical by exact E. cbv zeta. simpl.
  set (h := horizontalAxisOf width) in *.
  set (v := verticalAxisOf shape width height) in *.
  unfold ell_getOppositePosition, ell_rayCast. rewrite Hx, Hy.
  replace (1 * 1 + 0 * 0) with 1 by ring.
  destruct (gtb_reflect 1 1e-10) as [_|Hn]; [|exfalso; lra].
  rewrite sqrt_1.
  replace (1 / 1) with 1 by field.
  replace (0 / 1) with 0 by field.
  replace (cx + h - cx) with h by ring.
  replace (cy - cy) with 0 by ring.
  replace (h * 1 / (h * h) + 0 * 0 / (v * v)) with (/ h) by (field; lra).
  replace (1 * 1 / (h * h) + 0 * 0 / (v * v)) with (/ h * / h)
    by (field; lra).
  replace (h * h / (h * h) + 0 * 0 / (v * v) - 1) with 0 by (field; lra).
  replace (/ h * / h - / h * / h * 0) with (/ h * / h) by ring.
  assert (Hi : 0 < / h) by (apply Rinv_0_lt_compat; exact Hh).
  rewrite sqrt_square by lra.
  destruct (geb_reflect (/ h * / h) 0) as [_|Hn]; [|exfalso; nra].
  rewrite div_finite by nra.
  replace ((/ h + / h) / (/ h * / h)) with (2 * h) by (field; lra).
  simpl. destruct (gtb_reflect (2 * h) 0) as [_|Hn]; [|exfalso; lra].
  simpl. f_equal; ring.
Qed.

(** C6 on a 600 by 400 ellipse centred at (300, 200). *)
Lemma ell_opposite_rightmost_to_leftmost_witness :
  getOppositePosition (createAperture ellipse 600 400 300 200)
    (Dot.mk (300 + horizontalAxisOf 600) 200 1 0 0 coherent)
    (Some 1) (Some 0)
  = (300 - horizontalAxisOf 600, 200).
Proof.
  apply (ell_opposite_rightmost_to_leftmost ellipse 600 400 300 200).
  - reflexivity.
  - unfold positiveExtents, horizontalAxisOf, verticalAxisOf. split; lra.
  - reflexivity.
  - reflexivity.
Defined.

(** ** DotState: the stored direction of a new dot *)

(** What [createDot] stores for a dot of role [randomDirection], in
    terms of the sampled angle. *)
Lemma createDot_stored_direction aperture maxDotLife o :
  let theta := sampledAngle aperture o in
  let d := fst (createDot (noise randomDirection) maxDotLife aperture o) in
  (Dot.randomDirX d, Dot.randomDirY d)
  = if truthy theta then (cos theta, - sin theta) else (0, 0).
Proof.
  unfold createDot, sampledAngle, bind, ret.
  destruct (getRandomPosition aperture o) as [p o1]. simpl snd.
  destruct (randomBetween (- PI) PI o1) as [theta o2]. simpl fst.
  simpl. destruct (truthy theta); reflexivity.
Qed.

(** For every sampled angle other than zero the stored direction is
    the unit vector [(cos theta, - sin theta)]. *)
Lemma createDot_unit_direction aperture maxDotLife o :
  let theta := sampledAngle aperture o in
  let d := fst (createDot (noise randomDirection) maxDotLife aperture o) in
  theta <> 0 ->
  (Dot.randomDirX d, Dot.randomDirY d) = (cos theta, - sin theta)
  /\ Dot.randomDirX d * Dot.randomDirX d
     + Dot.randomDirY d * Dot.randomDirY d = 1.
Proof.
  intros theta d Hne.
  pose proof (createDot_stored_direction aperture maxDotLife o) as H.
  cbv zeta in H. fold theta d in H.
  unfold truthy in H. destruct (eqb_reflect theta 0); [contradiction|].
  simpl in H. split; [exact H|].
  assert (Hx : Dot.randomDirX d = cos theta) by exact (f_equal fst H).
  assert (Hy : Dot.randomDirY d = - sin theta) by exact (f_equal snd H).
  rewrite Hx, Hy.
  pose proof (sin2_cos2 theta) as Hsc. unfold Rsqr in Hsc. lra.
Qed.

(** C10 fails at the angle zero.  With the third draw equal to one
    half, the sampled angle of a new [randomDirection] dot is 0, which
    lies in [-PI, PI]; the stored direction is [(0, 0)], of magnitude
    0, and not the unit vector [(cos 0, - sin 0) = (1, 0)]. *)
Theorem createDot_zero_angle_direction :
  let aperture := createAperture ellipse 600 400 300 200 in
  let o := thirdDraw (1 / 2) in
  let theta := sampledAngle aperture o in
  let d := fst (createDot (noise randomDirection) 100 aperture o) in
  fair o
  /\ theta = 0
  /\ (cos theta, - sin theta) = (1, 0)
  /\ (Dot.randomDirX d, Dot.randomDirY d) = (0, 0)
  /\ Dot.randomDirX d * Dot.randomDirX d
     + Dot.randomDirY d * Dot.randomDirY d <> 1.
Proof.
  intros aperture o theta d.
  assert (Hfair : fair o).
  { intro n. unfold o, thirdDraw.
    destruct n as [|[|[|n]]]; lra. }
  assert (Htheta : theta = 0).
  { unfold theta, sampledAngle, aperture.
    rewrite createAperture_elliptical by reflexivity. cbv zeta. simpl.
    unfold ell_getRandomPosition, randomBetween, bind, ret, Math_random,
      drop, o, thirdDraw. simpl. field. }
  assert (Hd : (Dot.randomDirX d, Dot.randomDirY d) = (0, 0)).
  { pose proof (createDot_stored_direction aperture 100 o) as H.
    cbv zeta in H. fold theta d in H. rewrite Htheta in H.
    unfold truthy in H. destruct (eqb_reflect 0 0); [|contradiction].
    exact H. }
  split; [exact Hfair|]. split; [exact Htheta|].
  split; [|split; [exact Hd|]].
  - rewrite Htheta, cos_0, sin_0. f_equal. ring.
  - assert (Hx : Dot.randomDirX d = 0) by exact (f_equal fst Hd).
    assert (Hy : Dot.randomDirY d = 0) by exact (f_equal snd Hd).
    rewrite Hx, Hy. lra.
Qed.

(** ** MotionIntegrator: life expiry *)

(** C8.  When lifetime limiting is on ([maxDotLife > 0]) and the life
    counter incremented by [deltaTimeMs] reaches [maxDotLife],
    [updateDot] returns the dot at a freshly sampled position with
    life counter 0, role and stored direction as before; the result
    does not depend on the distance, the reinsertion mode, the dot
    radius, the coherent direction or the role supplied for the tick,
    and only the position's draws are consumed. *)
Theorem updateDot_life_expiry :
  forall dot distance deltaTimeMs maxDotLife aperture reinsertType dotRadius
         coherentDir reassignMovementTo o,
    0 < maxDotLife ->
    maxDotLife <= Dot.lifeCount dot + deltaTimeMs ->
    updateDot dot distance deltaTimeMs maxDotLife aperture reinsertType
      dotRadius coherentDir reassignMovementTo o
    = (inr {| Dot.x := fst (fst (getRandomPosition aperture o));
              Dot.y := snd (fst (getRandomPosition aperture o));
              Dot.randomDirX := Dot.randomDirX dot;
              Dot.randomDirY := Dot.randomDirY dot;
              Dot.lifeCount := 0;
              Dot.assignedMovement := Dot.assignedMovement dot |},
       snd (getRandomPosition aperture o)).
Proof.
  intros dot distance deltaTimeMs maxDotLife aperture reinsertType dotRadius
    coherentDir reassignMovementTo o Hmax Hlife.
  unfold updateDot, lifeExpired.
  destruct (gtb_reflect maxDotLife 0) as [_|Hn]; [|exfalso; lra].
  destruct (geb_reflect (Dot.lifeCount dot + deltaTimeMs) maxDotLife)
    as [_|Hn]; [|exfalso; lra].
  simpl. unfold bind, ret.
  destruct (getRandomPosition aperture o) as [p o']. reflexivity.
Qed.

(** C8 on the scenario of the specification: life counter 95, limit
    100, a step of 10 ms, while a move of 5 pixels and a reassignment
    to [opposite] are requested. *)
Lemma updateDot_life_expiry_witness :
  let aperture := createAperture ellipse 600 400 300 200 in
  let dot := Dot.mk 300 200 1 0 95 coherent in
  updateDot dot 5 10 100 aperture "wrap" 2 (1, 0) (Some opposite) halves
  = (inr {| Dot.x := fst (fst (getRandomPosition aperture halves));
            Dot.y := snd (fst (getRandomPosition aperture halves));
            Dot.randomDirX := 1;
            Dot.randomDirY := 0;
            Dot.lifeCount := 0;
            Dot.assignedMovement := coherent |},
     snd (getRandomPosition aperture halves)).
Proof.
  intros aperture dot.
  apply (updateDot_life_expiry dot 5 10 100 aperture "wrap" 2 (1, 0)
           (Some opposite) halves).
  - lra.
  - simpl. lra.
Defined.

(** ** MotionIntegrator: errors and fallbacks *)

(** The dispatch of [reinsert] raises exactly on an out-of-bounds dot
    and an unknown mode. *)
Lemma reinsert_error_iff aperture reinsertType dotRadius dirX dirY updated o :
  (exists e, fst (reinsert aperture reinsertType dotRadius dirX dirY updated o)
             = inl e)
  <-> (isOutside aperture (Dot.x updated) (Dot.y updated) dotRadius = true
       /\ ~ recognized reinsertType).
Proof.
  unfold reinsert, recognized, bind, ret.
  destruct (isOutside aperture (Dot.x updated) (Dot.y updated) dotRadius).
  - destruct (String.eqb_spec reinsertType "random") as [E1|N1].
    { destruct (getRandomPosition aperture o). simpl.
      split; [intros [e He]; discriminate | intros [_ Hn]; tauto]. }
    destruct (String.eqb_spec reinsertType "oppositeSimple") as [E2|N2].
    { simpl. split; [intros [e He]; discriminate | intros [_ Hn]; tauto]. }
    destruct (String.eqb_spec reinsertType "opposite") as [E3|N3].
    { simpl. split; [intros [e He]; discriminate | intros [_ Hn]; tauto]. }
    destruct (String.eqb_spec reinsertType "wrap") as [E4|N4].
    { simpl. split; [intros [e He]; discriminate | intros [_ Hn]; tauto]. }
    simpl. split; [intros _; split; [reflexivity | tauto] | eauto].
  - simpl. split; [intros [e He]; discriminate | intros [Hd _]; discriminate].
Qed.

(** [updateDot] resamples the position when the tick ends early, and
    runs the boundary test on the displaced dot otherwise. *)
Lemma updateDot_tick
    dot distance deltaTimeMs maxDotLife aperture reinsertType dotRadius
    coherentDir reassignMovementTo o :
  updateDot dot distance deltaTimeMs maxDotLife aperture reinsertType
    dotRadius coherentDir reassignMovementTo o
  = match tick dot distance deltaTimeMs maxDotLife coherentDir
            reassignMovementTo o with
    | Resampled updated o1 =>
        (inr (Dot.with_position updated (fst (getRandomPosition aperture o1))),
         snd (getRandomPosition aperture o1))
    | Displaced moved dir o' =>
        reinsert aperture reinsertType dotRadius (fst dir) (snd dir) moved o'
    end.
Proof.
  unfold tick, updateDot.
  destruct (lifeExpired dot deltaTimeMs maxDotLife).
  - unfold bind, ret.
    destruct (getRandomPosition aperture o) as [p o']. reflexivity.
  - unfold bind at 1. cbv beta zeta.
    destruct (reassign dot _ reassignMovementTo o) as [[method updated] o1].
    cbn [fst snd].
    destruct method as [| |[| |]]; cbv beta iota.
    + reflexivity.
    + reflexivity.
    + unfold bind, ret.
      destruct (getRandomPosition aperture o1) as [p o']. reflexivity.
    + unfold bind at 1. cbv beta.
      destruct (randomBetween (- PI) PI o1) as [theta o2]. reflexivity.
    + reflexivity.
Qed.

(** Every guard of the elliptical ray cast leads to the simple
    policy. *)
Lemma ell_fallback h v cx cy dot dirX dirY :
  ell_degenerate h v cx cy dot dirX dirY ->
  ell_getOppositePosition h v cx cy dot dirX dirY
  = ell_getOppositePositionSimple h v cx cy dot.
Proof.
  unfold ell_degenerate, ell_getOppositePosition, ell_rayCast.
  destruct dirX as [ux|]; [|reflexivity].
  destruct dirY as [uy|]; [|reflexivity].
  unfold ell_root, ell_discriminant. cbv zeta.
  intros Hdeg.
  destruct (gtb_reflect (ux * ux + uy * uy) 1e-10) as [Hmag|_];
    [|reflexivity].
  match goal with
  | |- context [?d >=? 0] => destruct (geb_reflect d 0) as [Hdisc|_]
  end; [|reflexivity].
  match goal with
  | |- context [X.gt ?t (Num 0) && X.isFinite ?t] =>
      destruct (X.gt t (Num 0)) eqn:Hgt;
      destruct (X.isFinite t) eqn:Hfin
  end; try reflexivity.
  exfalso. destruct Hdeg as [H|[H|[H|H]]]; try lra; discriminate.
Qed.

(** Every guard of the rectangular ray cast leads to the simple
    policy. *)
Lemma rect_fallback h v cx cy dot dirX dirY :
  rect_degenerate h v cx cy dot dirX dirY ->
  rect_getOppositePosition h v cx cy dot dirX dirY
  = rect_getOppositePositionSimple h v cx cy dot.
Proof.
  unfold rect_degenerate, rect_getOppositePosition, rect_rayCast.
  destruct dirX as [ux|]; [|reflexivity].
  destruct dirY as [uy|]; [|reflexivity].
  unfold rect_slabs. cbv zeta. cbn [fst snd].
  intros Hdeg.
  destruct (ltb_reflect (sqrt (ux * ux + uy * uy)) 1e-10) as [_|Hmag];
    [reflexivity|].
  match goal with
  | |- context [X.gt ?t (Num 0) && X.le ?e ?t && X.isFinite ?t] =>
      destruct (X.gt t (Num 0)) eqn:Hgt;
      destruct (X.le e t) eqn:Hle;
      destruct (X.isFinite t) eqn:Hfin
  end; try reflexivity.
  exfalso. destruct Hdeg as [H|[H|[H|H]]]; try lra; discriminate.
Qed.

Lemma fallback_to_simple shape width height cx cy dot dirX dirY :
  degenerate shape width height cx cy dot dirX dirY ->
  getOppositePosition (createAperture shape width height cx cy) dot dirX dirY
  = getOppositePositionSimple (createAperture shape width height cx cy) dot.
Proof.
  unfold degenerate. cbv zeta. intro Hdeg.
  destruct (elliptical shape) eqn:E.
  - rewrite createAperture_elliptical by exact E. cbv zeta. simpl.
    apply ell_fallback. exact Hdeg.
  - rewrite createAperture_rectangular by exact E. cbv zeta. simpl.
    apply rect_fallback. exact Hdeg.
Qed.

(** C9.  [updateDot] raises an error if and only if its reinsertion
    dispatch runs (the displaced dot is out of bounds) with a mode
    other than random, opposite, oppositeSimple and wrap; with one of
    these four modes it returns a dot; and in the opposite ray cast a
    missing or near-zero direction, a negative discriminant, or a
    non-positive or non-finite root gives the result of the simple
    policy. *)
Theorem updateDot_error_iff :
  forall dot distance deltaTimeMs maxDotLife aperture reinsertType dotRadius
         coherentDir reassignMovementTo o,
    ((exists e,
         fst (updateDot dot distance deltaTimeMs maxDotLife aperture
                reinsertType dotRadius coherentDir reassignMovementTo o)
         = inl e)
     <-> (dispatchRuns dot distance deltaTimeMs maxDotLife aperture dotRadius
            coherentDir reassignMovementTo o
          /\ ~ recognized reinsertType))
    /\ (recognized reinsertType ->
        exists d,
          fst (updateDot dot distance deltaTimeMs maxDotLife aperture
                 reinsertType dotRadius coherentDir reassignMovementTo o)
          = inr d)
    /\ (forall shape width height cx cy d dirX dirY,
          degenerate shape width height cx cy d dirX dirY ->
          getOppositePosition (createAperture shape width height cx cy)
            d dirX dirY
          = getOppositePositionSimple
              (createAperture shape width height cx cy) d).
Proof.
  intros dot distance deltaTimeMs maxDotLife aperture reinsertType dotRadius
    coherentDir reassignMovementTo o.
  assert (Hiff :
    (exists e,
        fst (updateDot dot distance deltaTimeMs maxDotLife aperture
               reinsertType dotRadius coherentDir reassignMovementTo o)
        = inl e)
    <-> (dispatchRuns dot distance deltaTimeMs maxDotLife aperture dotRadius
           coherentDir reassignMovementTo o
         /\ ~ recognized reinsertType)).
  { rewrite updateDot_tick. unfold dispatchRuns.
    destruct (tick dot distance deltaTimeMs maxDotLife coherentDir
                reassignMovementTo o) as [updated o1 | moved dir o'].
    - simpl. split.
      + intros [e He]. discriminate.
      + intros [[m [d [o2 [Ht _]]]] _]. discriminate.
    - rewrite reinsert_error_iff. split.
      + intros [Hout Hn]. split; [|exact Hn].
        exists moved, dir, o'. split; [reflexivity | exact Hout].
      + intros [[m [d [o2 [Ht Hout]]]] Hn].
        injection Ht as -> -> ->. split; assumption. }
  split; [exact Hiff|]. split.
  - intros Hrec.
    destruct (fst (updateDot dot distance deltaTimeMs maxDotLife aperture
                     reinsertType dotRadius coherentDir reassignMovementTo o))
      as [e|d] eqn:E.
    + exfalso. apply (proj1 Hiff); eauto.
    + exists d. reflexivity.
  - intros. apply fallback_to_simple. assumption.
Qed.

(** C9 at a dot leaving a 200-pixel circle to the right in mode
    wrap: a dot comes back. *)
Lemma updateDot_error_iff_witness :
  exists d,
    fst (updateDot (Dot.mk 99 0 1 0 0 coherent) 5 16 (-1)
           (createAperture circle 200 200 0 0) "wrap" 2 (1, 0) None halves)
    = inr d.
Proof.
  apply (updateDot_error_iff (Dot.mk 99 0 1 0 0 coherent) 5 16 (-1)
           (createAperture circle 200 200 0 0) "wrap" 2 (1, 0) None halves).
  right. right. right. reflexivity.
Defined.

(** ** ReinsertionPolicy: where the reinserted dot lands *)

Section Reinsertion.

Variables h v cx cy : R.
Hypothesis h_pos : 0 < h.
Hypothesis v_pos : 0 < v.

(** The simple policy of the elliptical family returns a point of
    the closed ellipse, wherever the dot is. *)
Lemma ell_simple_inside (dot : Dot.t) :
  let p := ell_getOppositePositionSimple h v cx cy dot in
  ((fst p - cx) / h) * ((fst p - cx) / h)
  + ((snd p - cy) / v) * ((snd p - cy) / v) <= 1.
Proof.
  unfold ell_getOppositePositionSimple. cbv zeta.
  set (mx := (2 * cx - Dot.x dot - cx) / h).
  set (my := (2 * cy - Dot.y dot - cy) / v).
  assert (Hnn : 0 <= mx * mx + my * my) by nra.
  pose proof (sqrt_sqrt _ Hnn) as Hsq.
  pose proof (sqrt_pos (mx * mx + my * my)) as Hpos.
  set (dist := sqrt (mx * mx + my * my)) in *.
  destruct (gtb_reflect dist 1) as [Hgt|Hle]; cbn [fst snd].
  - replace ((cx + mx / dist * h - cx) / h) with (mx / dist)
      by (field; lra).
    replace ((cy + my / dist * v - cy) / v) with (my / dist)
      by (field; lra).
    replace (mx / dist * (mx / dist) + my / dist * (my / dist))
      with ((mx * mx + my * my) / (dist * dist)) by (field; lra).
    rewrite <- Hsq. right. field. nra.
  - fold mx my. nra.
Qed.

(** The simple policy of the rectangular family returns a point of
    the rectangle, wherever the dot is. *)
Lemma rect_simple_inside (dot : Dot.t) :
  let p := rect_getOppositePositionSimple h v cx cy dot in
  cx - h <= fst p <= cx + h /\ cy - v <= snd p <= cy + v.
Proof.
  unfold rect_getOppositePositionSimple. cbv zeta. cbn [fst snd].
  cases_num; lra.
Qed.

(** A point reached at the root of the ray's quadratic lies on the
    ellipse. *)
Lemma root_on_ellipse (xr yr dx dy A B C s t : R) :
  A = (dx * dx) / (h * h) + (dy * dy) / (v * v) ->
  B = (xr * dx) / (h * h) + (yr * dy) / (v * v) ->
  C = (xr * xr) / (h * h) + (yr * yr) / (v * v) - 1 ->
  s * s = B * B - A * C ->
  A <> 0 ->
  t = (B + s) / A ->
  ((xr - dx * t) / h) * ((xr - dx * t) / h)
  + ((yr - dy * t) / v) * ((yr - dy * t) / v) = 1.
Proof.
  intros HA HB HC Hs HA0 Ht.
  assert (HAt : A * t = B + s) by (rewrite Ht; field; exact HA0).
  assert (Hform :
    ((xr - dx * t) / h) * ((xr - dx * t) / h)
    + ((yr - dy * t) / v) * ((yr - dy * t) / v)
    = (A * t * t - 2 * B * t + C) + 1).
  { rewrite HA, HB, HC. field. lra. }
  rewrite Hform.
  assert (Hzero : A * (A * t * t - 2 * B * t + C) = 0).
  { replace (A * (A * t * t - 2 * B * t + C))
      with ((A * t) * (A * t) - 2 * B * (A * t) + A * C) by ring.
    rewrite HAt.
    replace ((B + s) * (B + s) - 2 * B * (B + s) + A * C)
      with (s * s - (B * B - A * C)) by ring.
    rewrite Hs. ring. }
  apply Rmult_integral in Hzero. destruct Hzero as [Hz|Hz]; [contradiction|].
  rewrite Hz. ring.
Qed.

Lemma div_finite_inv (n d : R) (t : xnum) :
  X.div n d = t -> X.isFinite t = true -> d <> 0 /\ t = Num (n / d).
Proof.
  unfold X.div. intros Hd Hfin.
  destruct (eqb_reflect d 0) as [E|N].
  - destruct (ltb_reflect 0 n); [subst; discriminate|].
    destruct (ltb_reflect n 0); subst; discriminate.
  - split; [exact N | symmetry; exact Hd].
Qed.

(** The elliptical ray cast, when it succeeds, returns a point of
    the ellipse. *)
Lemma ell_rayCast_inside (dot : Dot.t) (dirX dirY : option R) (p : R * R) :
  ell_rayCast h v cx cy dot dirX dirY = Some p ->
  ((fst p - cx) / h) * ((fst p - cx) / h)
  + ((snd p - cy) / v) * ((snd p - cy) / v) <= 1.
Proof.
  unfold ell_rayCast.
  destruct dirX as [ux|]; [|discriminate].
  destruct dirY as [uy|]; [|discriminate].
  cbv zeta.
  destruct (gtb_reflect (ux * ux + uy * uy) 1e-10) as [Hmag|_];
    [|discriminate].
  set (mag := sqrt (ux * ux + uy * uy)).
  set (dx := ux / mag). set (dy := uy / mag).
  set (xr := Dot.x dot - cx). set (yr := Dot.y dot - cy).
  set (A := dx * dx / (h * h) + dy * dy / (v * v)).
  set (B := xr * dx / (h * h) + yr * dy / (v * v)).
  set (C := xr * xr / (h * h) + yr * yr / (v * v) - 1).
  destruct (geb_reflect (B * B - A * C) 0) as [Hdisc|_]; [|discriminate].
  destruct (X.div (B + sqrt (B * B - A * C)) A) as [| | |t] eqn:Hdiv;
    cbn [X.gt X.isFinite andb X.val];
    try (rewrite ?andb_false_r; discriminate).
  destruct (gtb_reflect t 0) as [Ht|_]; cbn [andb]; [|discriminate].
  intro Hp. injection Hp as <-. cbn [fst snd].
  destruct (div_finite_inv _ _ _ Hdiv eq_refl) as [HA0 Hnum].
  injection Hnum as Hnum.
  replace (Dot.x dot - dx * t - cx) with (xr - dx * t) by (unfold xr; ring).
  replace (Dot.y dot - dy * t - cy) with (yr - dy * t) by (unfold yr; ring).
  right.
  apply (root_on_ellipse xr yr dx dy A B C (sqrt (B * B - A * C)) t);
    try reflexivity; try assumption.
  apply sqrt_sqrt. exact Hdisc.
Qed.

(** A parameter between the two crossings of a slab gives a point
    inside the slab. *)
Lemma slab_point (lo hi x d t : R) :
  lo <= hi -> d <> 0 ->
  Rmin ((lo - x) / d) ((hi - x) / d) <= t ->
  t <= Rmax ((lo - x) / d) ((hi - x) / d) ->
  lo <= x + d * t <= hi.
Proof.
  intros Hlh Hd Hmin Hmax.
  assert (H1 : d * ((lo - x) / d) = lo - x) by (field; exact Hd).
  assert (H2 : d * ((hi - x) / d) = hi - x) by (field; exact Hd).
  set (t1 := (lo - x) / d) in *. set (t2 := (hi - x) / d) in *.
  unfold Rmin in Hmin. unfold Rmax in Hmax.
  destruct (Rle_dec t1 t2) as [H12|H12];
    destruct (Rlt_dec 0 d) as [Hpos|Hneg]; split; nra.
Qed.

(** The rectangular ray cast, when it succeeds, returns a point of
    the rectangle. *)
Lemma rect_rayCast_inside (dot : Dot.t) (dirX dirY : option R) (p : R * R) :
  rect_rayCast h v cx cy dot dirX dirY = Some p ->
  cx - h <= fst p <= cx + h /\ cy - v <= snd p <= cy + v.
Proof.
  unfold rect_rayCast.
  destruct dirX as [ux|]; [|discriminate].
  destruct dirY as [uy|]; [|discriminate].
  cbv zeta.
  destruct (ltb_reflect (sqrt (ux * ux + uy * uy)) 1e-10) as [_|Hmag];
    [discriminate|].
  set (mag := sqrt (ux * ux + uy * uy)).
  set (dx := - ux / mag). set (dy := - uy / mag).
  destruct (eqb_reflect dx 0) as [_|Hdx];
    [cbn; destruct (dy =? 0); cbn; discriminate|].
  destruct (eqb_reflect dy 0) as [_|Hdy]; [cbn; discriminate|].
  cbn [X.max X.min X.gt X.le X.isFinite X.val].
  set (tx1 := (cx - h - Dot.x dot) / dx).
  set (tx2 := (cx + h - Dot.x dot) / dx).
  set (ty1 := (cy - v - Dot.y dot) / dy).
  set (ty2 := (cy + v - Dot.y dot) / dy).
  set (tExit := Rmin (Rmax tx1 tx2) (Rmax ty1 ty2)).
  set (tEnter := Rmax (Rmin tx1 tx2) (Rmin ty1 ty2)).
  destruct (gtb_reflect tExit 0) as [Hgt|_]; [|discriminate].
  destruct (leb_reflect tEnter tExit) as [Hle|_]; [|discriminate].
  cbn [andb]. intro Hp. injection Hp as <-. cbn [fst snd].
  pose proof (Rmin_l (Rmax tx1 tx2) (Rmax ty1 ty2)).
  pose proof (Rmin_r (Rmax tx1 tx2) (Rmax ty1 ty2)).
  pose proof (Rmax_l (Rmin tx1 tx2) (Rmin ty1 ty2)).
  pose proof (Rmax_r (Rmin tx1 tx2) (Rmin ty1 ty2)).
  fold tExit in H, H0. fold tEnter in H1, H2.
  split; apply slab_point; try assumption; try lra;
    fold tx1 tx2 ty1 ty2; lra.
Qed.

End Reinsertion.

(** The simple policy lands within the aperture, for both families. *)
Lemma getOppositePositionSimple_within shape width height cx cy dot m :
  positiveExtents shape width height -> 0 <= m ->
  let aperture := createAperture shape width height cx cy in
  let p := getOppositePositionSimple aperture dot in
  isOutside aperture (fst p) (snd p) m = false.
Proof.
  intros [Hh Hv] Hm.
  destruct (elliptical shape) eqn:E.
  - rewrite createAperture_elliptical by exact E. cbv zeta. simpl.
    apply ell_inside; try assumption.
    apply ell_simple_inside; assumption.
  - rewrite createAperture_rectangular by exact E. cbv zeta. simpl.
    pose proof (rect_simple_inside _ _ cx cy Hh Hv dot) as [Hx Hy].
    apply rect_inside; assumption.
Qed.

(** The ray cast, or its fallback, lands within the aperture, for both
    families. *)
Lemma getOppositePosition_within shape width height cx cy dot dirX dirY m :
  positiveExtents shape width height -> 0 <= m ->
  let aperture := createAperture shape width height cx cy in
  let p := getOppositePosition aperture dot dirX dirY in
  isOutside aperture (fst p) (snd p) m = false.
Proof.
  intros [Hh Hv] Hm.
  destruct (elliptical shape) eqn:E.
  - rewrite createAperture_elliptical by exact E. cbv zeta. simpl.
    apply ell_inside; try assumption.
    unfold ell_getOppositePosition.
    destruct (ell_rayCast _ _ cx cy dot dirX dirY) as [p|] eqn:Hray.
    + apply (ell_rayCast_inside _ _ cx cy Hh Hv dot dirX dirY p Hray).
    + apply ell_simple_inside; assumption.
  - rewrite createAperture_rectangular by exact E. cbv zeta. simpl.
    unfold rect_getOppositePosition.
    destruct (rect_rayCast _ _ cx cy dot dirX dirY) as [p|] eqn:Hray.
    + pose proof (rect_rayCast_inside _ _ cx cy Hh Hv dot dirX dirY p Hray)
        as [Hx Hy].
      apply rect_inside; assumption.
    + pose proof (rect_simple_inside _ _ cx cy Hh Hv dot) as [Hx Hy].
      apply rect_inside; assumption.
Qed.

(** On the rectangular family the bounding box is the aperture. *)
Lemma inBox_within_rect shape width height cx cy p m :
  elliptical shape = false ->
  positiveExtents shape width height -> 0 <= m ->
  inBox shape width height cx cy p ->
  isOutside (createAperture shape width height cx cy) (fst p) (snd p) m
  = false.
Proof.
  intros E [Hh Hv] Hm [Hx Hy].
  rewrite createAperture_rectangular by exact E. cbv zeta. simpl.
  apply rect_inside; try assumption; lra.
Qed.

(** Where the dot is after the boundary test and the dispatch. *)
Lemma reinsert_lands
    shape width height cx cy reinsertType dotRadius dirX dirY moved o d' :
  positiveExtents shape width height -> 0 <= dotRadius -> fair o ->
  let aperture := createAperture shape width height cx cy in
  fst (reinsert aperture reinsertType dotRadius dirX dirY moved o) = inr d' ->
  withinMargin aperture dotRadius d'
  \/ (elliptical shape = true /\ reinsertType = "wrap"%string
      /\ isOutside aperture (Dot.x moved) (Dot.y moved) dotRadius = true
      /\ inBox shape width height cx cy (Dot.x d', Dot.y d')).
Proof.
  intros Hpos Hm Ho aperture. unfold reinsert, withinMargin.
  destruct (isOutside aperture (Dot.x moved) (Dot.y moved) dotRadius) eqn:Hout.
  - destruct (String.eqb_spec reinsertType "random") as [E1|N1].
    { unfold bind, ret.
      pose proof (getRandomPosition_within_margin shape width height cx cy o
                    dotRadius Hpos Ho Hm) as Hin.
      cbv zeta in Hin. fold aperture in Hin.
      destruct (getRandomPosition aperture o) as [p o1]. cbn [fst snd] in *.
      intro H. injection H as <-. left. exact Hin. }
    destruct (String.eqb_spec reinsertType "oppositeSimple") as [E2|N2].
    { cbn [fst ret]. intro H. injection H as <-. left.
      apply getOppositePositionSimple_within; assumption. }
    destruct (String.eqb_spec reinsertType "opposite") as [E3|N3].
    { cbn [fst ret]. intro H. injection H as <-. left.
      apply getOppositePosition_within; assumption. }
    destruct (String.eqb_spec reinsertType "wrap") as [E4|N4].
    { cbn [fst ret]. intro H. injection H as <-.
      pose proof (wrap_in_box shape width height cx cy
                    (Dot.x moved) (Dot.y moved) Hpos) as Hbox.
      fold aperture in Hbox.
      destruct (elliptical shape) eqn:E.
      - right. split; [reflexivity|]. split; [exact E4|].
        split; [reflexivity|].
        cbn [Dot.with_position Dot.x Dot.y].
        rewrite <- surjective_pairing. exact Hbox.
      - left. cbn [Dot.with_position Dot.x Dot.y].
        apply inBox_within_rect; assumption. }
    cbn [fst ret]. discriminate.
  - cbn [fst ret]. intro H. injection H as <-. left. exact Hout.
Qed.

(** The oracle a tick leaves is still fair. *)
Lemma tick_fair dot distance deltaTimeMs maxDotLife coherentDir reassignTo o :
  fair o ->
  match tick dot distance deltaTimeMs maxDotLife coherentDir reassignTo o with
  | Resampled _ o1 => fair o1
  | Displaced _ _ o1 => fair o1
  end.
Proof.
  intro Ho. unfold tick. cbv zeta.
  destruct (lifeExpired dot deltaTimeMs maxDotLife); [exact Ho|].
  assert (Hre : fair (snd (reassign dot
                             (Dot.with_lifeCount dot
                                (Dot.lifeCount dot + deltaTimeMs))
                             reassignTo o))).
  { unfold reassign. destruct reassignTo as [[| |[| |]]|]; cbn; try exact Ho.
    apply fair_drop. exact Ho. }
  destruct (reassign dot _ reassignTo o) as [[method updated] o1].
  cbn [fst snd] in *.
  destruct method as [| |[| |]]; try exact Hre.
  unfold randomBetween, bind, ret, Math_random.
  apply fair_drop. exact Hre.
Qed.

(** C2 (as amended).  In exact arithmetic, for an aperture of either
    family with positive extents, a dot radius that is not negative
    and every outcome of the draws, the dot returned by [updateDot] is
    not outside the aperture expanded by the dot radius, except that a
    dot that was displaced out of the expanded aperture and reinserted
    in mode wrap on an elliptical aperture lies in the bounding box
    [center - extent, center + extent) on each axis; and a dot
    resampled by a teleport or a life-expiry respawn is not outside
    the aperture itself. *)
Theorem updateDot_lands :
  forall shape width height cx cy dot distance deltaTimeMs maxDotLife
         reinsertType dotRadius coherentDir reassignMovementTo o d',
    positiveExtents shape width height ->
    0 <= dotRadius ->
    fair o ->
    let aperture := createAperture shape width height cx cy in
    fst (updateDot dot distance deltaTimeMs maxDotLife aperture reinsertType
           dotRadius coherentDir reassignMovementTo o) = inr d' ->
    (withinMargin aperture dotRadius d'
     \/ (elliptical shape = true /\ reinsertType = "wrap"%string
         /\ dispatchRuns dot distance deltaTimeMs maxDotLife aperture
              dotRadius coherentDir reassignMovementTo o
         /\ inBox shape width height cx cy (Dot.x d', Dot.y d')))
    /\ (respawned dot distance deltaTimeMs maxDotLife coherentDir
          reassignMovementTo o ->
        withinMargin aperture 0 d').
Proof.
  intros shape width height cx cy dot distance deltaTimeMs maxDotLife
    reinsertType dotRadius coherentDir reassignMovementTo o d' Hpos Hm Ho
    aperture.
  rewrite updateDot_tick.
  pose proof (tick_fair dot distance deltaTimeMs maxDotLife coherentDir
                reassignMovementTo o Ho) as Hfair.
  unfold respawned, dispatchRuns.
  destruct (tick dot distance deltaTimeMs maxDotLife coherentDir
              reassignMovementTo o) as [updated o1 | moved dir o1].
  - cbn [fst]. intro H. injection H as <-.
    unfold withinMargin. cbn [Dot.with_position Dot.x Dot.y].
    split; [left|intros _].
    + apply (getRandomPosition_within_margin shape width height cx cy o1
               dotRadius Hpos Hfair Hm).
    + apply (getRandomPosition_within_margin shape width height cx cy o1
               0 Hpos Hfair). lra.
  - intro H. split.
    + destruct (reinsert_lands shape width height cx cy reinsertType dotRadius
                  (fst dir) (snd dir) moved o1 d' Hpos Hm Hfair H)
        as [Hin | [He [Hw [Hout Hbox]]]].
      * left. exact Hin.
      * right. split; [exact He|]. split; [exact Hw|]. split; [|exact Hbox].
        exists moved, dir, o1. split; [reflexivity | exact Hout].
    + intros [u [o2 Habs]]. discriminate.
Qed.

(** The counterexample tick: [cornerDot] moves 5 pixels to the right
    in a circle of diameter 200 centred at the origin, mode wrap, dot
    radius 2.  It is displaced to (75, 75), which is outside the
    circle of radius 102 and inside the bounding box, so that the wrap
    returns it unchanged. *)
Lemma cornerDot_tick :
  tick cornerDot 5 16 (-1) (1, 0) None halves
  = Displaced (Dot.with_position (Dot.with_lifeCount cornerDot (0 + 16))
                 (70 + 1 * 5, 75 + 0 * 5))
      (1, 0) halves.
Proof.
  unfold tick, lifeExpired. cbv zeta.
  destruct (gtb_reflect (-1) 0) as [Hn|_]; [exfalso; lra|].
  reflexivity.
Qed.

Lemma cornerDot_update :
  exists d',
    fst (updateDot cornerDot 5 16 (-1) (createAperture circle 200 200 0 0)
           "wrap" 2 (1, 0) None halves) = inr d'
    /\ Dot.x d' = 75 /\ Dot.y d' = 75.
Proof.
  rewrite updateDot_tick, cornerDot_tick.
  unfold reinsert. cbn [Dot.with_position Dot.x Dot.y fst snd].
  assert (Hout : isOutside (createAperture circle 200 200 0 0)
                   (70 + 1 * 5) (75 + 0 * 5) 2 = true).
  { rewrite createAperture_elliptical by reflexivity. cbv zeta. simpl.
    unfold ell_isOutside, horizontalAxisOf.
    match goal with
    | |- (?a >? 1) = true => destruct (gtb_reflect a 1) as [_|Hn]
    end; [reflexivity|].
    exfalso. apply Hn. lra. }
  rewrite Hout. cbn [String.eqb Ascii.eqb Bool.eqb andb fst ret].
  assert (Hpos : positiveExtents circle 200 200).
  { unfold positiveExtents, horizontalAxisOf, verticalAxisOf.
    unfold horizontalAxisOf. split; lra. }
  rewrite (wrap_fixed circle 200 200 0 0 (70 + 1 * 5) (75 + 0 * 5) Hpos).
  - eexists. split; [reflexivity|].
    cbn [Dot.with_position Dot.x Dot.y fst snd]. split; lra.
  - unfold inBox, horizontalAxisOf, verticalAxisOf, horizontalAxisOf.
    cbn [fst snd]. lra.
Qed.

(** In mode wrap on an elliptical aperture the dot returned for
    [cornerDot] was neither respawned nor teleported, and it is
    outside the circle expanded by the dot radius. *)
Lemma cornerDot_leaves_ellipse :
  let aperture := createAperture circle 200 200 0 0 in
  exists d',
    fst (updateDot cornerDot 5 16 (-1) aperture "wrap" 2 (1, 0) None halves)
    = inr d'
    /\ ~ respawned cornerDot 5 16 (-1) (1, 0) None halves
    /\ ~ withinMargin aperture 2 d'.
Proof.
  intro aperture.
  destruct cornerDot_update as [d' [Hret [Hx Hy]]].
  exists d'. split; [exact Hret|]. split.
  - intros [u [o1 Habs]]. rewrite cornerDot_tick in Habs. discriminate.
  - unfold withinMargin, aperture. rewrite Hx, Hy.
    rewrite createAperture_elliptical by reflexivity. cbv zeta. simpl.
    unfold ell_isOutside, horizontalAxisOf. intro Hin.
    match type of Hin with
    | (?a >? 1) = false => destruct (gtb_reflect a 1) as [_|Hn]
    end; [discriminate|].
    apply Hn. lra.
Qed.

(** On binary64 numbers, the 600 by 400 ellipse centred at (300, 200),
    mode opposite, dot radius 0: a coherent dot at (561, 101.5) moving
    1 px right is displaced to (562, 101.5), outside the ellipse, and
    the ray cast puts it at (38.906266831239236, 101.5), for which
    [isOutside] with margin 0 still answers true. *)
Lemma edgeDot_update :
  (let aperture := Double.createAperture ellipse 600 400 300 200 in
   let dot := Double.Dot.mk 561 101.5 0 0 0 coherent in
   let o := Double.draws [] in
   fst (Double.updateDot dot 1 16 (-1) aperture "opposite" 0 (1, 0) None o)
   = inr (Double.Dot.mk 0x1.374008d30cfap+5 101.5 0 0 16 coherent)
   /\ Double.isOutside aperture 0x1.374008d30cfap+5 101.5 0 = true
   /\ Double.lifeExpired dot 16 (-1) = false)%float.
Proof. vm_compute. repeat split; reflexivity. Qed.

(** C2 as stated fails.  By design, in mode wrap on an elliptical
    aperture: the dot returned for [cornerDot] was neither respawned
    nor teleported, and it is outside the circle expanded by the dot
    radius.  And on binary64 numbers, in mode opposite with dot radius
    0: the dot returned for (561, 101.5) on the 600 by 400 ellipse was
    neither respawned (its life did not expire) nor teleported (it is
    coherent), and [isOutside] answers true at its position. *)
Lemma updateDot_leaves_aperture :
  (let aperture := createAperture circle 200 200 0 0 in
   exists d',
     fst (updateDot cornerDot 5 16 (-1) aperture "wrap" 2 (1, 0) None halves)
     = inr d'
     /\ ~ respawned cornerDot 5 16 (-1) (1, 0) None halves
     /\ ~ withinMargin aperture 2 d')
  /\ (let aperture := Double.createAperture ellipse 600 400 300 200 in
      let dot := Double.Dot.mk 561 101.5 0 0 0 coherent in
      exists d',
        fst (Double.updateDot dot 1 16 (-1) aperture "opposite" 0 (1, 0) None
               (Double.draws []))
        = inr d'
        /\ Double.Dot.assignedMovement dot = coherent
        /\ Double.lifeExpired dot 16 (-1) = false
        /\ Double.isOutside aperture (Double.Dot.x d') (Double.Dot.y d') 0
           = true)%float.
Proof.
  split; [exact cornerDot_leaves_ellipse|].
  cbv zeta. destruct edgeDot_update as [Hret [Hout Hlife]].
  eexists. split; [exact Hret|]. split; [reflexivity|].
  split; [exact Hlife | exact Hout].
Qed.

(** The amended C2 on the tick of [cornerDot]: the returned dot was
    displaced out of the expanded circle and is in its bounding box. *)
Lemma updateDot_lands_witness :
  let aperture := createAperture circle 200 200 0 0 in
  exists d',
    fst (updateDot cornerDot 5 16 (-1) aperture "wrap" 2 (1, 0) None halves)
    = inr d'
    /\ (withinMargin aperture 2 d'
        \/ (elliptical circle = true /\ "wrap"%string = "wrap"%string
            /\ dispatchRuns cornerDot 5 16 (-1) aperture 2 (1, 0) None halves
            /\ inBox circle 200 200 0 0 (Dot.x d', Dot.y d')))
    /\ (respawned cornerDot 5 16 (-1) (1, 0) None halves ->
        withinMargin aperture 0 d').
Proof.
  intro aperture.
  destruct cornerDot_update as [d' [Hret _]].
  exists d'. split; [exact Hret|].
  apply (updateDot_lands circle 200 200 0 0 cornerDot 5 16 (-1) "wrap" 2
           (1, 0) None halves d').
  - unfold positiveExtents, horizontalAxisOf, verticalAxisOf.
    unfold horizontalAxisOf. split; lra.
  - lra.
  - exact fair_halves.
  - exact Hret.
Defined.

(** ** RefreshCalibrator *)

Lemma plausible_iff (d : R) : plausible d = true <-> 0 < d < 500.
Proof.
  unfold plausible.
  destruct (gtb_reflect d 0); destruct (ltb_reflect d 500); simpl;
    split; intros; try discriminate; try reflexivity; lra.
Qed.

Lemma implausible_iff (d : R) : plausible d = false <-> (d <= 0 \/ 500 <= d).
Proof.
  unfold plausible.
  destruct (gtb_reflect d 0); destruct (ltb_reflect d 500); simpl;
    split; intros; try discriminate; try reflexivity; lra.
Qed.

(** An implausible delta leaves every reference as it was. *)
Lemma calibrate_discards (d : R) (r : Refs) :
  plausible d = false -> calibrate d r = r.
Proof. intro H. unfold calibrate. rewrite H. reflexivity. Qed.

Lemma feed_discards (deltas : list R) (r : Refs) :
  filter plausible deltas = [] -> feed deltas r = r.
Proof.
  revert r. induction deltas as [|d ds IH]; intros r Hf; [reflexivity|].
  simpl in Hf. destruct (plausible d) eqn:Hd; [discriminate|].
  unfold feed. simpl. rewrite calibrate_discards by exact Hd.
  apply IH. exact Hf.
Qed.

(** A plausible delta below the tenth is appended to the buffer. *)
Lemma calibrate_collects (d : R) (r : Refs) :
  plausible d = true -> isCalibrated r = false ->
  (S (List.length (frameIntervalsRef r)) < CALIBRATION_FRAME_COUNT)%nat ->
  calibrate d r = collecting (frameIntervalsRef r ++ [d]) r.
Proof.
  intros Hd Hc Hlen. unfold calibrate. rewrite Hd, Hc. cbn [negb].
  rewrite length_app. cbn [List.length].
  destruct (Nat.leb_spec CALIBRATION_FRAME_COUNT
              (List.length (frameIntervalsRef r) + 1)); [lia|].
  unfold collecting. rewrite Hc. reflexivity.
Qed.

(** The tenth plausible delta fires the calibration. *)
Lemma calibrate_fires (d : R) (r : Refs) :
  plausible d = true -> isCalibrated r = false ->
  (CALIBRATION_FRAME_COUNT <= S (List.length (frameIntervalsRef r)))%nat ->
  calibrate d r = calibratedOn (frameIntervalsRef r ++ [d]) r.
Proof.
  intros Hd Hc Hlen. unfold calibrate. rewrite Hd, Hc. cbn [negb].
  rewrite length_app. cbn [List.length].
  destruct (Nat.leb_spec CALIBRATION_FRAME_COUNT
              (List.length (frameIntervalsRef r) + 1)); [|lia].
  reflexivity.
Qed.

(** While fewer than ten plausible deltas have come, they are only
    collected. *)
Lemma feed_collects (deltas : list R) :
  forall r,
    isCalibrated r = false ->
    (List.length (frameIntervalsRef r)
     + List.length (filter plausible deltas) < CALIBRATION_FRAME_COUNT)%nat ->
    feed deltas r
    = collecting (frameIntervalsRef r ++ filter plausible deltas) r.
Proof.
  induction deltas as [|d ds IH]; intros r Hc Hsum.
  - cbn. rewrite app_nil_r. destruct r; reflexivity.
  - unfold feed. cbn [fold_left filter]. fold (feed ds (calibrate d r)).
    cbn [filter] in Hsum.
    destruct (plausible d) eqn:Hd.
    + cbn [List.length] in Hsum.
      rewrite calibrate_collects by (assumption || lia).
      rewrite IH.
      * cbn. rewrite <- app_assoc. reflexivity.
      * exact Hc.
      * cbn. rewrite length_app. cbn. lia.
    + rewrite calibrate_discards by exact Hd. apply IH; assumption.
Qed.

(** Feeding deltas to an uncalibrated calibrator whose buffer, with
    the plausible ones among them, holds exactly ten samples. *)
Lemma feed_reaches_ten (deltas : list R) :
  forall r,
    isCalibrated r = false ->
    (List.length (frameIntervalsRef r) < CALIBRATION_FRAME_COUNT)%nat ->
    (List.length (frameIntervalsRef r)
     + List.length (filter plausible deltas) = CALIBRATION_FRAME_COUNT)%nat ->
    feed deltas r
    = calibratedOn (frameIntervalsRef r ++ filter plausible deltas) r.
Proof.
  induction deltas as [|d ds IH]; intros r Hc Hlt Hsum.
  - simpl in Hsum. lia.
  - unfold feed. cbn [fold_left filter]. fold (feed ds (calibrate d r)).
    cbn [filter] in Hsum.
    destruct (plausible d) eqn:Hd.
    + cbn [List.length] in Hsum.
      destruct (Nat.eq_dec (S (List.length (frameIntervalsRef r)))
                  CALIBRATION_FRAME_COUNT) as [Hten|Hless].
      * rewrite calibrate_fires by (assumption || lia).
        rewrite feed_discards.
        -- destruct (filter plausible ds); [reflexivity | simpl in Hsum; lia].
        -- destruct (filter plausible ds); [reflexivity | simpl in Hsum; lia].
      * rewrite calibrate_collects by (assumption || lia).
        rewrite IH.
        -- cbn. rewrite <- app_assoc. reflexivity.
        -- exact Hc.
        -- cbn. rewrite length_app. cbn. lia.
        -- cbn. rewrite length_app. cbn. lia.
    + rewrite calibrate_discards by exact Hd. apply IH; assumption.
Qed.

(** *** The sort and the median *)

Lemma insert_by_permutation (a : R) (l : list R) :
  Permutation (a :: l) (insert_by (fun x y => x - y) a l).
Proof.
  induction l as [|b t IH]; simpl; [reflexivity|].
  destruct (leb_reflect (a - b) 0); [reflexivity|].
  rewrite perm_swap. constructor. exact IH.
Qed.

Lemma sort_by_permutation (l : list R) :
  Permutation l (sort_by (fun x y => x - y) l).
Proof.
  induction l as [|a t IH]; simpl; [constructor|].
  rewrite <- insert_by_permutation. constructor. exact IH.
Qed.

Lemma insert_by_sorted (a : R) (l : list R) :
  Sorted Rle l -> Sorted Rle (insert_by (fun x y => x - y) a l).
Proof.
  induction l as [|b t IH]; intro Hs; simpl.
  - repeat constructor.
  - destruct (leb_reflect (a - b) 0) as [Hle|Hgt].
    + constructor; [exact Hs|]. constructor. lra.
    + apply Sorted_inv in Hs. destruct Hs as [Ht Hb].
      constructor; [apply IH; exact Ht|].
      destruct t as [|c t']; simpl.
      * constructor. lra.
      * destruct (leb_reflect (a - c) 0); constructor; [lra|].
        apply HdRel_inv in Hb. exact Hb.
Qed.

Lemma sort_by_sorted (l : list R) : Sorted Rle (sort_by (fun x y => x - y) l).
Proof.
  induction l as [|a t IH]; simpl; [constructor|].
  apply insert_by_sorted. exact IH.
Qed.

(** Two ascending arrangements of the same numbers are equal. *)
Lemma sorted_unique (l1 : list R) :
  forall l2, Sorted Rle l1 -> Sorted Rle l2 -> Permutation l1 l2 -> l1 = l2.
Proof.
  induction l1 as [|a t1 IH]; intros l2 H1 H2 Hp.
  - apply Permutation_nil in Hp. symmetry. exact Hp.
  - destruct l2 as [|b t2].
    { symmetry in Hp. apply Permutation_nil in Hp. discriminate. }
    apply Sorted_StronglySorted in H1; [|intros x y z; apply Rle_trans].
    apply Sorted_StronglySorted in H2; [|intros x y z; apply Rle_trans].
    apply StronglySorted_inv in H1. destruct H1 as [Ht1 Ha].
    apply StronglySorted_inv in H2. destruct H2 as [Ht2 Hb].
    assert (Hab : a = b).
    { assert (Hin1 : In a (b :: t2)).
      { apply (Permutation_in a Hp). left. reflexivity. }
      assert (Hin2 : In b (a :: t1)).
      { apply (Permutation_in b (Permutation_sym Hp)). left. reflexivity. }
      rewrite Forall_forall in Ha, Hb.
      destruct Hin1 as [E|Hin1]; [symmetry; exact E|].
      destruct Hin2 as [E|Hin2]; [exact E|].
      apply Rle_antisym; [apply Ha; exact Hin2 | apply Hb; exact Hin1]. }
    subst b. f_equal.
    apply IH.
    + apply StronglySorted_Sorted. exact Ht1.
    + apply StronglySorted_Sorted. exact Ht2.
    + apply Permutation_cons_inv in Hp. exact Hp.
Qed.

(** The median of ten samples is the mean of the fifth and the sixth
    of their ascending arrangement. *)
Lemma median_of_ten (samples sorted : list R) :
  List.length samples = 10%nat ->
  Permutation samples sorted -> Sorted Rle sorted ->
  median samples = (nth 4 sorted 0 + nth 5 sorted 0) / 2.
Proof.
  intros Hlen Hp Hs. unfold median.
  assert (E : sort_by (fun a b => a - b) samples = sorted).
  { apply sorted_unique.
    - apply sort_by_sorted.
    - exact Hs.
    - rewrite <- sort_by_permutation. exact Hp. }
  rewrite E.
  rewrite <- (Permutation_length Hp), Hlen. reflexivity.
Qed.

Lemma scenario_plausible : filter plausible scenarioDeltas = scenarioDeltas.
Proof.
  unfold scenarioDeltas. cbn [filter].
  assert (H16 : plausible 16 = true) by (apply plausible_iff; lra).
  assert (H17 : plausible 17 = true) by (apply plausible_iff; lra).
  rewrite H16, H17. reflexivity.
Qed.

Lemma scenario_median : median scenarioDeltas = 16.5.
Proof.
  rewrite (median_of_ten scenarioDeltas
             [16; 16; 16; 16; 16; 17; 17; 17; 17; 17]).
  - cbn [nth]. lra.
  - reflexivity.
  - unfold scenarioDeltas.
    apply (proj2 (Permutation_count_occ Req_dec_T _ _)).
    intro x. cbn [count_occ].
    destruct (Req_dec_T 16 x); destruct (Req_dec_T 17 x); reflexivity.
  - repeat constructor; lra.
Qed.

(** C4.  A frame delta that is at most 0 or at least 500 ms leaves
    the references (buffer, estimate, flag) unchanged.  Starting from
    the mounted component (uncalibrated, empty buffer), the plausible
    deltas are collected and the calibrator stays uncalibrated while
    there are fewer than ten; once exactly ten have been fed the
    buffer holds them, the flag is set and the estimate is their
    median, the mean of the two middle values of their ascending
    arrangement.  The deltas
    16, 17, 16, 17, 16, 17, 16, 17, 16, 17 give the estimate 16.5 and
    the flag set. *)
Theorem calibration_after_ten_deltas :
  (forall d r, d <= 0 \/ 500 <= d -> calibrate d r = r)
  /\ (forall deltas,
        let samples := filter plausible deltas in
        let r := feed deltas mounted in
        (List.length samples < 10)%nat ->
        frameIntervalsRef r = samples
        /\ isCalibrated r = false
        /\ estimatedFrameIntervalRef r = None)
  /\ (forall deltas,
        let samples := filter plausible deltas in
        let r := feed deltas mounted in
        List.length samples = 10%nat ->
        frameIntervalsRef r = samples
        /\ isCalibrated r = true
        /\ estimatedFrameIntervalRef r = Some (median samples)
        /\ forall sorted,
             Permutation samples sorted -> Sorted Rle sorted ->
             median samples = (nth 4 sorted 0 + nth 5 sorted 0) / 2)
  /\ (estimatedFrameIntervalRef (feed scenarioDeltas mounted) = Some 16.5
      /\ isCalibrated (feed scenarioDeltas mounted) = true).
Proof.
  assert (Hten : forall deltas,
             List.length (filter plausible deltas) = 10%nat ->
             feed deltas mounted
             = calibratedOn (filter plausible deltas) mounted).
  { intros deltas Hlen.
    rewrite (feed_reaches_ten deltas mounted); try reflexivity.
    - cbn. unfold CALIBRATION_FRAME_COUNT. lia.
    - cbn. exact Hlen. }
  split; [|split; [|split]].
  - intros d r Hd. apply calibrate_discards. apply implausible_iff. exact Hd.
  - intros deltas samples r Hlen. unfold r.
    rewrite (feed_collects deltas mounted); [|reflexivity|exact Hlen].
    cbn. repeat split.
  - intros deltas samples r Hlen. unfold r. rewrite (Hten deltas Hlen).
    cbn. repeat split.
    intros sorted Hp Hs. apply median_of_ten; assumption.
  - rewrite Hten by (rewrite scenario_plausible; reflexivity).
    rewrite scenario_plausible. cbn. rewrite scenario_median.
    split; reflexivity.
Qed.

(** C4 on the scenario deltas preceded by a first frame of delta 0 and
    interrupted by a stall of 600 ms. *)
Lemma calibration_after_ten_deltas_witness :
  calibrate 600 mounted = mounted
  /\ isCalibrated
       (feed (0 :: 16 :: 17 :: 600 :: 16 :: 17 :: 16 :: 17 :: 16 :: 17
                :: 16 :: 17 :: []) mounted) = true.
Proof.
  split.
  - apply (proj1 calibration_after_ten_deltas 600 mounted). right. lra.
  - apply (proj1 (proj2 (proj2 calibration_after_ten_deltas))
             (0 :: 16 :: 17 :: 600 :: 16 :: 17 :: 16 :: 17 :: 16 :: 17
                :: 16 :: 17 :: [])).
    cbn [filter].
    assert (H16 : plausible 16 = true) by (apply plausible_iff; lra).
    assert (H17 : plausible 17 = true) by (apply plausible_iff; lra).
    assert (H0 : plausible 0 = false) by (apply implausible_iff; lra).
    assert (H600 : plausible 600 = false) by (apply implausible_iff; lra).
    rewrite H16, H17, H0, H600. reflexivity.
Defined.

(** ** TrialClock *)

Lemma calibrate_keeps_clock (d : R) (r : Refs) :
  startTimeRef (calibrate d r) = startTimeRef r
  /\ trialEndedRef (calibrate d r) = trialEndedRef r
  /\ stimulusHiddenRef (calibrate d r) = stimulusHiddenRef r.
Proof.
  unfold calibrate.
  destruct (plausible d); [|auto].
  destruct (negb (isCalibrated r)); [|cbn; auto].
  destruct (CALIBRATION_FRAME_COUNT <=? _)%nat; cbn; auto.
Qed.

Lemma hideStimulus_keeps_latch (p : Props) (c : R) (r : Refs) :
  trialEndedRef (fst (hideStimulus p c r)) = trialEndedRef r
  /\ ~ In (setTrialEnded true) (snd (hideStimulus p c r)).
Proof.
  unfold hideStimulus. cbv zeta.
  match goal with |- context [if ?b then _ else _] => destruct b end; cbn.
  - split; [reflexivity|]. intros [H|[]]. discriminate.
  - split; [reflexivity|]. intros [].
Qed.

(** The edge of [endTrial]: it fires exactly when the duration is
    positive, the latch is unset and the corrected time has reached
    the total; the latch is set afterwards if it was set before or the
    edge fired. *)
Lemma endTrial_edge (p : Props) (c : R) (r : Refs) :
  (In (setTrialEnded true) (snd (endTrial p c r))
   <-> (0 < duration p /\ trialEndedRef r = false
        /\ fixationTime p + duration p <= c))
  /\ (trialEndedRef (fst (endTrial p c r)) = true
      <-> (trialEndedRef r = true
           \/ In (setTrialEnded true) (snd (endTrial p c r)))).
Proof.
  unfold endTrial. cbv zeta.
  destruct (gtb_reflect (duration p) 0) as [Hd|Hd];
    destruct (trialEndedRef r) eqn:Hl;
    destruct (geb_reflect c (fixationTime p + duration p)) as [Hc|Hc];
    cbn; (split; split); intros;
    intuition (try discriminate; try congruence; try lra).
Qed.

(** One step: when the edge fires and what becomes of the latch. *)
Lemma step_edge (p : Props) (s : Step) (r : Refs) :
  (In (setTrialEnded true) (snd (step p s r))
   <-> (0 < duration p /\ trialEndedRef r = false
        /\ exists timestamp, s = Frame false timestamp
                             /\ reached p timestamp r))
  /\ (trialEndedRef (fst (step p s r)) = true
      <-> (trialEndedRef r = true
           \/ In (setTrialEnded true) (snd (step p s r)))).
Proof.
  destruct s as [[|] timestamp | now | rate].
  - cbn. split; split.
    + intros [].
    + intros [_ [_ [ts [E _]]]]. discriminate.
    + auto.
    + intros [H|[]]. exact H.
  - cbn [step]. unfold animate, checkTrialTiming, reached.
    set (r0 := calibrate (frameDeltaOf timestamp r) (countFrame timestamp r)).
    destruct (calibrate_keeps_clock (frameDeltaOf timestamp r)
                (countFrame timestamp r)) as [Hs [Hl _]].
    fold r0 in Hs, Hl. cbn in Hs, Hl. rewrite Hs.
    destruct (startTimeRef r) as [start|].
    + destruct (hideStimulus_keeps_latch p
                  (correctedElapsed timestamp start r0) r0) as [Hl1 Hn1].
      destruct (hideStimulus p (correctedElapsed timestamp start r0) r0)
        as [r1 hide]. cbn [fst snd] in Hl1, Hn1.
      destruct (endTrial_edge p (correctedElapsed timestamp start r0) r1)
        as [Hfire Hlatch].
      destruct (endTrial p (correctedElapsed timestamp start r0) r1)
        as [r2 stop]. cbn [fst snd] in *.
      rewrite Hl1, Hl in Hfire, Hlatch.
      assert (Hin : In (setTrialEnded true) (hide ++ stop)
                    <-> In (setTrialEnded true) stop).
      { rewrite in_app_iff. tauto. }
      rewrite Hin. split.
      * rewrite Hfire. split.
        -- intros [Hd [Hu Hc]]. repeat split; try assumption.
           exists timestamp. split; [reflexivity|].
           exists start. split; [reflexivity | exact Hc].
        -- intros [Hd [Hu [ts [E [st [Est Hc]]]]]].
           injection E as <-. injection Est as <-.
           repeat split; assumption.
      * exact Hlatch.
    + cbn [fst snd]. rewrite Hl. split; split.
      * intros [].
      * intros [_ [_ [ts [_ [st [Est _]]]]]]. discriminate.
      * auto.
      * intros [H|[]]. exact H.
  - cbn. split; split.
    + intros [].
    + intros [_ [_ [ts [E _]]]]. discriminate.
    + auto.
    + intros [H|[]]. exact H.
  - cbn [step fst snd]. unfold seedEstimate.
    destruct ((rate >=? 20) && (rate <=? 300)); cbn; (split; split);
      first [ intros [_ [_ [ts [E _]]]]; discriminate
            | intros [H|[]]; exact H
            | intro H; left; exact H
            | intros [] ].
Qed.

(** *** Executions of the frame loop *)

Lemma effectsAt_nil (p : Props) (r : Refs) (k : nat) : effectsAt p [] r k = [].
Proof. unfold effectsAt. cbn. destruct k; reflexivity. Qed.

Lemma effectsAt_head (p : Props) (s : Step) (rest : list Step) (r : Refs) :
  effectsAt p (s :: rest) r 0 = snd (step p s r).
Proof.
  unfold effectsAt. cbn [run].
  destruct (step p s r) as [r1 e]. destruct (run p rest r1) as [r2 later].
  reflexivity.
Qed.

Lemma effectsAt_tail (p : Props) (s : Step) (rest : list Step) (r : Refs)
    (k : nat) :
  effectsAt p (s :: rest) r (S k) = effectsAt p rest (fst (step p s r)) k.
Proof.
  unfold effectsAt. cbn [run].
  destruct (step p s r) as [r1 e]. cbn [fst].
  destruct (run p rest r1) as [r2 later]. reflexivity.
Qed.

Lemma firesAt_nil (p : Props) (r : Refs) (k : nat) : ~ firesAt p [] r k.
Proof. unfold firesAt. rewrite effectsAt_nil. intros []. Qed.

Lemma firesAt_head (p : Props) (s : Step) (rest : list Step) (r : Refs) :
  firesAt p (s :: rest) r 0 <-> In (setTrialEnded true) (snd (step p s r)).
Proof. unfold firesAt. rewrite effectsAt_head. reflexivity. Qed.

Lemma firesAt_tail (p : Props) (s : Step) (rest : list Step) (r : Refs)
    (k : nat) :
  firesAt p (s :: rest) r (S k) <-> firesAt p rest (fst (step p s r)) k.
Proof. unfold firesAt. rewrite effectsAt_tail. reflexivity. Qed.

Lemma dueAt_nil (p : Props) (r : Refs) (k : nat) : ~ dueAt p [] r k.
Proof. intros [ts [E _]]. destruct k; discriminate. Qed.

Lemma dueAt_head (p : Props) (s : Step) (rest : list Step) (r : Refs) :
  dueAt p (s :: rest) r 0
  <-> exists timestamp, s = Frame false timestamp /\ reached p timestamp r.
Proof.
  unfold dueAt. cbn. split; intros [ts [E H]]; exists ts; split;
    try exact H; congruence.
Qed.

Lemma dueAt_tail (p : Props) (s : Step) (rest : list Step) (r : Refs)
    (k : nat) :
  dueAt p (s :: rest) r (S k) <-> dueAt p rest (fst (step p s r)) k.
Proof. unfold dueAt. cbn. reflexivity. Qed.

(** Once the latch is set the edge does not fire, at any later step. *)
Lemma latch_blocks (p : Props) (steps : list Step) :
  forall r k, trialEndedRef r = true -> ~ firesAt p steps r k.
Proof.
  induction steps as [|s rest IH]; intros r k Hl.
  - apply firesAt_nil.
  - destruct (step_edge p s r) as [Hfire Hlatch].
    destruct k as [|k].
    + rewrite firesAt_head, Hfire. intros [_ [Hu _]]. congruence.
    + rewrite firesAt_tail. apply IH. apply Hlatch. left. exact Hl.
Qed.

(** The latch, once set, stays set. *)
Lemma latch_stays (p : Props) (steps : list Step) :
  forall r j k,
    (j <= k)%nat ->
    trialEndedRef (refsBefore p steps r j) = true ->
    trialEndedRef (refsBefore p steps r k) = true.
Proof.
  induction steps as [|s rest IH]; intros r j k Hjk Hl.
  - destruct j, k; exact Hl.
  - destruct (step_edge p s r) as [_ Hlatch].
    destruct j as [|j]; destruct k as [|k]; cbn in *; try lia.
    + exact Hl.
    + apply (IH _ 0%nat k); [lia|].
      destruct rest; cbn; apply Hlatch; left; exact Hl.
    + apply (IH _ j k); [lia | exact Hl].
Qed.

(** A firing step finds the latch unset and the time reached, and
    leaves the latch set. *)
Lemma firesAt_inv (p : Props) (steps : list Step) :
  forall r k,
    firesAt p steps r k ->
    0 < duration p
    /\ dueAt p steps r k
    /\ trialEndedRef (refsBefore p steps r k) = false
    /\ trialEndedRef (refsBefore p steps r (S k)) = true.
Proof.
  induction steps as [|s rest IH]; intros r k Hf.
  - exfalso. exact (firesAt_nil p r k Hf).
  - destruct (step_edge p s r) as [Hfire Hlatch].
    destruct k as [|k].
    + rewrite firesAt_head in Hf.
      destruct (proj1 Hfire Hf) as [Hd [Hu Hdue]].
      split; [exact Hd|]. split; [apply dueAt_head; exact Hdue|].
      split; [exact Hu|].
      cbn. destruct rest; cbn; apply Hlatch; right; exact Hf.
    + rewrite firesAt_tail in Hf.
      destruct (IH _ _ Hf) as [Hd [Hdue [Hu Hs]]].
      split; [exact Hd|]. split; [apply dueAt_tail; exact Hdue|].
      split; [exact Hu | exact Hs].
Qed.

(** The edge fires at most once in an execution. *)
Lemma fires_once (p : Props) (steps : list Step) :
  forall r j k, firesAt p steps r j -> firesAt p steps r k -> j = k.
Proof.
  induction steps as [|s rest IH]; intros r j k Hj Hk.
  - exfalso. exact (firesAt_nil p r j Hj).
  - destruct (step_edge p s r) as [_ Hlatch].
    destruct j as [|j]; destruct k as [|k]; [reflexivity | | |].
    + exfalso. rewrite firesAt_head in Hj. rewrite firesAt_tail in Hk.
      apply (latch_blocks p rest _ k) in Hk; [exact Hk|].
      apply Hlatch. right. exact Hj.
    + exfalso. rewrite firesAt_head in Hk. rewrite firesAt_tail in Hj.
      apply (latch_blocks p rest _ j) in Hj; [exact Hj|].
      apply Hlatch. right. exact Hk.
    + f_equal. rewrite firesAt_tail in Hj, Hk. exact (IH _ _ _ Hj Hk).
Qed.

(** From an unset latch and with a positive duration, the edge fires
    exactly at the first due step. *)
Lemma fires_first_due (p : Props) (steps : list Step) :
  0 < duration p ->
  forall r k,
    trialEndedRef r = false ->
    (firesAt p steps r k
     <-> (dueAt p steps r k /\ forall j, (j < k)%nat -> ~ dueAt p steps r j)).
Proof.
  intro Hd. induction steps as [|s rest IH]; intros r k Hu.
  - split.
    + intro Hf. exfalso. exact (firesAt_nil p r k Hf).
    + intros [Hdue _]. exfalso. exact (dueAt_nil p r k Hdue).
  - destruct (step_edge p s r) as [Hfire Hlatch].
    assert (H0 : firesAt p (s :: rest) r 0 <-> dueAt p (s :: rest) r 0).
    { rewrite firesAt_head, dueAt_head, Hfire. tauto. }
    destruct k as [|k].
    + rewrite H0. split; [|tauto].
      intro Hdue. split; [exact Hdue|]. intros j Hj. lia.
    + rewrite firesAt_tail, dueAt_tail.
      destruct (trialEndedRef (fst (step p s r))) eqn:Hl1.
      * assert (Hf0 : firesAt p (s :: rest) r 0).
        { rewrite firesAt_head.
          destruct (proj1 Hlatch eq_refl) as [Habs|Hin];
            [congruence | exact Hin]. }
        split.
        -- intro Hf. exfalso.
           exact (latch_blocks p rest _ k Hl1 Hf).
        -- intros [_ Hnone]. exfalso.
           apply (Hnone 0%nat); [lia|]. apply H0. exact Hf0.
      * rewrite (IH _ k Hl1). split.
        -- intros [Hdue Hnone]. split; [exact Hdue|].
           intros [|j] Hj.
           ++ rewrite <- H0, firesAt_head. intro Hin.
              assert (Habs : false = true)
                by (apply Hlatch; right; exact Hin).
              discriminate.
           ++ rewrite dueAt_tail. apply Hnone. lia.
        -- intros [Hdue Hnone]. split; [exact Hdue|].
           intros j Hj. rewrite <- dueAt_tail. apply Hnone. lia.
Qed.

(** With a duration that is not positive the edge never fires. *)
Lemma no_duration_no_edge (p : Props) (steps : list Step) (r : Refs) (k : nat) :
  duration p <= 0 -> ~ firesAt p steps r k.
Proof.
  intros Hd Hf. destruct (firesAt_inv p steps r k Hf) as [Hpos _]. lra.
Qed.

(** The edge as [animate] computes it, with the elapsed time counted
    from the stamp that [startTimeRef] holds at the frame.  In every
    execution of the frame loop: the trial-end edge fires only when
    [duration > 0], on a frame at which the time since that stamp plus
    the half-frame correction has reached [fixationTime + duration],
    with the latch unset before and set after; from an unset latch it
    fires on the first such frame; it fires at most once; and once the
    latch is set it does not fire again. *)
Theorem trial_end_edge_from_stamp :
  forall p steps r,
    (forall k, firesAt p steps r k ->
               0 < duration p
               /\ dueAt p steps r k
               /\ trialEndedRef (refsBefore p steps r k) = false
               /\ trialEndedRef (refsBefore p steps r (S k)) = true)
    /\ (duration p <= 0 -> forall k, ~ firesAt p steps r k)
    /\ (trialEndedRef r = false -> 0 < duration p ->
        forall k, firesAt p steps r k
                  <-> (dueAt p steps r k
                       /\ forall j, (j < k)%nat -> ~ dueAt p steps r j))
    /\ (forall j k, firesAt p steps r j -> firesAt p steps r k -> j = k)
    /\ (trialEndedRef r = true -> forall k, ~ firesAt p steps r k)
    /\ (forall j k, (j <= k)%nat ->
                    trialEndedRef (refsBefore p steps r j) = true ->
                    trialEndedRef (refsBefore p steps r k) = true).
Proof.
  intros p steps r.
  split; [intros k Hf; exact (firesAt_inv p steps r k Hf)|].
  split; [intros Hd k; apply no_duration_no_edge; exact Hd|].
  split; [intros Hu Hd k; apply fires_first_due; assumption|].
  split; [apply fires_once|].
  split; [intros Hl k; apply latch_blocks; exact Hl | apply latch_stays].
Qed.

(** *** The latch scenario *)

(** A frame that comes after a stall, before any calibration and
    before the total duration, only counts itself. *)
Lemma animate_quiet (p : Props) (timestamp start : R) (r : Refs) :
  startTimeRef r = Some start ->
  plausible (frameDeltaOf timestamp r) = false ->
  estimatedFrameIntervalRef r = None ->
  stimulusDuration p = None ->
  timestamp - start < fixationTime p + duration p ->
  animate p false timestamp r = (countFrame timestamp r, []).
Proof.
  intros Hs Hd He Hsd Hlt. unfold animate.
  rewrite calibrate_discards by exact Hd.
  unfold checkTrialTiming. cbn [countFrame startTimeRef]. rewrite Hs.
  unfold correctedElapsed, halfFrameCorrection.
  cbn [countFrame estimatedFrameIntervalRef]. rewrite He.
  unfold hideStimulus, endTrial. cbv zeta. rewrite Hsd.
  destruct (geb_reflect (timestamp - start + 0)
              (fixationTime p + duration p)) as [Hge|_]; [exfalso; lra|].
  rewrite !andb_false_r. reflexivity.
Qed.

Lemma reached_quiet (p : Props) (timestamp start : R) (r : Refs) :
  startTimeRef r = Some start ->
  plausible (frameDeltaOf timestamp r) = false ->
  estimatedFrameIntervalRef r = None ->
  (reached p timestamp r
   <-> fixationTime p + duration p <= timestamp - start).
Proof.
  intros Hs Hd He. unfold reached. rewrite Hs.
  rewrite calibrate_discards by exact Hd.
  unfold correctedElapsed, halfFrameCorrection.
  cbn [countFrame estimatedFrameIntervalRef]. rewrite He.
  split.
  - intros [st [E H]]. injection E as <-. lra.
  - intro H. exists start. split; [reflexivity | lra].
Qed.

Lemma stall_implausible (a b : R) : 500 <= a - b -> plausible (a - b) = false.
Proof. intro H. apply implausible_iff. right. exact H. Qed.

(** Reading the references of the latch scenario. *)
Ltac latch_refs :=
  try unfold frameDeltaOf;
  cbn [frameDeltaOf latchAfter600 latchAfter0 latchStarted countFrame
       setStart mounted lastFrameTimeRef startTimeRef
       estimatedFrameIntervalRef latchProps duration fixationTime
       stimulusDuration].

Lemma latch_refsBefore :
  refsBefore latchProps latchSteps mounted 1 = latchStarted
  /\ refsBefore latchProps latchSteps mounted 2 = latchAfter0
  /\ refsBefore latchProps latchSteps mounted 3 = latchAfter600.
Proof.
  assert (E2 : animate latchProps false 0 latchStarted = (latchAfter0, [])).
  { apply (animate_quiet latchProps 0 0 latchStarted); try reflexivity.
    - apply implausible_iff. left. latch_refs. lra.
    - latch_refs. lra. }
  assert (E3 : animate latchProps false 600 latchAfter0
               = (latchAfter600, [])).
  { apply (animate_quiet latchProps 600 0 latchAfter0); try reflexivity.
    - latch_refs. apply stall_implausible. lra.
    - latch_refs. lra. }
  split; [reflexivity|].
  split.
  - cbn [refsBefore latchSteps step fst]. fold latchStarted.
    rewrite E2. reflexivity.
  - cbn [refsBefore latchSteps step fst]. fold latchStarted.
    rewrite E2. cbn [fst]. rewrite E3. reflexivity.
Qed.

(** The latch scenario: with a duration of 1000 ms, no fixation and no
    calibration, the edge fires on the frame at 1200 ms, the first one
    at or past 1000 ms, and on no other step. *)
Lemma latch_scenario_edge :
  firesAt latchProps latchSteps mounted 3
  /\ (forall k, firesAt latchProps latchSteps mounted k -> k = 3%nat).
Proof.
  destruct (trial_end_edge_from_stamp latchProps latchSteps mounted)
    as [_ [_ [Hfirst [Honce _]]]].
  assert (Hd : 0 < duration latchProps) by (latch_refs; lra).
  destruct latch_refsBefore as [E1 [E2 E3]].
  assert (Hfires : firesAt latchProps latchSteps mounted 3).
  { apply (Hfirst eq_refl Hd 3%nat). split.
    - exists 1200. split; [reflexivity|]. rewrite E3.
      apply (reached_quiet latchProps 1200 0); try reflexivity.
      + latch_refs. apply stall_implausible. lra.
      + latch_refs. lra.
    - intros j Hj [ts [Hnth Hreach]].
      destruct j as [|[|[|j]]]; [| | |lia].
      + discriminate.
      + injection Hnth as <-. rewrite E1 in Hreach.
        apply (reached_quiet latchProps 0 0) in Hreach; try reflexivity.
        * revert Hreach. latch_refs. lra.
        * apply implausible_iff. left. latch_refs. lra.
      + injection Hnth as <-. rewrite E2 in Hreach.
        apply (reached_quiet latchProps 600 0) in Hreach; try reflexivity.
        * revert Hreach. latch_refs. lra.
        * latch_refs. apply stall_implausible. lra. }
  split; [exact Hfires|].
  intros k Hk. exact (Honce k 3%nat Hk Hfires).
Qed.

(** *** The start stamp of the component *)

Lemma State_eqb_refl (s : Component.State) : Component.State_eqb s s = true.
Proof. destruct s as [[|] [|] [|]]; reflexivity. Qed.

(** The effect of a frame 20 ms after the last one, on a running
    clock: before the total duration is reached (counted from the
    current stamp, with the half-frame correction of 10 ms) nothing
    is requested and the clock keeps running. *)
Lemma running_frame_quiet (p : Props) (start t now : R) (last : option R)
    (shown : bool) (c : Component.t) :
  stimulusDuration p = None ->
  Component.running start last shown c ->
  (last = None \/ exists l, last = Some l /\ t - l = 20) ->
  t - start + 10 < fixationTime p + duration p ->
  snd (Component.handle p (Component.AnimationFrame t now) c) = []
  /\ Component.running start (Some t) shown
       (fst (Component.handle p (Component.AnimationFrame t now) c)).
Proof.
  intros Hsd (Hs & Hl & Hh & He & (e & Hest & He20) & Hc & Hst) Hlast Hlt.
  destruct c as [r st]. cbn [Component.refs Component.state] in *.
  destruct r as [rs rl rc rh re ri rest rcal].
  cbn [startTimeRef lastFrameTimeRef stimulusHiddenRef trialEndedRef
       estimatedFrameIntervalRef isCalibrated] in *.
  subst rs rl rh re rest rcal st e.
  unfold Component.handle. cbn [Component.state Component.refs
                                 Component.trialEnded].
  unfold animate, frameDeltaOf, countFrame.
  cbn [lastFrameTimeRef startTimeRef frameCountRef stimulusHiddenRef
       trialEndedRef frameIntervalsRef estimatedFrameIntervalRef isCalibrated].
  assert (Hquiet : forall r0 : Refs,
            startTimeRef r0 = Some start ->
            stimulusHiddenRef r0 = false -> trialEndedRef r0 = false ->
            isCalibrated r0 = true ->
            (exists e, estimatedFrameIntervalRef r0 = Some e /\ e = 20) ->
            checkTrialTiming p t r0 = (r0, [])).
  { intros r0 Hs0 Hh0 He0 Hc0 (e & Hest0 & He0').
    unfold checkTrialTiming. rewrite Hs0.
    unfold correctedElapsed, halfFrameCorrection. rewrite Hest0, Hc0.
    unfold truthy. destruct (eqb_reflect e 0) as [Hz|_]; [lra|].
    cbn [andb negb]. unfold hideStimulus, endTrial. cbv zeta.
    rewrite Hsd, Hh0.
    destruct (geb_reflect (t - start + e * 0.5)
                (fixationTime p + duration p)) as [Hge|_]; [exfalso; lra|].
    rewrite !andb_false_r. reflexivity. }
  destruct Hlast as [-> | (l & -> & Hd)].
  - rewrite calibrate_discards
      by (apply implausible_iff; left; lra).
    match goal with
    | |- context [checkTrialTiming p t ?r0] =>
        rewrite (Hquiet r0)
          by first [reflexivity | exists 20; split; reflexivity]
    end.
    cbn [fold_left fst snd]. unfold Component.render.
    rewrite State_eqb_refl. split; [reflexivity|].
    unfold Component.running. cbn.
    repeat (split; [reflexivity|]). split; [|split; reflexivity].
    exists 20. split; reflexivity.
  - unfold calibrate.
    assert (Hp : plausible (t - l) = true) by (apply plausible_iff; lra).
    rewrite Hp. cbn [isCalibrated negb].
    assert (He : EMA_ALPHA * (t - l) + (1 - EMA_ALPHA) * 20 = 20)
      by (unfold EMA_ALPHA; lra).
    match goal with
    | |- context [checkTrialTiming p t ?r0] =>
        rewrite (Hquiet r0)
          by first [reflexivity | eexists; split; [reflexivity | exact He]]
    end.
    cbn [fold_left fst snd]. unfold Component.render.
    rewrite State_eqb_refl. split; [reflexivity|].
    unfold Component.running. cbn.
    repeat (split; [reflexivity|]). split; [|split; reflexivity].
    eexists. split; [reflexivity | exact He].
Qed.

(** The frame, 20 ms after the last one, at which the total duration
    counted from the current stamp is reached: both edges fire. *)
Lemma running_frame_fires (p : Props) (start t now l : R) (shown : bool)
    (c : Component.t) :
  stimulusDuration p = None ->
  0 < duration p -> 0 <= fixationTime p ->
  Component.running start (Some l) shown c ->
  t - l = 20 ->
  fixationTime p + duration p <= t - start + 10 ->
  snd (Component.handle p (Component.AnimationFrame t now) c)
  = [setStimulusVisible false; setTrialEnded true].
Proof.
  intros Hsd Hdur Hfix (Hs & Hl & Hh & He & (e & Hest & He20) & Hc & Hst)
    Hd Hge.
  destruct c as [r st]. cbn [Component.refs Component.state] in *.
  destruct r as [rs rl rc rh re ri rest rcal].
  cbn [startTimeRef lastFrameTimeRef stimulusHiddenRef trialEndedRef
       estimatedFrameIntervalRef isCalibrated] in *.
  subst rs rl rh re rest rcal st e.
  unfold Component.handle. cbn [Component.state Component.refs
                                 Component.trialEnded].
  unfold animate, frameDeltaOf, countFrame.
  cbn [lastFrameTimeRef startTimeRef frameCountRef stimulusHiddenRef
       trialEndedRef frameIntervalsRef estimatedFrameIntervalRef isCalibrated].
  unfold calibrate.
  assert (Hp : plausible (t - l) = true) by (apply plausible_iff; lra).
  rewrite Hp. cbn [isCalibrated negb].
  unfold checkTrialTiming. cbn [startTimeRef].
  unfold correctedElapsed, halfFrameCorrection.
  cbn [estimatedFrameIntervalRef isCalibrated].
  set (e := EMA_ALPHA * (t - l) + (1 - EMA_ALPHA) * 20).
  assert (He : e = 20) by (unfold e, EMA_ALPHA; lra).
  unfold truthy. destruct (eqb_reflect e 0) as [Hz|_]; [lra|].
  cbn [andb negb]. unfold hideStimulus, endTrial. cbv zeta.
  rewrite Hsd. cbn [stimulusHiddenRef trialEndedRef].
  destruct (geb_reflect (t - start + e * 0.5) (fixationTime p + duration p))
    as [_|Hn]; [|exfalso; lra].
  destruct (gtb_reflect (fixationTime p + duration p) 0) as [_|Hn];
    [|exfalso; lra].
  destruct (gtb_reflect (duration p) 0) as [_|Hn]; [|exfalso; lra].
  cbn. reflexivity.
Qed.

(** The expiry of the fixation timer on a running clock that is still
    in the fixation: the dots are shown from now on, and the start
    time is stamped again. *)
Lemma running_timeout (p : Props) (start now : R) (last : option R)
    (c : Component.t) :
  0 < fixationTime p ->
  Component.running start last false c ->
  Component.running now last true
    (fst (Component.handle p (Component.FixationTimeout now) c)).
Proof.
  intros Hfix (Hs & Hl & Hh & He & Hest & Hc & Hst).
  unfold Component.handle.
  destruct (leb_reflect (fixationTime p) 0) as [Hle|_]; [exfalso; lra|].
  cbn [fst]. unfold Component.render. rewrite Hst. cbn.
  repeat split; assumption.
Qed.

Lemma after_app (p : Props) (l1 l2 : list Component.Event) (c : Component.t) :
  Component.after p (l1 ++ l2) c
  = Component.after p l2 (Component.after p l1 c).
Proof. unfold Component.after. apply fold_left_app. Qed.

(** A run of frames 20 ms apart on a running clock, the last of them
    before the total duration is reached: no frame requests anything
    and the clock keeps running. *)
Lemma running_frames_quiet (p : Props) (start : R) (shown : bool) (n : nat) :
  stimulusDuration p = None ->
  forall (from : R) (last : option R) (c : Component.t),
    Component.running start last shown c ->
    (last = None \/ exists l, last = Some l /\ from - l = 20) ->
    from + 20 * INR n - start + 10 < fixationTime p + duration p ->
    Forall (fun effects => effects = [])
      (Component.effects p (Component.frames from (S n)) c)
    /\ exists l,
         l = from + 20 * INR n
         /\ Component.running start (Some l) shown
              (Component.after p (Component.frames from (S n)) c).
Proof.
  intro Hsd. induction n as [|n IH]; intros from last c Hrun Hlast Hlt.
  - cbn [INR] in Hlt.
    destruct (running_frame_quiet p start from from last shown c Hsd Hrun
                Hlast) as [Hq Hr]; [lra|].
    cbn [Component.frames Component.effects Component.after fold_left].
    split; [constructor; [exact Hq | constructor]|].
    exists from. split; [cbn [INR]; lra | exact Hr].
  - rewrite S_INR in Hlt.
    pose proof (pos_INR n) as Hn.
    assert (Hdp : 0 <= 20 * INR n) by lra.
    destruct (running_frame_quiet p start from from last shown c Hsd Hrun
                Hlast) as [Hq Hr]; [lra|].
    destruct (IH (from + 20) (Some from)
                (fst (Component.handle p (Component.AnimationFrame from from)
                        c)) Hr) as [Hall (l & Hl & Hrun')].
    + right. exists from. split; [reflexivity | lra].
    + lra.
    + split.
      * change (Component.frames from (S (S n)))
          with (Component.AnimationFrame from from
                :: Component.frames (from + 20) (S n)).
        cbn [Component.effects]. constructor; [exact Hq | exact Hall].
      * exists l. split; [rewrite S_INR; lra | exact Hrun'].
Qed.

Lemma effects_length (p : Props) (n : nat) :
  forall (from : R) (c : Component.t),
    List.length (Component.effects p (Component.frames from n) c) = n.
Proof.
  induction n as [|n IH]; intros from c; [reflexivity|].
  cbn [Component.frames Component.effects List.length]. now rewrite IH.
Qed.

(** The default trial, frame by frame: the clock runs with the start
    stamp of the fixation timer, 500 ms, and the last frame at 1470
    ms. *)
Lemma defaultTrial_running :
  exists l, l = 1470 /\ Component.running 500 (Some l) true defaultTrial.
Proof.
  assert (Hsd : stimulusDuration defaultTiming = None) by reflexivity.
  assert (H0 : Component.running 0 None false
                 (Component.mount defaultTiming (Some 50) 0)).
  { unfold Component.mount, Component.running, seedEstimate, defaultTiming.
    cbn [fixationTime].
    destruct (geb_reflect 50 20) as [_|Hn]; [|exfalso; lra].
    destruct (leb_reflect 50 300) as [_|Hn]; [|exfalso; lra].
    destruct (leb_reflect 500 0) as [Hle|_]; [exfalso; lra|].
    cbn. repeat split. eexists. split; [reflexivity | lra]. }
  unfold defaultTrial. rewrite !after_app.
  destruct (running_frames_quiet defaultTiming 0 false 24 Hsd 10 None _ H0)
    as [_ (l1 & Hl1 & H1)].
  { left. reflexivity. }
  { cbn [INR defaultTiming fixationTime duration]. lra. }
  pose proof (running_timeout defaultTiming 0 500 (Some l1) _
                ltac:(cbn; lra) H1) as H2.
  destruct (running_frames_quiet defaultTiming 500 true 48 Hsd 510 (Some l1)
              _ H2) as [_ (l2 & Hl2 & H3)].
  { right. exists l1. split; [reflexivity|]. rewrite Hl1. cbn [INR]. lra. }
  { cbn [INR defaultTiming fixationTime duration]. lra. }
  exists l2. split; [rewrite Hl2; cbn [INR]; lra | exact H3].
Qed.

(** C5 fails on the component's defaults ([fixationTime = 500],
    [duration = 1000]).  The trial is mounted at 0 ms on a display of
    50 Hz, whose frames come at 10, 30, ... ms; the estimate is 20 ms,
    the half-frame correction 10 ms.  The frame at 1490 ms is the
    first whose corrected elapsed time reaches
    [fixationTime + duration = 1500] (no timestamp before 1490 does),
    the duration is positive and the latch is unset: there the edge of
    the claim fires.  In the code the expiry of the fixation timer has
    stamped the start time again, at 500 ms, so that neither the frame
    at 1490 ms nor any of the 24 frames after it requests anything,
    and the edge fires at 1990 ms, [fixationTime] late. *)
Theorem trial_end_edge_late :
  (exists interval,
     calibratedInterval (Component.refs defaultTrial) = Some interval
     /\ interval = 20
     /\ spec_due defaultTiming 0 1490 (Some interval)
     /\ (forall timestamp,
           timestamp < 1490 ->
           ~ spec_due defaultTiming 0 timestamp (Some interval)))
  /\ 0 < duration defaultTiming
  /\ trialEndedRef (Component.refs defaultTrial) = false
  /\ startTimeRef (Component.refs defaultTrial) = Some 500
  /\ List.length
       (Component.effects defaultTiming (Component.frames 1490 25)
          defaultTrial) = 25%nat
  /\ Forall (fun effects => effects = [])
       (Component.effects defaultTiming (Component.frames 1490 25)
          defaultTrial)
  /\ snd (Component.handle defaultTiming
            (Component.AnimationFrame 1990 1990)
            (Component.after defaultTiming (Component.frames 1490 25)
               defaultTrial))
     = [setStimulusVisible false; setTrialEnded true].
Proof.
  assert (Hsd : stimulusDuration defaultTiming = None) by reflexivity.
  destruct defaultTrial_running as (l & Hl & Hrun).
  pose proof Hrun as (Hs & _ & _ & He & (e & Hest & He20) & Hc & _).
  split.
  { exists e. unfold calibratedInterval. rewrite Hc.
    split; [exact Hest|]. split; [exact He20|].
    unfold spec_due, spec_correctedElapsed, defaultTiming.
    cbn [fixationTime duration]. split; [lra|]. intros timestamp Hlt. lra. }
  split; [cbn; lra|]. split; [exact He|]. split; [exact Hs|].
  split; [apply effects_length|].
  destruct (running_frames_quiet defaultTiming 500 true 24 Hsd 1490 (Some l)
              _ Hrun) as [Hall (l' & Hl' & Hrun')].
  { right. exists l. split; [reflexivity | lra]. }
  { cbn [INR defaultTiming fixationTime duration]. lra. }
  split; [exact Hall|].
  apply (running_frame_fires defaultTiming 500 1990 1990 l' true _ Hsd).
  - cbn. lra.
  - cbn. lra.
  - exact Hrun'.
  - rewrite Hl'. cbn [INR]. lra.
  - cbn [defaultTiming fixationTime duration]. lra.
Qed.

(* ================================================================== *)
(** * Further properties *)
(* ================================================================== *)

(** ** ApertureGeometry on binary64 numbers *)

(** What the theorems of this part state in exact arithmetic holds on
    binary64 numbers up to rounding only.  On the 600 by 400 ellipse
    centred at (300, 200): mirroring (0.1, 200) twice through the
    centre gives (0.10000000000002274, 200); the dot at (605, 420) is
    outside and the point it is clamped to,
    (96.3773672925833, 53.12465837497811), is outside as well. *)
Lemma simple_policy_rounds :
  (let aperture := Double.createAperture ellipse 600 400 300 200 in
   let dot := Double.Dot.mk 0x1.999999999999ap-4 200 0 0 0 coherent in
   let mirrored := Double.getOppositePositionSimple aperture dot in
   let outer := Double.Dot.mk 605 420 0 0 0 coherent in
   mirrored = (0x1.2bf3333333333p+9, 200)
   /\ Double.getOppositePositionSimple aperture
        (Double.Dot.mk (fst mirrored) (snd mirrored) 0 0 0 coherent)
      = (0x1.999999999ap-4, 200)
   /\ Double.isOutside aperture 605 420 0 = true
   /\ Double.getOppositePositionSimple aperture outer
      = (0x1.81826c9250e6cp+6, 0x1.a8ff4ce3dda0cp+5)
   /\ Double.isOutside aperture 0x1.81826c9250e6cp+6 0x1.a8ff4ce3dda0cp+5 0
      = true)%float.
Proof. vm_compute. repeat split; reflexivity. Qed.

(** On the 600 by 400 rectangle centred at (300, 200), the slab method
    returns the dot at (605, 50), travelling along (4, 3), at
    (538.3333333333334, -7.105427357601002e-15): next to the edge
    line [y = 0], not on it. *)
Lemma slab_method_rounds :
  (Double.getOppositePosition
     (Double.createAperture rectangle 600 400 300 200)
     (Double.Dot.mk 605 50 0 0 0 coherent) (Some 4) (Some 3)
   = (0x1.0d2aaaaaaaaabp+9, - 0x1p-47))%float.
Proof. vm_compute. reflexivity. Qed.

(** On a circle of diameter 500 centred at (640, 360), wrapping
    (389.99999999999994, 360) gives (890, 360), and wrapping that
    gives (390, 360): wrapping twice is not wrapping once. *)
Lemma wrap_twice_rounds :
  (let aperture := Double.createAperture circle 500 500 640 360 in
   Double.wrap aperture 0x1.85fffffffffffp+8 360 = (890, 360)
   /\ Double.wrap aperture 890 360 = (390, 360))%float.
Proof. vm_compute. split; reflexivity. Qed.

(** On a rectangle 599.4 wide centred at (300, 200), with dot radius 0:
    the dot on the left edge, at x = 0.30000000000001137, moves
    0.8282452199024123 to the right as [coherent] and the same
    distance to the left as [opposite]; the sum and the difference
    round, the dot comes back at x = 0.30000000000001126, left of the
    edge, and is reinserted on the right edge, at
    x = 599.7. *)
Lemma there_and_back_rounds :
  (let aperture :=
     Double.createAperture rectangle 0x1.2bb3333333333p+9 400 300 200 in
   let dot := Double.Dot.mk 0x1.33333333334p-2 200 0 0 0 coherent in
   let there := Double.Dot.mk 0x1.20d4adc15967ap+0 200 0 0 16 coherent in
   Double.isOutside aperture (Double.Dot.x dot) (Double.Dot.y dot) 0 = false
   /\ fst (Double.updateDot dot 0x1.a80fc1e9192f5p-1 16 (-1) aperture
             "opposite" 0 (1, 0) (Some coherent) (Double.draws []))
      = inr there
   /\ fst (Double.updateDot there 0x1.a80fc1e9192f5p-1 16 (-1) aperture
             "opposite" 0 (1, 0) (Some opposite) (Double.draws []))
      = inr (Double.Dot.mk 0x1.2bd999999999ap+9 200 0 0 32 opposite))%float.
Proof. vm_compute. repeat split; reflexivity. Qed.

(** ** ApertureGeometry *)

Lemma positive_600_400 (shape : ApertureShape) : positiveExtents shape 600 400.
Proof.
  unfold positiveExtents, verticalAxisOf, horizontalAxisOf.
  destruct shape; split; lra.
Qed.

(** X1.  Enlarging the margin never turns a point that passes the
    outside test into one that fails it: for positive extents and
    margins [0 <= m <= m'], a point not outside at margin [m] is not
    outside at margin [m'], for both families. *)
Theorem isOutside_margin_monotone :
  forall shape width height cx cy x y m m',
    positiveExtents shape width height ->
    0 <= m <= m' ->
    let aperture := createAperture shape width height cx cy in
    isOutside aperture x y m = false ->
    isOutside aperture x y m' = false.
Proof.
  intros shape width height cx cy x y m m' [Hh Hv] [Hm Hm'].
  destruct (elliptical shape) eqn:E.
  - rewrite createAperture_elliptical by exact E. cbv zeta. simpl.
    set (h := horizontalAxisOf width) in *.
    set (v := verticalAxisOf shape width height) in *.
    unfold ell_isOutside.
    pose proof (scaled_square_le (x - cx) (h + m) (m' - m)) as Hx.
    pose proof (scaled_square_le (y - cy) (v + m) (m' - m)) as Hy.
    replace (h + m + (m' - m)) with (h + m') in Hx by ring.
    replace (v + m + (m' - m)) with (v + m') in Hy by ring.
    specialize (Hx ltac:(lra) ltac:(lra)).
    specialize (Hy ltac:(lra) ltac:(lra)).
    destruct (gtb_reflect
                ((x - cx) / (h + m) * ((x - cx) / (h + m))
                 + (y - cy) / (v + m) * ((y - cy) / (v + m))) 1);
      [discriminate|].
    intros _.
    destruct (gtb_reflect
                ((x - cx) / (h + m') * ((x - cx) / (h + m'))
                 + (y - cy) / (v + m') * ((y - cy) / (v + m'))) 1);
      [lra | reflexivity].
  - rewrite createAperture_rectangular by exact E. cbv zeta. simpl.
    unfold rect_isOutside. cases_num; simpl; intros; try discriminate;
      try reflexivity; lra.
Qed.

(** X1 at the point (598, 200) of a 600 by 400 ellipse centred at
    (300, 200), margins 0 and 3. *)
Lemma isOutside_margin_monotone_witness :
  isOutside (createAperture ellipse 600 400 300 200) 598 200 3 = false.
Proof.
  apply (isOutside_margin_monotone ellipse 600 400 300 200 598 200 0 3).
  - apply positive_600_400.
  - lra.
  - rewrite createAperture_elliptical by reflexivity. cbv zeta. simpl.
    unfold ell_isOutside, horizontalAxisOf.
    match goal with
    | |- (?a >? 1) = false => destruct (gtb_reflect a 1) as [Hgt|_]
    end; [|reflexivity].
    exfalso. revert Hgt. apply Rle_not_gt.
    replace ((598 - 300) / (600 / 2 + 0)) with (298 / 300) by field.
    replace ((200 - 200) / (400 / 2 + 0)) with 0 by field.
    lra.
Defined.

(** X2.  On the rectangular family with positive extents,
    [getOppositePositionSimple] flips each axis on its own: a
    coordinate already between the two edges is kept, a coordinate
    beyond an edge is put on the opposite edge; the result is never
    outside the rectangle, and a dot inside the rectangle is returned
    where it is. *)
Theorem rect_simple_flips_out_of_range_axes :
  forall shape width height cx cy dot,
    elliptical shape = false ->
    positiveExtents shape width height ->
    let aperture := createAperture shape width height cx cy in
    let h := horizontalAxisOf width in
    let v := verticalAxisOf shape width height in
    let p := getOppositePositionSimple aperture dot in
    (cx - h <= Dot.x dot <= cx + h -> fst p = Dot.x dot)
    /\ (Dot.x dot < cx - h -> fst p = cx + h)
    /\ (cx + h < Dot.x dot -> fst p = cx - h)
    /\ (cy - v <= Dot.y dot <= cy + v -> snd p = Dot.y dot)
    /\ (Dot.y dot < cy - v -> snd p = cy + v)
    /\ (cy + v < Dot.y dot -> snd p = cy - v)
    /\ isOutside aperture (fst p) (snd p) 0 = false.
Proof.
  intros shape width height cx cy dot E [Hh Hv].
  pose proof (rect_simple_inside _ _ cx cy Hh Hv dot) as [Hx Hy].
  rewrite createAperture_rectangular by exact E. cbv zeta. simpl.
  set (h := horizontalAxisOf width) in *.
  set (v := verticalAxisOf shape width height) in *.
  split; [|split; [|split; [|split; [|split; [|split]]]]].
  7: { apply rect_inside; try assumption; lra. }
  all: unfold rect_getOppositePositionSimple; cbv zeta; cbn [fst snd];
    intro H; cases_num; try reflexivity; lra.
Qed.

(** X2 on a 600 by 400 rectangle centred at (300, 200): a dot that
    left through the right edge at height 250 comes back on the left
    edge at the same height. *)
Lemma rect_simple_flips_out_of_range_axes_witness :
  getOppositePositionSimple (createAperture rectangle 600 400 300 200)
    (dotAt 604 250)
  = (300 - horizontalAxisOf 600, 250).
Proof.
  destruct (rect_simple_flips_out_of_range_axes rectangle 600 400 300 200
              (dotAt 604 250) eq_refl (positive_600_400 rectangle))
    as [_ [_ [Hx [Hy _]]]].
  rewrite (surjective_pairing
             (getOppositePositionSimple
                (createAperture rectangle 600 400 300 200) (dotAt 604 250))).
  f_equal.
  - apply Hx. unfold horizontalAxisOf. cbn. lra.
  - apply Hy. unfold verticalAxisOf. cbn. lra.
Defined.

Section Mirror.

Variables h v cx cy : R.
Hypothesis h_pos : 0 < h.
Hypothesis v_pos : 0 < v.

(** The normalised distance of the mirrored point is that of the dot. *)
Lemma mirrored_form (x y : R) :
  (2 * cx - x - cx) / h * ((2 * cx - x - cx) / h)
  + (2 * cy - y - cy) / v * ((2 * cy - y - cy) / v)
  = (x - cx) / h * ((x - cx) / h) + (y - cy) / v * ((y - cy) / v).
Proof. field. lra. Qed.

(** A dot of the closed ellipse is mirrored through the centre. *)
Lemma ell_simple_mirror (dot : Dot.t) :
  (Dot.x dot - cx) / h * ((Dot.x dot - cx) / h)
  + (Dot.y dot - cy) / v * ((Dot.y dot - cy) / v) <= 1 ->
  ell_getOppositePositionSimple h v cx cy dot
  = (2 * cx - Dot.x dot, 2 * cy - Dot.y dot).
Proof.
  intro Hin. unfold ell_getOppositePositionSimple. cbv zeta.
  rewrite mirrored_form.
  match goal with
  | |- context [sqrt ?u >? 1] =>
      destruct (gtb_reflect (sqrt u) 1) as [Hgt|_]; [|reflexivity];
      assert (Hle : sqrt u <= sqrt 1) by (apply sqrt_le_1_alt; exact Hin)
  end.
  rewrite sqrt_1 in Hle. exfalso. lra.
Qed.

(** A dot outside the ellipse is put on the ellipse, on the far side
    of the centre. *)
Lemma ell_simple_clamp (dot : Dot.t) :
  1 < (Dot.x dot - cx) / h * ((Dot.x dot - cx) / h)
      + (Dot.y dot - cy) / v * ((Dot.y dot - cy) / v) ->
  let p := ell_getOppositePositionSimple h v cx cy dot in
  (fst p - cx) / h * ((fst p - cx) / h)
  + (snd p - cy) / v * ((snd p - cy) / v) = 1
  /\ exists s, 0 < s < 1
               /\ fst p - cx = s * (cx - Dot.x dot)
               /\ snd p - cy = s * (cy - Dot.y dot).
Proof.
  intro Hout. unfold ell_getOppositePositionSimple. cbv zeta.
  set (mx := (2 * cx - Dot.x dot - cx) / h).
  set (my := (2 * cy - Dot.y dot - cy) / v).
  assert (Hform : mx * mx + my * my
                  = (Dot.x dot - cx) / h * ((Dot.x dot - cx) / h)
                    + (Dot.y dot - cy) / v * ((Dot.y dot - cy) / v))
    by apply mirrored_form.
  assert (Hnn : 0 <= mx * mx + my * my) by nra.
  pose proof (sqrt_sqrt _ Hnn) as Hsq.
  assert (H1 : sqrt 1 < sqrt (mx * mx + my * my))
    by (apply sqrt_lt_1_alt; lra).
  rewrite sqrt_1 in H1.
  set (dist := sqrt (mx * mx + my * my)) in *.
  destruct (gtb_reflect dist 1) as [_|Hn]; [|exfalso; lra].
  cbn [fst snd]. split.
  - replace ((cx + mx / dist * h - cx) / h) with (mx / dist) by (field; lra).
    replace ((cy + my / dist * v - cy) / v) with (my / dist) by (field; lra).
    replace (mx / dist * (mx / dist) + my / dist * (my / dist))
      with ((mx * mx + my * my) / (dist * dist)) by (field; lra).
    rewrite <- Hsq. field. nra.
  - exists (/ dist). split.
    + split.
      * apply Rinv_0_lt_compat. lra.
      * rewrite <- Rinv_1. apply Rinv_lt_contravar; lra.
    + unfold mx, my. split; field; lra.
Qed.

End Mirror.

(** X3.  In exact arithmetic, on the elliptical family with positive
    extents, [getOppositePositionSimple] mirrors a dot of the closed
    ellipse through the centre, so that applying it twice gives the
    dot's position back; a dot outside the ellipse is put exactly on
    the ellipse, on the far side of the centre on the line through the
    centre and the dot.  (On binary64 numbers neither holds exactly:
    see [simple_policy_rounds].) *)
Theorem ell_simple_mirror_or_clamp :
  forall shape width height cx cy dot,
    elliptical shape = true ->
    positiveExtents shape width height ->
    let aperture := createAperture shape width height cx cy in
    let p := getOppositePositionSimple aperture dot in
    (ellipseForm shape width height cx cy (Dot.x dot, Dot.y dot) <= 1 ->
     p = (2 * cx - Dot.x dot, 2 * cy - Dot.y dot)
     /\ getOppositePositionSimple aperture (dotAt (fst p) (snd p))
        = (Dot.x dot, Dot.y dot))
    /\ (1 < ellipseForm shape width height cx cy (Dot.x dot, Dot.y dot) ->
        ellipseForm shape width height cx cy p = 1
        /\ exists s, 0 < s < 1
                     /\ fst p - cx = s * (cx - Dot.x dot)
                     /\ snd p - cy = s * (cy - Dot.y dot)).
Proof.
  intros shape width height cx cy dot E [Hh Hv].
  rewrite createAperture_elliptical by exact E. cbv zeta. simpl.
  unfold ellipseForm. cbn [fst snd].
  set (h := horizontalAxisOf width) in *.
  set (v := verticalAxisOf shape width height) in *.
  split.
  - intro Hin.
    rewrite (ell_simple_mirror h v cx cy Hh Hv dot Hin). split; [reflexivity|].
    cbn [fst snd].
    rewrite (ell_simple_mirror h v cx cy Hh Hv).
    + unfold dotAt. cbn [Dot.x Dot.y]. f_equal; ring.
    + unfold dotAt. cbn [Dot.x Dot.y].
      rewrite (mirrored_form h v cx cy Hh Hv). exact Hin.
  - intro Hout. apply (ell_simple_clamp h v cx cy Hh Hv dot Hout).
Qed.

(** X3 on a 600 by 400 ellipse centred at (300, 200): the dot at
    (400, 250), inside, is mirrored to (200, 150). *)
Lemma ell_simple_mirror_or_clamp_witness :
  getOppositePositionSimple (createAperture ellipse 600 400 300 200)
    (dotAt 400 250)
  = (2 * 300 - 400, 2 * 200 - 250).
Proof.
  apply (ell_simple_mirror_or_clamp ellipse 600 400 300 200 (dotAt 400 250)
           eq_refl (positive_600_400 ellipse)).
  unfold ellipseForm, horizontalAxisOf, verticalAxisOf, dotAt.
  cbn [fst snd Dot.x Dot.y].
  replace ((400 - 300) / (600 / 2)) with (1 / 3) by field.
  replace ((250 - 200) / (400 / 2)) with (1 / 4) by field.
  lra.
Defined.

Section RayCasts.

Variables h v cx cy : R.
Hypothesis h_pos : 0 < h.
Hypothesis v_pos : 0 < v.

(** When none of its guards applies, the elliptical ray cast yields a
    point. *)
Lemma ell_rayCast_some (dot : Dot.t) (ux uy : R) :
  ~ ell_degenerate h v cx cy dot (Some ux) (Some uy) ->
  exists p, ell_rayCast h v cx cy dot (Some ux) (Some uy) = Some p.
Proof.
  unfold ell_degenerate, ell_rayCast, ell_root, ell_discriminant. cbv zeta.
  intro Hnd.
  destruct (gtb_reflect (ux * ux + uy * uy) 1e-10) as [Hmag|Hmag];
    [|exfalso; apply Hnd; left; lra].
  match goal with
  | |- context [?d >=? 0] => destruct (geb_reflect d 0) as [Hdisc|Hdisc]
  end; [|exfalso; apply Hnd; right; left; lra].
  match goal with
  | |- context [X.gt ?t (Num 0) && X.isFinite ?t] =>
      destruct (X.gt t (Num 0)) eqn:Hgt;
      [|exfalso; apply Hnd; right; right; left; first [exact Hgt | reflexivity]];
      destruct (X.isFinite t) eqn:Hfin;
      [|exfalso; apply Hnd; right; right; right; first [exact Hfin | reflexivity]]
  end.
  cbn [andb]. eexists. reflexivity.
Qed.

(** The point of a successful elliptical ray cast lies on the ellipse
    and behind the dot. *)
Lemma ell_rayCast_on_ellipse (dot : Dot.t) (ux uy : R) (p : R * R) :
  ell_rayCast h v cx cy dot (Some ux) (Some uy) = Some p ->
  ((fst p - cx) / h) * ((fst p - cx) / h)
  + ((snd p - cy) / v) * ((snd p - cy) / v) = 1
  /\ behind dot ux uy p.
Proof.
  unfold ell_rayCast. cbv zeta.
  destruct (gtb_reflect (ux * ux + uy * uy) 1e-10) as [Hmag|_];
    [|discriminate].
  set (mag := sqrt (ux * ux + uy * uy)).
  set (dx := ux / mag). set (dy := uy / mag).
  set (xr := Dot.x dot - cx). set (yr := Dot.y dot - cy).
  set (A := dx * dx / (h * h) + dy * dy / (v * v)).
  set (B := xr * dx / (h * h) + yr * dy / (v * v)).
  set (C := xr * xr / (h * h) + yr * yr / (v * v) - 1).
  destruct (geb_reflect (B * B - A * C) 0) as [Hdisc|_]; [|discriminate].
  destruct (X.div (B + sqrt (B * B - A * C)) A) as [| | |t] eqn:Hdiv;
    cbn [X.gt X.isFinite andb X.val];
    try (rewrite ?andb_false_r; discriminate).
  destruct (gtb_reflect t 0) as [Ht|_]; cbn [andb]; [|discriminate].
  intro Hp. injection Hp as <-. cbn [fst snd].
  destruct (div_finite_inv _ _ _ Hdiv eq_refl) as [HA0 Hnum].
  injection Hnum as Hnum.
  split.
  - replace (Dot.x dot - dx * t - cx) with (xr - dx * t) by (unfold xr; ring).
    replace (Dot.y dot - dy * t - cy) with (yr - dy * t) by (unfold yr; ring).
    apply (root_on_ellipse h v h_pos v_pos xr yr dx dy A B C
             (sqrt (B * B - A * C)) t);
      try reflexivity; try assumption.
    apply sqrt_sqrt. exact Hdisc.
  - exists t. split; [exact Ht|]. split; reflexivity.
Qed.

(** When none of its guards applies, the rectangular ray cast yields
    a point. *)
Lemma rect_rayCast_some (dot : Dot.t) (ux uy : R) :
  ~ rect_degenerate h v cx cy dot (Some ux) (Some uy) ->
  exists p, rect_rayCast h v cx cy dot (Some ux) (Some uy) = Some p.
Proof.
  unfold rect_degenerate, rect_rayCast, rect_slabs. cbv zeta. cbn [fst snd].
  intro Hnd.
  destruct (ltb_reflect (sqrt (ux * ux + uy * uy)) 1e-10) as [Hmag|Hmag];
    [exfalso; apply Hnd; left; exact Hmag|].
  match goal with
  | |- context [X.gt ?t (Num 0) && X.le ?e ?t && X.isFinite ?t] =>
      destruct (X.gt t (Num 0)) eqn:Hgt;
      [|exfalso; apply Hnd; right; left; first [exact Hgt | reflexivity]];
      destruct (X.le e t) eqn:Hle;
      [|exfalso; apply Hnd; right; right; left; first [exact Hle | reflexivity]];
      destruct (X.isFinite t) eqn:Hfin;
      [|exfalso; apply Hnd; right; right; right; first [exact Hfin | reflexivity]]
  end.
  cbn [andb]. eexists. reflexivity.
Qed.

(** The point of a successful rectangular ray cast lies in the
    rectangle, on an edge line, and behind the dot. *)
Lemma rect_rayCast_on_edge (dot : Dot.t) (ux uy : R) (p : R * R) :
  rect_rayCast h v cx cy dot (Some ux) (Some uy) = Some p ->
  (fst p = cx - h \/ fst p = cx + h \/ snd p = cy - v \/ snd p = cy + v)
  /\ behind dot ux uy p.
Proof.
  unfold rect_rayCast. cbv zeta.
  destruct (ltb_reflect (sqrt (ux * ux + uy * uy)) 1e-10) as [_|Hmag];
    [discriminate|].
  set (mag := sqrt (ux * ux + uy * uy)) in *.
  set (dx := - ux / mag). set (dy := - uy / mag).
  destruct (eqb_reflect dx 0) as [_|Hdx];
    [cbn; destruct (dy =? 0); cbn; discriminate|].
  destruct (eqb_reflect dy 0) as [_|Hdy]; [cbn; discriminate|].
  cbn [X.max X.min X.gt X.le X.isFinite X.val].
  set (tx1 := (cx - h - Dot.x dot) / dx).
  set (tx2 := (cx + h - Dot.x dot) / dx).
  set (ty1 := (cy - v - Dot.y dot) / dy).
  set (ty2 := (cy + v - Dot.y dot) / dy).
  set (tExit := Rmin (Rmax tx1 tx2) (Rmax ty1 ty2)).
  destruct (gtb_reflect tExit 0) as [Hgt|_]; [|discriminate].
  match goal with
  | |- context [?a <=? tExit] => destruct (a <=? tExit)
  end; [|discriminate].
  cbn [andb]. intro Hp. injection Hp as <-. cbn [fst snd].
  assert (Hx1 : Dot.x dot + dx * tx1 = cx - h) by (unfold tx1; field; exact Hdx).
  assert (Hx2 : Dot.x dot + dx * tx2 = cx + h) by (unfold tx2; field; exact Hdx).
  assert (Hy1 : Dot.y dot + dy * ty1 = cy - v) by (unfold ty1; field; exact Hdy).
  assert (Hy2 : Dot.y dot + dy * ty2 = cy + v) by (unfold ty2; field; exact Hdy).
  split.
  - unfold tExit, Rmin, Rmax.
    destruct (Rle_dec tx1 tx2); destruct (Rle_dec ty1 ty2);
      match goal with
      | |- context [Rle_dec ?a ?b] => destruct (Rle_dec a b)
      end; tauto.
  - exists tExit. split; [exact Hgt|].
    assert (Hm : mag <> 0).
    { pose proof (sqrt_pos (ux * ux + uy * uy)). fold mag in H. lra. }
    cbn [fst snd]. fold mag. unfold dx, dy. split; field; exact Hm.
Qed.

(** A direction along an axis makes the rectangular ray cast give up. *)
Lemma rect_rayCast_axis (dot : Dot.t) (ux uy : R) :
  ux = 0 \/ uy = 0 ->
  rect_rayCast h v cx cy dot (Some ux) (Some uy) = None.
Proof.
  intro Haxis. unfold rect_rayCast. cbv zeta.
  destruct (ltb_reflect (sqrt (ux * ux + uy * uy)) 1e-10) as [_|Hmag];
    [reflexivity|].
  set (mag := sqrt (ux * ux + uy * uy)) in *.
  assert (Hzero : forall u, u = 0 -> - u / mag = 0).
  { intros u ->. unfold Rdiv. rewrite Ropp_0. apply Rmult_0_l. }
  destruct Haxis as [Hu|Hu].
  - rewrite (Hzero ux Hu).
    destruct (eqb_reflect 0 0) as [_|Hn]; [|contradiction].
    destruct (- uy / mag =? 0); reflexivity.
  - rewrite (Hzero uy Hu).
    destruct (eqb_reflect 0 0) as [_|Hn]; [|contradiction].
    destruct (- ux / mag =? 0); reflexivity.
Qed.

End RayCasts.

(** X4.  In exact arithmetic, on the elliptical family with positive
    extents, when none of the guards of the ray cast applies,
    [getOppositePosition] returns a point exactly on the ellipse, and
    that point lies behind the dot on its line of travel.  (On
    binary64 numbers the point can miss the ellipse by rounding, on
    either side: see [edgeDot_update].) *)
Theorem opposite_ray_cast_on_ellipse :
  forall shape width height cx cy dot ux uy,
    elliptical shape = true ->
    positiveExtents shape width height ->
    ~ degenerate shape width height cx cy dot (Some ux) (Some uy) ->
    let p := getOppositePosition (createAperture shape width height cx cy)
               dot (Some ux) (Some uy) in
    ellipseForm shape width height cx cy p = 1 /\ behind dot ux uy p.
Proof.
  intros shape width height cx cy dot ux uy E [Hh Hv] Hnd.
  unfold degenerate in Hnd. cbv zeta in Hnd. rewrite E in Hnd.
  rewrite createAperture_elliptical by exact E. cbv zeta. simpl.
  unfold ellipseForm, ell_getOppositePosition.
  destruct (ell_rayCast_some _ _ cx cy dot ux uy Hnd) as [p Hp].
  rewrite Hp.
  apply (ell_rayCast_on_ellipse _ _ cx cy Hh Hv dot ux uy p Hp).
Qed.

(** The ray cast of a dot at the centre of a 600 by 400 ellipse that
    travels to the right. *)
Lemma centre_not_degenerate :
  ~ degenerate ellipse 600 400 300 200 (dotAt 300 200) (Some 1) (Some 0).
Proof.
  unfold degenerate, ell_degenerate, ell_root, ell_discriminant,
    horizontalAxisOf, verticalAxisOf, dotAt.
  cbv zeta. cbn [elliptical Dot.x Dot.y].
  replace (1 * 1 + 0 * 0) with 1 by ring. rewrite sqrt_1.
  replace ((300 - 300) * (1 / 1) / (600 / 2 * (600 / 2))
           + (200 - 200) * (0 / 1) / (400 / 2 * (400 / 2))) with 0
    by field.
  replace (1 / 1 * (1 / 1) / (600 / 2 * (600 / 2))
           + 0 / 1 * (0 / 1) / (400 / 2 * (400 / 2)))
    with (/ 300 * / 300) by field.
  replace ((300 - 300) * (300 - 300) / (600 / 2 * (600 / 2))
           + (200 - 200) * (200 - 200) / (400 / 2 * (400 / 2)) - 1)
    with (-1) by field.
  replace (0 * 0 - / 300 * / 300 * -1) with (/ 300 * / 300) by ring.
  rewrite sqrt_square by lra.
  rewrite div_finite by lra.
  replace ((0 + / 300) / (/ 300 * / 300)) with 300 by field.
  cbn [X.gt X.isFinite].
  destruct (gtb_reflect 300 0) as [_|Hn]; [|exfalso; lra].
  intros [H|[H|[H|H]]]; try discriminate; lra.
Qed.

(** X4 for a dot at the centre of a 600 by 400 ellipse travelling to
    the right. *)
Lemma opposite_ray_cast_on_ellipse_witness :
  let p := getOppositePosition (createAperture ellipse 600 400 300 200)
             (dotAt 300 200) (Some 1) (Some 0) in
  ellipseForm ellipse 600 400 300 200 p = 1 /\ behind (dotAt 300 200) 1 0 p.
Proof.
  apply (opposite_ray_cast_on_ellipse ellipse 600 400 300 200
           (dotAt 300 200) 1 0 eq_refl (positive_600_400 ellipse)
           centre_not_degenerate).
Defined.

(** X5.  In exact arithmetic, on the rectangular family with positive
    extents, when none of the guards of the slab method applies,
    [getOppositePosition] returns a point on one of the four edge
    lines of the rectangle, behind the dot on its line of travel.  (On
    binary64 numbers the point is on the edge line up to rounding
    only: see [slab_method_rounds].) *)
Theorem opposite_ray_cast_on_rectangle_edge :
  forall shape width height cx cy dot ux uy,
    elliptical shape = false ->
    positiveExtents shape width height ->
    ~ degenerate shape width height cx cy dot (Some ux) (Some uy) ->
    let p := getOppositePosition (createAperture shape width height cx cy)
               dot (Some ux) (Some uy) in
    onBoxEdge shape width height cx cy p /\ behind dot ux uy p.
Proof.
  intros shape width height cx cy dot ux uy E [Hh Hv] Hnd.
  unfold degenerate in Hnd. cbv zeta in Hnd. rewrite E in Hnd.
  rewrite createAperture_rectangular by exact E. cbv zeta. simpl.
  unfold onBoxEdge, rect_getOppositePosition.
  destruct (rect_rayCast_some _ _ cx cy dot ux uy Hnd) as [p Hp].
  rewrite Hp.
  apply (rect_rayCast_on_edge _ _ cx cy dot ux uy p Hp).
Qed.

(** X6.  On the rectangular family, a direction of travel along an
    axis (one component zero) always makes [getOppositePosition] fall
    back to the simple policy: the slab of the other axis is
    [-Infinity] and so is the exit parameter. *)
Theorem rect_opposite_along_axis_is_simple :
  forall shape width height cx cy dot ux uy,
    elliptical shape = false ->
    ux = 0 \/ uy = 0 ->
    getOppositePosition (createAperture shape width height cx cy)
      dot (Some ux) (Some uy)
    = getOppositePositionSimple (createAperture shape width height cx cy) dot.
Proof.
  intros shape width height cx cy dot ux uy E Haxis.
  rewrite createAperture_rectangular by exact E. cbv zeta. simpl.
  unfold rect_getOppositePosition.
  rewrite rect_rayCast_axis by exact Haxis. reflexivity.
Qed.

(** X6 for a dot travelling to the right in a 600 by 400 rectangle. *)
Lemma rect_opposite_along_axis_is_simple_witness :
  getOppositePosition (createAperture rectangle 600 400 300 200)
    (dotAt 604 250) (Some 1) (Some 0)
  = getOppositePositionSimple (createAperture rectangle 600 400 300 200)
      (dotAt 604 250).
Proof.
  apply (rect_opposite_along_axis_is_simple rectangle 600 400 300 200
           (dotAt 604 250) 1 0 eq_refl).
  right. reflexivity.
Defined.

(** The ray cast of a dot that left a 600 by 400 rectangle through its
    right edge while travelling in direction (3, 4). *)
Lemma slanted_not_degenerate :
  ~ degenerate rectangle 600 400 300 200 (dotAt 610 250) (Some 3) (Some 4).
Proof.
  unfold degenerate, rect_degenerate, rect_slabs,
    horizontalAxisOf, verticalAxisOf, dotAt.
  cbv zeta. cbn [elliptical Dot.x Dot.y fst snd].
  replace (3 * 3 + 4 * 4) with (5 * 5) by ring.
  rewrite sqrt_square by lra.
  destruct (eqb_reflect (- (3) / 5) 0) as [Hz|_]; [exfalso; lra|].
  destruct (eqb_reflect (- (4) / 5) 0) as [Hz|_]; [exfalso; lra|].
  cbn [X.max X.min X.gt X.le X.isFinite].
  replace ((300 - 600 / 2 - 610) / (- (3) / 5)) with (3050 / 3) by field.
  replace ((300 + 600 / 2 - 610) / (- (3) / 5)) with (50 / 3) by field.
  replace ((200 - 400 / 2 - 250) / (- (4) / 5)) with (625 / 2) by field.
  replace ((200 + 400 / 2 - 250) / (- (4) / 5)) with (- 375 / 2) by field.
  assert (Hexit : Rmin (Rmax (3050 / 3) (50 / 3)) (Rmax (625 / 2) (- 375 / 2))
                  = 625 / 2).
  { rewrite (Rmax_left (3050 / 3) (50 / 3)) by lra.
    rewrite (Rmax_left (625 / 2) (- 375 / 2)) by lra.
    apply Rmin_right. lra. }
  assert (Henter : Rmax (Rmin (3050 / 3) (50 / 3)) (Rmin (625 / 2) (- 375 / 2))
                   = 50 / 3).
  { rewrite (Rmin_right (3050 / 3) (50 / 3)) by lra.
    rewrite (Rmin_right (625 / 2) (- 375 / 2)) by lra.
    apply Rmax_left. lra. }
  rewrite Hexit, Henter.
  destruct (gtb_reflect (625 / 2) 0) as [_|Hn]; [|exfalso; lra].
  destruct (leb_reflect (50 / 3) (625 / 2)) as [_|Hn]; [|exfalso; lra].
  intros [H|[H|[H|H]]]; try discriminate; lra.
Qed.

(** X5 for that dot. *)
Lemma opposite_ray_cast_on_rectangle_edge_witness :
  let p := getOppositePosition (createAperture rectangle 600 400 300 200)
             (dotAt 610 250) (Some 3) (Some 4) in
  onBoxEdge rectangle 600 400 300 200 p /\ behind (dotAt 610 250) 3 4 p.
Proof.
  apply (opposite_ray_cast_on_rectangle_edge rectangle 600 400 300 200
           (dotAt 610 250) 3 4 eq_refl (positive_600_400 rectangle)
           slanted_not_degenerate).
Defined.

(** ** The toroidal wrap, continued *)

Section Torus.

Variable w : R.
Hypothesis w_pos : 0 < w.

(** One axis of [wrapOnBounds] shifts the coordinate by a whole number
    of periods. *)
Lemma wrap_axis_shift (a left : R) :
  exists k : Z, Num.rem (Num.rem (a - left) w + w) w + left = a - IZR k * w.
Proof.
  unfold Num.rem.
  set (k1 := Num.trunc ((a - left) / w)).
  set (k2 := Num.trunc ((a - left - w * IZR k1 + w) / w)).
  exists (k1 + k2 - 1)%Z. rewrite minus_IZR, plus_IZR. simpl. ring.
Qed.

(** Two points of one period that differ by a whole number of periods
    are equal. *)
Lemma period_unique (left r1 r2 : R) (k : Z) :
  left <= r1 < left + w -> left <= r2 < left + w ->
  r1 = r2 + IZR k * w -> r1 = r2.
Proof.
  intros H1 H2 E.
  assert (Hk : k = 0%Z).
  { assert (Hlt : (k < 1)%Z) by (apply lt_IZR; simpl; nra).
    assert (Hgt : (-1 < k)%Z) by (apply lt_IZR; simpl; nra).
    lia. }
  subst k. simpl in E. lra.
Qed.

(** One axis of [wrapOnBounds] does not see whole periods. *)
Lemma wrap_axis_periodic (a left : R) (n : Z) :
  Num.rem (Num.rem (a + IZR n * w - left) w + w) w + left
  = Num.rem (Num.rem (a - left) w + w) w + left.
Proof.
  destruct (wrap_axis_shift (a + IZR n * w) left) as [k1 E1].
  destruct (wrap_axis_shift a left) as [k2 E2].
  pose proof (wrap_axis_range w w_pos (a + IZR n * w) left) as R1.
  pose proof (wrap_axis_range w w_pos a left) as R2.
  apply (period_unique left _ _ (n - k1 + k2)%Z R1 R2).
  rewrite E1, E2, plus_IZR, minus_IZR. ring.
Qed.

End Torus.

(** X7.  In exact arithmetic and with positive extents, [wrap] is a
    reduction modulo the bounding box: the result differs from the
    point by whole box widths and heights, wrapping twice is wrapping
    once, and points that differ by whole box widths and heights wrap
    to the same point.  (On binary64 numbers the differences and the
    sums of the wrap round: see [wrap_twice_rounds].) *)
Theorem wrap_is_toroidal :
  forall shape width height cx cy x y,
    positiveExtents shape width height ->
    let aperture := createAperture shape width height cx cy in
    let w := horizontalAxisOf width * 2 in
    let h := verticalAxisOf shape width height * 2 in
    (exists k l : Z, wrap aperture x y = (x - IZR k * w, y - IZR l * h))
    /\ wrap aperture (fst (wrap aperture x y)) (snd (wrap aperture x y))
       = wrap aperture x y
    /\ (forall k l : Z,
          wrap aperture (x + IZR k * w) (y + IZR l * h) = wrap aperture x y).
Proof.
  intros shape width height cx cy x y Hpos aperture w h.
  split; [|split].
  - unfold aperture. rewrite wrap_createAperture. unfold wrapOnBounds.
    fold w h.
    destruct (wrap_axis_shift w x (cx - horizontalAxisOf width)) as [k Ek].
    destruct (wrap_axis_shift h y (cy - verticalAxisOf shape width height))
      as [l El].
    exists k, l. rewrite Ek, El. reflexivity.
  - pose proof (wrap_in_box shape width height cx cy x y Hpos) as Hbox.
    fold aperture in Hbox.
    destruct (wrap aperture x y) as [px py]. cbn [fst snd].
    apply wrap_fixed; assumption.
  - intros k l. unfold aperture. rewrite wrap_createAperture.
    unfold wrapOnBounds. fold w h. destruct Hpos as [Hh Hv].
    rewrite (wrap_axis_periodic w ltac:(unfold w; lra)).
    rewrite (wrap_axis_periodic h ltac:(unfold h; lra)).
    reflexivity.
Qed.

(** X7 on a 600 by 400 ellipse centred at (300, 200): (650, -10) and
    the point two widths to its left and one height below wrap alike. *)
Lemma wrap_is_toroidal_witness :
  wrap (createAperture ellipse 600 400 300 200)
    (650 + IZR (-2) * (horizontalAxisOf 600 * 2))
    (-10 + IZR 1 * (verticalAxisOf ellipse 600 400 * 2))
  = wrap (createAperture ellipse 600 400 300 200) 650 (-10).
Proof.
  apply (wrap_is_toroidal ellipse 600 400 300 200 650 (-10)
           (positive_600_400 ellipse)).
Defined.

(** ** DotState and MotionIntegrator *)

(** Sampling a position leaves a fair oracle. *)
Lemma getRandomPosition_fair shape width height cx cy o :
  fair o ->
  fair (snd (getRandomPosition (createAperture shape width height cx cy) o)).
Proof.
  intro Ho. unfold createAperture.
  destruct (elliptical shape); cbn [getRandomPosition];
    unfold ell_getRandomPosition, rect_getRandomPosition, randomBetween,
      bind, ret, Math_random; cbn [snd];
    apply fair_drop, fair_drop; exact Ho.
Qed.

(** A draw between [lo] and [hi] lies in [lo, hi), and is [lo] when
    the interval is empty. *)
Lemma randomBetween_range (lo hi : R) (o : Oracle) :
  fair o ->
  (lo < hi -> lo <= fst (randomBetween lo hi o) < hi)
  /\ (lo = hi -> fst (randomBetween lo hi o) = lo)
  /\ fair (snd (randomBetween lo hi o)).
Proof.
  intro Ho. unfold randomBetween, bind, ret, Math_random. cbn [fst snd].
  pose proof (Ho 0%nat) as H0.
  split; [|split].
  - intro Hlt. split; nra.
  - intros ->. ring.
  - apply fair_drop. exact Ho.
Qed.

(** What [createDot] returns. *)
Lemma createDot_spec shape width height cx cy role maxDotLife o :
  positiveExtents shape width height ->
  fair o ->
  let aperture := createAperture shape width height cx cy in
  let d := fst (createDot role maxDotLife aperture o) in
  isOutside aperture (Dot.x d) (Dot.y d) 0 = false
  /\ Dot.assignedMovement d = role
  /\ (0 < maxDotLife -> 0 <= Dot.lifeCount d < maxDotLife)
  /\ (maxDotLife <= 0 -> Dot.lifeCount d = 0)
  /\ (role <> noise randomDirection ->
      Dot.randomDirX d = 0 /\ Dot.randomDirY d = 0)
  /\ fair (snd (createDot role maxDotLife aperture o)).
Proof.
  intros Hpos Ho aperture.
  pose proof (getRandomPosition_within_margin shape width height cx cy o 0
                Hpos Ho (Rle_refl 0)) as Hin.
  pose proof (getRandomPosition_fair shape width height cx cy o Ho) as Ho1.
  cbv zeta in Hin. fold aperture in Hin, Ho1.
  unfold createDot, bind.
  destruct (getRandomPosition aperture o) as [p o1]. cbn [fst snd] in *.
  assert (Htheta :
            forall c : Rand R,
              fair (snd (c o1)) ->
              (role <> noise randomDirection -> fst (c o1) = 0) ->
              let r := (let (theta, o2) := c o1 in
                        let (life, o3) :=
                          randomBetween 0
                            (if maxDotLife >? 0 then maxDotLife else 0) o2 in
                        ret {| Dot.x := fst p;
                               Dot.y := snd p;
                               Dot.randomDirX :=
                                 if truthy theta then cos theta else 0;
                               Dot.randomDirY :=
                                 if truthy theta then - sin theta else 0;
                               Dot.lifeCount := life;
                               Dot.assignedMovement := role |} o3) in
              isOutside aperture (Dot.x (fst r)) (Dot.y (fst r)) 0 = false
              /\ Dot.assignedMovement (fst r) = role
              /\ (0 < maxDotLife -> 0 <= Dot.lifeCount (fst r) < maxDotLife)
              /\ (maxDotLife <= 0 -> Dot.lifeCount (fst r) = 0)
              /\ (role <> noise randomDirection ->
                  Dot.randomDirX (fst r) = 0 /\ Dot.randomDirY (fst r) = 0)
              /\ fair (snd r)).
  { intros c Hc Hzero.
    destruct (c o1) as [theta o2]. cbn [fst snd] in *.
    destruct (randomBetween_range 0 (if maxDotLife >? 0 then maxDotLife else 0)
                o2 Hc) as [Hlt [Heq Hfair]].
    destruct (randomBetween 0 (if maxDotLife >? 0 then maxDotLife else 0) o2)
      as [life o3]. cbn [fst snd ret Dot.x Dot.y Dot.lifeCount
                         Dot.assignedMovement Dot.randomDirX Dot.randomDirY]
      in *.
    split; [exact Hin|]. split; [reflexivity|].
    split; [|split; [|split]].
    - intro Hmax. destruct (gtb_reflect maxDotLife 0); [|lra].
      apply Hlt. lra.
    - intro Hmax. destruct (gtb_reflect maxDotLife 0); [lra|].
      apply Heq. reflexivity.
    - intro Hrole. rewrite (Hzero Hrole). unfold truthy.
      destruct (eqb_reflect 0 0); [|contradiction]. split; reflexivity.
    - exact Hfair. }
  destruct role as [| |[| |]].
  1-4: apply (Htheta (ret 0)); [exact Ho1 | reflexivity].
  apply (Htheta (randomBetween (- PI) PI)).
  - apply randomBetween_range. exact Ho1.
  - intro H. contradiction.
Qed.

(** X8.  In exact arithmetic, on an aperture with positive extents and
    for every outcome of the draws, [createDot] returns a dot that is
    not outside the aperture, carries the requested role, has a life
    counter in [0, maxDotLife) when lifetime limiting is on and 0 when
    it is off, and has the zero vector as stored direction unless its
    role is [randomDirection]. *)
Theorem createDot_contract :
  forall shape width height cx cy role maxDotLife o,
    positiveExtents shape width height ->
    fair o ->
    let aperture := createAperture shape width height cx cy in
    let d := fst (createDot role maxDotLife aperture o) in
    isOutside aperture (Dot.x d) (Dot.y d) 0 = false
    /\ Dot.assignedMovement d = role
    /\ (0 < maxDotLife -> 0 <= Dot.lifeCount d < maxDotLife)
    /\ (maxDotLife <= 0 -> Dot.lifeCount d = 0)
    /\ (role <> noise randomDirection ->
        Dot.randomDirX d = 0 /\ Dot.randomDirY d = 0).
Proof.
  intros shape width height cx cy role maxDotLife o Hpos Ho aperture d.
  destruct (createDot_spec shape width height cx cy role maxDotLife o Hpos Ho)
    as [H1 [H2 [H3 [H4 [H5 _]]]]].
  repeat split; try assumption; try (apply H3; assumption);
    apply H5; assumption.
Qed.

(** X8 for a coherent dot with a lifetime of 100 ms on a 600 by 400
    ellipse. *)
Lemma createDot_contract_witness :
  let aperture := createAperture ellipse 600 400 300 200 in
  let d := fst (createDot coherent 100 aperture halves) in
  0 <= Dot.lifeCount d < 100
  /\ (Dot.randomDirX d = 0 /\ Dot.randomDirY d = 0).
Proof.
  intros aperture d.
  destruct (createDot_contract ellipse 600 400 300 200 coherent 100 halves
              (positive_600_400 ellipse) fair_halves)
    as [_ [_ [Hlife [_ Hdir]]]].
  split.
  - apply Hlife. lra.
  - apply Hdir. discriminate.
Defined.

(** The fields of the dot a tick works on. *)
Lemma tick_accounting dot distance deltaTimeMs maxDotLife coherentDir
    reassignTo o :
  let expired := lifeExpired dot deltaTimeMs maxDotLife in
  let after (u : Dot.t) :=
    Dot.lifeCount u
    = (if expired then 0 else Dot.lifeCount dot + deltaTimeMs)
    /\ Dot.assignedMovement u
       = (if expired then Dot.assignedMovement dot
          else roleAfter dot reassignTo)
    /\ ((expired = true \/ reassignTo <> Some (noise randomDirection)) ->
        Dot.randomDirX u = Dot.randomDirX dot
        /\ Dot.randomDirY u = Dot.randomDirY dot)
    /\ (expired = false -> reassignTo = Some (noise randomDirection) ->
        unitDirection u) in
  match tick dot distance deltaTimeMs maxDotLife coherentDir reassignTo o with
  | Resampled u _ => after u
  | Displaced u _ _ => after u /\ expired = false
  end.
Proof.
  cbv zeta. unfold tick.
  destruct (lifeExpired dot deltaTimeMs maxDotLife) eqn:Hexp.
  - cbn. repeat split; auto; discriminate.
  - cbv zeta.
    assert (Hre :
      let r := reassign dot (Dot.with_lifeCount dot
                               (Dot.lifeCount dot + deltaTimeMs))
                 reassignTo o in
      let u := snd (fst r) in
      fst (fst r) = roleAfter dot reassignTo
      /\ Dot.x u = Dot.x dot /\ Dot.y u = Dot.y dot
      /\ Dot.lifeCount u = Dot.lifeCount dot + deltaTimeMs
      /\ Dot.assignedMovement u = roleAfter dot reassignTo
      /\ (reassignTo <> Some (noise randomDirection) ->
          Dot.randomDirX u = Dot.randomDirX dot
          /\ Dot.randomDirY u = Dot.randomDirY dot)
      /\ (reassignTo = Some (noise randomDirection) -> unitDirection u)).
    { unfold reassign, roleAfter, unitDirection.
      destruct reassignTo as [[| |[| |]]|]; cbn;
        repeat split; try reflexivity; try discriminate;
        try (intro H; contradiction);
        try (exfalso; match goal with H : ?a <> ?a |- _ => apply H end;
             reflexivity).
      intros _.
      match goal with
      | |- cos ?t * cos ?t + - sin ?t * - sin ?t = 1 =>
          pose proof (sin2_cos2 t) as Hsc; unfold Rsqr in Hsc; lra
      end. }
    cbv zeta in Hre.
    destruct (reassign dot _ reassignTo o) as [[method u] o1].
    cbn [fst snd] in *.
    destruct Hre as [Hm [Hx [Hy [Hl [Hr [Hkeep Hunit]]]]]].
    assert (Hafter :
      forall p,
        Dot.lifeCount (Dot.with_position u p)
        = Dot.lifeCount dot + deltaTimeMs
        /\ Dot.assignedMovement (Dot.with_position u p)
           = roleAfter dot reassignTo
        /\ ((false = true \/ reassignTo <> Some (noise randomDirection)) ->
            Dot.randomDirX (Dot.with_position u p) = Dot.randomDirX dot
            /\ Dot.randomDirY (Dot.with_position u p) = Dot.randomDirY dot)
        /\ (false = false -> reassignTo = Some (noise randomDirection) ->
            unitDirection (Dot.with_position u p))).
    { intro p. unfold unitDirection in *.
      cbn [Dot.with_position Dot.lifeCount Dot.assignedMovement
           Dot.randomDirX Dot.randomDirY].
      split; [exact Hl|]. split; [exact Hr|]. split.
      - intros [H|H]; [discriminate | exact (Hkeep H)].
      - intros _ H. exact (Hunit H). }
    destruct method as [| |[| |]]; cbv beta iota.
    + split; [apply Hafter | reflexivity].
    + split; [apply Hafter | reflexivity].
    + split; [exact Hl|]. split; [exact Hr|]. split.
      * intros [H|H]; [discriminate | exact (Hkeep H)].
      * intros _ H. exact (Hunit H).
    + destruct (randomBetween (- PI) PI o1) as [theta o2].
      split; [apply Hafter | reflexivity].
    + split; [apply Hafter | reflexivity].
Qed.

(** The boundary test and the dispatch leave life counter, role and
    stored direction alone. *)
Lemma reinsert_keeps aperture reinsertType dotRadius dirX dirY moved o d' :
  fst (reinsert aperture reinsertType dotRadius dirX dirY moved o) = inr d' ->
  Dot.lifeCount d' = Dot.lifeCount moved
  /\ Dot.assignedMovement d' = Dot.assignedMovement moved
  /\ Dot.randomDirX d' = Dot.randomDirX moved
  /\ Dot.randomDirY d' = Dot.randomDirY moved.
Proof.
  unfold reinsert, bind, ret.
  destruct (isOutside aperture (Dot.x moved) (Dot.y moved) dotRadius).
  - destruct (String.eqb reinsertType "random").
    { destruct (getRandomPosition aperture o) as [p o1]. cbn.
      intro H. injection H as <-. cbn. auto. }
    destruct (String.eqb reinsertType "oppositeSimple").
    { cbn. intro H. injection H as <-. cbn. auto. }
    destruct (String.eqb reinsertType "opposite").
    { cbn. intro H. injection H as <-. cbn. auto. }
    destruct (String.eqb reinsertType "wrap").
    { cbn. intro H. injection H as <-. cbn. auto. }
    cbn. discriminate.
  - cbn. intro H. injection H as <-. auto.
Qed.

(** The fields of the dot [updateDot] returns. *)
Lemma updateDot_accounting dot distance deltaTimeMs maxDotLife aperture
    reinsertType dotRadius coherentDir reassignTo o d' :
  fst (updateDot dot distance deltaTimeMs maxDotLife aperture reinsertType
         dotRadius coherentDir reassignTo o) = inr d' ->
  let expired := lifeExpired dot deltaTimeMs maxDotLife in
  Dot.lifeCount d'
  = (if expired then 0 else Dot.lifeCount dot + deltaTimeMs)
  /\ Dot.assignedMovement d'
     = (if expired then Dot.assignedMovement dot
        else roleAfter dot reassignTo)
  /\ ((expired = true \/ reassignTo <> Some (noise randomDirection)) ->
      Dot.randomDirX d' = Dot.randomDirX dot
      /\ Dot.randomDirY d' = Dot.randomDirY dot)
  /\ (expired = false -> reassignTo = Some (noise randomDirection) ->
      unitDirection d').
Proof.
  rewrite updateDot_tick.
  pose proof (tick_accounting dot distance deltaTimeMs maxDotLife coherentDir
                reassignTo o) as Ht.
  cbv zeta in Ht |- *.
  destruct (tick dot distance deltaTimeMs maxDotLife coherentDir reassignTo o)
    as [u o1 | moved dir o1].
  - cbn [fst]. intro H. injection H as <-.
    destruct Ht as [Hl [Hr [Hk Hu]]].
    split; [exact Hl|]. split; [exact Hr|]. split; [exact Hk | exact Hu].
  - intro H. apply reinsert_keeps in H.
    destruct H as [Hl' [Hr' [Hx' Hy']]].
    destruct Ht as [[Hl [Hr [Hk Hu]]] Hexp].
    unfold unitDirection in *. rewrite Hl', Hr', Hx', Hy'.
    split; [exact Hl|]. split; [exact Hr|]. split; [exact Hk | exact Hu].
Qed.

(** With a recognised mode [updateDot] returns a dot. *)
Lemma updateDot_returns dot distance deltaTimeMs maxDotLife aperture
    reinsertType dotRadius coherentDir reassignTo o :
  recognized reinsertType ->
  exists d',
    fst (updateDot dot distance deltaTimeMs maxDotLife aperture reinsertType
           dotRadius coherentDir reassignTo o) = inr d'.
Proof.
  intro Hrec. rewrite updateDot_tick.
  destruct (tick dot distance deltaTimeMs maxDotLife coherentDir reassignTo o)
    as [u o1 | moved dir o1].
  - eexists. reflexivity.
  - destruct (fst (reinsert aperture reinsertType dotRadius (fst dir) (snd dir)
                     moved o1)) as [e|d'] eqn:E.
    + exfalso.
      assert (Herr : exists e,
                 fst (reinsert aperture reinsertType dotRadius (fst dir)
                        (snd dir) moved o1) = inl e) by (exists e; exact E).
      apply reinsert_error_iff in Herr. destruct Herr as [_ Hn].
      exact (Hn Hrec).
    + exists d'. reflexivity.
Qed.

Lemma lifeExpired_iff dot deltaTimeMs maxDotLife :
  lifeExpired dot deltaTimeMs maxDotLife = true
  <-> (0 < maxDotLife /\ maxDotLife <= Dot.lifeCount dot + deltaTimeMs).
Proof.
  unfold lifeExpired.
  destruct (gtb_reflect maxDotLife 0);
    destruct (geb_reflect (Dot.lifeCount dot + deltaTimeMs) maxDotLife);
    cbn; split; intros; try discriminate; try reflexivity; lra.
Qed.

(** X9.  Whenever [updateDot] returns a dot: with lifetime limiting on
    ([maxDotLife > 0]), a dot whose life counter and time step are not
    negative comes back with a life counter in [0, maxDotLife); with
    lifetime limiting off the life counter has grown by exactly the
    time step, whatever the role, the mode and the draws. *)
Theorem updateDot_life_counter :
  forall dot distance deltaTimeMs maxDotLife aperture reinsertType dotRadius
         coherentDir reassignTo o d',
    fst (updateDot dot distance deltaTimeMs maxDotLife aperture reinsertType
           dotRadius coherentDir reassignTo o) = inr d' ->
    (0 < maxDotLife -> 0 <= Dot.lifeCount dot -> 0 <= deltaTimeMs ->
     0 <= Dot.lifeCount d' < maxDotLife)
    /\ (maxDotLife <= 0 ->
        Dot.lifeCount d' = Dot.lifeCount dot + deltaTimeMs).
Proof.
  intros dot distance deltaTimeMs maxDotLife aperture reinsertType dotRadius
    coherentDir reassignTo o d' Hret.
  destruct (updateDot_accounting _ _ _ _ _ _ _ _ _ _ _ Hret) as [Hl _].
  pose proof (lifeExpired_iff dot deltaTimeMs maxDotLife) as Hexp.
  destruct (lifeExpired dot deltaTimeMs maxDotLife).
  - split.
    + intros. rewrite Hl. lra.
    + intro Hoff. destruct (proj1 Hexp eq_refl). lra.
  - split.
    + intros Hon Hlife Hdelta. rewrite Hl. split; [lra|].
      destruct (Rlt_dec (Dot.lifeCount dot + deltaTimeMs) maxDotLife) as [|Hn];
        [assumption|].
      assert (false = true) by (apply Hexp; split; lra). discriminate.
    + intros _. exact Hl.
Qed.

(** X9 for [agedDot], 95 ms old, after a step of 3 ms with a lifetime
    of 100 ms. *)
Lemma updateDot_life_counter_witness :
  exists d',
    fst (updateDot agedDot 5 3 100 (createAperture ellipse 600 400 300 200)
           "opposite" 2 (1, 0) None halves) = inr d'
    /\ 0 <= Dot.lifeCount d' < 100.
Proof.
  destruct (updateDot_returns agedDot 5 3 100
              (createAperture ellipse 600 400 300 200) "opposite" 2 (1, 0)
              None halves) as [d' Hret].
  { right. left. reflexivity. }
  exists d'. split; [exact Hret|].
  apply (updateDot_life_counter agedDot 5 3 100
           (createAperture ellipse 600 400 300 200) "opposite" 2 (1, 0)
           None halves d' Hret).
  - lra.
  - cbn. lra.
  - lra.
Defined.

(** X10.  Whenever [updateDot] returns a dot whose life did not
    expire on this tick: the dot has the role supplied for the tick,
    or its previous role when none is supplied; after a reassignment
    to [randomDirection] its stored direction is a unit vector, for
    every sampled angle; after any other tick its stored direction is
    the one it had. *)
Theorem updateDot_role_and_direction :
  forall dot distance deltaTimeMs maxDotLife aperture reinsertType dotRadius
         coherentDir reassignTo o d',
    fst (updateDot dot distance deltaTimeMs maxDotLife aperture reinsertType
           dotRadius coherentDir reassignTo o) = inr d' ->
    lifeExpired dot deltaTimeMs maxDotLife = false ->
    Dot.assignedMovement d' = roleAfter dot reassignTo
    /\ (reassignTo = Some (noise randomDirection) -> unitDirection d')
    /\ (reassignTo <> Some (noise randomDirection) ->
        Dot.randomDirX d' = Dot.randomDirX dot
        /\ Dot.randomDirY d' = Dot.randomDirY dot).
Proof.
  intros dot distance deltaTimeMs maxDotLife aperture reinsertType dotRadius
    coherentDir reassignTo o d' Hret Hexp.
  destruct (updateDot_accounting _ _ _ _ _ _ _ _ _ _ _ Hret)
    as [_ [Hr [Hk Hu]]].
  rewrite Hexp in Hr, Hk, Hu.
  split; [exact Hr|]. split.
  - intro H. apply Hu; [reflexivity | exact H].
  - intro H. apply Hk. right. exact H.
Qed.

(** X10 for a coherent dot reassigned to [randomDirection] when every
    draw is one half, that is, at the sampled angle 0. *)
Lemma updateDot_role_and_direction_witness :
  exists d',
    fst (updateDot agedDot 5 3 (-1) (createAperture ellipse 600 400 300 200)
           "opposite" 2 (1, 0) (Some (noise randomDirection)) halves)
    = inr d'
    /\ Dot.assignedMovement d' = noise randomDirection
    /\ unitDirection d'.
Proof.
  destruct (updateDot_returns agedDot 5 3 (-1)
              (createAperture ellipse 600 400 300 200) "opposite" 2 (1, 0)
              (Some (noise randomDirection)) halves) as [d' Hret].
  { right. left. reflexivity. }
  exists d'. split; [exact Hret|].
  assert (Hexp : lifeExpired agedDot 3 (-1) = false).
  { unfold lifeExpired.
    destruct (gtb_reflect (-1) 0) as [Hn|_]; [exfalso; lra | reflexivity]. }
  destruct (updateDot_role_and_direction agedDot 5 3 (-1)
              (createAperture ellipse 600 400 300 200) "opposite" 2 (1, 0)
              (Some (noise randomDirection)) halves d' Hret Hexp)
    as [Hrole [Hunit _]].
  split; [exact Hrole | exact (Hunit eq_refl)].
Defined.

Lemma lifeExpired_off dot deltaTimeMs maxDotLife :
  maxDotLife <= 0 -> lifeExpired dot deltaTimeMs maxDotLife = false.
Proof.
  intro H. unfold lifeExpired.
  destruct (gtb_reflect maxDotLife 0); [lra | reflexivity].
Qed.

(** A dot reassigned to a straight role and still within the margin
    after its displacement is returned displaced, without any draw. *)
Lemma straight_step dot distance deltaTimeMs maxDotLife aperture reinsertType
    dotRadius coherentDir (role : FrameMovement) (dir : R * R) o :
  lifeExpired dot deltaTimeMs maxDotLife = false ->
  (role = coherent /\ dir = coherentDir
   \/ role = opposite /\ dir = (- fst coherentDir, - snd coherentDir)) ->
  isOutside aperture (Dot.x dot + fst dir * distance)
    (Dot.y dot + snd dir * distance) dotRadius = false ->
  updateDot dot distance deltaTimeMs maxDotLife aperture reinsertType
    dotRadius coherentDir (Some role) o
  = (inr {| Dot.x := Dot.x dot + fst dir * distance;
            Dot.y := Dot.y dot + snd dir * distance;
            Dot.randomDirX := Dot.randomDirX dot;
            Dot.randomDirY := Dot.randomDirY dot;
            Dot.lifeCount := Dot.lifeCount dot + deltaTimeMs;
            Dot.assignedMovement := role |}, o).
Proof.
  intros Hexp Hrole Hin.
  unfold updateDot. rewrite Hexp.
  destruct Hrole as [[-> ->] | [-> ->]];
    cbn [reassign bind ret fst snd]; unfold bind, ret; cbn [fst snd];
    unfold applyMovement, reinsert;
    cbn [Dot.with_position Dot.with_assignedMovement Dot.with_lifeCount
         Dot.x Dot.y fst snd] in *;
    rewrite Hin; reflexivity.
Qed.

(** X11.  In exact arithmetic, with lifetime limiting off, a step as
    [coherent] whose end point is within the margin moves the dot by
    [distance] times the coherent direction and draws nothing; a
    following step of the same distance as [opposite] brings the dot
    back to where it started (when that point is within the margin),
    with both time steps on its life counter.  (On binary64 numbers
    the sum and the difference round: see [there_and_back_rounds].) *)
Theorem coherent_then_opposite_returns :
  forall dot distance delta1 delta2 maxDotLife aperture reinsertType dotRadius
         (coherentDir : R * R) o,
    maxDotLife <= 0 ->
    isOutside aperture (Dot.x dot + fst coherentDir * distance)
      (Dot.y dot + snd coherentDir * distance) dotRadius = false ->
    isOutside aperture (Dot.x dot) (Dot.y dot) dotRadius = false ->
    exists d1 d2,
      updateDot dot distance delta1 maxDotLife aperture reinsertType
        dotRadius coherentDir (Some coherent) o = (inr d1, o)
      /\ Dot.x d1 = Dot.x dot + fst coherentDir * distance
      /\ Dot.y d1 = Dot.y dot + snd coherentDir * distance
      /\ updateDot d1 distance delta2 maxDotLife aperture reinsertType
           dotRadius coherentDir (Some opposite) o = (inr d2, o)
      /\ Dot.x d2 = Dot.x dot
      /\ Dot.y d2 = Dot.y dot
      /\ Dot.lifeCount d2 = Dot.lifeCount dot + delta1 + delta2.
Proof.
  intros dot distance delta1 delta2 maxDotLife aperture reinsertType dotRadius
    coherentDir o Hoff Hin1 Hin0.
  eexists. eexists.
  split.
  { apply (straight_step dot distance delta1 maxDotLife aperture reinsertType
             dotRadius coherentDir coherent coherentDir o).
    - apply lifeExpired_off. exact Hoff.
    - left. split; reflexivity.
    - exact Hin1. }
  cbn [Dot.x Dot.y Dot.lifeCount].
  split; [reflexivity|]. split; [reflexivity|].
  split.
  { apply (straight_step _ distance delta2 maxDotLife aperture reinsertType
             dotRadius coherentDir opposite
             (- fst coherentDir, - snd coherentDir) o).
    - apply lifeExpired_off. exact Hoff.
    - right. split; reflexivity.
    - cbn [Dot.x Dot.y fst snd].
      replace (Dot.x dot + fst coherentDir * distance
               + - fst coherentDir * distance) with (Dot.x dot) by ring.
      replace (Dot.y dot + snd coherentDir * distance
               + - snd coherentDir * distance) with (Dot.y dot) by ring.
      exact Hin0. }
  cbn [Dot.x Dot.y Dot.lifeCount fst snd].
  split; [ring|]. split; ring.
Qed.

(** X11 for [agedDot] at the centre of a 600 by 400 ellipse, moving 5
    pixels to the right and back. *)
Lemma coherent_then_opposite_returns_witness :
  exists d1 d2,
    updateDot agedDot 5 16 (-1) (createAperture ellipse 600 400 300 200)
      "opposite" 2 (1, 0) (Some coherent) halves = (inr d1, halves)
    /\ Dot.x d1 = Dot.x agedDot + 1 * 5
    /\ Dot.y d1 = Dot.y agedDot + 0 * 5
    /\ updateDot d1 5 16 (-1) (createAperture ellipse 600 400 300 200)
         "opposite" 2 (1, 0) (Some opposite) halves = (inr d2, halves)
    /\ Dot.x d2 = Dot.x agedDot
    /\ Dot.y d2 = Dot.y agedDot
    /\ Dot.lifeCount d2 = Dot.lifeCount agedDot + 16 + 16.
Proof.
  assert (Hin : forall x, 300 <= x <= 305 ->
              isOutside (createAperture ellipse 600 400 300 200) x 200 2
              = false).
  { intros x Hx.
    rewrite createAperture_elliptical by reflexivity. cbv zeta. simpl.
    apply ell_inside; unfold horizontalAxisOf, verticalAxisOf; try lra.
    replace ((200 - 200) / (400 / 2)) with 0 by field.
    assert (0 <= (x - 300) / (600 / 2) <= 1 / 60).
    { split.
      - apply Rmult_le_pos; lra.
      - apply (Rmult_le_reg_r (600 / 2)); [lra|].
        unfold Rdiv at 1. rewrite Rmult_assoc, Rinv_l by lra. lra. }
    nra. }
  apply (coherent_then_opposite_returns agedDot 5 16 16 (-1)
           (createAperture ellipse 600 400 300 200) "opposite" 2 (1, 0) halves).
  - lra.
  - cbn [agedDot Dot.x Dot.y fst snd].
    replace (200 + 0 * 5) with 200 by ring. apply Hin. lra.
  - cbn [agedDot Dot.x Dot.y]. apply Hin. lra.
Defined.

(** X12.  In exact arithmetic, a dot moving as [randomWalk] (by
    reassignment on this tick or by its role) whose life does not
    expire is displaced along [(cos theta, - sin theta)], where
    [theta] is the angle that [randomBetween (-PI, PI)] makes of the
    next draw [u] of [Math.random()], that is [- PI + u * 2 PI], an
    angle in [-PI, PI).  When the end point is within the margin the
    returned dot is there, exactly [|distance|] away from where it
    was, and that one draw is all that was consumed. *)
Theorem randomWalk_step_length :
  forall dot distance deltaTimeMs maxDotLife aperture reinsertType dotRadius
         coherentDir reassignTo o,
    fair o ->
    lifeExpired dot deltaTimeMs maxDotLife = false ->
    roleAfter dot reassignTo = noise randomWalk ->
    let theta := fst (randomBetween (- PI) PI o) in
    theta = - PI + o 0%nat * (2 * PI)
    /\ - PI <= theta < PI
    /\ (isOutside aperture (Dot.x dot + cos theta * distance)
          (Dot.y dot + - sin theta * distance) dotRadius = false ->
        exists d',
          updateDot dot distance deltaTimeMs maxDotLife aperture
            reinsertType dotRadius coherentDir reassignTo o
          = (inr d', drop 1 o)
          /\ Dot.x d' = Dot.x dot + cos theta * distance
          /\ Dot.y d' = Dot.y dot + - sin theta * distance
          /\ (Dot.x d' - Dot.x dot) * (Dot.x d' - Dot.x dot)
             + (Dot.y d' - Dot.y dot) * (Dot.y d' - Dot.y dot)
             = distance * distance).
Proof.
  intros dot distance deltaTimeMs maxDotLife aperture reinsertType dotRadius
    coherentDir reassignTo o Ho Hexp Hrole theta.
  assert (Htheta : theta = - PI + o 0%nat * (PI - - PI)) by reflexivity.
  pose proof (Ho 0%nat) as H0. pose proof PI_RGT_0 as Hpi.
  split; [rewrite Htheta; ring|].
  split; [rewrite Htheta; split; nra|].
  intro Hin.
  assert (Hupd :
    exists u,
      Dot.x u = Dot.x dot /\ Dot.y u = Dot.y dot
      /\ reassign dot (Dot.with_lifeCount dot
                         (Dot.lifeCount dot + deltaTimeMs)) reassignTo o
         = (noise randomWalk, u, o)).
  { unfold roleAfter in Hrole. unfold reassign.
    destruct reassignTo as [m|].
    - subst m. eexists. split; [|split; [|reflexivity]]; reflexivity.
    - rewrite Hrole. eexists. split; [|split; [|reflexivity]]; reflexivity. }
  destruct Hupd as [u [Hx [Hy Hre]]].
  unfold updateDot. rewrite Hexp. unfold bind at 1. rewrite Hre.
  cbn [fst snd]. unfold randomBetween, Math_random. unfold bind, ret.
  cbn [fst snd]. unfold applyMovement, reinsert.
  cbn [Dot.with_position Dot.x Dot.y fst snd]. rewrite Hx, Hy.
  fold theta in Hin |- *. rewrite <- Htheta. rewrite Hin.
  eexists. split; [reflexivity|].
  cbn [fst Dot.x Dot.y]. split; [reflexivity|]. split; [reflexivity|].
  pose proof (sin2_cos2 theta) as Hsc. unfold Rsqr in Hsc.
  cbn [Dot.with_position Dot.x Dot.y fst snd].
  replace (Dot.x dot + cos theta * distance - Dot.x dot)
    with (cos theta * distance) by ring.
  replace (Dot.y dot + - sin theta * distance - Dot.y dot)
    with (- sin theta * distance) by ring.
  replace (cos theta * distance * (cos theta * distance)
           + - sin theta * distance * (- sin theta * distance))
    with ((sin theta * sin theta + cos theta * cos theta)
          * (distance * distance)) by ring.
  rewrite Hsc. ring.
Qed.

(** X12 for a random-walk dot when every draw is one half: the angle
    is 0. *)
Lemma randomWalk_step_length_witness :
  let theta := fst (randomBetween (- PI) PI halves) in
  theta = - PI + halves 0%nat * (2 * PI)
  /\ - PI <= theta < PI
  /\ (isOutside (createAperture ellipse 600 400 300 200)
        (Dot.x agedDot + cos theta * 5)
        (Dot.y agedDot + - sin theta * 5) 2 = false ->
      exists d',
        updateDot agedDot 5 3 (-1)
          (createAperture ellipse 600 400 300 200) "opposite" 2
          (1, 0) (Some (noise randomWalk)) halves
        = (inr d', drop 1 halves)
        /\ Dot.x d' = Dot.x agedDot + cos theta * 5
        /\ Dot.y d' = Dot.y agedDot + - sin theta * 5
        /\ (Dot.x d' - Dot.x agedDot) * (Dot.x d' - Dot.x agedDot)
           + (Dot.y d' - Dot.y agedDot) * (Dot.y d' - Dot.y agedDot)
           = 5 * 5).
Proof.
  apply (randomWalk_step_length agedDot 5 3 (-1)
           (createAperture ellipse 600 400 300 200) "opposite" 2 (1, 0)
           (Some (noise randomWalk)) halves).
  - exact fair_halves.
  - apply lifeExpired_off. lra.
  - reflexivity.
Defined.

(** ** The coherent direction *)

(** X13.  For every direction in degrees the coherent direction is a
    unit vector; 0, 90, 180 and 270 degrees give up, right, down and
    left on the canvas (whose y axis points down); adding 180 degrees
    reverses the vector and adding 360 degrees leaves it unchanged. *)
Theorem coherentDir_compass :
  (forall direction,
      fst (coherentDir direction) * fst (coherentDir direction)
      + snd (coherentDir direction) * snd (coherentDir direction) = 1)
  /\ coherentDir 0 = (0, -1)
  /\ coherentDir 90 = (1, 0)
  /\ coherentDir 180 = (0, 1)
  /\ coherentDir 270 = (-1, 0)
  /\ (forall direction,
        coherentDir (direction + 180)
        = (- fst (coherentDir direction), - snd (coherentDir direction)))
  /\ (forall direction, coherentDir (direction + 360) = coherentDir direction).
Proof.
  unfold coherentDir. cbv zeta. cbn [fst snd].
  split; [|split; [|split; [|split; [|split; [|split]]]]].
  - intro d. pose proof (sin2_cos2 ((90 - d) * PI / 180)) as H.
    unfold Rsqr in H. lra.
  - replace ((90 - 0) * PI / 180) with (PI / 2) by field.
    rewrite cos_PI2, sin_PI2. reflexivity.
  - replace ((90 - 90) * PI / 180) with 0 by field.
    rewrite cos_0, sin_0. f_equal. ring.
  - replace ((90 - 180) * PI / 180) with (- (PI / 2)) by field.
    rewrite cos_neg, sin_neg, cos_PI2, sin_PI2. f_equal. ring.
  - replace ((90 - 270) * PI / 180) with (- PI) by field.
    rewrite cos_neg, sin_neg, cos_PI, sin_PI. f_equal. ring.
  - intro d.
    replace ((90 - (d + 180)) * PI / 180) with ((90 - d) * PI / 180 - PI)
      by field.
    rewrite cos_minus, sin_minus, cos_PI, sin_PI. f_equal; ring.
  - intro d.
    replace ((90 - (d + 360)) * PI / 180) with ((90 - d) * PI / 180 - 2 * PI)
      by field.
    rewrite cos_minus, sin_minus, cos_2PI, sin_2PI. f_equal; ring.
Qed.

(** ** The initial dot sets *)

Lemma mapRand_length {A B} (f : A -> Rand B) l o :
  List.length (fst (mapRand f l o)) = List.length l.
Proof.
  revert o. induction l as [|a t IH]; intro o; [reflexivity|].
  cbn [mapRand]. unfold bind, ret.
  destruct (f a o) as [b o1]. specialize (IH o1).
  destruct (mapRand f t o1) as [bs o2]. cbn [fst List.length] in *.
  now rewrite IH.
Qed.

Lemma mapRand_map {A B C} (f : A -> Rand B) (g : B -> C) (h : A -> C) l o :
  (forall a o', g (fst (f a o')) = h a) ->
  map g (fst (mapRand f l o)) = map h l.
Proof.
  intro Hf. revert o. induction l as [|a t IH]; intro o; [reflexivity|].
  cbn [mapRand]. unfold bind, ret.
  pose proof (Hf a o) as Ha.
  destruct (f a o) as [b o1]. specialize (IH o1).
  destruct (mapRand f t o1) as [bs o2]. cbn [fst map] in *.
  now rewrite Ha, IH.
Qed.

Lemma mapRand_fair {A B} (f : A -> Rand B) l o :
  (forall a o', fair o' -> fair (snd (f a o'))) ->
  fair o ->
  fair (snd (mapRand f l o))
  /\ forall b, In b (fst (mapRand f l o)) ->
               exists a o', In a l /\ fair o' /\ b = fst (f a o').
Proof.
  intro Hf. revert o. induction l as [|a t IH]; intros o Ho.
  - cbn. split; [exact Ho | intros b []].
  - cbn [mapRand]. unfold bind, ret.
    pose proof (Hf a o Ho) as Ho1.
    destruct (f a o) as [b o1] eqn:E. cbn [snd] in Ho1.
    destruct (IH o1 Ho1) as [Ho2 Hin].
    destruct (mapRand f t o1) as [bs o2]. cbn [fst snd] in *.
    split; [exact Ho2|].
    intros b' [<-|Hb].
    + exists a, o. split; [now left|]. split; [exact Ho|]. now rewrite E.
    + destruct (Hin b' Hb) as (a' & o' & Ha' & Ho' & ->).
      exists a', o'. split; [now right|]. split; [exact Ho' | reflexivity].
Qed.

Lemma mapRand_In {A B} (f : A -> Rand B) l o b :
  In b (fst (mapRand f l o)) -> exists a o', In a l /\ b = fst (f a o').
Proof.
  revert o. induction l as [|a t IH]; intros o; [intros []|].
  cbn [mapRand]. unfold bind, ret.
  destruct (f a o) as [b0 o1] eqn:E. specialize (IH o1).
  destruct (mapRand f t o1) as [bs o2]. cbn [fst] in *.
  intros [<-|Hb].
  - exists a, o. split; [now left | now rewrite E].
  - destruct (IH Hb) as (a' & o' & Ha' & ->).
    exists a', o'. split; [now right | reflexivity].
Qed.

Lemma createDot_role role maxDotLife aperture o :
  Dot.assignedMovement (fst (createDot role maxDotLife aperture o)) = role.
Proof.
  unfold createDot, bind, ret.
  destruct (getRandomPosition aperture o) as [p o1].
  repeat match goal with
         | |- context [let (_, _) := ?c in _] => destruct c
         end.
  reflexivity.
Qed.

Lemma createDot_fair shape width height cx cy role maxDotLife o :
  fair o ->
  fair (snd (createDot role maxDotLife
               (createAperture shape width height cx cy) o)).
Proof.
  intro Ho.
  pose proof (getRandomPosition_fair shape width height cx cy o Ho) as Ho1.
  unfold createDot, bind, ret.
  destruct (getRandomPosition (createAperture shape width height cx cy) o)
    as [p o1]. cbn [snd] in Ho1.
  destruct role as [| |[]];
    unfold randomBetween, Math_random; unfold bind, ret; cbn [snd];
    repeat apply fair_drop; exact Ho1.
Qed.

Lemma indices_length n : List.length (indices n) = Z.to_nat n.
Proof. unfold indices. now rewrite length_map, length_seq. Qed.

(** Roles of a whole set, by index. *)
Lemma initial_set_roles dotCount nCoherent nOpposite nm life aperture o :
  rolesOf (fst (Array_from dotCount (fun i =>
             createDot (initialMovement nCoherent nOpposite nm i)
               life aperture) o))
  = map (initialMovement nCoherent nOpposite nm) (indices dotCount).
Proof.
  unfold rolesOf, Array_from. apply mapRand_map.
  intros a o'. apply createDot_role.
Qed.

(** Number of indices below [k] that a role occupies when it holds the
    block from [lo] up to [hi]. *)
Lemma count_block (f : Z -> FrameMovement) (m : FrameMovement) (lo hi : Z) :
  (forall i, (0 <= i)%Z -> f i = m <-> (lo <= i < hi)%Z) ->
  forall k : nat,
    Z.of_nat (count_occ FrameMovement_eq_dec
                (map f (map Z.of_nat (seq 0 k))) m)
    = Z.max 0 (Z.min hi (Z.of_nat k) - Z.max lo 0).
Proof.
  intros Hf k. induction k as [|k IH].
  - cbn [seq map count_occ]. lia.
  - rewrite seq_S, !map_app, count_occ_app, Nat2Z.inj_add, IH.
    cbn [map count_occ Nat.add].
    pose proof (Hf (Z.of_nat k) (Nat2Z.is_nonneg k)) as Hk.
    destruct (FrameMovement_eq_dec (f (Z.of_nat k)) m) as [E|E].
    + apply Hk in E. lia.
    + assert (~ (lo <= Z.of_nat k < hi)%Z) by (intro H; apply E, Hk, H).
      lia.
Qed.

Lemma initialMovement_coherent nCoherent nOpposite nm i :
  initialMovement nCoherent nOpposite nm i = coherent <-> (i < nCoherent)%Z.
Proof.
  unfold initialMovement.
  destruct (Z.ltb_spec i nCoherent); [tauto|].
  destruct (Z.ltb_spec i (nCoherent + nOpposite));
    split; intro; try discriminate; lia.
Qed.

Lemma initialMovement_opposite nCoherent nOpposite nm i :
  initialMovement nCoherent nOpposite nm i = opposite
  <-> (nCoherent <= i < nCoherent + nOpposite)%Z.
Proof.
  unfold initialMovement.
  destruct (Z.ltb_spec i nCoherent);
    [split; intro; try discriminate; lia|].
  destruct (Z.ltb_spec i (nCoherent + nOpposite));
    split; intro; try discriminate; try reflexivity; lia.
Qed.

Lemma initial_role_counts dotCount nCoherent nOpposite nm :
  let roles := map (initialMovement nCoherent nOpposite nm)
                 (indices dotCount) in
  Z.of_nat (count_occ FrameMovement_eq_dec roles coherent)
  = Z.max 0 (Z.min nCoherent dotCount)
  /\ Z.of_nat (count_occ FrameMovement_eq_dec roles opposite)
     = Z.max 0 (Z.min (nCoherent + nOpposite) dotCount - Z.max nCoherent 0)
  /\ Forall (fun m => m = coherent \/ m = opposite \/ m = noise nm) roles.
Proof.
  cbv zeta. unfold indices. split; [|split].
  - rewrite (count_block _ coherent 0 nCoherent).
    + lia.
    + intros i Hi. rewrite initialMovement_coherent. lia.
  - rewrite (count_block _ opposite nCoherent (nCoherent + nOpposite)).
    + lia.
    + intros i Hi. apply initialMovement_opposite.
  - apply Forall_forall. intros m Hm.
    apply in_map_iff in Hm. destruct Hm as [i [<- _]].
    unfold initialMovement.
    destruct (i <? nCoherent)%Z; [now left|].
    destruct (i <? nCoherent + nOpposite)%Z; [right; now left|].
    right; now right.
Qed.

Lemma initDotSets_In dotSetCount dotCount coherence opposite_ nm life
    aperture o dots :
  In dots (fst (initDotSets dotSetCount dotCount coherence opposite_ nm life
                  aperture o)) ->
  exists o',
    dots = fst (Array_from dotCount (fun i =>
                  createDot (initialMovement
                               (Math_floor (IZR dotCount * coherence))
                               (Math_floor (IZR dotCount * opposite_)) nm i)
                    life aperture) o').
Proof.
  unfold initDotSets. cbv zeta. unfold Array_from at 1. intro H.
  apply mapRand_In in H. destruct H as (a & o' & _ & ->).
  exists o'. reflexivity.
Qed.

(** X14.  The initial dot sets are built without any check of the
    proportions: there are [dotSetCount] sets of [dotCount] dots, the
    coherent dots first, then the opposite ones, then the noise dots,
    and the blocks are cut off at [dotCount].  The number of coherent
    dots is [floor(dotCount * coherence)] clamped to [0, dotCount] and
    the opposite dots get what is left of their block. *)
Theorem initDotSets_role_counts dotSetCount dotCount coherence opposite_ nm
    life aperture o dots :
  let sets := fst (initDotSets dotSetCount dotCount coherence opposite_ nm
                     life aperture o) in
  let nCoherent := Math_floor (IZR dotCount * coherence) in
  let nOpposite := Math_floor (IZR dotCount * opposite_) in
  In dots sets ->
  List.length sets = Z.to_nat dotSetCount
  /\ List.length dots = Z.to_nat dotCount
  /\ Z.of_nat (count_occ FrameMovement_eq_dec (rolesOf dots) coherent)
     = Z.max 0 (Z.min nCoherent dotCount)
  /\ Z.of_nat (count_occ FrameMovement_eq_dec (rolesOf dots) opposite)
     = Z.max 0 (Z.min (nCoherent + nOpposite) dotCount - Z.max nCoherent 0)
  /\ Forall (fun m => m = coherent \/ m = opposite \/ m = noise nm)
       (rolesOf dots).
Proof.
  intros sets nCoherent nOpposite Hin.
  split.
  { unfold sets, initDotSets, Array_from.
    now rewrite mapRand_length, indices_length. }
  apply initDotSets_In in Hin. destruct Hin as [o' ->].
  split.
  { unfold Array_from. now rewrite mapRand_length, indices_length. }
  rewrite initial_set_roles.
  exact (initial_role_counts dotCount nCoherent nOpposite nm).
Qed.

Lemma initDotSets_role_counts_witness :
  let aperture := createAperture ellipse 600 400 300 200 in
  let sets := fst (initDotSets 2 4 0.8 0.7 randomWalk (-1) aperture halves) in
  exists dots,
    In dots sets
    /\ List.length sets = 2%nat
    /\ List.length dots = 4%nat
    /\ Z.of_nat (count_occ FrameMovement_eq_dec (rolesOf dots) coherent) = 3%Z
    /\ Z.of_nat (count_occ FrameMovement_eq_dec (rolesOf dots) opposite) = 1%Z.
Proof.
  intros aperture sets.
  assert (HC : Math_floor (IZR 4 * 0.8) = 3%Z).
  { unfold Math_floor. apply Zfloor_eq. lra. }
  assert (HO : Math_floor (IZR 4 * 0.7) = 2%Z).
  { unfold Math_floor. apply Zfloor_eq. lra. }
  assert (Hlen : List.length sets = 2%nat).
  { unfold sets, initDotSets, Array_from.
    now rewrite mapRand_length, indices_length. }
  destruct sets as [|dots rest] eqn:E; [discriminate Hlen|].
  exists dots.
  assert (Hin : In dots (fst (initDotSets 2 4 0.8 0.7 randomWalk (-1)
                                aperture halves))).
  { fold sets. rewrite E. now left. }
  pose proof (initDotSets_role_counts 2 4 0.8 0.7 randomWalk (-1) aperture
                halves dots Hin) as H.
  cbv zeta in H. rewrite HC, HO in H.
  destruct H as [_ [Hl [Hc [Ho _]]]].
  split; [now left|]. split; [exact Hlen|]. split; [exact Hl|].
  split; [exact Hc | exact Ho].
Defined.

(** Within the proportions that [generateShuffledAssignments] accepts,
    the initial layout is the list it shuffles. *)
Lemma initial_roles_blocks dotCount nCoherent nOpposite nm :
  (0 <= nCoherent)%Z -> (0 <= nOpposite)%Z ->
  (nCoherent + nOpposite <= dotCount)%Z ->
  map (initialMovement nCoherent nOpposite nm) (indices dotCount)
  = repeat coherent (Z.to_nat nCoherent)
    ++ repeat opposite (Z.to_nat nOpposite)
    ++ repeat (noise nm) (Z.to_nat (dotCount - nCoherent - nOpposite)).
Proof.
  intros HC HO Hsum.
  assert (Hblock :
            forall (s k : nat) (m : FrameMovement),
              (forall i : nat, (s <= i < s + k)%nat ->
                 initialMovement nCoherent nOpposite nm (Z.of_nat i) = m) ->
              map (initialMovement nCoherent nOpposite nm)
                (map Z.of_nat (seq s k)) = repeat m k).
  { intros s k m. revert s. induction k as [|k IH]; intros s Hm.
    - reflexivity.
    - cbn [seq map repeat]. rewrite Hm by lia. f_equal.
      apply IH. intros i Hi. apply Hm. lia. }
  unfold indices.
  replace (Z.to_nat dotCount)
    with (Z.to_nat nCoherent
          + (Z.to_nat nOpposite
             + Z.to_nat (dotCount - nCoherent - nOpposite)))%nat by lia.
  rewrite !seq_app, !map_app.
  rewrite (Hblock _ _ coherent), (Hblock _ _ opposite),
    (Hblock _ _ (noise nm)).
  - reflexivity.
  - intros i Hi. unfold initialMovement.
    destruct (Z.ltb_spec (Z.of_nat i) nCoherent); [lia|].
    destruct (Z.ltb_spec (Z.of_nat i) (nCoherent + nOpposite)); [lia|].
    reflexivity.
  - intros i Hi. unfold initialMovement.
    destruct (Z.ltb_spec (Z.of_nat i) nCoherent); [lia|].
    destruct (Z.ltb_spec (Z.of_nat i) (nCoherent + nOpposite)); [|lia].
    reflexivity.
  - intros i Hi. unfold initialMovement.
    destruct (Z.ltb_spec (Z.of_nat i) nCoherent); [|lia].
    reflexivity.
Qed.

Lemma generateShuffledAssignments_inv shuffle dotCount coherence opposite_
    noiseMovement o assignments :
  fst (generateShuffledAssignments shuffle dotCount coherence opposite_
         noiseMovement o) = inr assignments ->
  let nCoherent := Math_floor (IZR dotCount * coherence) in
  let nOpposite := Math_floor (IZR dotCount * opposite_) in
  (0 <= nCoherent)%Z /\ (0 <= nOpposite)%Z
  /\ (nCoherent + nOpposite <= dotCount)%Z
  /\ assignments
     = fst (shuffle _
              (repeat coherent (Z.to_nat nCoherent)
               ++ repeat opposite (Z.to_nat nOpposite)
               ++ repeat noiseMovement
                    (Z.to_nat (dotCount - nCoherent - nOpposite))) o).
Proof.
  unfold generateShuffledAssignments, Array_fill. cbv zeta.
  destruct (Z.ltb_spec (Math_floor (IZR dotCount * coherence)) 0);
    [discriminate|].
  destruct (Z.ltb_spec (Math_floor (IZR dotCount * opposite_)) 0);
    [discriminate|].
  destruct (Z.ltb_spec (dotCount - Math_floor (IZR dotCount * coherence)
                        - Math_floor (IZR dotCount * opposite_)) 0);
    [discriminate|].
  unfold bind, ret.
  destruct (shuffle FrameMovement _ o) as [l o1] eqn:E. cbn [fst].
  intro Heq. injection Heq as <-.
  split; [lia|]. split; [lia|]. split; [lia|]. reflexivity.
Qed.

(** X15.  Whenever [generateShuffledAssignments] returns a list for the
    component's proportions, that list is a rearrangement of the roles
    of every initial dot set: a reassignment keeps the numbers of
    coherent, opposite and noise dots the sets started with. *)
Theorem reassignment_rearranges_initial_roles
    (shuffle : forall A : Type, list A -> Rand (list A))
    dotSetCount dotCount coherence opposite_ nm life aperture o o'
    assignments dots :
  rearranges shuffle ->
  fair o' ->
  fst (generateShuffledAssignments shuffle dotCount coherence opposite_
         (noise nm) o') = inr assignments ->
  In dots (fst (initDotSets dotSetCount dotCount coherence opposite_ nm life
                  aperture o)) ->
  Permutation (rolesOf dots) assignments.
Proof.
  intros Hshuffle Ho' Hgen Hin.
  apply generateShuffledAssignments_inv in Hgen. cbv zeta in Hgen.
  destruct Hgen as (HC & HO & Hsum & ->).
  apply initDotSets_In in Hin. destruct Hin as [o1 ->].
  rewrite initial_set_roles, (initial_roles_blocks _ _ _ _ HC HO Hsum).
  apply Hshuffle. exact Ho'.
Qed.

Lemma reassignment_rearranges_initial_roles_witness :
  let aperture := createAperture ellipse 600 400 300 200 in
  exists assignments dots,
    In dots (fst (initDotSets 1 4 0.5 0.25 randomWalk (-1) aperture halves))
    /\ fst (generateShuffledAssignments fisherYates 4 0.5 0.25
              (noise randomWalk) halves) = inr assignments
    /\ Permutation (rolesOf dots) assignments.
Proof.
  intro aperture.
  assert (HC : Math_floor (IZR 4 * 0.5) = 2%Z).
  { unfold Math_floor. apply Zfloor_eq. lra. }
  assert (HO : Math_floor (IZR 4 * 0.25) = 1%Z).
  { unfold Math_floor. apply Zfloor_eq. lra. }
  assert (Hgen :
            fst (generateShuffledAssignments fisherYates 4 0.5 0.25
                   (noise randomWalk) halves)
            = inr (fst (fisherYates _
                          [coherent; coherent; opposite; noise randomWalk]
                          halves))).
  { unfold generateShuffledAssignments. cbv zeta. rewrite HC, HO.
    replace (Array_fill 2 coherent) with (inr [coherent; coherent] : Exn + _)
      by reflexivity.
    replace (Array_fill 1 opposite) with (inr [opposite] : Exn + _)
      by reflexivity.
    replace (Array_fill (4 - 2 - 1) (noise randomWalk))
      with (inr [noise randomWalk] : Exn + _) by reflexivity.
    unfold bind, ret. cbn [app].
    destruct (fisherYates FrameMovement
                [coherent; coherent; opposite; noise randomWalk] halves).
    reflexivity. }
  pose (sets := fst (initDotSets 1 4 0.5 0.25 randomWalk (-1) aperture
                       halves)).
  assert (Hlen : List.length sets = 1%nat).
  { unfold sets, initDotSets, Array_from.
    now rewrite mapRand_length, indices_length. }
  destruct sets as [|dots rest] eqn:E; [discriminate Hlen|].
  assert (Hin : In dots (fst (initDotSets 1 4 0.5 0.25 randomWalk (-1)
                                aperture halves))).
  { fold sets. rewrite E. now left. }
  eexists. exists dots. split; [exact Hin|]. split; [exact Hgen|].
  exact (reassignment_rearranges_initial_roles fisherYates 1 4 0.5 0.25
           randomWalk (-1) aperture halves halves _ dots
           fisherYates_rearranges fair_halves Hgen Hin).
Defined.

(** X16.  In exact arithmetic, for an aperture of positive extents
    every dot of every initial set lies inside the aperture, and its
    age is drawn below the lifetime (it is 0 when lifetimes are
    off). *)
Theorem initDotSets_dots_inside shape width height cx cy
    dotSetCount dotCount coherence opposite_ nm life o dots d :
  positiveExtents shape width height ->
  fair o ->
  let aperture := createAperture shape width height cx cy in
  In dots (fst (initDotSets dotSetCount dotCount coherence opposite_ nm life
                  aperture o)) ->
  In d dots ->
  isOutside aperture (Dot.x d) (Dot.y d) 0 = false
  /\ (0 < life -> 0 <= Dot.lifeCount d < life)
  /\ (life <= 0 -> Dot.lifeCount d = 0).
Proof.
  intros Hpos Ho aperture Hdots Hd.
  set (nC := Math_floor (IZR dotCount * coherence)).
  set (nO := Math_floor (IZR dotCount * opposite_)).
  set (mk := fun i : Z =>
               createDot (initialMovement nC nO nm i) life aperture).
  assert (Hmk : forall a o', fair o' -> fair (snd (mk a o'))).
  { intros a o' Ho'. apply createDot_fair. exact Ho'. }
  assert (Hset : forall (a : Z) o', fair o' ->
                   fair (snd (Array_from dotCount mk o'))).
  { intros a o' Ho'.
    exact (proj1 (mapRand_fair mk (indices dotCount) o' Hmk Ho')). }
  unfold initDotSets in Hdots. cbv zeta in Hdots.
  fold nC nO in Hdots. fold mk in Hdots. unfold Array_from at 1 in Hdots.
  destruct (proj2 (mapRand_fair (fun _ : Z => Array_from dotCount mk)
                     (indices dotSetCount) o Hset Ho) dots Hdots)
    as (a & o1 & _ & Ho1 & ->).
  destruct (proj2 (mapRand_fair mk (indices dotCount) o1 Hmk Ho1) d Hd)
    as (i & o2 & _ & Ho2 & ->).
  destruct (createDot_spec shape width height cx cy
              (initialMovement nC nO nm i) life o2 Hpos Ho2)
    as (Hin & _ & Hlife & Hoff & _).
  split; [exact Hin|]. split; [exact Hlife | exact Hoff].
Qed.

Lemma initDotSets_dots_inside_witness :
  let aperture := createAperture ellipse 600 400 300 200 in
  exists dots d,
    In dots (fst (initDotSets 1 2 0.5 0 randomWalk 200 aperture halves))
    /\ In d dots
    /\ isOutside aperture (Dot.x d) (Dot.y d) 0 = false
    /\ 0 <= Dot.lifeCount d < 200.
Proof.
  intro aperture.
  pose (sets := fst (initDotSets 1 2 0.5 0 randomWalk 200 aperture halves)).
  assert (Hlen : List.length sets = 1%nat).
  { unfold sets, initDotSets, Array_from.
    now rewrite mapRand_length, indices_length. }
  destruct sets as [|dots rest] eqn:E; [discriminate Hlen|].
  assert (Hin : In dots (fst (initDotSets 1 2 0.5 0 randomWalk 200 aperture
                                halves))).
  { fold sets. rewrite E. now left. }
  assert (Hl : List.length dots = 2%nat).
  { destruct (initDotSets_In _ _ _ _ _ _ _ _ _ Hin) as [o' ->].
    unfold Array_from. now rewrite mapRand_length, indices_length. }
  destruct dots as [|d more] eqn:Ed; [discriminate Hl|].
  exists (d :: more), d.
  assert (Hd : In d (d :: more)) by now left.
  destruct (initDotSets_dots_inside ellipse 600 400 300 200 1 2 0.5 0
              randomWalk 200 halves (d :: more) d
              (positive_600_400 ellipse) fair_halves Hin Hd)
    as (Hins & Hlife & _).
  split; [exact Hin|]. split; [exact Hd|]. split; [exact Hins|].
  apply Hlife. lra.
Defined.

(** ** The dot phase of [animate] *)

Lemma updateDots_nth q distance dt reassignments k dots o ds :
  fst (updateDots q distance dt reassignments k dots o) = inr ds ->
  List.length ds = List.length dots
  /\ forall i dot,
       nth_error dots i = Some dot ->
       exists d' o',
         nth_error ds i = Some d'
         /\ fst (updateDot dot distance dt (RDK.dotLifetime q)
                   (RDK.aperture q) (RDK.reinsertMode q) (RDK.dotRadius q)
                   (coherentDir (RDK.direction q))
                   (match reassignments with
                    | Some assignments => nth_error assignments (k + i)
                    | None => None
                    end) o') = inr d'.
Proof.
  revert k o ds. induction dots as [|dot rest IH]; intros k o ds.
  - cbn [updateDots]. unfold ret. cbn [fst]. intro H. injection H as <-.
    split; [reflexivity|]. intros i d Hi. destruct i; discriminate Hi.
  - cbn [updateDots]. unfold bind.
    destruct (updateDot dot distance dt (RDK.dotLifetime q) (RDK.aperture q)
                (RDK.reinsertMode q) (RDK.dotRadius q)
                (coherentDir (RDK.direction q))
                (match reassignments with
                 | Some assignments => nth_error assignments k
                 | None => None
                 end) o) as [[e|d] o1] eqn:E.
    + unfold ret. cbn [fst]. discriminate.
    + specialize (IH (S k) o1).
      destruct (updateDots q distance dt reassignments (S k) rest o1)
        as [[e|ds'] o2].
      * unfold ret. cbn [fst]. discriminate.
      * unfold ret. cbn [fst] in *. intro H. injection H as <-.
        destruct (IH ds' eq_refl) as [Hlen Hnth].
        split; [cbn [List.length]; now rewrite Hlen|].
        intros i dot' Hi. destruct i as [|i].
        -- cbn [nth_error] in Hi. injection Hi as <-.
           exists d, o. split; [reflexivity|].
           rewrite Nat.add_0_r, E. reflexivity.
        -- cbn [nth_error] in Hi |- *.
           destruct (Hnth i dot' Hi) as (d' & o' & Hd' & Hu).
           exists d', o'. split; [exact Hd'|].
           replace (k + S i)%nat with (S k + i)%nat by lia. exact Hu.
Qed.

Lemma updateDots_roles q distance dt reassignments dots o ds :
  fst (updateDots q distance dt reassignments 0 dots o) = inr ds ->
  forall i dot d',
    nth_error dots i = Some dot ->
    nth_error ds i = Some d' ->
    Dot.assignedMovement d'
    = if lifeExpired dot dt (RDK.dotLifetime q)
      then Dot.assignedMovement dot
      else roleAfter dot (match reassignments with
                          | Some assignments => nth_error assignments i
                          | None => None
                          end).
Proof.
  intros H i dot d' Hdot Hd'.
  destruct (updateDots_nth _ _ _ _ _ _ _ _ H) as [_ Hnth].
  destruct (Hnth i dot Hdot) as (d1 & o1 & Hd1 & Hu).
  rewrite Hd1 in Hd'. injection Hd' as <-.
  cbn [Nat.add] in Hu.
  apply updateDot_accounting in Hu. cbv zeta in Hu.
  exact (proj1 (proj2 Hu)).
Qed.

(** X17.  The updated set has as many dots as before, in the same
    order.  A dot whose lifetime runs out on the update keeps its old
    role whatever the reassignment list says; every other dot takes
    the role at its index.  So with lifetimes off the roles after a
    reassignment are exactly the reassignment list. *)
Theorem updateDots_roles_after_reassignment
    q distance dt assignments dots o ds :
  fst (updateDots q distance dt (Some assignments) 0 dots o) = inr ds ->
  List.length assignments = List.length dots ->
  List.length ds = List.length dots
  /\ (forall i dot d',
        nth_error dots i = Some dot ->
        nth_error ds i = Some d' ->
        Dot.assignedMovement d'
        = if lifeExpired dot dt (RDK.dotLifetime q)
          then Dot.assignedMovement dot
          else nth i assignments (Dot.assignedMovement dot))
  /\ (RDK.dotLifetime q <= 0 -> rolesOf ds = assignments).
Proof.
  intros H Hlen.
  destruct (updateDots_nth _ _ _ _ _ _ _ _ H) as [Hds _].
  pose proof (updateDots_roles _ _ _ _ _ _ _ H) as Hroles.
  split; [exact Hds|]. split.
  - intros i dot d' Hdot Hd'. rewrite (Hroles i dot d' Hdot Hd').
    destruct (lifeExpired dot dt (RDK.dotLifetime q)); [reflexivity|].
    unfold roleAfter.
    destruct (nth_error assignments i) as [m|] eqn:E.
    + symmetry. apply nth_error_nth. exact E.
    + apply nth_error_None in E. symmetry. apply nth_overflow. exact E.
  - intro Hoff. apply nth_error_ext. intro n. unfold rolesOf.
    rewrite nth_error_map.
    destruct (nth_error ds n) as [d'|] eqn:Ed.
    + assert (Hn : (n < List.length dots)%nat).
      { rewrite <- Hds. apply nth_error_Some. now rewrite Ed. }
      destruct (nth_error dots n) as [dot|] eqn:Edot;
        [|apply nth_error_None in Edot; lia].
      cbn [option_map].
      rewrite (Hroles n dot d' Edot Ed), lifeExpired_off by exact Hoff.
      unfold roleAfter.
      destruct (nth_error assignments n) as [m|] eqn:E; [reflexivity|].
      apply nth_error_None in E. lia.
    + cbn [option_map]. symmetry. apply nth_error_None.
      apply nth_error_None in Ed. lia.
Qed.

Lemma updateDots_returns q distance dt reassignments k dots o :
  recognized (RDK.reinsertMode q) ->
  exists ds, fst (updateDots q distance dt reassignments k dots o) = inr ds.
Proof.
  intro Hrec. revert k o. induction dots as [|dot rest IH]; intros k o.
  - exists []. reflexivity.
  - cbn [updateDots]. unfold bind.
    destruct (updateDot_returns dot distance dt (RDK.dotLifetime q)
                (RDK.aperture q) (RDK.reinsertMode q) (RDK.dotRadius q)
                (coherentDir (RDK.direction q))
                (match reassignments with
                 | Some assignments => nth_error assignments k
                 | None => None
                 end) o Hrec) as [d Hd].
    destruct (updateDot dot distance dt (RDK.dotLifetime q) (RDK.aperture q)
                (RDK.reinsertMode q) (RDK.dotRadius q)
                (coherentDir (RDK.direction q))
                (match reassignments with
                 | Some assignments => nth_error assignments k
                 | None => None
                 end) o) as [u o1].
    cbn [fst] in Hd. subst u.
    destruct (IH (S k) o1) as [ds Hds].
    destruct (updateDots q distance dt reassignments (S k) rest o1)
      as [us o2].
    cbn [fst] in Hds. subst us. exists (d :: ds). reflexivity.
Qed.

Lemma recognized_default : recognized "opposite".
Proof. unfold recognized. right; left. reflexivity. Qed.

Lemma updateDots_roles_after_reassignment_witness :
  exists ds,
    fst (updateDots (defaultsWith 2 1 90 None (Some 0)) 1 16
           (Some [opposite; coherent]) 0 [dotAt 300 200; dotAt 310 200]
           halves) = inr ds
    /\ rolesOf ds = [opposite; coherent].
Proof.
  destruct (updateDots_returns (defaultsWith 2 1 90 None (Some 0)) 1 16
              (Some [opposite; coherent]) 0 [dotAt 300 200; dotAt 310 200]
              halves recognized_default) as [ds Hds].
  exists ds. split; [exact Hds|].
  refine (proj2 (proj2 (updateDots_roles_after_reassignment
                          (defaultsWith 2 1 90 None (Some 0)) 1 16
                          [opposite; coherent]
                          [dotAt 300 200; dotAt 310 200] halves ds Hds
                          eq_refl)) _).
  cbn [defaultsWith RDK.dotLifetime]. lra.
Defined.

Lemma replaceAt_length {A} (i : nat) (v : A) l :
  List.length (replaceAt i v l) = List.length l.
Proof.
  revert i. induction l as [|h t IH]; intro i; [now destruct i|].
  destruct i; cbn [replaceAt List.length]; [reflexivity | now rewrite IH].
Qed.

Lemma replaceAt_Forall {A} (P : A -> Prop) (i : nat) (v : A) l :
  Forall P l -> P v -> Forall P (replaceAt i v l).
Proof.
  intros Hl Hv. revert i. induction Hl as [|h t Hh Ht IH]; intro i.
  - destruct i; constructor.
  - destruct i; cbn [replaceAt]; constructor; auto.
Qed.

Lemma replaceAt_nth {A} (i j : nat) (v : A) l :
  (i < List.length l)%nat ->
  nth_error (replaceAt i v l) j
  = if Nat.eqb j i then Some v else nth_error l j.
Proof.
  revert i j. induction l as [|h t IH]; intros i j Hi.
  - cbn [List.length] in Hi. lia.
  - destruct i as [|i]; destruct j as [|j]; cbn [replaceAt nth_error Nat.eqb];
      try reflexivity.
    apply IH. cbn [List.length] in Hi. lia.
Qed.

Lemma at_index_nth {A} (l : list A) (c : Z) :
  (0 <= c)%Z -> at_index l (Some c) = nth_error l (Z.to_nat c).
Proof.
  intro Hc. unfold at_index. destruct (Z.ltb_spec c 0); [lia | reflexivity].
Qed.

Lemma at_index_in_range {A} (l : list A) (c : Z) :
  (0 <= c < Z.of_nat (List.length l))%Z ->
  exists x, at_index l (Some c) = Some x.
Proof.
  intro Hc. rewrite at_index_nth by lia.
  destruct (nth_error l (Z.to_nat c)) as [x|] eqn:E; [now exists x|].
  apply nth_error_None in E. lia.
Qed.

Lemma nextSet_in_range (c n : Z) :
  (0 <= c < n)%Z ->
  nextSet (Some c) n = Some ((c + 1) mod n)%Z
  /\ (0 <= (c + 1) mod n < n)%Z.
Proof.
  intro Hc. unfold nextSet.
  destruct (Z.eqb_spec n 0); [lia|].
  rewrite Z.rem_mod_nonneg by lia.
  split; [reflexivity | apply Z.mod_pos_bound; lia].
Qed.

Lemma wellFormed_paint q m :
  wellFormed q m -> paint q m <> Some TypeError.
Proof.
  intros (Hn & _ & c & Hc & Hrange). unfold paint, clip, drawDots, drawBorder.
  cbv zeta. rewrite Hc.
  destruct (at_index_in_range (dotSetsRef m) c) as [x ->]; [lia|].
  repeat match goal with
         | |- context [if ?b then _ else _] => destruct b
         end;
    try discriminate; destruct x; discriminate.
Qed.

Lemma wellFormed_updated q m c updatedDots t acc :
  wellFormed q m ->
  currentSetRef m = Some c ->
  Z.of_nat (List.length updatedDots) = RDK.dotCount q ->
  wellFormed q
    {| lastUpdateTimeRef := t;
       timeSinceReassignRef := acc;
       currentSetRef := nextSet (Some c) (RDK.dotSetCount q);
       dotSetsRef := replaceAt (Z.to_nat c) updatedDots (dotSetsRef m) |}.
Proof.
  intros (Hn & Hsizes & c' & Hc' & Hrange) Hc Hlen.
  rewrite Hc in Hc'. injection Hc' as <-.
  unfold wellFormed. cbn [dotSetsRef currentSetRef].
  split; [now rewrite replaceAt_length|].
  split; [apply replaceAt_Forall; assumption|].
  destruct (nextSet_in_range c (RDK.dotSetCount q) Hrange) as [-> Hr].
  eexists. split; [reflexivity | exact Hr].
Qed.

Lemma wellFormed_keep q m t acc :
  wellFormed q m ->
  wellFormed q {| lastUpdateTimeRef := t;
                  timeSinceReassignRef := acc;
                  currentSetRef := currentSetRef m;
                  dotSetsRef := dotSetsRef m |}.
Proof. intro H. exact H. Qed.

Lemma updateCurrentSet_well_formed q timestamp distance dt reassignments m o :
  wellFormed q m ->
  let out := fst (updateCurrentSet q timestamp distance dt reassignments m o) in
  wellFormed q (fst out) /\ snd out <> Some TypeError.
Proof.
  intro Hwf. pose proof Hwf as (Hn & Hsizes & c & Hc & Hrange).
  unfold updateCurrentSet. cbv zeta. rewrite Hc.
  destruct (at_index_in_range (dotSetsRef m) c) as [currentSet Hcur];
    [lia|].
  rewrite Hcur. unfold bind.
  destruct (updateDots q distance dt reassignments 0 currentSet o)
    as [[e|updatedDots] o1] eqn:E.
  { unfold ret. cbn [fst snd]. split; [exact Hwf | discriminate]. }
  assert (Hlen : Z.of_nat (List.length updatedDots) = RDK.dotCount q).
  { pose proof (updateDots_nth q distance dt reassignments 0 currentSet o
                  updatedDots) as Hu.
    rewrite E in Hu. destruct (Hu eq_refl) as [-> _].
    rewrite at_index_nth in Hcur by lia.
    apply nth_error_In in Hcur.
    rewrite Forall_forall in Hsizes. exact (Hsizes _ Hcur). }
  unfold ret. cbn [fst snd].
  split; [apply wellFormed_updated; assumption | discriminate].
Qed.

Lemma moveDots_well_formed shuffle q stimulusVisible fixationComplete
    timestamp r m o :
  wellFormed q m ->
  let out := fst (moveDots shuffle q stimulusVisible fixationComplete
                    timestamp r m o) in
  wellFormed q (fst out) /\ snd out <> Some TypeError.
Proof.
  intros Hwf. unfold moveDots. cbv zeta.
  destruct (negb stimulusVisible || negb fixationComplete).
  { unfold ret. cbn [fst snd].
    split; [apply wellFormed_keep, Hwf | discriminate]. }
  destruct (shouldUpdate _ _).
  2:{ unfold ret. cbn [fst snd].
      split; [apply wellFormed_keep, Hwf | discriminate]. }
  unfold bind.
  destruct (drawAssignments shuffle q _ o) as [[e|reassignments] o1].
  { unfold ret. cbn [fst snd].
    split; [apply wellFormed_keep, Hwf | discriminate]. }
  apply updateCurrentSet_well_formed. apply wellFormed_keep, Hwf.
Qed.

Lemma frame_well_formed shuffle q p stimulusVisible fixationComplete s rm o :
  wellFormed q (snd rm) ->
  let out := fst (frame shuffle q p stimulusVisible fixationComplete s rm o) in
  wellFormed q (snd (fst out)) /\ snd out <> Some TypeError.
Proof.
  intro Hwf. unfold frame. cbv zeta.
  destruct s as [[|] timestamp | now | refreshRate];
    try (unfold ret; cbn [fst snd]; split; [exact Hwf | discriminate]).
  unfold bind, ret.
  pose proof (moveDots_well_formed shuffle q stimulusVisible fixationComplete
                timestamp (fst (step p (Frame false timestamp) (fst rm)))
                (snd rm) o Hwf) as H.
  cbv zeta in H.
  destruct (moveDots shuffle q stimulusVisible fixationComplete timestamp _
              (snd rm) o) as [mm o1].
  cbn [fst snd] in *. destruct H as [Hwf' Hno].
  split; [exact Hwf'|].
  destruct (snd mm) as [thrown|]; [exact Hno|].
  destruct (stimulusVisible && fixationComplete); [|discriminate].
  apply wellFormed_paint. exact Hwf'.
Qed.

Lemma play_well_formed shuffle q p calls rm o :
  wellFormed q (snd rm) ->
  let out := fst (play shuffle q p calls rm o) in
  wellFormed q (snd (fst out)) /\ snd out <> Some TypeError.
Proof.
  revert rm o. induction calls as [|[[sv fc] s] rest IH]; intros rm o Hwf.
  - cbn. split; [exact Hwf | discriminate].
  - cbn [play]. unfold bind.
    pose proof (frame_well_formed shuffle q p sv fc s rm o Hwf) as H.
    cbv zeta in H.
    destruct (frame shuffle q p sv fc s rm o) as [out o1].
    cbn [fst snd] in H.
    destruct (snd out) as [thrown|] eqn:E.
    + unfold ret. cbn [fst snd]. rewrite E. exact H.
    + apply IH. exact (proj1 H).
Qed.

Lemma initDotSets_well_formed q o :
  (0 <= RDK.dotSetCount q)%Z ->
  (0 <= RDK.dotCount q)%Z ->
  let sets := fst (initDotSets (RDK.dotSetCount q) (RDK.dotCount q)
                     (RDK.coherence q) (RDK.opposite_ q)
                     (RDK.noiseMovement q) (RDK.dotLifetime q)
                     (RDK.aperture q) o) in
  Z.of_nat (List.length sets) = RDK.dotSetCount q
  /\ Forall (fun dots => Z.of_nat (List.length dots) = RDK.dotCount q) sets.
Proof.
  intros Hsets Hdots sets. split.
  - unfold sets, initDotSets, Array_from.
    rewrite mapRand_length, indices_length. lia.
  - apply Forall_forall. intros dots Hin.
    apply initDotSets_In in Hin. destruct Hin as [o' ->].
    unfold Array_from. rewrite mapRand_length, indices_length. lia.
Qed.

(** X18.  With at least one dot set configured, the component never
    calls a method on [undefined]: from the dot sets built at mount,
    whatever the frames, the flags of their closures and the random
    draws, the number of sets and the size of every set stay as
    configured, the current index stays a valid index and no call of
    [animate] ends in a [TypeError]. *)
Theorem play_never_TypeError shuffle q p calls r o0 o :
  (1 <= RDK.dotSetCount q)%Z ->
  (0 <= RDK.dotCount q)%Z ->
  let sets := fst (initDotSets (RDK.dotSetCount q) (RDK.dotCount q)
                     (RDK.coherence q) (RDK.opposite_ q)
                     (RDK.noiseMovement q) (RDK.dotLifetime q)
                     (RDK.aperture q) o0) in
  let out := fst (play shuffle q p calls (r, motionOf sets) o) in
  wellFormed q (snd (fst out)) /\ snd out <> Some TypeError.
Proof.
  intros Hsets Hdots sets.
  apply play_well_formed. cbn [snd].
  destruct (initDotSets_well_formed q o0) as [Hn Hsizes]; [lia | exact Hdots|].
  unfold wellFormed, motionOf. cbn [dotSetsRef currentSetRef].
  split; [exact Hn|]. split; [exact Hsizes|].
  exists 0%Z. split; [reflexivity | lia].
Qed.

Lemma play_never_TypeError_witness :
  let q := defaultsWith 3 2 90 None None in
  let sets := fst (initDotSets 2 3 0.5 0 randomDirection (-1)
                     (RDK.aperture q) halves) in
  let out := fst (play fisherYates q latchProps
                    [(true, false, Frame false 0);
                     (true, true, Frame false 500);
                     (true, true, Frame false 516)]
                    (mounted, motionOf sets) halves) in
  wellFormed q (snd (fst out)) /\ snd out <> Some TypeError.
Proof.
  intros q sets out.
  apply (play_never_TypeError fisherYates q latchProps _ mounted halves
           halves);
    cbn [q defaultsWith RDK.dotSetCount RDK.dotCount]; lia.
Defined.

Lemma initDotSets_empty dotSetCount dotCount coherence opposite_ nm life
    aperture o :
  (dotSetCount <= 0)%Z ->
  fst (initDotSets dotSetCount dotCount coherence opposite_ nm life aperture
         o) = [].
Proof.
  intro H. unfold initDotSets, Array_from, indices.
  replace (Z.to_nat dotSetCount) with 0%nat by lia. reflexivity.
Qed.

Lemma at_index_nil {A} (index : option Z) : at_index (@nil A) index = None.
Proof.
  destruct index as [i|]; [|reflexivity]. unfold at_index.
  destruct (i <? 0)%Z; [reflexivity|]. now destruct (Z.to_nat i).
Qed.

(** Without dot sets an update throws: the [TypeError] of
    [currentSet.map], unless the role assigner threw first.  A skipped
    update throws nothing and leaves the references as they are. *)
Lemma moveDots_no_sets shuffle q timestamp r o m :
  dotSetsRef m = [] ->
  let out := fst (moveDots shuffle q true true timestamp r m o) in
  dotSetsRef (fst out) = []
  /\ currentSetRef (fst out) = currentSetRef m
  /\ (shouldUpdate (RDK.updateRate q) (timestamp - lastUpdateTime m timestamp)
      = true ->
      snd out <> None
      /\ (RDK.reassignEveryMs q = None -> snd out = Some TypeError))
  /\ (shouldUpdate (RDK.updateRate q) (timestamp - lastUpdateTime m timestamp)
      = false ->
      snd out = None).
Proof.
  intros Hm out. unfold out, moveDots. cbv zeta. cbn [negb orb].
  destruct (shouldUpdate _ _).
  2:{ unfold ret. cbn [fst snd dotSetsRef currentSetRef].
      split; [exact Hm|]. split; [reflexivity|].
      split; [discriminate | reflexivity]. }
  unfold bind, drawAssignments.
  destruct (reassignDue (RDK.reassignEveryMs q) _ r _) as [due acc] eqn:E.
  cbn [fst snd].
  assert (Hupd :
            forall reassignments t acc' distance dt o1,
              fst (updateCurrentSet q timestamp distance dt reassignments
                     {| lastUpdateTimeRef := t;
                        timeSinceReassignRef := acc';
                        currentSetRef := currentSetRef m;
                        dotSetsRef := dotSetsRef m |} o1)
              = ({| lastUpdateTimeRef := t;
                    timeSinceReassignRef := acc';
                    currentSetRef := currentSetRef m;
                    dotSetsRef := dotSetsRef m |}, Some TypeError)).
  { intros. unfold updateCurrentSet. cbn [currentSetRef dotSetsRef].
    destruct (currentSetRef m) as [c|]; [|reflexivity].
    rewrite Hm, at_index_nil. reflexivity. }
  destruct due.
  - unfold bind, ret.
    destruct (generateShuffledAssignments shuffle _ _ _ _ o)
      as [[e|assignments] o1]; cbn [fst snd dotSetsRef currentSetRef].
    + split; [exact Hm|]. split; [reflexivity|].
      split; [|discriminate]. intros _. split; [discriminate|].
      intro HNone. rewrite HNone in E. cbn [reassignDue] in E. discriminate E.
    + rewrite Hupd. cbn [fst snd dotSetsRef currentSetRef].
      split; [exact Hm|]. split; [reflexivity|].
      split; [|discriminate]. intros _. split; [discriminate | reflexivity].
  - unfold ret. rewrite Hupd. cbn [fst snd dotSetsRef currentSetRef].
    split; [exact Hm|]. split; [reflexivity|].
    split; [|discriminate]. intros _. split; [discriminate | reflexivity].
Qed.

(** Without dot sets the painting throws: the [IndexSizeError] of
    [aperture.clip] if the aperture is elliptical with a negative half
    extent, the [TypeError] of [dots.forEach] otherwise. *)
Lemma paint_no_sets q m :
  dotSetsRef m = [] ->
  paint q m = match clip q with
              | Some thrown => Some thrown
              | None => Some TypeError
              end.
Proof.
  intro Hm. unfold paint. rewrite Hm, at_index_nil.
  destruct (clip q); reflexivity.
Qed.

Lemma clip_cases q : clip q = None \/ clip q = Some IndexSizeError.
Proof.
  unfold clip. cbv zeta.
  match goal with |- context [if ?b then _ else _] => destruct b end;
    [right | left]; reflexivity.
Qed.

(** X19.  With no dot set configured ([dotSetCount] zero or negative)
    the list of dot sets built at mount is empty, and as long as it is,
    a call of [animate] with the stimulus visible and the fixation over
    does not return: it throws.  With [reassignEveryMs] undefined the
    exception is a [TypeError] (of [currentSet.map] when the update
    runs, of [dots.forEach] when it is skipped), except that a skipped
    update on an elliptical aperture with a negative half extent ends
    in the [IndexSizeError] of [aperture.clip], which comes first. *)
Theorem no_dot_sets_throws shuffle q p timestamp r o0 o m :
  (RDK.dotSetCount q <= 0)%Z ->
  let sets := fst (initDotSets (RDK.dotSetCount q) (RDK.dotCount q)
                     (RDK.coherence q) (RDK.opposite_ q)
                     (RDK.noiseMovement q) (RDK.dotLifetime q)
                     (RDK.aperture q) o0) in
  dotSetsRef m = sets ->
  let out := fst (frame shuffle q p true true (Frame false timestamp)
                    (r, m) o) in
  let updates :=
    shouldUpdate (RDK.updateRate q)
      (timestamp - lastUpdateTime m timestamp) in
  sets = []
  /\ snd out <> None
  /\ (RDK.reassignEveryMs q = None ->
      snd out = if updates then Some TypeError
                else match clip q with
                     | Some thrown => Some thrown
                     | None => Some TypeError
                     end).
Proof.
  intros Hn sets Hm out updates.
  assert (Hsets : sets = []) by (apply initDotSets_empty; exact Hn).
  split; [exact Hsets|].
  rewrite Hsets in Hm.
  unfold out, frame. cbv zeta. unfold bind, ret. cbn [fst snd].
  pose proof (moveDots_no_sets shuffle q timestamp
                (fst (step p (Frame false timestamp) r)) o m Hm) as H.
  cbv zeta in H. fold updates in H.
  destruct (moveDots shuffle q true true timestamp _ m o) as [mm o1].
  cbn [fst snd andb] in *.
  destruct H as (Hempty & _ & Hrun & Hskip).
  destruct updates.
  - destruct (Hrun eq_refl) as [Hthrows Hkind].
    destruct (snd mm) as [thrown|]; [|contradiction].
    split; [discriminate | exact Hkind].
  - rewrite (Hskip eq_refl), (paint_no_sets q _ Hempty).
    destruct (clip_cases q) as [-> | ->];
      (split; [discriminate | reflexivity]).
Qed.

Lemma clip_default dotCount dotSetCount direction updateRate reassignEveryMs :
  clip (defaultsWith dotCount dotSetCount direction updateRate
          reassignEveryMs) = None.
Proof.
  unfold clip, defaultsWith, horizontalAxisOf, verticalAxisOf.
  cbn [RDK.apertureShape RDK.apertureWidth RDK.apertureHeight elliptical
       andb].
  destruct (ltb_reflect (600 / 2) 0) as [Hn|_]; [exfalso; lra|].
  destruct (ltb_reflect (400 / 2) 0) as [Hn|_]; [exfalso; lra|].
  reflexivity.
Qed.

(** X19 on the defaults with no dot set: the call at 16 ms ends in a
    [TypeError]. *)
Lemma no_dot_sets_throws_witness :
  let q := defaultsWith 3 0 90 None None in
  let sets := fst (initDotSets 0 3 0.5 0 randomDirection (-1)
                     (RDK.aperture q) halves) in
  snd (fst (frame fisherYates q latchProps true true (Frame false 16)
              (mounted, stamped 0 (motionOf sets)) halves))
  = Some TypeError.
Proof.
  intros q sets.
  rewrite (proj2 (proj2 (no_dot_sets_throws fisherYates q latchProps 16
                           mounted halves halves (stamped 0 (motionOf sets))
                           ltac:(cbn; lia) eq_refl)) eq_refl).
  unfold q. rewrite clip_default.
  destruct (shouldUpdate _ _); reflexivity.
Defined.

(** ** The reassignment period *)

Lemma reassignDue_cases every tslu r acc :
  every <> 0 ->
  reassignDue (Some every) tslu r acc
  = if acc + tslu + halfFrameCorrection r >=? every
    then (true, Num.rem (acc + tslu) every)
    else (false, acc + tslu).
Proof.
  intro H. unfold reassignDue.
  destruct (eqb_reflect every 0); [contradiction | reflexivity].
Qed.

(** X20.  For a positive period the roles are reassigned exactly when
    the time accumulated over the updates, plus the half-frame
    correction, has reached the period.  The accumulator then keeps
    the remainder of the time modulo the period, so whole periods are
    subtracted and no time is dropped; otherwise it keeps the whole
    accumulated time. *)
Theorem reassignDue_keeps_remainder every tslu r acc :
  0 < every -> 0 <= acc -> 0 <= tslu ->
  let out := reassignDue (Some every) tslu r acc in
  (fst out = true <-> every <= acc + tslu + halfFrameCorrection r)
  /\ (fst out = false -> snd out = acc + tslu)
  /\ (fst out = true ->
      0 <= snd out < every
      /\ exists k : Z,
           (0 <= k)%Z /\ acc + tslu = IZR k * every + snd out).
Proof.
  intros Hevery Hacc Htslu out. unfold out.
  rewrite reassignDue_cases by lra.
  destruct (geb_reflect (acc + tslu + halfFrameCorrection r) every) as [H|H];
    cbn [fst snd].
  - split; [tauto|]. split; [discriminate|]. intros _.
    split; [apply rem_nonneg; lra|].
    exists (Zfloor ((acc + tslu) / every)).
    assert (Hq : 0 <= (acc + tslu) / every).
    { apply Rmult_le_pos; [lra|]. apply Rlt_le, Rinv_0_lt_compat, Hevery. }
    split.
    + apply Zfloor_lub. exact Hq.
    + unfold Num.rem. rewrite trunc_nonneg by exact Hq. ring.
  - split; [split; [discriminate | intro; contradiction]|].
    split; [reflexivity | discriminate].
Qed.

Lemma halfFrameCorrection_seeded refreshRate :
  20 <= refreshRate <= 300 ->
  halfFrameCorrection (seedEstimate refreshRate mounted)
  = 1000 / refreshRate * 0.5.
Proof.
  intros [Hlo Hhi]. unfold seedEstimate.
  destruct (geb_reflect refreshRate 20); [|lra].
  destruct (leb_reflect refreshRate 300); [|lra].
  cbn [andb]. unfold halfFrameCorrection.
  cbn [estimatedFrameIntervalRef isCalibrated andb]. unfold truthy.
  destruct (eqb_reflect (1000 / refreshRate) 0) as [E|E]; [|reflexivity].
  exfalso.
  assert (0 < 1000 / refreshRate).
  { apply Rmult_lt_0_compat; [lra|]. apply Rinv_0_lt_compat. lra. }
  lra.
Qed.

Lemma reassignDue_keeps_remainder_witness :
  let out := reassignDue (Some 100) 20 (seedEstimate 50 mounted) 190 in
  fst out = true /\ 0 <= snd out < 100
  /\ exists k : Z, (0 <= k)%Z /\ 190 + 20 = IZR k * 100 + snd out.
Proof.
  intro out.
  destruct (reassignDue_keeps_remainder 100 20 (seedEstimate 50 mounted) 190)
    as (Hiff & _ & Hrem); [lra | lra | lra|].
  assert (Hfire : fst out = true).
  { apply Hiff. rewrite halfFrameCorrection_seeded by lra. lra. }
  split; [exact Hfire | exact (Hrem Hfire)].
Defined.

(** X21.  When the half-frame correction triggers a reassignment before
    the accumulated time has reached the period, the remainder leaves
    the accumulator as it is; the next update, with a correction at
    least as large, therefore reassigns the roles again. *)
Theorem reassignDue_fires_twice every tslu tslu' r r' acc :
  0 < every -> 0 <= acc -> 0 <= tslu -> 0 <= tslu' ->
  acc + tslu < every <= acc + tslu + halfFrameCorrection r ->
  halfFrameCorrection r <= halfFrameCorrection r' ->
  let first := reassignDue (Some every) tslu r acc in
  let second := reassignDue (Some every) tslu' r' (snd first) in
  first = (true, acc + tslu) /\ fst second = true.
Proof.
  intros Hevery Hacc Htslu Htslu' [Hlt Hge] Hcorr first second.
  assert (Hfirst : first = (true, acc + tslu)).
  { unfold first. rewrite reassignDue_cases by lra.
    destruct (geb_reflect (acc + tslu + halfFrameCorrection r) every);
      [|lra].
    f_equal. rewrite (rem_shift every Hevery (acc + tslu) 0).
    - simpl. ring.
    - lia.
    - simpl. lra. }
  split; [exact Hfirst|].
  unfold second. rewrite Hfirst. cbn [snd].
  rewrite reassignDue_cases by lra.
  destruct (geb_reflect (acc + tslu + tslu' + halfFrameCorrection r') every);
    [reflexivity | lra].
Qed.

Lemma reassignDue_fires_twice_witness :
  let r := seedEstimate 50 mounted in
  let first := reassignDue (Some 90) 20 r 60 in
  let second := reassignDue (Some 90) 20 r (snd first) in
  first = (true, 60 + 20) /\ fst second = true.
Proof.
  intros r.
  apply (reassignDue_fires_twice 90 20 20 r r 60); try lra.
  unfold r. rewrite halfFrameCorrection_seeded by lra. lra.
Defined.

(** ** Pacing and displacement *)

Lemma ascending_weaken (t t' : R) (timestamps : list R) :
  t <= t' -> ascending t' timestamps -> ascending t timestamps.
Proof.
  intros Ht. destruct timestamps as [|t1 rest]; [trivial|].
  cbn [ascending]. intros [H1 H2]. split; [lra | exact H2].
Qed.

(** A dot that keeps a straight role and is within the margin after
    its displacement is returned displaced. *)
Lemma straight_step_kept dot distance deltaTimeMs maxDotLife aperture
    reinsertType dotRadius coherentDir o :
  lifeExpired dot deltaTimeMs maxDotLife = false ->
  Dot.assignedMovement dot = coherent ->
  isOutside aperture (Dot.x dot + fst coherentDir * distance)
    (Dot.y dot + snd coherentDir * distance) dotRadius = false ->
  updateDot dot distance deltaTimeMs maxDotLife aperture reinsertType
    dotRadius coherentDir None o
  = (inr {| Dot.x := Dot.x dot + fst coherentDir * distance;
            Dot.y := Dot.y dot + snd coherentDir * distance;
            Dot.randomDirX := Dot.randomDirX dot;
            Dot.randomDirY := Dot.randomDirY dot;
            Dot.lifeCount := Dot.lifeCount dot + deltaTimeMs;
            Dot.assignedMovement := coherent |}, o).
Proof.
  intros Hexp Hrole Hin.
  unfold updateDot. rewrite Hexp.
  cbn [reassign]. unfold bind, ret. cbn [fst snd]. rewrite Hrole.
  unfold applyMovement, reinsert.
  cbn [Dot.with_position Dot.with_assignedMovement Dot.with_lifeCount
       Dot.x Dot.y fst snd] in *.
  rewrite Hin. rewrite <- Hrole. reflexivity.
Qed.

Lemma coherent_step dot distance dt maxDotLife aperture reinsertType
    dotRadius coherentDir o d' :
  maxDotLife <= 0 ->
  Dot.assignedMovement dot = coherent ->
  fst (updateDot dot distance dt maxDotLife aperture reinsertType dotRadius
         coherentDir None o) = inr d' ->
  Dot.assignedMovement d' = coherent
  /\ Dot.lifeCount d' = Dot.lifeCount dot + dt
  /\ (isOutside aperture (Dot.x dot + fst coherentDir * distance)
        (Dot.y dot + snd coherentDir * distance) dotRadius = false ->
      Dot.x d' = Dot.x dot + fst coherentDir * distance
      /\ Dot.y d' = Dot.y dot + snd coherentDir * distance).
Proof.
  intros Hoff Hrole Hu.
  pose proof (lifeExpired_off dot dt maxDotLife Hoff) as Hexp.
  pose proof (updateDot_accounting _ _ _ _ _ _ _ _ _ _ _ Hu) as Hacc.
  cbv zeta in Hacc. rewrite Hexp in Hacc.
  destruct Hacc as (Hlife & Hr & _).
  split; [rewrite Hr; exact Hrole|]. split; [exact Hlife|].
  intro Hin.
  rewrite (straight_step_kept dot distance dt maxDotLife aperture
             reinsertType dotRadius coherentDir o Hexp Hrole Hin) in Hu.
  cbn [fst] in Hu. injection Hu as <-. cbn [Dot.x Dot.y]. split; reflexivity.
Qed.

(** One running call on a single dot set without reassignment: either
    nothing changes but the stamp of the first call, or the set is
    updated for the time since the last update. *)
Lemma moveDots_single_set shuffle q stimulusVisible fixationComplete
    timestamp r m o dots m' :
  RDK.dotSetCount q = 1%Z ->
  RDK.reassignEveryMs q = None ->
  dotSetsRef m = [dots] ->
  currentSetRef m = Some 0%Z ->
  fst (moveDots shuffle q stimulusVisible fixationComplete timestamp r m o)
  = (m', None) ->
  let t0 := lastUpdateTime m timestamp in
  currentSetRef m' = Some 0%Z
  /\ (lastUpdateTimeRef m' = Some t0 /\ dotSetsRef m' = [dots]
      \/ lastUpdateTimeRef m' = Some timestamp
         /\ exists dots' o1,
              dotSetsRef m' = [dots']
              /\ fst (updateDots q (RDK.speed q * (timestamp - t0) / 1000)
                        (timestamp - t0) None 0 dots o1) = inr dots').
Proof.
  intros Hone Hnever Hsets Hcur. unfold moveDots. cbv zeta.
  destruct (negb stimulusVisible || negb fixationComplete).
  { unfold ret. cbn [fst]. intro H. injection H as <-.
    cbn [currentSetRef lastUpdateTimeRef dotSetsRef].
    split; [exact Hcur|]. left. split; [reflexivity | exact Hsets]. }
  destruct (shouldUpdate _ _).
  2:{ unfold ret. cbn [fst]. intro H. injection H as <-.
      cbn [currentSetRef lastUpdateTimeRef dotSetsRef].
      split; [exact Hcur|]. left. split; [reflexivity | exact Hsets]. }
  rewrite Hnever. cbn [reassignDue fst snd drawAssignments].
  unfold bind at 1. unfold ret at 1.
  unfold updateCurrentSet. cbn [currentSetRef dotSetsRef].
  rewrite Hcur, Hsets. cbn [at_index Z.ltb Z.compare Z.to_nat nth_error].
  unfold bind.
  destruct (updateDots q _ _ None 0 dots o) as [[e|dots'] o1] eqn:E.
  { unfold ret. cbn [fst]. discriminate. }
  unfold ret.
  cbn [dotSetsRef currentSetRef replaceAt]. rewrite Hone.
  cbn [nextSet Z.eqb Z.rem Z.add Z.quotrem Pos.add Z.pos_sub
       at_index Z.ltb Z.compare Z.to_nat nth_error].
  change (Z.rem 1 1) with 0%Z.
  cbn [at_index Z.ltb Z.compare Z.to_nat nth_error fst].
  intro H. injection H as <-.
  cbn [currentSetRef lastUpdateTimeRef dotSetsRef].
  split; [reflexivity|]. right. split; [reflexivity|].
  exists dots', o. split; [reflexivity|]. rewrite E. reflexivity.
Qed.

Section DeadReckoning.

Variable shuffle : forall A : Type, list A -> Rand (list A).
Variable q : RDK.Props.
Variable p : Props.
Variable i : nat.

Hypothesis one_set : RDK.dotSetCount q = 1%Z.
Hypothesis lifetime_off : RDK.dotLifetime q <= 0.
Hypothesis never_reassigned : RDK.reassignEveryMs q = None.

Lemma reckoned_still dot t0 m dots :
  lastUpdateTimeRef m = Some t0 ->
  dotSetsRef m = [dots] ->
  nth_error dots i = Some dot ->
  Dot.assignedMovement dot = coherent ->
  reckoned q i dot t0 m.
Proof.
  intros Ht Hsets Hdot Hrole. exists t0, dots, dot.
  split; [exact Ht|]. split; [lra|]. split; [exact Hsets|].
  split; [exact Hdot|]. split; [exact Hrole|]. split; [lra|].
  intros _. unfold pathPoint.
  destruct (coherentDir (RDK.direction q)) as [ux uy].
  apply injective_projections; cbn [fst snd]; field.
Qed.

Lemma reckoned_after dot d1 t0 ts m' :
  t0 <= ts ->
  Dot.assignedMovement dot = coherent ->
  Dot.lifeCount d1 = Dot.lifeCount dot + (ts - t0) ->
  (isOutside (RDK.aperture q) (fst (pathPoint q dot (ts - t0)))
     (snd (pathPoint q dot (ts - t0))) (RDK.dotRadius q) = false ->
   (Dot.x d1, Dot.y d1) = pathPoint q dot (ts - t0)) ->
  reckoned q i d1 ts m' ->
  reckoned q i dot t0 m'.
Proof.
  intros Hts Hrole Hlife Hpos (t1 & dots' & dot' & Ht1 & Hle & Hsets & Hdot
                               & Hrole' & Hlife' & Hpath).
  exists t1, dots', dot'.
  split; [exact Ht1|]. split; [lra|]. split; [exact Hsets|].
  split; [exact Hdot|]. split; [exact Hrole'|].
  split; [rewrite Hlife', Hlife; ring|].
  intro Hin.
  assert (Hd1 : (Dot.x d1, Dot.y d1) = pathPoint q dot (ts - t0)).
  { apply Hpos. apply Hin. lra. }
  rewrite Hpath.
  - unfold pathPoint in Hd1 |- *.
    destruct (coherentDir (RDK.direction q)) as [ux uy].
    cbn [fst snd] in Hd1 |- *. injection Hd1 as -> ->.
    apply injective_projections; cbn [fst snd]; field.
  - intros t Ht. specialize (Hin t ltac:(lra)).
    unfold pathPoint in Hin, Hd1 |- *.
    destruct (coherentDir (RDK.direction q)) as [ux uy].
    cbn [fst snd] in Hin, Hd1 |- *. injection Hd1 as -> ->.
    replace (Dot.x dot + ux * (RDK.speed q * (ts - t0) / 1000)
             + ux * (RDK.speed q * (t - ts) / 1000))
      with (Dot.x dot + ux * (RDK.speed q * (t - t0) / 1000)) by field.
    replace (Dot.y dot + uy * (RDK.speed q * (ts - t0) / 1000)
             + uy * (RDK.speed q * (t - ts) / 1000))
      with (Dot.y dot + uy * (RDK.speed q * (t - t0) / 1000)) by field.
    exact Hin.
Qed.

Lemma play_reckoned calls :
  forall r m o dots dot t0,
    dotSetsRef m = [dots] ->
    currentSetRef m = Some 0%Z ->
    nth_error dots i = Some dot ->
    Dot.assignedMovement dot = coherent ->
    lastUpdateTimeRef m = Some t0 ->
    ascending t0 (timestampsOf calls) ->
    snd (fst (play shuffle q p calls (r, m) o)) = None ->
    reckoned q i dot t0 (snd (fst (fst (play shuffle q p calls (r, m) o)))).
Proof.
  induction calls as [|[[sv fc] s] rest IH];
    intros r m o dots dot t0 Hsets Hcur Hdot Hrole Ht0 Hasc Hok.
  - cbn. apply (reckoned_still dot t0 m dots); assumption.
  - cbn [play] in Hok |- *. unfold bind in Hok |- *.
    destruct (frame shuffle q p sv fc s (r, m) o) as [out o1] eqn:E.
    destruct (snd out) as [thrown|] eqn:Ethrown.
    { unfold ret in Hok. cbn [fst snd] in Hok. rewrite Ethrown in Hok.
      discriminate Hok. }
    destruct out as [[r1 m1] thrown]. cbn [fst snd] in *. subst thrown.
    unfold frame in E. cbv zeta in E. cbn [fst snd] in E.
    destruct s as [[|] timestamp | now | refreshRate];
      try (unfold ret in E; injection E as <- <- <-;
           apply (IH _ m o dots dot t0); assumption).
    unfold bind, ret in E.
    destruct (moveDots shuffle q sv fc timestamp _ m o) as [mm o2] eqn:Em.
    injection E as <- <- Hnone <-.
    destruct mm as [m2 [thrown|]]; cbn [fst snd] in *; [discriminate Hnone|].
    clear Hnone.
    cbn [timestampsOf ascending] in Hasc. destruct Hasc as [Hle Hasc].
    pose proof (f_equal fst Em) as Hstep. cbn [fst] in Hstep.
    apply (moveDots_single_set shuffle q sv fc timestamp _ m o dots m2
             one_set never_reassigned Hsets Hcur) in Hstep.
    cbv zeta in Hstep.
    unfold lastUpdateTime in Hstep. rewrite Ht0 in Hstep.
    destruct Hstep as [Hcur2 [[Ht2 Hsets2] | [Ht2 (dots2 & o' & Hsets2 & Hu)]]].
    + apply (IH _ m2 o2 dots dot t0); try assumption.
      apply (ascending_weaken t0 timestamp); assumption.
    + destruct (updateDots_nth _ _ _ _ _ _ _ _ Hu) as [_ Hnth].
      destruct (Hnth i dot Hdot) as (d1 & o'' & Hd1 & Hu1).
      destruct (coherent_step _ _ _ _ _ _ _ _ _ _ lifetime_off Hrole Hu1)
        as (Hrole1 & Hlife1 & Hpos1).
      apply (reckoned_after dot d1 t0 timestamp); try assumption.
      * intro Hin. unfold pathPoint in Hin |- *. cbn [fst snd] in Hin.
        destruct (Hpos1 Hin) as [-> ->]. reflexivity.
      * apply (IH _ m2 o2 dots2 d1 timestamp); assumption.
Qed.

End DeadReckoning.

Lemma moveDots_stamped shuffle q stimulusVisible fixationComplete timestamp
    r m :
  moveDots shuffle q stimulusVisible fixationComplete timestamp r m
  = moveDots shuffle q stimulusVisible fixationComplete timestamp r
      (stamped timestamp m).
Proof.
  unfold moveDots, stamped, lastUpdateTime.
  cbn [lastUpdateTimeRef timeSinceReassignRef currentSetRef dotSetsRef].
  reflexivity.
Qed.

(** Steps among which no call of [animate] runs leave the dot phase
    alone. *)
Lemma play_idle shuffle q p calls r m o :
  timestampsOf calls = [] ->
  snd (fst (fst (play shuffle q p calls (r, m) o))) = m
  /\ snd (fst (play shuffle q p calls (r, m) o)) = None.
Proof.
  revert r o. induction calls as [|[[sv fc] s] rest IH]; intros r o Hts.
  - cbn. split; reflexivity.
  - cbn [play]. unfold bind, frame. cbv zeta.
    destruct s as [[|] timestamp | now | refreshRate];
      try (cbn [timestampsOf] in Hts; discriminate Hts);
      unfold ret; cbn [fst snd]; apply IH; exact Hts.
Qed.

(** Up to the first call of [animate] that runs, a missing stamp and
    the stamp of that call are the same thing. *)
Lemma play_stamped shuffle q p calls r m o ts rest :
  lastUpdateTimeRef m = None ->
  timestampsOf calls = ts :: rest ->
  play shuffle q p calls (r, m) o
  = play shuffle q p calls (r, stamped ts m) o.
Proof.
  intros Hnone. revert r o. induction calls as [|[[sv fc] s] more IH];
    intros r o Hts.
  - discriminate Hts.
  - cbn [play]. unfold bind, frame. cbv zeta. cbn [fst snd].
    destruct s as [[|] timestamp | now | refreshRate];
      try (unfold ret; cbn [fst snd]; apply IH; exact Hts).
    cbn [timestampsOf] in Hts. injection Hts as -> _.
    rewrite (moveDots_stamped shuffle q sv fc ts _ m).
    assert (Hsame : stamped ts (stamped ts m) = stamped ts m).
    { unfold stamped, lastUpdateTime. cbn [lastUpdateTimeRef].
      reflexivity. }
    rewrite (moveDots_stamped shuffle q sv fc ts _ (stamped ts m)), Hsame.
    reflexivity.
Qed.

(** X22.  In exact arithmetic, on a single dot set with lifetimes and
    reassignment off, after any steps with non-decreasing timestamps
    that do not throw, a coherent dot is still coherent and has aged
    by the time between the first stamp and the last update; if its
    straight path stays within the margin it has moved along the
    coherent direction by [speed] times that time, whatever the frame
    rate, the update rate and the frames for which the stimulus was
    hidden or the fixation not over.  In particular the first update
    after the fixation moves the dots by the distance of the whole
    fixation time.  (On binary64 numbers the position and the age
    accumulate the rounding of every update.) *)
Theorem coherent_dot_dead_reckoning shuffle q p i calls r m o dots dot t0 :
  RDK.dotSetCount q = 1%Z ->
  RDK.dotLifetime q <= 0 ->
  RDK.reassignEveryMs q = None ->
  dotSetsRef m = [dots] ->
  currentSetRef m = Some 0%Z ->
  nth_error dots i = Some dot ->
  Dot.assignedMovement dot = coherent ->
  lastUpdateTime m (hd t0 (timestampsOf calls)) = t0 ->
  ascending t0 (timestampsOf calls) ->
  let out := fst (play shuffle q p calls (r, m) o) in
  snd out = None ->
  let m' := snd (fst out) in
  exists t1 dots' dot',
    lastUpdateTime m' t0 = t1
    /\ t0 <= t1
    /\ dotSetsRef m' = [dots']
    /\ nth_error dots' i = Some dot'
    /\ Dot.assignedMovement dot' = coherent
    /\ Dot.lifeCount dot' = Dot.lifeCount dot + (t1 - t0)
    /\ (pathInside q dot t0 t1 ->
        (Dot.x dot', Dot.y dot') = pathPoint q dot (t1 - t0)).
Proof.
  intros Hone Hoff Hnever Hsets Hcur Hdot Hrole Ht0 Hasc out Hok m'.
  assert (Hgo :
            forall m1,
              lastUpdateTimeRef m1 = Some t0 ->
              dotSetsRef m1 = [dots] ->
              currentSetRef m1 = Some 0%Z ->
              play shuffle q p calls (r, m) o
              = play shuffle q p calls (r, m1) o ->
              exists t1 dots' dot',
                lastUpdateTime m' t0 = t1
                /\ t0 <= t1
                /\ dotSetsRef m' = [dots']
                /\ nth_error dots' i = Some dot'
                /\ Dot.assignedMovement dot' = coherent
                /\ Dot.lifeCount dot' = Dot.lifeCount dot + (t1 - t0)
                /\ (pathInside q dot t0 t1 ->
                    (Dot.x dot', Dot.y dot') = pathPoint q dot (t1 - t0))).
  { intros m1 Ht1 Hsets1 Hcur1 Hplay.
    unfold m', out in *. rewrite Hplay in Hok |- *.
    destruct (play_reckoned shuffle q p i Hone Hoff Hnever calls r m1 o dots
                dot t0 Hsets1 Hcur1 Hdot Hrole Ht1 Hasc Hok)
      as (t1 & dots' & dot' & Hl & Hrest).
    exists t1, dots', dot'.
    split; [unfold lastUpdateTime; rewrite Hl; reflexivity | exact Hrest]. }
  unfold lastUpdateTime in Ht0.
  destruct (lastUpdateTimeRef m) as [t|] eqn:Em.
  - subst t. apply (Hgo m); [exact Em | exact Hsets | exact Hcur | reflexivity].
  - destruct (timestampsOf calls) as [|ts rest] eqn:Ets.
    + destruct (play_idle shuffle q p calls r m o Ets) as [Hm _].
      exists t0, dots, dot.
      unfold m', out. rewrite Hm.
      split; [unfold lastUpdateTime; rewrite Em; reflexivity|].
      split; [lra|]. split; [exact Hsets|]. split; [exact Hdot|].
      split; [exact Hrole|]. split; [lra|].
      intros _. unfold pathPoint.
      destruct (coherentDir (RDK.direction q)) as [ux uy].
      apply injective_projections; cbn [fst snd]; field.
    + cbn [hd] in Ht0. subst ts.
      apply (Hgo (stamped t0 m)).
      * unfold stamped, lastUpdateTime. cbn [lastUpdateTimeRef].
        rewrite Em. reflexivity.
      * exact Hsets.
      * exact Hcur.
      * apply (play_stamped shuffle q p calls r m o t0 rest Em Ets).
Qed.

(** ** Calls that return *)

Lemma generateShuffledAssignments_returns shuffle dotCount coherence
    opposite_ noiseMovement o :
  (0 <= Math_floor (IZR dotCount * coherence))%Z ->
  (0 <= Math_floor (IZR dotCount * opposite_))%Z ->
  (Math_floor (IZR dotCount * coherence)
   + Math_floor (IZR dotCount * opposite_) <= dotCount)%Z ->
  exists assignments,
    fst (generateShuffledAssignments shuffle dotCount coherence opposite_
           noiseMovement o) = inr assignments.
Proof.
  intros HC HO Hsum. unfold generateShuffledAssignments, Array_fill.
  cbv zeta.
  destruct (Z.ltb_spec (Math_floor (IZR dotCount * coherence)) 0); [lia|].
  destruct (Z.ltb_spec (Math_floor (IZR dotCount * opposite_)) 0); [lia|].
  destruct (Z.ltb_spec (dotCount - Math_floor (IZR dotCount * coherence)
                        - Math_floor (IZR dotCount * opposite_)) 0); [lia|].
  unfold bind, ret.
  destruct (shuffle FrameMovement _ o) as [l o1]. exists l. reflexivity.
Qed.

Lemma drawAssignments_returns shuffle q due o :
  RDK.reassignEveryMs q = None /\ due = false \/ proportionsFit q ->
  exists reassignments,
    fst (drawAssignments shuffle q due o) = inr reassignments.
Proof.
  intros H. unfold drawAssignments.
  destruct due.
  - destruct H as [[_ H] | (HC & HO & Hsum)]; [discriminate H|].
    unfold bind, ret.
    destruct (generateShuffledAssignments_returns shuffle (RDK.dotCount q)
                (RDK.coherence q) (RDK.opposite_ q)
                (noise (RDK.noiseMovement q)) o HC HO Hsum) as [a Ha].
    destruct (generateShuffledAssignments shuffle _ _ _ _ o) as [res o1].
    cbn [fst] in Ha. subst res. eexists. reflexivity.
  - eexists. reflexivity.
Qed.

Lemma updateCurrentSet_returns q timestamp distance dt reassignments m o :
  recognized (RDK.reinsertMode q) ->
  wellFormed q m ->
  snd (fst (updateCurrentSet q timestamp distance dt reassignments m o))
  = None.
Proof.
  intros Hrec Hwf. pose proof Hwf as (Hn & Hsizes & c & Hc & Hrange).
  unfold updateCurrentSet. rewrite Hc.
  destruct (at_index_in_range (dotSetsRef m) c) as [currentSet Hcur];
    [lia|].
  rewrite Hcur. unfold bind.
  destruct (updateDots_returns q distance dt reassignments 0 currentSet o
              Hrec) as [ds Hds].
  pose proof (updateDots_nth q distance dt reassignments 0 currentSet o ds
                Hds) as [Hlen _].
  destruct (updateDots q distance dt reassignments 0 currentSet o)
    as [res o1].
  cbn [fst] in Hds. subst res. reflexivity.
Qed.

Lemma moveDots_returns shuffle q stimulusVisible fixationComplete timestamp
    r m o :
  recognized (RDK.reinsertMode q) ->
  wellFormed q m ->
  RDK.reassignEveryMs q = None \/ proportionsFit q ->
  snd (fst (moveDots shuffle q stimulusVisible fixationComplete timestamp r
              m o)) = None.
Proof.
  intros Hrec Hwf Hfit. unfold moveDots. cbv zeta.
  destruct (negb stimulusVisible || negb fixationComplete); [reflexivity|].
  destruct (shouldUpdate _ _); [|reflexivity].
  unfold bind.
  destruct (drawAssignments_returns shuffle q
              (fst (reassignDue (RDK.reassignEveryMs q)
                      (timestamp - lastUpdateTime m timestamp) r
                      (timeSinceReassignRef m))) o) as [a Ha].
  { destruct Hfit as [Hnone | Hfit]; [left | right; exact Hfit].
    split; [exact Hnone|]. rewrite Hnone. reflexivity. }
  destruct (drawAssignments shuffle q _ o) as [res o1].
  cbn [fst] in Ha. subst res.
  apply updateCurrentSet_returns; [exact Hrec|].
  apply wellFormed_keep, Hwf.
Qed.

(** With radii that are not negative and a current set, the painting
    returns. *)
Lemma paint_returns q m :
  radiiNotNegative q -> wellFormed q m -> paint q m = None.
Proof.
  intros [Hell Hdot] (Hn & _ & c & Hc & Hrange).
  unfold paint, clip, drawDots, drawBorder. cbv zeta. rewrite Hc.
  destruct (at_index_in_range (dotSetsRef m) c) as [dots ->]; [lia|].
  cbv zeta in Hell.
  destruct (elliptical (RDK.apertureShape q)) eqn:E.
  - destruct (Hell eq_refl) as (Hh & Hv & Hborder).
    destruct (ltb_reflect (horizontalAxisOf (RDK.apertureWidth q)) 0)
      as [Hn0|_]; [exfalso; lra|].
    destruct (ltb_reflect
                (verticalAxisOf (RDK.apertureShape q) (RDK.apertureWidth q)
                   (RDK.apertureHeight q)) 0) as [Hn0|_]; [exfalso; lra|].
    cbn [andb orb].
    assert (Hdots : (if negb (drawsCharacters q) && (RDK.dotRadius q <? 0)
                     then Some IndexSizeError else None) = None).
    { destruct (drawsCharacters q); [reflexivity|].
      specialize (Hdot eq_refl).
      destruct (ltb_reflect (RDK.dotRadius q) 0); [exfalso; lra|].
      reflexivity. }
    assert (Hb : (if RDK.showBorder q && true
                     && ((horizontalAxisOf (RDK.apertureWidth q)
                          + RDK.borderWidth q / 2 <? 0)
                         || (verticalAxisOf (RDK.apertureShape q)
                               (RDK.apertureWidth q) (RDK.apertureHeight q)
                             + RDK.borderWidth q / 2 <? 0))
                  then Some IndexSizeError else None) = None).
    { destruct (RDK.showBorder q); [|reflexivity].
      destruct (Hborder eq_refl) as [Hbh Hbv].
      destruct (ltb_reflect (horizontalAxisOf (RDK.apertureWidth q)
                             + RDK.borderWidth q / 2) 0);
        [exfalso; lra|].
      destruct (ltb_reflect (verticalAxisOf (RDK.apertureShape q)
                               (RDK.apertureWidth q) (RDK.apertureHeight q)
                             + RDK.borderWidth q / 2) 0);
        [exfalso; lra|].
      reflexivity. }
    destruct dots; [exact Hb|]. rewrite Hdots. exact Hb.
  - cbn [andb]. rewrite andb_false_r. cbn [andb].
    assert (Hdots : (if negb (drawsCharacters q) && (RDK.dotRadius q <? 0)
                     then Some IndexSizeError else None) = None).
    { destruct (drawsCharacters q); [reflexivity|].
      specialize (Hdot eq_refl).
      destruct (ltb_reflect (RDK.dotRadius q) 0); [exfalso; lra|].
      reflexivity. }
    destruct dots; [reflexivity|]. rewrite Hdots. reflexivity.
Qed.

Lemma play_returns shuffle q p calls rm o :
  recognized (RDK.reinsertMode q) ->
  radiiNotNegative q ->
  wellFormed q (snd rm) ->
  RDK.reassignEveryMs q = None \/ proportionsFit q ->
  snd (fst (play shuffle q p calls rm o)) = None.
Proof.
  intros Hrec Hradii Hwf Hfit. revert rm o Hwf.
  induction calls as [|[[sv fc] s] rest IH]; intros rm o Hwf.
  - reflexivity.
  - cbn [play]. unfold bind.
    pose proof (frame_well_formed shuffle q p sv fc s rm o Hwf) as [Hwf1 _].
    assert (Hnone : snd (fst (frame shuffle q p sv fc s rm o)) = None).
    { unfold frame. cbv zeta.
      destruct s as [[|] timestamp | now | refreshRate]; try reflexivity.
      unfold bind, ret.
      pose proof (moveDots_returns shuffle q sv fc timestamp
                    (fst (step p (Frame false timestamp) (fst rm))) (snd rm)
                    o Hrec Hwf Hfit) as H.
      pose proof (moveDots_well_formed shuffle q sv fc timestamp
                    (fst (step p (Frame false timestamp) (fst rm))) (snd rm)
                    o Hwf) as [Hwf2 _].
      destruct (moveDots shuffle q sv fc timestamp _ (snd rm) o) as [mm o1].
      cbn [fst snd] in *. rewrite H.
      destruct (sv && fc); [|reflexivity].
      apply paint_returns; assumption. }
    destruct (frame shuffle q p sv fc s rm o) as [out o1].
    cbn [fst snd] in *. rewrite Hnone. apply IH. exact Hwf1.
Qed.

(** X23.  With at least one dot set, a recognised reinsertion mode,
    no negative radius handed to the canvas (the half extents of an
    elliptical aperture, also with half the border width added when
    the border is shown, and the dot radius unless the dots are drawn
    as characters) and either no reassignment or proportions whose dot
    numbers fit into the dot count, no call of [animate] throws,
    whatever the frames and the draws. *)
Theorem play_never_throws shuffle q p calls r o0 o :
  recognized (RDK.reinsertMode q) ->
  radiiNotNegative q ->
  (1 <= RDK.dotSetCount q)%Z ->
  (0 <= RDK.dotCount q)%Z ->
  RDK.reassignEveryMs q = None \/ proportionsFit q ->
  let sets := fst (initDotSets (RDK.dotSetCount q) (RDK.dotCount q)
                     (RDK.coherence q) (RDK.opposite_ q)
                     (RDK.noiseMovement q) (RDK.dotLifetime q)
                     (RDK.aperture q) o0) in
  snd (fst (play shuffle q p calls (r, motionOf sets) o)) = None.
Proof.
  intros Hrec Hradii Hsets Hdots Hfit sets.
  apply play_returns; [exact Hrec | exact Hradii | | exact Hfit]. cbn [snd].
  destruct (initDotSets_well_formed q o0) as [Hn Hsizes]; [lia | exact Hdots|].
  unfold wellFormed, motionOf. cbn [dotSetsRef currentSetRef].
  split; [exact Hn|]. split; [exact Hsizes|].
  exists 0%Z. split; [reflexivity | lia].
Qed.

Lemma defaults_fit (dotCount dotSetCount : Z) direction updateRate
    reassignEveryMs :
  (0 <= dotCount)%Z ->
  proportionsFit (defaultsWith dotCount dotSetCount direction updateRate
                    reassignEveryMs).
Proof.
  intro Hn. unfold proportionsFit.
  cbn [defaultsWith RDK.dotCount RDK.coherence RDK.opposite_].
  pose proof (floor_fraction_bounds dotCount 0.5 Hn ltac:(lra)) as HC.
  pose proof (floor_fraction_bounds dotCount 0 Hn ltac:(lra)) as HO.
  assert (H0 : Math_floor (IZR dotCount * 0) = 0%Z).
  { unfold Math_floor. apply Zfloor_eq. simpl. lra. }
  rewrite H0. lia.
Qed.

Lemma defaults_radii (dotCount dotSetCount : Z) direction updateRate
    reassignEveryMs :
  radiiNotNegative (defaultsWith dotCount dotSetCount direction updateRate
                      reassignEveryMs).
Proof.
  unfold radiiNotNegative, drawsCharacters, defaultsWith, horizontalAxisOf,
    verticalAxisOf. cbv zeta.
  cbn [RDK.apertureShape RDK.apertureWidth RDK.apertureHeight RDK.showBorder
       RDK.borderWidth RDK.dotRadius RDK.dotCharacter elliptical].
  split.
  - intros _. split; [lra|]. split; [lra|]. intro H. discriminate H.
  - intros _. lra.
Qed.

Lemma play_never_throws_witness :
  let q := defaultsWith 3 2 90 None (Some 0) in
  let sets := fst (initDotSets 2 3 0.5 0 randomDirection (-1)
                     (RDK.aperture q) halves) in
  snd (fst (play fisherYates q latchProps
              [(true, false, Frame false 0);
               (true, true, Frame false 500);
               (true, true, Frame false 516)]
              (mounted, motionOf sets) halves)) = None.
Proof.
  intros q sets.
  apply (play_never_throws fisherYates q latchProps _ mounted halves halves).
  - exact recognized_default.
  - apply defaults_radii.
  - cbn [q defaultsWith RDK.dotSetCount]. lia.
  - cbn [q defaultsWith RDK.dotCount]. lia.
  - right. apply defaults_fit. lia.
Defined.

Lemma coherentDir_right : coherentDir 90 = (1, 0).
Proof.
  unfold coherentDir. cbv zeta.
  replace ((90 - 90) * PI / 180) with 0 by field.
  rewrite cos_0, sin_0. f_equal. ring.
Qed.

Lemma play_cons_fixation shuffle q p stimulusVisible timestamp rest r m o :
  play shuffle q p ((stimulusVisible, false, Frame false timestamp) :: rest)
    (r, m) o
  = play shuffle q p rest
      (fst (step p (Frame false timestamp) r), stamped timestamp m) o.
Proof.
  cbn [play]. unfold bind, frame, moveDots. cbv zeta. cbn [fst snd].
  destruct stimulusVisible; cbn [negb orb andb]; unfold bind, ret;
    cbn [fst snd]; reflexivity.
Qed.

Lemma paint_or_not q (stimulusVisible fixationComplete : bool) m :
  (if stimulusVisible && fixationComplete then paint q m else None) = None
  \/ exists thrown,
       (if stimulusVisible && fixationComplete then paint q m else None)
       = Some thrown.
Proof.
  destruct (if stimulusVisible && fixationComplete then paint q m else None)
    as [thrown|]; [right; exists thrown | left]; reflexivity.
Qed.

Lemma play_single shuffle q p stimulusVisible fixationComplete timestamp
    r m o :
  let out := fst (play shuffle q p
                    [(stimulusVisible, fixationComplete,
                      Frame false timestamp)] (r, m) o) in
  let moved := fst (moveDots shuffle q stimulusVisible fixationComplete
                      timestamp (fst (step p (Frame false timestamp) r)) m
                      o) in
  snd (fst out) = fst moved /\ (snd out = None -> snd moved = None).
Proof.
  cbn [play]. unfold bind, frame. cbv zeta. cbn [fst snd]. unfold bind, ret.
  destruct (moveDots shuffle q stimulusVisible fixationComplete timestamp _
              m o) as [[m2 thrown] o2].
  cbn [fst snd]. destruct thrown; cbn [fst snd].
  - split; [reflexivity | intro H; exact H].
  - destruct (paint_or_not q stimulusVisible fixationComplete m2)
      as [-> | [thrown ->]]; cbn [fst snd]; split; reflexivity.
Qed.

(** A running call that is due and does not throw stamps its
    timestamp as the time of the last update. *)
Lemma moveDots_updates shuffle q timestamp r m o :
  shouldUpdate (RDK.updateRate q) (timestamp - lastUpdateTime m timestamp)
  = true ->
  snd (fst (moveDots shuffle q true true timestamp r m o)) = None ->
  lastUpdateTimeRef (fst (fst (moveDots shuffle q true true timestamp r m
                                 o))) = Some timestamp.
Proof.
  intro Hdue. unfold moveDots. cbv zeta. cbn [negb orb]. rewrite Hdue.
  unfold bind.
  destruct (drawAssignments shuffle q _ o) as [[e|a] o1];
    [unfold ret; cbn [fst snd]; discriminate|].
  unfold updateCurrentSet. cbn [currentSetRef dotSetsRef].
  destruct (currentSetRef m) as [c|];
    [|unfold ret; cbn [fst snd]; discriminate].
  destruct (at_index (dotSetsRef m) (Some c)) as [currentSet|];
    [|unfold ret; cbn [fst snd]; discriminate].
  unfold bind.
  destruct (updateDots q _ _ a 0 currentSet o1) as [[e|ds] o2];
    [unfold ret; cbn [fst snd]; discriminate|].
  unfold ret. cbn [fst snd lastUpdateTimeRef]. reflexivity.
Qed.

Lemma coherent_dot_dead_reckoning_witness :
  let q := defaultsWith 1 1 90 None None in
  let calls := [(true, false, Frame false 0); (true, true, Frame false 500)] in
  let m' := snd (fst (fst (play fisherYates q latchProps calls
                             (mounted, motionOf [[dotAt 300 200]])
                             halves))) in
  exists dots' dot',
    dotSetsRef m' = [dots']
    /\ nth_error dots' 0 = Some dot'
    /\ (Dot.x dot', Dot.y dot') = (330, 200)
    /\ Dot.lifeCount dot' = 500.
Proof.
  intros q calls m'.
  assert (Hwf : wellFormed q (motionOf [[dotAt 300 200]])).
  { unfold wellFormed, motionOf. cbn [dotSetsRef currentSetRef].
    split; [reflexivity|]. split; [repeat constructor|].
    exists 0%Z. split; [reflexivity|].
    cbn [q defaultsWith RDK.dotSetCount]. lia. }
  assert (Hok : snd (fst (play fisherYates q latchProps calls
                            (mounted, motionOf [[dotAt 300 200]]) halves))
                = None).
  { apply play_returns;
      [exact recognized_default | apply defaults_radii | exact Hwf|].
    left. reflexivity. }
  destruct (coherent_dot_dead_reckoning fisherYates q latchProps 0 calls
              mounted (motionOf [[dotAt 300 200]]) halves [dotAt 300 200]
              (dotAt 300 200) 0)
    as (t1 & dots' & dot' & Hl & _ & Hsets & Hnth & _ & Hlife & Hpath).
  - reflexivity.
  - cbn [q defaultsWith RDK.dotLifetime]. lra.
  - reflexivity.
  - reflexivity.
  - reflexivity.
  - reflexivity.
  - reflexivity.
  - reflexivity.
  - cbn [calls timestampsOf ascending]. split; [lra|]. split; [lra | exact I].
  - exact Hok.
  - fold m' in Hl, Hsets.
    assert (Ht1 : t1 = 500).
    { rewrite <- Hl. unfold m', calls in *.
      rewrite play_cons_fixation in Hok |- *.
      destruct (play_single fisherYates q latchProps true true 500
                  (fst (step latchProps (Frame false 0) mounted))
                  (stamped 0 (motionOf [[dotAt 300 200]])) halves)
        as [Hm Hthrown].
      rewrite Hm. unfold lastUpdateTime.
      rewrite (moveDots_updates fisherYates q 500 _ _ halves);
        [reflexivity | reflexivity | exact (Hthrown Hok)]. }
    subst t1.
    exists dots', dot'. split; [exact Hsets|]. split; [exact Hnth|].
    split.
    + rewrite Hpath.
      * unfold pathPoint.
        cbn [q defaultsWith RDK.direction RDK.speed dotAt Dot.x Dot.y].
        rewrite coherentDir_right. cbn [fst snd].
        apply injective_projections; cbn [fst snd]; lra.
      * intros t Ht. unfold pathPoint.
        change (RDK.aperture q)
          with (createAperture ellipse 600 400 300 200).
        cbn [q defaultsWith RDK.direction RDK.speed RDK.dotRadius dotAt
             Dot.x Dot.y].
        rewrite coherentDir_right. cbn [fst snd].
        rewrite createAperture_elliptical by reflexivity. cbv zeta.
        cbn [isOutside].
        apply ell_inside; unfold horizontalAxisOf, verticalAxisOf; try lra.
        cbn [elliptical].
        replace ((200 + 0 * (60 * (t - 0) / 1000) - 200) / (400 / 2))
          with 0 by field.
        assert (0 <= (300 + 1 * (60 * (t - 0) / 1000) - 300) / (600 / 2)
                <= 1 / 10).
        { replace ((300 + 1 * (60 * (t - 0) / 1000) - 300) / (600 / 2))
            with (t / 5000) by field.
          lra. }
        nra.
    + rewrite Hlife. cbn [dotAt Dot.lifeCount]. lra.
Defined.

(** X24.  With an update rate of [u] Hz, a call of [animate] that comes
    less than [1000 / u] ms after the last update changes none of the
    dot-phase references and makes no draw; a call with the stimulus
    visible and the fixation over that comes at least that late, and
    does not throw, stamps its own timestamp as the last update. *)
Theorem updateRate_paces_updates shuffle q u stimulusVisible fixationComplete
    timestamp last r m o :
  RDK.updateRate q = Some u ->
  0 < u ->
  lastUpdateTimeRef m = Some last ->
  (exists currentSet,
     at_index (dotSetsRef m) (currentSetRef m) = Some currentSet) ->
  (timestamp - last < 1000 / u ->
   moveDots shuffle q stimulusVisible fixationComplete timestamp r m o
   = ((m, None), o))
  /\ (1000 / u <= timestamp - last ->
      snd (fst (moveDots shuffle q true true timestamp r m o)) = None ->
      lastUpdateTimeRef (fst (fst (moveDots shuffle q true true timestamp r
                                     m o))) = Some timestamp).
Proof.
  intros Hrate Hu Hlast [currentSet Hcur].
  assert (Hinterval : updateInterval (Some u) = 1000 / u).
  { unfold updateInterval, truthy.
    destruct (eqb_reflect u 0); [lra|].
    destruct (gtb_reflect u 0); [reflexivity | lra]. }
  assert (Hshould : forall d, shouldUpdate (Some u) d = (d >=? 1000 / u)).
  { intro d. unfold shouldUpdate. rewrite Hinterval. unfold truthy.
    destruct (eqb_reflect u 0); [lra|].
    destruct (leb_reflect u 0); [lra | reflexivity]. }
  assert (Hm : {| lastUpdateTimeRef := Some last;
                  timeSinceReassignRef := timeSinceReassignRef m;
                  currentSetRef := currentSetRef m;
                  dotSetsRef := dotSetsRef m |} = m).
  { destruct m as [l a c s]. cbn in Hlast |- *. now rewrite Hlast. }
  split.
  - intro Hearly. unfold moveDots, lastUpdateTime. cbv zeta.
    rewrite Hlast, Hrate, Hshould, Hm.
    destruct (geb_reflect (timestamp - last) (1000 / u)); [lra|].
    destruct (negb stimulusVisible || negb fixationComplete); reflexivity.
  - intros Hlate Hok. apply moveDots_updates; [|exact Hok].
    unfold lastUpdateTime. rewrite Hlast, Hrate, Hshould.
    destruct (geb_reflect (timestamp - last) (1000 / u)); [reflexivity | lra].
Qed.

Lemma updateRate_paces_updates_witness :
  let q := defaultsWith 1 1 90 (Some 30) None in
  let m := stamped 0 (motionOf [[dotAt 300 200]]) in
  moveDots fisherYates q true true 16 mounted m halves = ((m, None), halves)
  /\ lastUpdateTimeRef
       (fst (fst (moveDots fisherYates q true true 34 mounted m halves)))
     = Some 34.
Proof.
  intros q m.
  destruct (updateRate_paces_updates fisherYates q 30 true true 16 0 mounted
              m halves) as [Hidle _];
    [reflexivity | lra | reflexivity | eexists; reflexivity|].
  destruct (updateRate_paces_updates fisherYates q 30 true true 34 0 mounted
              m halves) as [_ Hdue];
    [reflexivity | lra | reflexivity | eexists; reflexivity|].
  split.
  - apply Hidle. lra.
  - apply Hdue; [lra|].
    apply moveDots_returns; [exact recognized_default | | left; reflexivity].
    unfold wellFormed, m, stamped, motionOf.
    cbn [dotSetsRef currentSetRef].
    split; [reflexivity|]. split; [repeat constructor|].
    exists 0%Z. split; [reflexivity|].
    cbn [q defaultsWith RDK.dotSetCount]. lia.
Defined.

(** ** The refresh-rate estimate *)

Lemma median_in_range (l : list R) (lo hi : R) :
  l <> [] ->
  Forall (fun d => lo < d < hi) l ->
  lo < median l < hi.
Proof.
  intros Hne Hall. unfold median. cbv zeta.
  pose proof (sort_by_permutation l) as Hperm.
  set (sorted := sort_by (fun a b => a - b) l) in *.
  assert (Hs : Forall (fun d => lo < d < hi) sorted)
    by (eapply Permutation_Forall; eassumption).
  assert (Hlen : (0 < List.length sorted)%nat).
  { rewrite <- (Permutation_length Hperm).
    destruct l; [contradiction | cbn; lia]. }
  assert (Hnth : forall k, (k < List.length sorted)%nat ->
                           lo < nth k sorted 0 < hi).
  { intros k Hk. rewrite Forall_forall in Hs. apply Hs, nth_In, Hk. }
  assert (Hmid : (List.length sorted / 2 < List.length sorted)%nat)
    by (apply Nat.div_lt; lia).
  destruct (Nat.odd (List.length sorted)).
  - apply Hnth, Hmid.
  - pose proof (Hnth _ Hmid).
    assert (lo < nth (List.length sorted / 2 - 1) sorted 0 < hi)
      by (apply Hnth; lia).
    lra.
Qed.

Lemma calibrate_sound (d : R) (r : Refs) :
  soundEstimate r -> soundEstimate (calibrate d r).
Proof.
  intros (Hcal & Hnot & Hall). unfold calibrate.
  destruct (plausible d) eqn:Hd; [|exact (conj Hcal (conj Hnot Hall))].
  apply plausible_iff in Hd.
  destruct (isCalibrated r) eqn:Ec; cbn [negb].
  - destruct (Hcal eq_refl) as (e & He & Hrange).
    unfold soundEstimate.
    cbn [isCalibrated estimatedFrameIntervalRef frameIntervalsRef].
    rewrite He. split; [|split; [discriminate | exact Hall]].
    intros _. eexists. split; [reflexivity|]. unfold EMA_ALPHA. lra.
  - destruct (Hnot eq_refl) as [He Hlen].
    assert (Hall' : Forall (fun d => 0 < d < 500)
                      (frameIntervalsRef r ++ [d])).
    { apply Forall_app. split; [exact Hall | repeat constructor; lra]. }
    destruct (CALIBRATION_FRAME_COUNT
              <=? List.length (frameIntervalsRef r ++ [d]))%nat eqn:El;
      unfold soundEstimate;
      cbn [isCalibrated estimatedFrameIntervalRef frameIntervalsRef].
    + split; [|split; [discriminate | exact Hall']].
      intros _. eexists. split; [reflexivity|].
      apply median_in_range; [|exact Hall'].
      destruct (frameIntervalsRef r); discriminate.
    + rewrite He. split; [discriminate|]. split; [|exact Hall'].
      intros _. split; [reflexivity|].
      apply Nat.leb_gt in El. exact El.
Qed.

Lemma soundEstimate_same (r r' : Refs) :
  isCalibrated r' = isCalibrated r ->
  estimatedFrameIntervalRef r' = estimatedFrameIntervalRef r ->
  frameIntervalsRef r' = frameIntervalsRef r ->
  soundEstimate r -> soundEstimate r'.
Proof.
  intros Hc He Hf H. unfold soundEstimate. rewrite Hc, He, Hf. exact H.
Qed.

Lemma checkTrialTiming_keeps_estimate p timestamp r :
  let r' := fst (checkTrialTiming p timestamp r) in
  isCalibrated r' = isCalibrated r
  /\ estimatedFrameIntervalRef r' = estimatedFrameIntervalRef r
  /\ frameIntervalsRef r' = frameIntervalsRef r
  /\ frameCountRef r' = frameCountRef r.
Proof.
  unfold checkTrialTiming.
  destruct (startTimeRef r) as [start|]; [|cbn; auto].
  unfold hideStimulus, endTrial. cbv zeta.
  repeat match goal with
         | |- context [if ?b then _ else _] => destruct b
         end; cbn; auto.
Qed.

Lemma step_sound p s r : soundEstimate r -> soundEstimate (fst (step p s r)).
Proof.
  intro H. destruct s as [trialEnded timestamp | now | refreshRate];
    cbn [step].
  - unfold animate. destruct trialEnded; [exact H|].
    destruct (checkTrialTiming_keeps_estimate p timestamp
                (calibrate (frameDeltaOf timestamp r)
                   (countFrame timestamp r))) as (Hc & He & Hf & _).
    apply (soundEstimate_same _ _ Hc He Hf).
    apply calibrate_sound. exact H.
  - exact H.
  - cbn [fst]. unfold seedEstimate.
    destruct (geb_reflect refreshRate 20); [|exact H].
    destruct (leb_reflect refreshRate 300); [|exact H].
    cbn [andb]. destruct H as (_ & _ & Hall). unfold soundEstimate.
    cbn [isCalibrated estimatedFrameIntervalRef frameIntervalsRef].
    split; [|split; [discriminate | exact Hall]].
    intros _. eexists. split; [reflexivity|].
    assert (0 < / refreshRate) by (apply Rinv_0_lt_compat; lra).
    assert (refreshRate * / refreshRate = 1) by (apply Rinv_r; lra).
    unfold Rdiv. split; nra.
Qed.

Lemma run_fst p s rest r :
  fst (run p (s :: rest) r) = fst (run p rest (fst (step p s r))).
Proof.
  cbn [run]. destruct (step p s r) as [r1 effects]. cbn [fst].
  destruct (run p rest r1) as [r2 later]. reflexivity.
Qed.

Lemma run_sound p steps r :
  soundEstimate r -> soundEstimate (fst (run p steps r)).
Proof.
  revert r. induction steps as [|s rest IH]; intros r H; [exact H|].
  rewrite run_fst. apply IH, step_sound, H.
Qed.

Lemma mounted_sound : soundEstimate mounted.
Proof.
  unfold soundEstimate, mounted, CALIBRATION_FRAME_COUNT.
  cbn [isCalibrated estimatedFrameIntervalRef frameIntervalsRef List.length].
  split; [discriminate|]. split; [intros _; split; [reflexivity | lia]|].
  constructor.
Qed.

Lemma seedEstimate_calibrated (rate : R) (r : Refs) :
  20 <= rate <= 300 ->
  isCalibrated (seedEstimate rate r) = true
  /\ estimatedFrameIntervalRef (seedEstimate rate r) = Some (1000 / rate).
Proof.
  intros [Hlo Hhi]. unfold seedEstimate.
  destruct (geb_reflect rate 20); [|lra].
  destruct (leb_reflect rate 300); [|lra].
  cbn [andb isCalibrated estimatedFrameIntervalRef]. split; reflexivity.
Qed.

(** X25.  Whatever happens after mounting (frames at any timestamps,
    restarts of the clock, a stored refresh rate), the estimate of the
    frame interval exists exactly when the component is calibrated and
    then lies strictly between 0 and 500 ms.  So the half-frame
    correction is 0 before calibration and strictly between 0 and
    250 ms afterwards, and a refresh rate is reported exactly for a
    calibrated component. *)
Theorem estimate_stays_plausible p steps :
  let r := fst (run p steps mounted) in
  0 <= halfFrameCorrection r < 250
  /\ (isCalibrated r = true ->
      exists e,
        estimatedFrameIntervalRef r = Some e /\ 0 < e < 500
        /\ halfFrameCorrection r = e * 0.5
        /\ measuredRefreshRate r = Some (Math_round (1000 / e)))
  /\ (isCalibrated r = false ->
      estimatedFrameIntervalRef r = None
      /\ halfFrameCorrection r = 0
      /\ measuredRefreshRate r = None
      /\ (List.length (frameIntervalsRef r) < CALIBRATION_FRAME_COUNT)%nat).
Proof.
  intro r.
  destruct (run_sound p steps mounted mounted_sound) as (Hcal & Hnot & _).
  fold r in Hcal, Hnot.
  assert (Hyes : isCalibrated r = true ->
                 exists e,
                   estimatedFrameIntervalRef r = Some e /\ 0 < e < 500
                   /\ halfFrameCorrection r = e * 0.5
                   /\ measuredRefreshRate r = Some (Math_round (1000 / e))).
  { intro Ec. destruct (Hcal Ec) as (e & He & Hrange).
    exists e. split; [exact He|]. split; [exact Hrange|].
    unfold halfFrameCorrection, measuredRefreshRate. rewrite He, Ec.
    unfold truthy. destruct (eqb_reflect e 0); [lra|].
    split; reflexivity. }
  assert (Hno : isCalibrated r = false ->
                estimatedFrameIntervalRef r = None
                /\ halfFrameCorrection r = 0
                /\ measuredRefreshRate r = None
                /\ (List.length (frameIntervalsRef r)
                    < CALIBRATION_FRAME_COUNT)%nat).
  { intro Ec. destruct (Hnot Ec) as [He Hlen].
    split; [exact He|].
    unfold halfFrameCorrection, measuredRefreshRate. rewrite He.
    split; [reflexivity|]. split; [reflexivity | exact Hlen]. }
  split; [|split; [exact Hyes | exact Hno]].
  destruct (isCalibrated r) eqn:Ec.
  - destruct (Hyes eq_refl) as (e & _ & Hrange & -> & _). lra.
  - destruct (Hno eq_refl) as (_ & -> & _). lra.
Qed.

Lemma estimate_stays_plausible_witness :
  let r := fst (run latchProps [Seed 60] mounted) in
  exists e,
    estimatedFrameIntervalRef r = Some e /\ 0 < e < 500
    /\ halfFrameCorrection r = e * 0.5
    /\ measuredRefreshRate r = Some (Math_round (1000 / e)).
Proof.
  intro r.
  apply (proj1 (proj2 (estimate_stays_plausible latchProps [Seed 60]))).
  unfold r. cbn [run step fst].
  exact (proj1 (seedEstimate_calibrated 60 mounted ltac:(lra))).
Defined.


Lemma feed_cons (d : R) (ds : list R) (r : Refs) :
  feed (d :: ds) r = feed ds (calibrate d r).
Proof. reflexivity. Qed.

Lemma calibrate_average (d e : R) (r : Refs) :
  isCalibrated r = true ->
  estimatedFrameIntervalRef r = Some e ->
  0 < d < 500 ->
  isCalibrated (calibrate d r) = true
  /\ estimatedFrameIntervalRef (calibrate d r)
     = Some (EMA_ALPHA * d + (1 - EMA_ALPHA) * e).
Proof.
  intros Hc He Hd. unfold calibrate.
  rewrite (proj2 (plausible_iff d) Hd), Hc, He. cbn [negb].
  cbn [isCalibrated estimatedFrameIntervalRef]. split; reflexivity.
Qed.

Lemma feed_average (d : R) (n : nat) :
  0 < d < 500 ->
  forall e r,
    isCalibrated r = true ->
    estimatedFrameIntervalRef r = Some e ->
    isCalibrated (feed (repeat d n) r) = true
    /\ estimatedFrameIntervalRef (feed (repeat d n) r)
       = Some (d + (1 - EMA_ALPHA) ^ n * (e - d)).
Proof.
  intro Hd. induction n as [|n IH]; intros e r Hc He.
  - cbn [repeat feed fold_left pow]. split; [exact Hc|].
    rewrite He. f_equal. ring.
  - cbn [repeat]. rewrite feed_cons.
    destruct (calibrate_average d e r Hc He Hd) as [Hc1 He1].
    destruct (IH _ _ Hc1 He1) as [Hc2 He2].
    split; [exact Hc2|]. rewrite He2. f_equal. cbn [pow]. ring.
Qed.

(** X26.  Once calibrated, every plausible frame delta moves the
    estimate one tenth of the way towards it: after [n] deltas equal
    to [d] the estimate is [d + 0.9^n * (e - d)], so it converges to
    the frame interval of a steady display and stays on it once
    there. *)
Theorem estimate_converges (d e : R) (n : nat) (r : Refs) :
  isCalibrated r = true ->
  estimatedFrameIntervalRef r = Some e ->
  0 < d < 500 ->
  estimatedFrameIntervalRef (feed (repeat d n) r)
  = Some (d + 0.9 ^ n * (e - d))
  /\ (e = d -> estimatedFrameIntervalRef (feed (repeat d n) r) = Some d).
Proof.
  intros Hc He Hd.
  destruct (feed_average d n Hd e r Hc He) as [_ H].
  unfold EMA_ALPHA in H.
  replace (1 - 0.1) with 0.9 in H by lra.
  split; [exact H|]. intros ->. rewrite H. f_equal. ring.
Qed.

Lemma estimate_converges_witness :
  estimatedFrameIntervalRef (feed (repeat 20 2) (seedEstimate 100 mounted))
  = Some (20 + 0.9 ^ 2 * (1000 / 100 - 20)).
Proof.
  destruct (seedEstimate_calibrated 100 mounted) as [Hc He]; [lra|].
  exact (proj1 (estimate_converges 20 (1000 / 100) 2
                  (seedEstimate 100 mounted) Hc He ltac:(lra))).
Defined.

Lemma Math_round_integer (n : Z) : Math_round (IZR n) = n.
Proof.
  unfold Math_round. apply Zfloor_eq. lra.
Qed.

Lemma measuredRefreshRate_of_interval (n : Z) (r : Refs) :
  (0 < n)%Z ->
  estimatedFrameIntervalRef r = Some (1000 / IZR n) ->
  measuredRefreshRate r = Some n.
Proof.
  intros Hn He. unfold measuredRefreshRate. rewrite He.
  assert (Hr : 0 < IZR n) by (apply (IZR_lt 0); exact Hn).
  assert (Hpos : 0 < 1000 / IZR n).
  { apply Rmult_lt_0_compat; [lra | apply Rinv_0_lt_compat, Hr]. }
  unfold truthy. destruct (eqb_reflect (1000 / IZR n) 0); [lra|].
  cbn [negb]. f_equal.
  replace (1000 / (1000 / IZR n)) with (IZR n) by (field; lra).
  apply Math_round_integer.
Qed.

Lemma median_of_equal (d : R) : median (repeat d 10) = d.
Proof.
  rewrite (median_of_ten (repeat d 10) (repeat d 10)).
  - cbn [repeat nth]. field.
  - reflexivity.
  - reflexivity.
  - cbn [repeat]. repeat constructor; lra.
Qed.

Lemma filter_plausible_repeat (d : R) (n : nat) :
  0 < d < 500 -> filter plausible (repeat d n) = repeat d n.
Proof.
  intro Hd. induction n as [|n IH]; [reflexivity|].
  cbn [repeat filter]. rewrite (proj2 (plausible_iff d) Hd), IH.
  reflexivity.
Qed.

Lemma feed_app (l1 l2 : list R) (r : Refs) :
  feed (l1 ++ l2) r = feed l2 (feed l1 r).
Proof. unfold feed. apply fold_left_app. Qed.

(** X27.  On a display that delivers a frame every [1000 / n] ms, for a
    whole number [n] of at least 3 frames per second, the refresh rate
    reported in the result data is exactly [n] from the tenth frame
    delta on; and a stored refresh rate [n] between 20 and 300 is
    reported as [n] from the start. *)
Theorem steady_display_is_measured (n : Z) :
  (3 <= n)%Z ->
  (forall k, (10 <= k)%nat ->
             measuredRefreshRate (feed (repeat (1000 / IZR n) k) mounted)
             = Some n)
  /\ ((20 <= n <= 300)%Z ->
      forall k,
        measuredRefreshRate
          (feed (repeat (1000 / IZR n) k) (seedEstimate (IZR n) mounted))
        = Some n).
Proof.
  intro Hn.
  assert (Hr : 3 <= IZR n) by (apply (IZR_le 3); exact Hn).
  assert (Hd : 0 < 1000 / IZR n < 500).
  { assert (0 < / IZR n) by (apply Rinv_0_lt_compat; lra).
    assert (IZR n * / IZR n = 1) by (apply Rinv_r; lra).
    unfold Rdiv. split; nra. }
  split.
  - intros k Hk.
    replace k with (10 + (k - 10))%nat by lia.
    rewrite repeat_app, feed_app.
    assert (Hten : feed (repeat (1000 / IZR n) 10) mounted
                   = calibratedOn (repeat (1000 / IZR n) 10) mounted).
    { rewrite (feed_reaches_ten (repeat (1000 / IZR n) 10) mounted).
      - rewrite filter_plausible_repeat by exact Hd. reflexivity.
      - reflexivity.
      - cbn. unfold CALIBRATION_FRAME_COUNT. lia.
      - rewrite filter_plausible_repeat by exact Hd.
        rewrite repeat_length. reflexivity. }
    rewrite Hten.
    apply measuredRefreshRate_of_interval; [lia|].
    destruct (feed_average (1000 / IZR n) (k - 10) Hd (1000 / IZR n)
                (calibratedOn (repeat (1000 / IZR n) 10) mounted))
      as [_ He].
    + reflexivity.
    + cbn [calibratedOn estimatedFrameIntervalRef].
      rewrite median_of_equal. reflexivity.
    + rewrite He. f_equal. ring.
  - intros Hrange k.
    assert (20 <= IZR n <= 300).
    { split; [apply (IZR_le 20) | apply (IZR_le n 300)]; lia. }
    destruct (seedEstimate_calibrated (IZR n) mounted) as [Hc Hs];
      [assumption|].
    destruct (feed_average (1000 / IZR n) k Hd (1000 / IZR n)
                (seedEstimate (IZR n) mounted) Hc Hs) as [_ He].
    apply measuredRefreshRate_of_interval; [lia|].
    rewrite He. f_equal. ring.
Qed.

Lemma steady_display_is_measured_witness :
  measuredRefreshRate (feed (repeat (1000 / IZR 60) 12) mounted) = Some 60%Z
  /\ measuredRefreshRate
       (feed (repeat (1000 / IZR 60) 3) (seedEstimate (IZR 60) mounted))
     = Some 60%Z.
Proof.
  destruct (steady_display_is_measured 60) as [Hmeasured Hseeded]; [lia|].
  split; [apply Hmeasured; lia | apply Hseeded; lia].
Defined.

(** ** The stimulus-hide edge and the frame counter *)

(** What one pass of the clock does to the two latches. *)
Lemma checkTrialTiming_latches p timestamp r :
  let out := checkTrialTiming p timestamp r in
  (In (setStimulusVisible false) (snd out) -> stimulusHiddenRef r = false)
  /\ (stimulusHiddenRef (fst out) = true
      <-> stimulusHiddenRef r = true
          \/ In (setStimulusVisible false) (snd out))
  /\ (0 < effectiveStimulusDuration p <= fixationTime p + duration p ->
      trialEndedRef (fst out) = true ->
      trialEndedRef r = true \/ stimulusHiddenRef (fst out) = true).
Proof.
  unfold checkTrialTiming, effectiveStimulusDuration.
  destruct (startTimeRef r) as [start|].
  2:{ cbn. split; [intros []|]. split; [|auto].
      split; [auto | intros [H|[]]; exact H]. }
  unfold hideStimulus, endTrial. cbv zeta.
  set (eff := fixationTime p + match stimulusDuration p with
                                | Some s => s
                                | None => duration p
                                end).
  set (c := correctedElapsed timestamp start r).
  destruct (gtb_reflect eff 0) as [He|He];
    destruct (stimulusHiddenRef r) eqn:Hh;
    destruct (geb_reflect c eff) as [Hc|Hc];
    cbn [andb negb fst snd trialEndedRef stimulusHiddenRef];
    destruct (gtb_reflect (duration p) 0) as [Hd|Hd];
    destruct (trialEndedRef r) eqn:Hl;
    destruct (geb_reflect c (fixationTime p + duration p)) as [Ht|Ht];
    cbn [andb negb fst snd trialEndedRef stimulusHiddenRef app In];
    rewrite ?Hh, ?Hl;
    (split; [|split; [split|]]);
    intros; intuition (try discriminate; try congruence; try lra).
Qed.

Lemma step_latches p s r :
  let out := step p s r in
  (In (setStimulusVisible false) (snd out) -> stimulusHiddenRef r = false)
  /\ (stimulusHiddenRef (fst out) = true
      <-> stimulusHiddenRef r = true
          \/ In (setStimulusVisible false) (snd out))
  /\ (0 < effectiveStimulusDuration p <= fixationTime p + duration p ->
      trialEndedRef (fst out) = true ->
      trialEndedRef r = true \/ stimulusHiddenRef (fst out) = true).
Proof.
  assert (Hsame : forall r' : Refs,
             stimulusHiddenRef r' = stimulusHiddenRef r ->
             trialEndedRef r' = trialEndedRef r ->
             (In (setStimulusVisible false) (@nil Effect) ->
              stimulusHiddenRef r = false)
             /\ (stimulusHiddenRef r' = true
                 <-> stimulusHiddenRef r = true
                     \/ In (setStimulusVisible false) (@nil Effect))
             /\ (0 < effectiveStimulusDuration p
                 <= fixationTime p + duration p ->
                 trialEndedRef r' = true ->
                 trialEndedRef r = true \/ stimulusHiddenRef r' = true)).
  { intros r' Hh Hl. rewrite Hh, Hl. split; [intros []|].
    split; [|auto]. split; [auto | intros [H|[]]; exact H]. }
  destruct s as [[|] timestamp | now | rate]; cbv zeta.
  - cbn [step animate fst snd]. apply Hsame; reflexivity.
  - cbn [step]. unfold animate.
    destruct (calibrate_keeps_clock (frameDeltaOf timestamp r)
                (countFrame timestamp r)) as (_ & Hl & Hh).
    cbn [countFrame trialEndedRef stimulusHiddenRef] in Hl, Hh.
    pose proof (checkTrialTiming_latches p timestamp
                  (calibrate (frameDeltaOf timestamp r)
                     (countFrame timestamp r))) as H.
    cbv zeta in H. rewrite Hl, Hh in H. exact H.
  - cbn [step fst snd]. apply Hsame; reflexivity.
  - cbn [step fst snd]. apply Hsame; unfold seedEstimate;
      destruct ((rate >=? 20) && (rate <=? 300)); reflexivity.
Qed.

Lemma hidesAt_nil p r k : ~ hidesAt p [] r k.
Proof. unfold hidesAt. rewrite effectsAt_nil. intros []. Qed.

Lemma hidesAt_head p s rest r :
  hidesAt p (s :: rest) r 0
  <-> In (setStimulusVisible false) (snd (step p s r)).
Proof. unfold hidesAt. rewrite effectsAt_head. reflexivity. Qed.

Lemma hidesAt_tail p s rest r k :
  hidesAt p (s :: rest) r (S k) <-> hidesAt p rest (fst (step p s r)) k.
Proof. unfold hidesAt. rewrite effectsAt_tail. reflexivity. Qed.

Lemma hidden_blocks p steps :
  forall r k, stimulusHiddenRef r = true -> ~ hidesAt p steps r k.
Proof.
  induction steps as [|s rest IH]; intros r k Hh.
  - apply hidesAt_nil.
  - destruct (step_latches p s r) as (Hfire & Hlatch & _).
    destruct k as [|k].
    + rewrite hidesAt_head. intro H. apply Hfire in H. congruence.
    + rewrite hidesAt_tail. apply IH. apply Hlatch. left. exact Hh.
Qed.

Lemma hides_once p steps :
  forall r j k, hidesAt p steps r j -> hidesAt p steps r k -> j = k.
Proof.
  induction steps as [|s rest IH]; intros r j k Hj Hk.
  - exfalso. exact (hidesAt_nil p r j Hj).
  - destruct (step_latches p s r) as (_ & Hlatch & _).
    destruct j as [|j]; destruct k as [|k]; [reflexivity | | |].
    + exfalso. rewrite hidesAt_head in Hj. rewrite hidesAt_tail in Hk.
      apply (hidden_blocks p rest _ k) in Hk; [exact Hk|].
      apply Hlatch. right. exact Hj.
    + exfalso. rewrite hidesAt_head in Hk. rewrite hidesAt_tail in Hj.
      apply (hidden_blocks p rest _ j) in Hj; [exact Hj|].
      apply Hlatch. right. exact Hk.
    + f_equal. rewrite hidesAt_tail in Hj, Hk. exact (IH _ _ _ Hj Hk).
Qed.

Lemma hidden_before_ended p steps :
  0 < effectiveStimulusDuration p <= fixationTime p + duration p ->
  forall r,
    (trialEndedRef r = true -> stimulusHiddenRef r = true) ->
    trialEndedRef (fst (run p steps r)) = true ->
    stimulusHiddenRef (fst (run p steps r)) = true.
Proof.
  intro Hp. induction steps as [|s rest IH]; intros r Hr.
  - exact Hr.
  - rewrite run_fst. apply IH.
    destruct (step_latches p s r) as (_ & Hlatch & Horder).
    intro Hended. destruct (Horder Hp Hended) as [Hl | Hh]; [|exact Hh].
    apply Hlatch. left. apply Hr, Hl.
Qed.

(** X28.  The stimulus-hide edge fires at most once in an execution and
    never when the stimulus is already marked hidden.  When the
    stimulus time is positive and not longer than the trial time, the
    trial is never marked ended by the clock without the stimulus
    being marked hidden. *)
Theorem stimulus_hide_edge p steps :
  (forall r j k, hidesAt p steps r j -> hidesAt p steps r k -> j = k)
  /\ (forall r k, stimulusHiddenRef r = true -> ~ hidesAt p steps r k)
  /\ (0 < effectiveStimulusDuration p <= fixationTime p + duration p ->
      trialEndedRef (fst (run p steps mounted)) = true ->
      stimulusHiddenRef (fst (run p steps mounted)) = true).
Proof.
  split; [apply hides_once|]. split; [apply hidden_blocks|].
  intros Hp. apply hidden_before_ended; [exact Hp|].
  cbn. discriminate.
Qed.

Lemma run_counts_frames p steps :
  forall r,
    frameCountRef (fst (run p steps r)) = (frameCountRef r + framesRun steps)%Z
    /\ (startTimeRef r = None ->
        (forall now, ~ In (Start now) steps) ->
        snd (run p steps r) = map (fun _ => []) steps).
Proof.
  induction steps as [|s rest IH]; intro r.
  - cbn. split; [lia | reflexivity].
  - rewrite run_fst.
    destruct (IH (fst (step p s r))) as [Hcount Hquiet].
    split.
    + rewrite Hcount.
      destruct s as [[|] timestamp | now | rate]; cbn [step framesRun fst].
      * unfold animate. cbn [fst]. lia.
      * unfold animate.
        destruct (checkTrialTiming_keeps_estimate p timestamp
                    (calibrate (frameDeltaOf timestamp r)
                       (countFrame timestamp r))) as (_ & _ & _ & ->).
        assert (Hc : forall d r0, frameCountRef (calibrate d r0)
                                  = frameCountRef r0).
        { intros d r0. unfold calibrate.
          destruct (plausible d); [|reflexivity].
          destruct (negb (isCalibrated r0)); [|reflexivity].
          destruct (CALIBRATION_FRAME_COUNT <=? _)%nat; reflexivity. }
        rewrite Hc. cbn [countFrame frameCountRef]. lia.
      * cbn [setStart frameCountRef]. lia.
      * unfold seedEstimate.
        destruct ((rate >=? 20) && (rate <=? 300)); cbn [frameCountRef]; lia.
    + intros Hstart Hno. cbn [run map].
      assert (Hs : snd (step p s r) = []
                   /\ startTimeRef (fst (step p s r)) = None).
      { destruct s as [[|] timestamp | now | rate]; cbn [step fst snd].
        - unfold animate. cbn [fst snd]. split; [reflexivity | exact Hstart].
        - unfold animate, checkTrialTiming.
          destruct (calibrate_keeps_clock (frameDeltaOf timestamp r)
                      (countFrame timestamp r)) as (Hst & _ & _).
          cbn [countFrame startTimeRef] in Hst.
          rewrite Hst, Hstart. cbn [fst snd].
          split; [reflexivity|]. rewrite Hst. exact Hstart.
        - exfalso. apply (Hno now). left. reflexivity.
        - split; [reflexivity|]. unfold seedEstimate.
          destruct ((rate >=? 20) && (rate <=? 300)); exact Hstart. }
      destruct Hs as [Heff Hst].
      specialize (Hquiet Hst (fun now H => Hno now (or_intror H))).
      destruct (step p s r) as [r1 effects]. cbn [fst snd] in *.
      destruct (run p rest r1) as [r2 later]. cbn [snd] in *.
      now rewrite Heff, Hquiet.
Qed.

(** X29.  The frame count reported in the result data is the number of
    calls of [animate] that ran (those not cut short by the ended
    trial): every such call counts, whatever its timestamp, during the
    fixation and after the stimulus is hidden as well.  And as long as
    the start time has not been stamped the clock emits nothing. *)
Theorem frames_are_counted p steps :
  framesDisplayed (fst (run p steps mounted)) = framesRun steps
  /\ ((forall now, ~ In (Start now) steps) ->
      snd (run p steps mounted) = map (fun _ => []) steps).
Proof.
  destruct (run_counts_frames p steps mounted) as [Hcount Hquiet].
  split.
  - unfold framesDisplayed. rewrite Hcount. cbn [mounted frameCountRef]. lia.
  - apply Hquiet. reflexivity.
Qed.

Lemma stimulus_hide_edge_witness :
  let steps := [Start 0; Frame false 2000] in
  trialEndedRef (fst (run latchProps steps mounted)) = true
  /\ stimulusHiddenRef (fst (run latchProps steps mounted)) = true.
Proof.
  intro steps.
  assert (Hended : trialEndedRef (fst (run latchProps steps mounted)) = true).
  { unfold steps. rewrite !run_fst. cbn [run fst step].
    fold latchStarted.
    apply (proj2 (step_edge latchProps (Frame false 2000) latchStarted)).
    right.
    apply (proj1 (step_edge latchProps (Frame false 2000) latchStarted)).
    split; [latch_refs; lra|]. split; [reflexivity|].
    exists 2000. split; [reflexivity|].
    apply (reached_quiet latchProps 2000 0); try reflexivity.
    - apply implausible_iff. left. latch_refs. lra.
    - latch_refs. lra. }
  split; [exact Hended|].
  refine (proj2 (proj2 (stimulus_hide_edge latchProps steps)) _ Hended).
  unfold effectiveStimulusDuration. latch_refs. lra.
Defined.

Lemma frames_are_counted_witness :
  let steps := [Seed 60; Frame false 0; Frame true 16; Frame false 700] in
  framesDisplayed (fst (run latchProps steps mounted)) = 2%Z
  /\ snd (run latchProps steps mounted) = [[]; []; []; []].
Proof.
  intro steps.
  destruct (frames_are_counted latchProps steps) as [Hcount Hquiet].
  split; [exact Hcount|].
  apply Hquiet. intros now [H|[H|[H|[H|[]]]]]; discriminate H.
Defined.

(** ** The trial list of the experiment *)

Lemma floor_quotient (a b : Z) :
  (0 < b)%Z -> Math_floor (IZR a / IZR b) = (a / b)%Z.
Proof.
  intro Hb. unfold Math_floor. apply Zfloor_eq.
  pose proof (Z.div_mod a b ltac:(lia)) as Hdiv.
  pose proof (Z.mod_pos_bound a b Hb) as [Hlo Hhi].
  assert (Hb' : 0 < IZR b) by (apply (IZR_lt 0); exact Hb).
  assert (Ha : IZR a = IZR b * IZR (a / b) + IZR (a mod b)).
  { rewrite <- mult_IZR, <- plus_IZR. f_equal. exact Hdiv. }
  assert (Hm0 : 0 <= IZR (a mod b)) by (apply (IZR_le 0); exact Hlo).
  assert (Hm1 : IZR (a mod b) < IZR b) by (apply IZR_lt; exact Hhi).
  assert (Hq : IZR a / IZR b = IZR (a / b) + IZR (a mod b) / IZR b).
  { rewrite Ha. field. lra. }
  assert (Hf : 0 <= IZR (a mod b) / IZR b < 1).
  { split.
    - apply Rmult_le_pos; [exact Hm0|]. apply Rlt_le, Rinv_0_lt_compat, Hb'.
    - apply (Rmult_lt_reg_r (IZR b)); [exact Hb'|].
      unfold Rdiv. rewrite Rmult_assoc, Rinv_l by lra. lra. }
  rewrite Hq. lra.
Qed.

Lemma filter_permutation {A} (f : A -> bool) (l l' : list A) :
  Permutation l l' -> Permutation (filter f l) (filter f l').
Proof.
  induction 1 as [|x l l' _ IH|x y l|l l' l'' _ IH1 _ IH2].
  - constructor.
  - cbn [filter]. destruct (f x); [constructor|]; exact IH.
  - cbn [filter]. destruct (f x); destruct (f y);
      try reflexivity. apply perm_swap.
  - etransitivity; eassumption.
Qed.

Lemma filter_repeat_all {A} (f : A -> bool) (a : A) (n : nat) :
  f a = true -> filter f (repeat a n) = repeat a n.
Proof.
  intro Ha. induction n as [|k IH]; [reflexivity|].
  cbn [repeat filter]. rewrite Ha. f_equal. exact IH.
Qed.

Lemma filter_repeat_none {A} (f : A -> bool) (a : A) (n : nat) :
  f a = false -> filter f (repeat a n) = [].
Proof.
  intro Ha. induction n as [|k IH]; [reflexivity|].
  cbn [repeat filter]. rewrite Ha. exact IH.
Qed.

Lemma towards_conditionsOf NTRIALS COHERENCES KEY_LEFT KEY_RIGHT coherence :
  let perDirection :=
    Z.to_nat (Math_floor
                (IZR (trialsPerCoherence NTRIALS COHERENCES) / 2)) in
  List.length (conditionsOf NTRIALS COHERENCES KEY_LEFT KEY_RIGHT coherence)
  = (2 * perDirection)%nat
  /\ List.length (towards 270 (conditionsOf NTRIALS COHERENCES KEY_LEFT
                                 KEY_RIGHT coherence)) = perDirection
  /\ List.length (towards 90 (conditionsOf NTRIALS COHERENCES KEY_LEFT
                                KEY_RIGHT coherence)) = perDirection
  /\ Forall (fun t =>
               Trial.coherence t = coherence
               /\ (Trial.direction t = 270
                   /\ Trial.correctResponse t = KEY_LEFT
                   \/ Trial.direction t = 90
                      /\ Trial.correctResponse t = KEY_RIGHT))
       (conditionsOf NTRIALS COHERENCES KEY_LEFT KEY_RIGHT coherence).
Proof.
  intro n. unfold conditionsOf. cbv zeta. fold n.
  cbn [flat_map fst snd]. rewrite app_nil_r.
  pose proof (fun t f => @filter_repeat_all Trial.t f t n) as Hall.
  pose proof (fun t f => @filter_repeat_none Trial.t f t n) as Hnone.
  split; [rewrite length_app, !repeat_length; lia|].
  unfold towards. rewrite !filter_app.
  split; [|split].
  - rewrite Hall, Hnone.
    + rewrite app_nil_r. apply repeat_length.
    + cbn [Trial.direction]. destruct (eqb_reflect 90 270); [lra|reflexivity].
    + cbn [Trial.direction]. destruct (eqb_reflect 270 270); [reflexivity|lra].
  - rewrite Hnone, Hall.
    + apply repeat_length.
    + cbn [Trial.direction]. destruct (eqb_reflect 90 90); [reflexivity|lra].
    + cbn [Trial.direction]. destruct (eqb_reflect 270 90); [lra|reflexivity].
  - apply Forall_app. split; apply Forall_forall; intros t Ht;
      apply repeat_spec in Ht; subst t;
      cbn [Trial.coherence Trial.direction Trial.correctResponse];
      (split; [reflexivity|]); [left | right]; split; reflexivity.
Qed.

Lemma towards_all NTRIALS COHERENCES KEY_LEFT KEY_RIGHT (levels : list R) :
  let perDirection :=
    Z.to_nat (Math_floor
                (IZR (trialsPerCoherence NTRIALS COHERENCES) / 2)) in
  let all := flat_map (conditionsOf NTRIALS COHERENCES KEY_LEFT KEY_RIGHT)
               levels in
  List.length all = (List.length levels * (2 * perDirection))%nat
  /\ List.length (towards 270 all)
     = (List.length levels * perDirection)%nat
  /\ List.length (towards 90 all) = (List.length levels * perDirection)%nat
  /\ Forall (fun t =>
               In (Trial.coherence t) levels
               /\ (Trial.direction t = 270
                   /\ Trial.correctResponse t = KEY_LEFT
                   \/ Trial.direction t = 90
                      /\ Trial.correctResponse t = KEY_RIGHT)) all.
Proof.
  intros n. cbv zeta. induction levels as [|c rest IH].
  - cbn. repeat split; constructor.
  - cbn [flat_map List.length].
    destruct (towards_conditionsOf NTRIALS COHERENCES KEY_LEFT KEY_RIGHT c)
      as (Hlen & Hleft & Hright & Hall).
    cbv zeta in Hlen, Hleft, Hright. fold n in Hlen, Hleft, Hright.
    destruct IH as (IHlen & IHleft & IHright & IHall).
    unfold towards in *. rewrite !filter_app, !length_app.
    rewrite Hlen, Hleft, Hright, IHlen, IHleft, IHright.
    split; [lia|]. split; [lia|]. split; [lia|].
    apply Forall_app. split.
    + eapply Forall_impl; [|exact Hall].
      intros t [Hc Hd]. split; [left; symmetry; exact Hc | exact Hd].
    + eapply Forall_impl; [|exact IHall].
      intros t [Hc Hd]. split; [right; exact Hc | exact Hd].
Qed.

(** X30.  For a shuffle that rearranges its argument and a non-empty
    list of coherence levels, the experiment shows
    [2 * floor(floor(NTRIALS / levels) / 2)] trials per level, half of
    them leftward and half rightward; every leftward trial (270
    degrees) expects the left key and every rightward trial (90
    degrees) the right key.  The total never exceeds [NTRIALS] and
    falls short of it whenever [NTRIALS] is not a multiple of twice
    the number of levels. *)
Theorem trialConditions_balanced
    (shuffle : forall A : Type, list A -> Rand (list A))
    NTRIALS COHERENCES KEY_LEFT KEY_RIGHT o :
  rearranges shuffle ->
  fair o ->
  COHERENCES <> [] ->
  (0 <= NTRIALS)%Z ->
  let levels := Z.of_nat (List.length COHERENCES) in
  let perDirection := (NTRIALS / levels / 2)%Z in
  let trials := fst (trialConditions shuffle NTRIALS COHERENCES KEY_LEFT
                       KEY_RIGHT o) in
  Z.of_nat (List.length trials) = (levels * (2 * perDirection))%Z
  /\ Z.of_nat (List.length (towards 270 trials)) = (levels * perDirection)%Z
  /\ Z.of_nat (List.length (towards 90 trials)) = (levels * perDirection)%Z
  /\ Forall (fun t =>
               In (Trial.coherence t) COHERENCES
               /\ (Trial.direction t = 270
                   /\ Trial.correctResponse t = KEY_LEFT
                   \/ Trial.direction t = 90
                      /\ Trial.correctResponse t = KEY_RIGHT)) trials
  /\ (Z.of_nat (List.length trials) <= NTRIALS)%Z
  /\ (Z.of_nat (List.length trials) = NTRIALS
      <-> (NTRIALS mod (2 * levels) = 0)%Z).
Proof.
  intros Hshuffle Ho Hne Hn levels perDirection trials.
  assert (Hlevels : (0 < levels)%Z).
  { unfold levels. destruct COHERENCES; [contradiction | cbn; lia]. }
  assert (Htpc : trialsPerCoherence NTRIALS COHERENCES
                 = (NTRIALS / levels)%Z).
  { unfold trialsPerCoherence. apply floor_quotient. exact Hlevels. }
  assert (Hper : Math_floor
                   (IZR (trialsPerCoherence NTRIALS COHERENCES) / 2)
                 = perDirection).
  { rewrite Htpc. apply (floor_quotient (NTRIALS / levels) 2). lia. }
  assert (Hpos : (0 <= perDirection)%Z).
  { unfold perDirection. apply Z.div_pos; [|lia].
    apply Z.div_pos; lia. }
  pose proof (Hshuffle _ (flat_map (conditionsOf NTRIALS COHERENCES KEY_LEFT
                                      KEY_RIGHT) COHERENCES) o Ho) as Hperm.
  fold (trialConditions shuffle NTRIALS COHERENCES KEY_LEFT KEY_RIGHT)
    in Hperm.
  fold trials in Hperm.
  destruct (towards_all NTRIALS COHERENCES KEY_LEFT KEY_RIGHT COHERENCES)
    as (Hlen & Hleft & Hright & Hall).
  cbv zeta in Hlen, Hleft, Hright, Hall. rewrite Hper in Hlen, Hleft, Hright.
  assert (Htotal : Z.of_nat (List.length trials)
                   = (levels * (2 * perDirection))%Z).
  { rewrite <- (Permutation_length Hperm), Hlen. unfold levels. lia. }
  split; [exact Htotal|].
  split.
  { unfold towards.
    rewrite <- (Permutation_length (filter_permutation _ _ _ Hperm)).
    unfold towards in Hleft. rewrite Hleft. unfold levels. lia. }
  split.
  { unfold towards.
    rewrite <- (Permutation_length (filter_permutation _ _ _ Hperm)).
    unfold towards in Hright. rewrite Hright. unfold levels. lia. }
  split; [eapply Permutation_Forall; eassumption|].
  rewrite Htotal. unfold perDirection.
  pose proof (Z.div_mod NTRIALS levels ltac:(lia)) as H1.
  pose proof (Z.mod_pos_bound NTRIALS levels Hlevels) as B1.
  pose proof (Z.div_mod (NTRIALS / levels) 2 ltac:(lia)) as H2.
  pose proof (Z.mod_pos_bound (NTRIALS / levels) 2 ltac:(lia)) as B2.
  split; [nia|].
  split.
  - intro Heq.
    apply Z.mod_divide; [lia|].
    exists (NTRIALS / levels / 2)%Z. lia.
  - intro Hmod.
    apply Z.mod_divide in Hmod; [|lia].
    destruct Hmod as [k Hk].
    assert (Hq : (NTRIALS / levels = 2 * k)%Z).
    { rewrite Hk.
      replace (k * (2 * levels))%Z with (2 * k * levels)%Z by ring.
      apply Z.div_mul. lia. }
    rewrite Hq.
    replace (2 * k)%Z with (k * 2)%Z by ring.
    rewrite Z.div_mul by lia. lia.
Qed.

Lemma trialConditions_balanced_witness :
  let trials := fst (trialConditions fisherYates 49
                       [0.05; 0.15; 0.25; 0.35; 0.5]
                       "arrowleft" "arrowright" halves) in
  Z.of_nat (List.length trials) = 40%Z
  /\ Z.of_nat (List.length (towards 270 trials)) = 20%Z
  /\ Z.of_nat (List.length (towards 90 trials)) = 20%Z.
Proof.
  intro trials.
  destruct (trialConditions_balanced fisherYates 49
              [0.05; 0.15; 0.25; 0.35; 0.5] "arrowleft" "arrowright" halves
              fisherYates_rearranges fair_halves)
    as (Htotal & Hleft & Hright & _).
  - discriminate.
  - lia.
  - fold trials in Htotal, Hleft, Hright.
    split; [exact Htotal|]. split; [exact Hleft | exact Hright].
Defined.
